(** * A shallow embedding of the BMP image-processing library

    The C sources ([bmp8.c], [bmp24.c], [histogram.c] and their headers) are
    modelled as pure Rocq functions:

    - bytes are [Byte.byte]; C integers are [Z] with every wrap-around written
      out (module [CInt]);
    - [float] and [double] arithmetic is IEEE 754 binary32 / binary64 with
      round-to-nearest-even, taken from [SpecFloat] (modules [F32], [F64]);
    - a [FILE] is its byte contents plus a cursor, threaded explicitly;
    - in-place mutation of an image becomes a function returning the new image;
    - memory that C leaves uninitialised ([malloc], automatic variables) gets
      its contents from an explicit [Indeterminate] argument.

    Part I holds the definitions, Part II the theorems. *)

From Stdlib Require Import ZArith List Bool Lia Arith.
From Stdlib Require Import Strings.Byte.
From Stdlib Require Import Floats.SpecFloat.
Import ListNotations.
Local Open Scope Z_scope.

(* ================================================================= *)
(** * Part I: definitions                                             *)
(* ================================================================= *)

(** ** C integer types *)

Module CInt.
Definition u8 (z : Z) : Z := z mod 256.
Definition u16 (z : Z) : Z := z mod 65536.
Definition u32 (z : Z) : Z := z mod 4294967296.
Definition u64 (z : Z) : Z := z mod 18446744073709551616.

Definition INT_MIN : Z := -2147483648.
Definition INT_MAX : Z := 2147483647.

(** Conversion to [int] / [int32_t] (two's complement). *)
Definition s32 (z : Z) : Z :=
  let r := u32 z in if r <? 2147483648 then r else r - 4294967296.

(** [abs] from <stdlib.h>; [abs(INT_MIN)] wraps back to [INT_MIN]. *)
Definition abs (z : Z) : Z := s32 (Z.abs z).
End CInt.

(** ** Bytes *)

Definition byte_val (b : byte) : Z := Z.of_N (Byte.to_N b).

(** Conversion of an integer to [unsigned char]: reduction modulo 256. *)
Definition byte_of (z : Z) : byte :=
  match Byte.of_N (Z.to_N (z mod 256)) with
  | Some b => b
  | None => x00
  end.

(** Little-endian integers, as the target machine lays them out. *)
Fixpoint le_decode (bs : list byte) : Z :=
  match bs with
  | [] => 0
  | b :: rest => byte_val b + 256 * le_decode rest
  end.

Fixpoint le_encode (n : nat) (z : Z) : list byte :=
  match n with
  | O => []
  | S k => byte_of z :: le_encode k (z / 256)
  end.

(** The [len]-byte unsigned field at offset [off] of a raw block. *)
Definition field (off len : nat) (block : list byte) : Z :=
  le_decode (firstn len (skipn off block)).

(** ** Arrays and loops *)

Definition get {A} (d : A) (i : Z) (l : list A) : A :=
  if i <? 0 then d else nth (Z.to_nat i) l d.

Fixpoint upd_nat {A} (n : nat) (v : A) (l : list A) : list A :=
  match l, n with
  | [], _ => []
  | _ :: t, O => v :: t
  | h :: t, S k => h :: upd_nat k v t
  end.

(** [a[i] = v].  An index outside the array is undefined behaviour in C; the
    model leaves the array as it is there, and the theorems below that depend
    on it assume the buffer-size invariants that keep every index in bounds. *)
Definition upd {A} (i : Z) (v : A) (l : list A) : list A :=
  if i <? 0 then l else upd_nat (Z.to_nat i) v l.

(** [n] iterations of [body], the loop variable starting at [i] and going up. *)
Fixpoint iterate {S} (n : nat) (i : Z) (body : Z -> S -> S) (s : S) : S :=
  match n with
  | O => s
  | Datatypes.S k => iterate k (i + 1) body (body i s)
  end.

(** [for (i = lo; i < hi; ++i) body]. *)
Definition for_range {S} (lo hi : Z) (body : Z -> S -> S) (s : S) : S :=
  iterate (Z.to_nat (hi - lo)) lo body s.

(** ** Files *)

Record FILE := mkFILE { bytes : list byte; cursor : nat }.

(** [fopen(name, "rb")] on an existing file with the given contents, and
    [fopen(name, "wb")], which truncates.  Opening is assumed to succeed. *)
Definition fopen_rb (contents : list byte) : FILE := mkFILE contents 0.
Definition fopen_wb : FILE := mkFILE [] 0.

Definition fseek (f : FILE) (position : Z) : FILE :=
  mkFILE (bytes f) (Z.to_nat position).

(** [fread] of up to [n] bytes: the bytes obtained (fewer than [n] at end of
    file) and the advanced stream. *)
Definition fread (n : nat) (f : FILE) : list byte * FILE :=
  let got := firstn n (skipn (cursor f) (bytes f)) in
  (got, mkFILE (bytes f) (cursor f + length got)).

(** [fwrite]: overwrite at the cursor, growing the file; a gap left by a seek
    past the end reads as zero bytes.  Writes are assumed not to fall short. *)
Definition fwrite (buf : list byte) (f : FILE) : FILE :=
  let old := bytes f in
  let before := firstn (cursor f) old ++ repeat x00 (cursor f - length old) in
  mkFILE (before ++ buf ++ skipn (cursor f + length buf) old)
         (cursor f + length buf).

(** [file_rawRead]: seek, then read [n] elements of [size] bytes into
    [buffer].  A short read is reported on stderr only: the function returns
    normally and the tail of [buffer] keeps its previous contents. *)
Definition file_rawRead (position : Z) (buffer : list byte) (size n : nat)
    (file : FILE) : list byte * FILE :=
  let '(got, file') := fread (size * n) (fseek file position) in
  (got ++ skipn (length got) buffer, file').

(** [file_rawWrite]: seek, then write. *)
Definition file_rawWrite (position : Z) (buffer : list byte) (file : FILE)
    : FILE :=
  fwrite buffer (fseek file position).

(** ** The 8-bit codec ([bmp8.c]) *)

Record t_bmp8 := mk_bmp8 {
  header8 : list byte;      (* unsigned char header[54] *)
  colorTable : list byte;   (* unsigned char colorTable[1024] *)
  data8 : list byte;        (* unsigned char *data *)
  width8 : Z;               (* unsigned int *)
  height8 : Z;
  colorDepth8 : Z;
  dataSize : Z
}.

Definition bmp8_loadImage (contents : list byte) : option t_bmp8 :=
  let file := fopen_rb contents in
  let '(hdr, file) := fread 54 file in
  if (length hdr <? 54)%nat then None else
  if negb (Byte.eqb (nth 0 hdr x00) "B"%byte)
     || negb (Byte.eqb (nth 1 hdr x00) "M"%byte) then None else
  let width := field 18 4 hdr in
  let height := field 22 4 hdr in
  let colorDepth := field 28 2 hdr in
  let dataSize0 := field 34 4 hdr in
  let dataOffset := field 10 4 hdr in
  if negb (colorDepth =? 8) then None else
  let '(table, file) := fread 1024 file in
  if (length table <? 1024)%nat then None else
  let dataSize := if dataSize0 =? 0 then CInt.u32 (width * height)
                  else dataSize0 in
  let file := fseek file dataOffset in
  let '(pixels, file) := fread (Z.to_nat dataSize) file in
  if (length pixels <? Z.to_nat dataSize)%nat then None else
  Some (mk_bmp8 hdr table pixels width height colorDepth dataSize).

Definition bmp8_saveImage (img : t_bmp8) : list byte :=
  let file := fopen_wb in
  let file := fwrite (firstn 54 (header8 img)) file in
  let file := fwrite (firstn 1024 (colorTable img)) file in
  let file := fwrite (firstn (Z.to_nat (dataSize img)) (data8 img)) file in
  bytes file.

Definition with_data8 (img : t_bmp8) (d : list byte) : t_bmp8 :=
  mk_bmp8 (header8 img) (colorTable img) d
          (width8 img) (height8 img) (colorDepth8 img) (dataSize img).

Definition bmp8_negative (img : t_bmp8) : t_bmp8 :=
  with_data8 img
    (for_range 0 (dataSize img)
       (fun i d => upd i (byte_of (255 - byte_val (get x00 i d))) d)
       (data8 img)).

Definition bmp8_brightness (img : t_bmp8) (value : Z) : t_bmp8 :=
  with_data8 img
    (for_range 0 (dataSize img)
       (fun i d =>
          let newValue := CInt.s32 (byte_val (get x00 i d) + value) in
          if newValue <? 0 then upd i (byte_of 0) d
          else if newValue >? 255 then upd i (byte_of 255) d
          else upd i (byte_of newValue) d)
       (data8 img)).

Definition bmp8_threshold (img : t_bmp8) (threshold : Z) : t_bmp8 :=
  let threshold :=
    if (threshold <? 0) || (threshold >? 255)
    then (if threshold <? 0 then 0 else 255) else threshold in
  let threshold_val := byte_val (byte_of threshold) in
  with_data8 img
    (for_range 0 (dataSize img)
       (fun i d =>
          upd i (byte_of (if byte_val (get x00 i d) >=? threshold_val
                          then 255 else 0)) d)
       (data8 img)).

(** ** Floating point

    [float] is IEEE 754 binary32 and [double] binary64, every operation
    rounded to nearest-even and evaluated in its own format (SSE code
    generation, no contraction into fused multiply-add). *)

Module FloatModel.
Section Format.
Variables prec emax : Z.

(** Conversion of an integer to the format. *)
Definition of_Z (z : Z) : spec_float := binary_normalize prec emax z 0 false.
Definition add := SFadd prec emax.
Definition sub := SFsub prec emax.
Definition mul := SFmul prec emax.
Definition div := SFdiv prec emax.
(** The decimal literal [n/d] for integers exactly representable in the
    format: correctly rounded division yields the nearest float. *)
Definition dec (n d : Z) : spec_float := div (of_Z n) (of_Z d).
End Format.

Definition leb := SFleb.
Definition ltb := SFltb.

(** Integer part, discarding the fraction (C conversion to an integer
    type rounds toward zero); [None] for infinities and NaN. *)
Definition trunc (x : spec_float) : option Z :=
  match x with
  | S754_zero _ => Some 0
  | S754_finite s m e =>
      let a := if 0 <=? e then Zpos m * 2 ^ e else Zpos m / 2 ^ (- e) in
      Some (if s then - a else a)
  | _ => None
  end.

(** [round] / [roundf]: nearest integer, halfway cases away from zero. *)
Definition round_away (x : spec_float) : option Z :=
  match x with
  | S754_zero _ => Some 0
  | S754_finite s m e =>
      let a := if 0 <=? e then Zpos m * 2 ^ e
               else (Zpos m + 2 ^ (- e - 1)) / 2 ^ (- e) in
      Some (if s then - a else a)
  | _ => None
  end.

(** Conversions to integer types.  ISO C leaves them undefined when the
    value does not fit; the model follows x86-64 code generation, where
    [cvttss2si]/[cvttsd2si] deliver the "integer indefinite" value (the
    most negative integer) for NaN and out-of-range operands. *)
Definition to_int (z : option Z) : Z :=
  match z with
  | Some v => if (CInt.INT_MIN <=? v) && (v <=? CInt.INT_MAX) then v
              else CInt.INT_MIN
  | None => CInt.INT_MIN
  end.

(** Conversion to [unsigned int]: a 64-bit signed conversion of which the
    low 32 bits are kept. *)
Definition to_uint (z : option Z) : Z :=
  match z with
  | Some v =>
      if (- 9223372036854775808 <=? v) && (v <? 9223372036854775808)
      then CInt.u32 v else 0
  | None => 0
  end.
End FloatModel.

Module F32.
Definition prec : Z := 24.
Definition emax : Z := 128.
Definition of_Z := FloatModel.of_Z prec emax.
Definition add := FloatModel.add prec emax.
Definition sub := FloatModel.sub prec emax.
Definition mul := FloatModel.mul prec emax.
Definition div := FloatModel.div prec emax.
Definition dec := FloatModel.dec prec emax.
Definition zero : spec_float := S754_zero false.
Definition half : spec_float := dec 1 2.
End F32.

Module F64.
Definition prec : Z := 53.
Definition emax : Z := 1024.
Definition of_Z := FloatModel.of_Z prec emax.
Definition add := FloatModel.add prec emax.
Definition sub := FloatModel.sub prec emax.
Definition mul := FloatModel.mul prec emax.
Definition div := FloatModel.div prec emax.
Definition zero : spec_float := S754_zero false.
End F64.

(** ** The 24-bit codec ([bmp24.h], [bmp24.c]) *)

Record t_bmp_header := mk_header {
  hdr_type : Z;        (* uint16_t type *)
  hdr_size : Z;        (* uint32_t size *)
  hdr_reserved1 : Z;   (* uint16_t *)
  hdr_reserved2 : Z;   (* uint16_t *)
  hdr_offset : Z       (* uint32_t offset *)
}.

Record t_bmp_info := mk_info {
  info_size : Z;            (* uint32_t size *)
  info_width : Z;           (* int32_t *)
  info_height : Z;          (* int32_t *)
  info_planes : Z;          (* uint16_t *)
  info_bits : Z;            (* uint16_t *)
  info_compression : Z;     (* uint32_t *)
  info_imagesize : Z;       (* uint32_t *)
  info_xresolution : Z;     (* int32_t *)
  info_yresolution : Z;     (* int32_t *)
  info_ncolors : Z;         (* uint32_t *)
  info_importantcolors : Z  (* uint32_t *)
}.

Record t_pixel := mk_pixel { blue : byte; green : byte; red : byte }.

Record t_bmp24 := mk_bmp24 {
  header : t_bmp_header;
  header_info : t_bmp_info;
  width : Z;                 (* int *)
  height : Z;                (* int *)
  colorDepth : Z;            (* int *)
  data : list (list t_pixel) (* t_pixel **data, indexed [row][column] *)
}.

Definition BMP_TYPE : Z := 19778.          (* 0x4D42 *)
Definition BMP_HEADER_SIZE : Z := 14.      (* sizeof(t_bmp_header), packed *)
Definition BMP_INFO_SIZE : Z := 40.        (* sizeof(t_bmp_info), packed *)
Definition DEFAULT_COLOR_DEPTH : Z := 24.
Definition sizeof_t_pixel : Z := 3.

(** The packed structs as they lie in memory and in the file. *)
Definition encode_header (h : t_bmp_header) : list byte :=
  le_encode 2 (hdr_type h) ++ le_encode 4 (hdr_size h)
  ++ le_encode 2 (hdr_reserved1 h) ++ le_encode 2 (hdr_reserved2 h)
  ++ le_encode 4 (hdr_offset h).

Definition decode_header (b : list byte) : t_bmp_header :=
  mk_header (field 0 2 b) (field 2 4 b) (field 6 2 b) (field 8 2 b)
            (field 10 4 b).

Definition encode_info (i : t_bmp_info) : list byte :=
  le_encode 4 (info_size i) ++ le_encode 4 (info_width i)
  ++ le_encode 4 (info_height i) ++ le_encode 2 (info_planes i)
  ++ le_encode 2 (info_bits i) ++ le_encode 4 (info_compression i)
  ++ le_encode 4 (info_imagesize i) ++ le_encode 4 (info_xresolution i)
  ++ le_encode 4 (info_yresolution i) ++ le_encode 4 (info_ncolors i)
  ++ le_encode 4 (info_importantcolors i).

Definition decode_info (b : list byte) : t_bmp_info :=
  mk_info (field 0 4 b) (CInt.s32 (field 4 4 b)) (CInt.s32 (field 8 4 b))
          (field 12 2 b) (field 14 2 b) (field 16 4 b) (field 20 4 b)
          (CInt.s32 (field 24 4 b)) (CInt.s32 (field 28 4 b))
          (field 32 4 b) (field 36 4 b).

(** Contents of memory the program reads before writing it: the automatic
    header variables of [bmp24_loadImage] and the block [malloc] returns. *)
Record Indeterminate := mk_indeterminate {
  stack_header : list byte;
  stack_info : list byte;
  heap_pixel : Z -> Z -> t_pixel
}.

Definition range (n : Z) : list Z := map Z.of_nat (seq 0 (Z.to_nat n)).

(** Allocation requests are assumed to be granted; the [memset] that would
    clear the block is commented out in the source, so the pixels hold
    whatever the allocator left there.  The source sizes the pixel block
    with the [int] product [width * height]; the grid below is the block
    for dimensions whose product fits [int], and the statements about
    [bmp24_allocate] and about which files [bmp24_loadImage] accepts carry
    that bound. *)
Definition bmp24_allocateDataPixels (junk : Indeterminate) (width height : Z)
    : option (list (list t_pixel)) :=
  if (width <=? 0) || (height <=? 0) then None
  else Some (map (fun y => map (fun x => heap_pixel junk y x) (range width))
                 (range height)).

(** [((width * sizeof(t_pixel) * 8 + 31) / 32) * 4], computed in [size_t]
    and stored into a [uint32_t]. *)
Definition row_size_of (width : Z) : Z :=
  CInt.u32 (CInt.u64 (CInt.u64 (CInt.u64 (CInt.u64 (CInt.u64 width
     * sizeof_t_pixel) * 8) + 31) / 32 * 4)).

Definition bmp24_allocate (junk : Indeterminate) (width height : Z)
    : option t_bmp24 :=
  match bmp24_allocateDataPixels junk width height with
  | None => None
  | Some pixels =>
      let offset := CInt.u32 (BMP_HEADER_SIZE + BMP_INFO_SIZE) in
      let row_size := row_size_of width in
      let imagesize := CInt.u32 (row_size * CInt.u32 (CInt.abs height)) in
      Some (mk_bmp24
              (mk_header BMP_TYPE (CInt.u32 (offset + imagesize)) 0 0 offset)
              (mk_info (CInt.u32 BMP_INFO_SIZE) width height 1
                       DEFAULT_COLOR_DEPTH 0 imagesize 0 0 0 0)
              width height DEFAULT_COLOR_DEPTH pixels)
  end.

Fixpoint row_pixels (bs : list byte) : list t_pixel :=
  match bs with
  | b :: g :: r :: rest => mk_pixel b g r :: row_pixels rest
  | _ => []
  end.

Definition row_bytes (row : list t_pixel) : list byte :=
  flat_map (fun p => [blue p; green p; red p]) row.

(** [memcpy(dst, src, n)] on arrays: the first elements of [dst] are
    replaced by [src]. *)
Definition overwrite {A} (src dst : list A) : list A :=
  src ++ skipn (length src) dst.

(** The row loop of [bmp24_readPixelData]: [k] rows remain, the next one goes
    to row [k-1].  A short read ends the loop, leaving the rows not yet
    reached as they were. *)
Fixpoint read_rows (k : nat) (padded unpadded : nat) (file : FILE)
    (rows : list (list t_pixel)) : list (list t_pixel) * FILE :=
  match k with
  | O => (rows, file)
  | S y =>
      let '(row_buffer, file') := fread padded file in
      if (length row_buffer <? padded)%nat then (rows, file')
      else
        let row := overwrite (row_pixels (firstn unpadded row_buffer))
                             (get [] (Z.of_nat y) rows) in
        read_rows y padded unpadded file' (upd (Z.of_nat y) row rows)
  end.

Definition with_data (img : t_bmp24) (d : list (list t_pixel)) : t_bmp24 :=
  mk_bmp24 (header img) (header_info img) (width img) (height img)
           (colorDepth img) d.

(** [bmp24_readPixelData] returns [void]: the caller gets the image back
    whether or not every row could be read. *)
Definition bmp24_readPixelData (image : t_bmp24) (file : FILE)
    : t_bmp24 * FILE :=
  let offset := hdr_offset (header image) in
  let bytes_per_pixel := info_bits (header_info image) / 8 in
  let bytes_per_pixel := if negb (bytes_per_pixel =? 3) then 3
                         else bytes_per_pixel in
  let row_size_unpadded := CInt.u32 (CInt.s32 (width image * bytes_per_pixel)) in
  let padding := CInt.u32 (CInt.u32 (4 - row_size_unpadded mod 4) mod 4) in
  let row_size_padded := CInt.u32 (row_size_unpadded + padding) in
  let file := fseek file offset in
  let '(rows, file) :=
    read_rows (Z.to_nat (height image)) (Z.to_nat row_size_padded)
              (Z.to_nat row_size_unpadded) file (data image) in
  (with_data image rows, file).

(** The row loop of [bmp24_writePixelData]; [row_buffer] comes from
    [calloc], so the padding bytes behind each row are zero. *)
Fixpoint write_rows (k : nat) (unpadded : nat) (row_buffer : list byte)
    (rows : list (list t_pixel)) (file : FILE) : FILE :=
  match k with
  | O => file
  | S y =>
      let row_buffer :=
        overwrite (firstn unpadded (row_bytes (get [] (Z.of_nat y) rows)))
                  row_buffer in
      write_rows y unpadded row_buffer rows (fwrite row_buffer file)
  end.

Definition bmp24_writePixelData (image : t_bmp24) (file : FILE) : FILE :=
  let offset := hdr_offset (header image) in
  let bytes_per_pixel := 3 in
  let row_size_unpadded := CInt.u32 (CInt.s32 (width image * bytes_per_pixel)) in
  let padding := CInt.u32 (CInt.u32 (4 - row_size_unpadded mod 4) mod 4) in
  let row_size_padded := CInt.u32 (row_size_unpadded + padding) in
  let file := fseek file offset in
  let row_buffer := repeat x00 (Z.to_nat row_size_padded) in
  write_rows (Z.to_nat (height image)) (Z.to_nat row_size_unpadded)
             row_buffer (data image) file.

Definition bmp24_loadImage (junk : Indeterminate) (contents : list byte)
    : option t_bmp24 :=
  let file := fopen_rb contents in
  let '(hb, file) := file_rawRead 0 (stack_header junk) 14 1 file in
  let file_header := decode_header hb in
  if negb (hdr_type file_header =? BMP_TYPE) then None else
  let '(ib, file) := file_rawRead BMP_HEADER_SIZE (stack_info junk) 40 1 file in
  let file_info := decode_info ib in
  if negb (info_bits file_info =? DEFAULT_COLOR_DEPTH) then None else
  if negb (info_compression file_info =? 0) then None else
  let width := info_width file_info in
  let height := CInt.abs (info_height file_info) in
  if (width <=? 0) || (height <=? 0) then None else
  match bmp24_allocate junk width height with
  | None => None
  | Some img =>
      let img := mk_bmp24 file_header file_info width height
                          (info_bits file_info) (data img) in
      let '(img, file) := bmp24_readPixelData img file in
      Some img
  end.

(** [bmp24_saveImage] rewrites the header fields of [img] before writing;
    the result is the updated image together with the file produced. *)
Definition bmp24_saveImage (img : t_bmp24) : t_bmp24 * list byte :=
  let file := fopen_wb in
  let row_size := row_size_of (width img) in
  let imagesize := CInt.u32 (row_size * CInt.u32 (CInt.abs (height img))) in
  let offset := CInt.u32 (BMP_HEADER_SIZE + BMP_INFO_SIZE) in
  let img :=
    mk_bmp24
      (mk_header BMP_TYPE (CInt.u32 (offset + imagesize)) 0 0 offset)
      (mk_info (CInt.u32 BMP_INFO_SIZE) (width img) (height img) 1
               DEFAULT_COLOR_DEPTH 0 imagesize 0 0 0 0)
      (width img) (height img) (colorDepth img) (data img) in
  let file := file_rawWrite 0 (encode_header (header img)) file in
  let file := file_rawWrite BMP_HEADER_SIZE (encode_info (header_info img)) file in
  let file := bmp24_writePixelData img file in
  (img, bytes file).

(** ** Point operations and convolution on 24-bit images ([bmp24.c]) *)

Definition clamp_u8 (value : Z) : Z :=
  if value <? 0 then 0 else if value >? 255 then 255 else CInt.u8 value.

Definition black : t_pixel := mk_pixel x00 x00 x00.

Definition get_px (y x : Z) (d : list (list t_pixel)) : t_pixel :=
  get black x (get [] y d).

Definition set_px (y x : Z) (p : t_pixel) (d : list (list t_pixel))
    : list (list t_pixel) :=
  upd y (upd x p (get [] y d)) d.

(** The common shape of the point operations:
    [for y < height, for x < width: data[y][x] = f(data[y][x])]. *)
Definition map_pixels24 (f : t_pixel -> t_pixel) (img : t_bmp24) : t_bmp24 :=
  with_data img
    (for_range 0 (height img)
       (fun y d =>
          for_range 0 (width img)
            (fun x d => set_px y x (f (get_px y x d)) d) d)
       (data img)).

Definition negative_pixel (p : t_pixel) : t_pixel :=
  mk_pixel (byte_of (255 - byte_val (blue p)))
           (byte_of (255 - byte_val (green p)))
           (byte_of (255 - byte_val (red p))).

Definition bmp24_negative (img : t_bmp24) : t_bmp24 :=
  map_pixels24 negative_pixel img.

Definition grayscale_pixel (p : t_pixel) : t_pixel :=
  let gray_f :=
    F32.add (F32.add (F32.mul (F32.dec 299 1000) (F32.of_Z (byte_val (red p))))
                     (F32.mul (F32.dec 587 1000) (F32.of_Z (byte_val (green p)))))
            (F32.mul (F32.dec 114 1000) (F32.of_Z (byte_val (blue p)))) in
  let gray :=
    clamp_u8 (FloatModel.to_int (FloatModel.trunc (F32.add gray_f F32.half))) in
  mk_pixel (byte_of gray) (byte_of gray) (byte_of gray).

Definition bmp24_grayscale (img : t_bmp24) : t_bmp24 :=
  map_pixels24 grayscale_pixel img.

Definition brightness_pixel (value : Z) (p : t_pixel) : t_pixel :=
  mk_pixel (byte_of (clamp_u8 (CInt.s32 (byte_val (blue p) + value))))
           (byte_of (clamp_u8 (CInt.s32 (byte_val (green p) + value))))
           (byte_of (clamp_u8 (CInt.s32 (byte_val (red p) + value)))).

Definition bmp24_brightness (img : t_bmp24) (value : Z) : t_bmp24 :=
  map_pixels24 (brightness_pixel value) img.

(** A kernel is a [float **]: rows of weights. *)
Definition kernel_t := list (list spec_float).

Definition kernel_at (kernel : kernel_t) (i j : Z) : spec_float :=
  get F32.zero j (get [] i kernel).

(** The edge-clamped coordinates of the neighbour at offset [(ky, kx)] of
    [(x, y)], as [(clamped_ny, clamped_nx)]. *)
Definition clamped_neighbor (img : t_bmp24) (x y ky kx : Z) : Z * Z :=
  let ny := y + ky in
  let nx := x + kx in
  let clamped_nx := nx in
  let clamped_ny := ny in
  let clamped_nx := if clamped_nx <? 0 then 0 else clamped_nx in
  let clamped_nx := if clamped_nx >=? width img then width img - 1
                    else clamped_nx in
  let clamped_ny := if clamped_ny <? 0 then 0 else clamped_ny in
  let clamped_ny := if clamped_ny >=? height img then height img - 1
                    else clamped_ny in
  (clamped_ny, clamped_nx).

Definition bmp24_convolution (img : t_bmp24) (x y : Z) (kernel : kernel_t)
    (kernelSize : Z) (original_data : list (list t_pixel)) : t_pixel :=
  let kernelRadius := Z.quot kernelSize 2 in
  let '(sum_r, sum_g, sum_b) :=
    for_range (- kernelRadius) (kernelRadius + 1)
      (fun ky sums =>
         for_range (- kernelRadius) (kernelRadius + 1)
           (fun kx '(sum_r, sum_g, sum_b) =>
              let k := kernel_at kernel (ky + kernelRadius) (kx + kernelRadius) in
              let '(cny, cnx) := clamped_neighbor img x y ky kx in
              let neighbor_pixel := get_px cny cnx original_data in
              (F32.add sum_r (F32.mul (F32.of_Z (byte_val (red neighbor_pixel))) k),
               F32.add sum_g (F32.mul (F32.of_Z (byte_val (green neighbor_pixel))) k),
               F32.add sum_b (F32.mul (F32.of_Z (byte_val (blue neighbor_pixel))) k)))
           sums)
      (F32.zero, F32.zero, F32.zero) in
  let channel s :=
    byte_of (clamp_u8 (FloatModel.to_int (FloatModel.trunc (F32.add s F32.half)))) in
  mk_pixel (channel sum_b) (channel sum_g) (channel sum_r).

Definition bmp24_applyFilter (img : t_bmp24) (kernel : kernel_t)
    (kernelSize : Z) : t_bmp24 :=
  if (kernelSize <=? 0) || (Z.rem kernelSize 2 =? 0) then img else
  let original_data := data img in
  with_data img
    (for_range 0 (height img)
       (fun y d =>
          for_range 0 (width img)
            (fun x d =>
               set_px y x
                 (bmp24_convolution img x y kernel kernelSize original_data) d)
            d)
       (data img)).

Definition f32 (z : Z) : spec_float := F32.of_Z z.

Definition bmp24_boxBlur (img : t_bmp24) : t_bmp24 :=
  let val := F32.div (f32 1) (f32 9) in
  bmp24_applyFilter img (repeat (repeat val 3) 3) 3.

Definition bmp24_gaussianBlur (img : t_bmp24) : t_bmp24 :=
  let factor := F32.div (f32 1) (f32 16) in
  let w n := F32.mul (f32 n) factor in
  bmp24_applyFilter img
    [[w 1; w 2; w 1]; [w 2; w 4; w 2]; [w 1; w 2; w 1]] 3.

Definition bmp24_outline (img : t_bmp24) : t_bmp24 :=
  bmp24_applyFilter img
    [[f32 (-1); f32 (-1); f32 (-1)];
     [f32 (-1); f32 8; f32 (-1)];
     [f32 (-1); f32 (-1); f32 (-1)]] 3.

Definition bmp24_emboss (img : t_bmp24) : t_bmp24 :=
  bmp24_applyFilter img
    [[f32 (-2); f32 (-1); f32 0];
     [f32 (-1); f32 1; f32 1];
     [f32 0; f32 1; f32 2]] 3.

Definition bmp24_sharpen (img : t_bmp24) : t_bmp24 :=
  bmp24_applyFilter img
    [[f32 0; f32 (-1); f32 0];
     [f32 (-1); f32 5; f32 (-1)];
     [f32 0; f32 (-1); f32 0]] 3.

(** ** Convolution on 8-bit images ([bmp8.c]) *)

(** The loop counters are [unsigned int], as are [width - kernelRadius] and
    [height - kernelRadius].  The source checks no index against [dataSize]:
    [get] and [upd] stand for its array accesses as long as the pixel grid
    lies inside the buffer and is at least as wide and as high as the kernel
    radius, which the statements about this function assume. *)
Definition bmp8_applyFilter (img : t_bmp8) (kernel : kernel_t)
    (kernelSize : Z) : t_bmp8 :=
  if (kernelSize <=? 0) || (Z.rem kernelSize 2 =? 0) then img else
  let width := width8 img in
  let height := height8 img in
  let originalData := firstn (Z.to_nat (dataSize img)) (data8 img) in
  let kernelRadius := Z.quot kernelSize 2 in
  with_data8 img
    (for_range (CInt.u32 kernelRadius) (CInt.u32 (height - kernelRadius))
       (fun y d =>
          for_range (CInt.u32 kernelRadius) (CInt.u32 (width - kernelRadius))
            (fun x d =>
               let sum :=
                 for_range (- kernelRadius) (kernelRadius + 1)
                   (fun ky sum =>
                      for_range (- kernelRadius) (kernelRadius + 1)
                        (fun kx sum =>
                           let p :=
                             get x00
                               (CInt.u32 (CInt.u32 (CInt.u32 (y + ky) * width)
                                          + CInt.u32 (x + kx)))
                               originalData in
                           let k := kernel_at kernel (ky + kernelRadius)
                                                     (kx + kernelRadius) in
                           F32.add sum (F32.mul (F32.of_Z (byte_val p)) k))
                        sum)
                   F32.zero in
               let pixelValue :=
                 FloatModel.to_int (FloatModel.trunc (F32.add sum F32.half)) in
               let pixelValue := if pixelValue <? 0 then 0 else pixelValue in
               let pixelValue := if pixelValue >? 255 then 255 else pixelValue in
               upd (CInt.u32 (CInt.u32 (y * width) + x)) (byte_of pixelValue) d)
            d)
       (data8 img)).

(** ** Histogram equalisation ([histogram.c]) *)

Definition bmp8_computeHistogram (img : t_bmp8) : list Z :=
  for_range 0 (dataSize img)
    (fun i hist =>
       let v := byte_val (get x00 i (data8 img)) in
       upd v (CInt.u32 (get 0 v hist + 1)) hist)
    (repeat 0 256%nat).

(** The cumulative histogram, in [unsigned long long]. *)
Definition compute_cdf (hist : list Z) : list Z :=
  for_range 1 256
    (fun i cdf => upd i (CInt.u64 (get 0 (i - 1) cdf + get 0 i hist)) cdf)
    (upd 0 (get 0 0 hist) (repeat 0 256%nat)).

(** The first non-zero entry of the cumulative histogram, 0 if there is none
    (the search loop leaves at the first hit). *)
Definition find_cdfmin (cdf : list Z) : Z :=
  match find (fun c => c >? 0) (firstn 256 cdf) with
  | Some c => c
  | None => 0
  end.

Definition bmp8_computeEqualizedHistogram (hist : list Z) (numPixels : Z)
    : option (list Z) :=
  if numPixels =? 0 then None else
  let cdf := compute_cdf hist in
  let cdfmin := find_cdfmin cdf in
  let denominator := F64.sub (F64.of_Z numPixels) (F64.of_Z cdfmin) in
  if FloatModel.leb denominator F64.zero then
    Some (for_range 0 256 (fun i hist_eq => upd i i hist_eq)
                    (repeat 0 256%nat))
  else
    let scale_factor := F64.div (F64.of_Z 255) denominator in
    Some (for_range 0 256
            (fun i hist_eq =>
               let hist_eq := if get 0 i cdf =? 0 then upd i 0 hist_eq
                              else hist_eq in
               let numerator := if get 0 i cdf >=? cdfmin
                                then CInt.u64 (get 0 i cdf - cdfmin) else 0 in
               let v := FloatModel.to_uint
                          (FloatModel.round_away
                             (F64.mul (F64.of_Z numerator) scale_factor)) in
               upd i (if v >? 255 then 255 else v) hist_eq)
            (repeat 0 256%nat)).

Definition bmp8_equalize (img : t_bmp8) : t_bmp8 :=
  let hist := bmp8_computeHistogram img in
  let numPixels := CInt.u32 (width8 img * height8 img) in
  match bmp8_computeEqualizedHistogram hist numPixels with
  | None => img
  | Some hist_eq =>
      with_data8 img
        (for_range 0 (dataSize img)
           (fun i d =>
              upd i (byte_of (get 0 (byte_val (get x00 i d)) hist_eq)) d)
           (data8 img))
  end.

Definition clamp_u8_f (value : spec_float) : Z :=
  if FloatModel.ltb value F32.zero then 0
  else if FloatModel.ltb (F32.of_Z 255) value then 255
  else CInt.u8 (FloatModel.to_int (FloatModel.round_away value)).

Record t_yuv := mk_yuv { yuv_y : spec_float; yuv_u : spec_float; yuv_v : spec_float }.

Definition bmp24_equalize (img : t_bmp24) : t_bmp24 :=
  let width := width img in
  let height := height img in
  let numPixels := CInt.u32 (CInt.s32 (width * height)) in
  let n := Z.to_nat numPixels in
  (* 2. RGB to YUV *)
  let '(yuv_data, y_int_data) :=
    for_range 0 height
      (fun r st =>
         for_range 0 width
           (fun c '(yuv_data, y_int_data) =>
              let p := get_px r c (data img) in
              let R := F32.of_Z (byte_val (red p)) in
              let G := F32.of_Z (byte_val (green p)) in
              let B := F32.of_Z (byte_val (blue p)) in
              let Y := F32.add (F32.add (F32.mul (F32.dec 299 1000) R)
                                        (F32.mul (F32.dec 587 1000) G))
                               (F32.mul (F32.dec 114 1000) B) in
              let U := F32.add (F32.sub (F32.mul (SFopp (F32.dec 14713 100000)) R)
                                        (F32.mul (F32.dec 28886 100000) G))
                               (F32.mul (F32.dec 436 1000) B) in
              let V := F32.sub (F32.sub (F32.mul (F32.dec 615 1000) R)
                                        (F32.mul (F32.dec 51499 100000) G))
                               (F32.mul (F32.dec 10001 100000) B) in
              let index := CInt.s32 (r * width + c) in
              (upd index (mk_yuv Y U V) yuv_data,
               upd index (byte_of (clamp_u8_f Y)) y_int_data))
           st)
      (repeat (mk_yuv F32.zero F32.zero F32.zero) n, repeat x00 n) in
  (* 3. histogram of the integer Y component *)
  let hist_y :=
    for_range 0 numPixels
      (fun i hist =>
         let v := byte_val (get x00 i y_int_data) in
         upd v (CInt.u32 (get 0 v hist + 1)) hist)
      (repeat 0 256%nat) in
  (* 4. equalisation table *)
  match bmp8_computeEqualizedHistogram hist_y numPixels with
  | None => img
  | Some hist_y_eq =>
      (* 6. back to RGB with the equalised Y *)
      with_data img
        (for_range 0 height
           (fun r d =>
              for_range 0 width
                (fun c d =>
                   let index := CInt.s32 (r * width + c) in
                   let yuv := get (mk_yuv F32.zero F32.zero F32.zero) index
                                  yuv_data in
                   let U := yuv_u yuv in
                   let V := yuv_v yuv in
                   let original_y_int := byte_val (get x00 index y_int_data) in
                   let Y_eq := F32.of_Z (get 0 original_y_int hist_y_eq) in
                   let R_f := F32.add Y_eq (F32.mul (F32.dec 113983 100000) V) in
                   let G_f := F32.sub (F32.sub Y_eq
                                         (F32.mul (F32.dec 39465 100000) U))
                                      (F32.mul (F32.dec 5806 10000) V) in
                   let B_f := F32.add Y_eq (F32.mul (F32.dec 203211 100000) U) in
                   set_px r c
                     (mk_pixel (byte_of (clamp_u8_f B_f))
                               (byte_of (clamp_u8_f G_f))
                               (byte_of (clamp_u8_f R_f))) d)
                d)
           (data img))
  end.

(** ** Dispatch on the loaded image ([main.c]) *)

(** The image currently loaded ([image_loaded] is 8 or 24). *)
Inductive image :=
  | Image8 (img : t_bmp8)
  | Image24 (img : t_bmp24).

(** The entries of the filter menu; the named 3x3 filters all go through
    [applyFilter]. *)
Inductive operation :=
  | Negative
  | Brightness (value : Z)
  | Threshold (threshold : Z)
  | Grayscale
  | ApplyFilter (kernel : kernel_t) (kernelSize : Z)
  | Equalize.

(** Threshold is offered for 8-bit images only and grayscale conversion for
    24-bit images only; the other combination leaves the image alone. *)
Definition apply_operation (op : operation) (img : image) : image :=
  match op, img with
  | Negative, Image8 i => Image8 (bmp8_negative i)
  | Negative, Image24 i => Image24 (bmp24_negative i)
  | Brightness v, Image8 i => Image8 (bmp8_brightness i v)
  | Brightness v, Image24 i => Image24 (bmp24_brightness i v)
  | Threshold t, Image8 i => Image8 (bmp8_threshold i t)
  | Threshold _, Image24 _ => img
  | Grayscale, Image8 _ => img
  | Grayscale, Image24 i => Image24 (bmp24_grayscale i)
  | ApplyFilter k n, Image8 i => Image8 (bmp8_applyFilter i k n)
  | ApplyFilter k n, Image24 i => Image24 (bmp24_applyFilter i k n)
  | Equalize, Image8 i => Image8 (bmp8_equalize i)
  | Equalize, Image24 i => Image24 (bmp24_equalize i)
  end.

(** [menu_open_image]: the 24-bit loader is tried first, then the 8-bit one. *)
Definition open_image (junk : Indeterminate) (contents : list byte)
    : option image :=
  match bmp24_loadImage junk contents with
  | Some i => Some (Image24 i)
  | None => option_map Image8 (bmp8_loadImage contents)
  end.

(** The file the saver of the image's codec writes, called as its prototype
    asks: [bmp8_saveImage (filename, img)] for an 8-bit image and
    [bmp24_saveImage (img, filename)] for a 24-bit one.  ([menu_save_image]
    makes the first call; it passes the arguments of the second one in the
    opposite order.) *)
Definition save_image (img : image) : list byte :=
  match img with
  | Image8 i => bmp8_saveImage i
  | Image24 i => snd (bmp24_saveImage i)
  end.

(** ** Well-formed images *)

(** An 8-bit image owns [dataSize] pixel bytes, a 54-byte header block and a
    1024-byte palette; its scalar fields are [unsigned int]s. *)
Record valid8 (img : t_bmp8) : Prop := mk_valid8 {
  v8_data : Z.of_nat (length (data8 img)) = dataSize img;
  v8_header : length (header8 img) = 54%nat;
  v8_table : length (colorTable img) = 1024%nat;
  v8_width : 0 <= width8 img < 4294967296;
  v8_height : 0 <= height8 img < 4294967296;
  v8_size : 0 <= dataSize img < 4294967296
}.

(** A 24-bit image has positive dimensions and [height] rows of [width]
    pixels. *)
Record valid24 (img : t_bmp24) : Prop := mk_valid24 {
  v24_width : 0 < width img <= CInt.INT_MAX;
  v24_height : 0 < height img <= CInt.INT_MAX;
  v24_rows : Z.of_nat (length (data img)) = height img;
  v24_cols : Forall (fun row => Z.of_nat (length row) = width img) (data img)
}.

Definition valid_image (img : image) : Prop :=
  match img with
  | Image8 i => valid8 i
  | Image24 i => valid24 i
  end.

(** ** Vocabulary of the statements *)

(** [f] applied to the first [n] elements of an array. *)
Definition map_prefix {A} (f : A -> A) (n : nat) (l : list A) : list A :=
  map f (firstn n l) ++ skipn n l.

Definition negative_byte (b : byte) : byte := byte_of (255 - byte_val b).

(** What an in-place operation must leave alone: every scalar field, the
    header and palette blocks of an 8-bit image, both header structs of a
    24-bit image, and the dimensions of the pixel buffer. *)
Definition same_frame (a b : image) : Prop :=
  match a, b with
  | Image8 x, Image8 y =>
      header8 x = header8 y /\ colorTable x = colorTable y
      /\ width8 x = width8 y /\ height8 x = height8 y
      /\ colorDepth8 x = colorDepth8 y /\ dataSize x = dataSize y
      /\ length (data8 x) = length (data8 y)
  | Image24 x, Image24 y =>
      header x = header y /\ header_info x = header_info y
      /\ width x = width y /\ height x = height y
      /\ colorDepth x = colorDepth y
      /\ map (@length t_pixel) (data x) = map (@length t_pixel) (data y)
  | _, _ => False
  end.

(** ** Sample inputs *)

Module Sample.
(** A 2x2 8-bit file with pixel bytes 10, 20, 30, 40 and a grey ramp as
    palette. *)
Definition palette : list byte :=
  flat_map (fun i => [byte_of i; byte_of i; byte_of i; x00]) (range 256).

Definition header_2x2 : list byte :=
  encode_header (mk_header BMP_TYPE 1082 0 0 1078)
  ++ encode_info (mk_info 40 2 2 1 8 0 4 0 0 256 0).

Definition pixels_2x2 : list byte := [x0a; x14; x1e; x28].

Definition file8 : list byte := header_2x2 ++ palette ++ pixels_2x2.

Definition img8 : t_bmp8 := mk_bmp8 header_2x2 palette pixels_2x2 2 2 8 4.

(** A 3x2 24-bit image; on disk each row takes 9 data bytes and 3 bytes
    of padding. *)
Definition px (n : Z) : t_pixel :=
  mk_pixel (byte_of n) (byte_of (n + 1)) (byte_of (n + 2)).

Definition rows_3x2 : list (list t_pixel) :=
  [[px 10; px 20; px 30]; [px 40; px 50; px 60]].

Definition img24 : t_bmp24 :=
  mk_bmp24 (mk_header BMP_TYPE 78 0 0 54)
           (mk_info 40 3 2 1 24 0 24 0 0 0 0) 3 2 24 rows_3x2.

Definition file24 : list byte := snd (bmp24_saveImage img24).

(** Memory contents standing for an uninitialised heap and stack. *)
Definition junk : Indeterminate :=
  mk_indeterminate (repeat xaa 14) (repeat xaa 40)
                   (fun _ _ => mk_pixel xaa xaa xaa).
End Sample.

Module Sample8Padded.
(** A 3x1 8-bit file whose row is padded to 4 bytes, with the size of the
    padded pixel data recorded in the header. *)
Definition header_3x1 : list byte :=
  encode_header (mk_header BMP_TYPE 1082 0 0 1078)
  ++ encode_info (mk_info 40 3 1 1 8 0 4 0 0 256 0).

Definition file8 : list byte :=
  header_3x1 ++ Sample.palette ++ [x0a; x14; x1e; x00].
End Sample8Padded.

(** The row size the specification names [rowSizePadded]:
    [ceil(width*3/4)*4]. *)
Definition rowSizePadded (width : Z) : Z := (width * 3 + 3) / 4 * 4.

Module SampleTruncated.
(** The 3x2 file cut after its first stored row: the headers and 12 of
    the 24 bytes of pixel data. *)
Definition file24 : list byte := firstn 66 Sample.file24.
End SampleTruncated.

(** ** The layout of a 24-bit file *)

Definition file_header (f : list byte) : t_bmp_header :=
  decode_header (firstn 14 f).

Definition file_info (f : list byte) : t_bmp_info :=
  decode_info (firstn 40 (skipn 14 f)).

Definition file_width (f : list byte) : Z := info_width (file_info f).

(** The number of rows: the absolute value of the signed height field. *)
Definition file_height (f : list byte) : Z :=
  CInt.abs (info_height (file_info f)).

(** The [k]-th row of pixels in the order the file stores them. *)
Definition file_row (f : list byte) (k : Z) : list t_pixel :=
  row_pixels
    (firstn (Z.to_nat (file_width f * 3))
       (skipn (Z.to_nat (hdr_offset (file_header f)
                         + k * rowSizePadded (file_width f))) f)).

(** The [i]-th row of the picture counted from its top edge.  A positive
    height field means the rows are stored bottom-up, a negative one that
    they are stored top-down. *)
Definition picture_row (f : list byte) (i : Z) : list t_pixel :=
  if info_height (file_info f) <? 0 then file_row f i
  else file_row f (file_height f - 1 - i).

(** The checks [bmp24_loadImage] makes on the two headers. *)
Record headers_validate (f : list byte) : Prop := mk_headers_validate {
  hv_length : (54 <= length f)%nat;
  hv_type : hdr_type (file_header f) = BMP_TYPE;
  hv_bits : info_bits (file_info f) = 24;
  hv_compression : info_compression (file_info f) = 0;
  hv_width : 0 < file_width f;
  hv_height : 0 < file_height f
}.

(** Every row of pixel data is present in the file. *)
Definition pixel_data_complete (f : list byte) : Prop :=
  hdr_offset (file_header f) + rowSizePadded (file_width f) * file_height f
  <= Z.of_nat (length f).

Module SampleTopDown.
(** The 3x2 picture stored top-down: height field -2, the top row
    (pixels 10, 20, 30) first in the file. *)
Definition file24 : list byte :=
  encode_header (mk_header BMP_TYPE 78 0 0 54)
  ++ encode_info (mk_info 40 3 (-2) 1 24 0 24 0 0 0 0)
  ++ row_bytes [Sample.px 10; Sample.px 20; Sample.px 30] ++ [x00; x00; x00]
  ++ row_bytes [Sample.px 40; Sample.px 50; Sample.px 60] ++ [x00; x00; x00].
End SampleTopDown.

(** ** Files in the form the savers write *)

(** The pixel data of an 8-bit file starts right behind the palette, at
    offset 1078, and runs to the end of the file. *)
Record canonical8 (f : list byte) : Prop := mk_canonical8 {
  c8_B : nth 0 f x00 = "B"%byte;
  c8_M : nth 1 f x00 = "M"%byte;
  c8_depth : field 28 2 f = 8;
  c8_offset : field 10 4 f = 1078;
  c8_length :
    Z.of_nat (length f)
    = 1078 + (if field 34 4 f =? 0
              then (field 18 4 f * field 22 4 f) mod 4294967296
              else field 34 4 f)
}.

(** A 24-bit file whose two headers already hold the values
    [bmp24_saveImage] derives from width and height, whose padding bytes are
    zero and which ends with its pixel data. *)
Record canonical24 (f : list byte) : Prop := mk_canonical24 {
  c24_width : 0 < file_width f /\ file_width f * 3 + 3 <= CInt.INT_MAX;
  c24_height : 0 < info_height (file_info f);
  c24_header :
    file_header f
    = mk_header BMP_TYPE
        ((54 + info_imagesize (file_info f)) mod 4294967296) 0 0 54;
  c24_info :
    file_info f
    = mk_info 40 (file_width f) (info_height (file_info f)) 1 24 0
        ((rowSizePadded (file_width f) * info_height (file_info f))
           mod 4294967296)
        0 0 0 0;
  c24_length :
    Z.of_nat (length f)
    = 54 + rowSizePadded (file_width f) * info_height (file_info f);
  c24_padding :
    forall k, 0 <= k < info_height (file_info f) ->
      skipn (Z.to_nat (file_width f * 3))
        (firstn (Z.to_nat (rowSizePadded (file_width f)))
           (skipn (Z.to_nat (54 + k * rowSizePadded (file_width f))) f))
      = repeat x00 (Z.to_nat (rowSizePadded (file_width f) - file_width f * 3))
}.

Definition canonical (f : list byte) : Prop := canonical8 f \/ canonical24 f.

Module SampleDpi.
(** The 3x2 picture as an image editor would write it: a resolution of
    2835 pixels per metre (72 dpi) in both directions. *)
Definition file24 : list byte :=
  encode_header (mk_header BMP_TYPE 78 0 0 54)
  ++ encode_info (mk_info 40 3 2 1 24 0 24 2835 2835 0 0)
  ++ skipn 54 Sample.file24.
End SampleDpi.

(** ** Vocabulary for the convolution boundary policy *)

(** The pixel at column [x] of row [y] of an 8-bit image. *)
Definition pixel8 (img : t_bmp8) (x y : Z) : byte :=
  get x00 (y * width8 img + x) (data8 img).

(** [(x, y)] lies on the outermost one-pixel border of a [w] x [h] image. *)
Definition on_border (w h x y : Z) : Prop :=
  x = 0 \/ x = w - 1 \/ y = 0 \/ y = h - 1.

(** The kernel offsets [(ky, kx)] in the order the two kernel loops visit
    them. *)
Definition kernel_offsets (kernelRadius : Z) : list (Z * Z) :=
  flat_map (fun ky => map (fun kx => (ky, kx))
                          (map (fun i => i - kernelRadius)
                               (range (2 * kernelRadius + 1))))
           (map (fun i => i - kernelRadius) (range (2 * kernelRadius + 1))).

(** The coordinates [(row, column)] of the pixels that the convolution at
    [(x, y)] reads, one per kernel entry. *)
Definition samples (img : t_bmp24) (x y kernelSize : Z) : list (Z * Z) :=
  map (fun o => clamped_neighbor img x y (fst o) (snd o))
      (kernel_offsets (Z.quot kernelSize 2)).

(** Clamping a coordinate to the nearest valid one below [limit]. *)
Definition clamp_coord (n limit : Z) : Z := Z.max 0 (Z.min (limit - 1) n).

(** How many of the coordinates in [l] are [(row, col)]. *)
Definition count_coord (row col : Z) (l : list (Z * Z)) : nat :=
  length (filter (fun p => (fst p =? row) && (snd p =? col)) l).

(** Accumulating the weighted channel sums over a list of kernel offsets
    and finishing with rounding and clamping, as [bmp24_convolution] does. *)
Definition convolve_offsets (img : t_bmp24) (x y : Z) (kernel : kernel_t)
    (kernelRadius : Z) (original_data : list (list t_pixel))
    (offsets : list (Z * Z)) : t_pixel :=
  let '(sum_r, sum_g, sum_b) :=
    fold_left
      (fun '(sum_r, sum_g, sum_b) o =>
         let k := kernel_at kernel (fst o + kernelRadius) (snd o + kernelRadius) in
         let '(cny, cnx) := clamped_neighbor img x y (fst o) (snd o) in
         let neighbor_pixel := get_px cny cnx original_data in
         (F32.add sum_r (F32.mul (F32.of_Z (byte_val (red neighbor_pixel))) k),
          F32.add sum_g (F32.mul (F32.of_Z (byte_val (green neighbor_pixel))) k),
          F32.add sum_b (F32.mul (F32.of_Z (byte_val (blue neighbor_pixel))) k)))
      offsets (F32.zero, F32.zero, F32.zero) in
  let channel s :=
    byte_of (clamp_u8 (FloatModel.to_int (FloatModel.trunc (F32.add s F32.half)))) in
  mk_pixel (channel sum_b) (channel sum_g) (channel sum_r).

(** The boundary policy of [applyFilter] with a 3x3 kernel, per codec. *)
Definition boundary_policy (img : image) (kernel : kernel_t) : Prop :=
  match img with
  | Image8 i =>
      (* the border keeps its bytes *)
      forall x y,
        0 <= x < width8 i -> 0 <= y < height8 i ->
        on_border (width8 i) (height8 i) x y ->
        pixel8 (bmp8_applyFilter i kernel 3) x y = pixel8 i x y
  | Image24 i =>
      (* every pixel, border included, is the convolution of the snapshot *)
      (forall x y,
         0 <= x < width i -> 0 <= y < height i ->
         get_px y x (data (bmp24_applyFilter i kernel 3))
         = bmp24_convolution i x y kernel 3 (data i))
      (* which reads the nine edge-clamped neighbours *)
      /\ (forall x y original_data,
            bmp24_convolution i x y kernel 3 original_data
            = convolve_offsets i x y kernel 1 original_data (kernel_offsets 1))
      /\ (forall x y ky kx,
            clamped_neighbor i x y ky kx
            = (clamp_coord (y + ky) (height i), clamp_coord (x + kx) (width i)))
      (* so that at a corner four of the nine samples are the corner itself *)
      /\ (forall cx cy,
            cx = 0 \/ cx = width i - 1 -> cy = 0 \/ cy = height i - 1 ->
            (4 <= count_coord cy cx (samples i cx cy 3))%nat
            /\ (2 <= width i -> 2 <= height i ->
                count_coord cy cx (samples i cx cy 3) = 4%nat))
  end.

(** The pixel grid of an 8-bit image lies inside its pixel buffer (for a
    24-bit image this is part of being valid). *)
Definition grid_in_buffer (img : image) : Prop :=
  match img with
  | Image8 i => width8 i * height8 i <= dataSize i
  | Image24 _ => True
  end.

(** A kernel of [kernelSize] rows of [kernelSize] weights. *)
Definition valid_kernel (kernel : kernel_t) (kernelSize : Z) : Prop :=
  Z.of_nat (length kernel) = kernelSize
  /\ Forall (fun row => Z.of_nat (length row) = kernelSize) kernel.

(** What [applyFilter] relies on without checking it: a kernel that has the
    size it is passed with and, for an 8-bit image, a pixel grid that lies
    inside the pixel buffer and is at least as wide and as high as the
    kernel radius; otherwise the loops of [bmp8_applyFilter] index outside
    the buffers.  The other operations rely on nothing of the kind. *)
Definition operation_in_bounds (op : operation) (img : image) : Prop :=
  match op with
  | ApplyFilter kernel kernelSize =>
      valid_kernel kernel kernelSize
      /\ match img with
         | Image8 i =>
             width8 i * height8 i <= dataSize i
             /\ Z.quot kernelSize 2 <= width8 i
             /\ Z.quot kernelSize 2 <= height8 i
         | Image24 _ => True
         end
  | _ => True
  end.

Module SampleKernel.
Definition sharpen : kernel_t :=
  [[f32 0; f32 (-1); f32 0];
   [f32 (-1); f32 5; f32 (-1)];
   [f32 0; f32 (-1); f32 0]].
End SampleKernel.

(** ** Vocabulary for floating-point rounding *)

(** Rounding [m / 2^n] to the nearest integer, ties to even. *)
Definition rne (m n : Z) : Z :=
  let q := m / 2 ^ n in
  let r := m mod 2 ^ n in
  let h := 2 ^ (n - 1) in
  if r <? h then q
  else if r =? h then (if Z.even q then q else q + 1)
  else q + 1.

(** Rounding a positive integer [V], read as a multiple of some fixed unit
    [2^c], to [prec] significant bits and to a multiple of [2^lo] (the
    subnormal grid, [lo = emin - c]). *)
Definition rnd (prec lo V : Z) : Z :=
  let k := Z.max (Z.log2 V + 1 - prec) lo in
  if k <=? 0 then V else rne V k * 2 ^ k.

(** The normalised float whose value is the positive integer [z], for
    [z < 2^prec]: a mantissa of exactly [prec] bits. *)
Definition canon (prec z : Z) : spec_float :=
  S754_finite false (Z.to_pos (z * 2 ^ (prec - (Z.log2 z + 1))))
              (Z.log2 z + 1 - prec).

(** ** Vocabulary for the equalisation table *)

(** A histogram as the code has it: 256 [unsigned int] counters. *)
Definition is_histogram (hist : list Z) : Prop :=
  length hist = 256%nat /\ Forall (fun h => 0 <= h <= 4294967295) hist.

(** The number of pixels a histogram counts. *)
Definition total (hist : list Z) : Z := fold_right Z.add 0 hist.

(** The count of the pixels of intensity at most [i]. *)
Definition psum (hist : list Z) (i : Z) : Z :=
  total (firstn (Z.to_nat (i + 1)) hist).

(** A table that never decreases over the 256 intensities. *)
Definition monotone_lut (lut : list Z) : Prop :=
  forall i j, 0 <= i -> i <= j -> j < 256 -> get 0 i lut <= get 0 j lut.

(** The table entry the general branch stores for the count [n]. *)
Definition lut_entry (scale_factor : spec_float) (n : Z) : Z :=
  let v := FloatModel.to_uint
             (FloatModel.round_away (F64.mul (F64.of_Z n) scale_factor)) in
  if v >? 255 then 255 else v.

(** A histogram that counts more pixels than the [numPixels = 2] it is
    equalised with. *)
Module SampleInconsistent.
Definition hist : list Z :=
  upd 2 4278124286 (upd 1 1 (upd 0 1 (repeat 0 256%nat))).
Definition numPixels : Z := 2.
End SampleInconsistent.

(** ** Vocabulary for the loaders *)

(** The number of pixel bytes [bmp8_loadImage] asks for: the header field
    at bytes 34..37, or [width * height] when that field reads 0. *)
Definition file_dataSize8 (f : list byte) : Z :=
  if field 34 4 f =? 0 then CInt.u32 (field 18 4 f * field 22 4 f)
  else field 34 4 f.

(** The reasons for which [bmp8_loadImage] gives up: a short header, a wrong
    signature, a colour depth other than 8, a short palette, or fewer pixel
    bytes behind the data offset than it asks for. *)
Definition rejected8 (f : list byte) : Prop :=
  (length f < 54)%nat
  \/ nth 0 f x00 <> "B"%byte
  \/ nth 1 f x00 <> "M"%byte
  \/ field 28 2 f <> 8
  \/ (length f < 1078)%nat
  \/ (0 < file_dataSize8 f
      /\ Z.of_nat (length f) < field 10 4 f + file_dataSize8 f).

(** The image [bmp8_loadImage] builds from a file it accepts. *)
Definition image8_of_file (f : list byte) : t_bmp8 :=
  mk_bmp8 (firstn 54 f) (firstn 1024 (skipn 54 f))
          (firstn (Z.to_nat (file_dataSize8 f))
                  (skipn (Z.to_nat (field 10 4 f)) f))
          (field 18 4 f) (field 22 4 f) 8 (file_dataSize8 f).

(** The header block of an 8-bit image records the fields of the image, in
    the form [bmp8_loadImage] reads them back, with the pixel data right
    behind the palette. *)
Record header_describes8 (img : t_bmp8) : Prop := mk_header_describes8 {
  hd8_B : nth 0 (header8 img) x00 = "B"%byte;
  hd8_M : nth 1 (header8 img) x00 = "M"%byte;
  hd8_width : field 18 4 (header8 img) = width8 img;
  hd8_height : field 22 4 (header8 img) = height8 img;
  hd8_depth : field 28 2 (header8 img) = 8 /\ colorDepth8 img = 8;
  hd8_offset : field 10 4 (header8 img) = 1078;
  hd8_size :
    dataSize img = (if field 34 4 (header8 img) =? 0
                    then CInt.u32 (width8 img * height8 img)
                    else field 34 4 (header8 img))
}.

(** ** Vocabulary for the point operations *)

(** Saturation to the range of a byte. *)
Definition saturate (v : Z) : Z := Z.max 0 (Z.min 255 v).

(** A byte made brighter by [value], saturating at 0 and 255. *)
Definition brightness_byte (value : Z) (b : byte) : byte :=
  byte_of (saturate (byte_val b + value)).

(** A byte compared with a threshold: white at or above it, black below. *)
Definition threshold_byte (threshold : Z) (b : byte) : byte :=
  if byte_val b >=? saturate threshold then xff else x00.

(** [f] applied to each of the [dataSize] pixel bytes of an 8-bit image. *)
Definition map_bytes8 (f : byte -> byte) (img : t_bmp8) : t_bmp8 :=
  with_data8 img (map_prefix f (Z.to_nat (dataSize img)) (data8 img)).

(** [f] applied to every pixel of the [height] x [width] grid of a 24-bit
    image. *)
Definition map_grid24 (f : t_pixel -> t_pixel) (img : t_bmp24) : t_bmp24 :=
  with_data img
    (map_prefix (map_prefix f (Z.to_nat (width img)))
                (Z.to_nat (height img)) (data img)).

(** [f] applied to the pixels of an image of either kind. *)
Definition map_image (f8 : byte -> byte) (f24 : t_pixel -> t_pixel)
    (img : image) : image :=
  match img with
  | Image8 i => Image8 (map_bytes8 f8 i)
  | Image24 i => Image24 (map_grid24 f24 i)
  end.

(** A brightness value whose sum with a byte fits [int]. *)
Definition brightness_in_range (value : Z) : Prop :=
  CInt.INT_MIN <= value <= CInt.INT_MAX - 255.

(** [f] applied to each of the three channels of a pixel. *)
Definition on_channels (f : byte -> byte) (p : t_pixel) : t_pixel :=
  mk_pixel (f (blue p)) (f (green p)) (f (red p)).

(** [f] applied to every channel of every pixel of an image. *)
Definition map_channels (f : byte -> byte) (img : image) : image :=
  map_image f (on_channels f) img.

(** The 256 values of a byte. *)
Definition all_bytes : list byte := map byte_of (range 256).

(** ** Vocabulary for histograms *)

(** How many of the bytes of [l] have the value [v]. *)
Definition count_byte (v : Z) (l : list byte) : Z :=
  Z.of_nat (length (filter (fun b => byte_val b =? v) l)).

(** The number of pixels [bmp8_equalize] passes for the image is the number
    of pixel bytes the image holds. *)
Definition pixels_fill_buffer (img : t_bmp8) : Prop :=
  CInt.u32 (width8 img * height8 img) = dataSize img.

(** ** Vocabulary for the filters *)

(** The kernel that copies the centre sample. *)
Definition identity_kernel : kernel_t :=
  [[f32 0; f32 0; f32 0];
   [f32 0; f32 1; f32 0];
   [f32 0; f32 0; f32 0]].

(** The channel value stored for a sum: half is added, the fraction is
    dropped and the result is clamped to a byte. *)
Definition channel_of_sum (s : spec_float) : byte :=
  byte_of (clamp_u8 (FloatModel.to_int (FloatModel.trunc (F32.add s F32.half)))).

(** The channel a 3x3 convolution stores when its nine samples all have
    the value [b]. *)
Definition uniform_response (kernel : kernel_t) (b : byte) : byte :=
  channel_of_sum
    (fold_left
       (fun s o => F32.add s (F32.mul (F32.of_Z (byte_val b))
                                      (kernel_at kernel (fst o + 1) (snd o + 1))))
       (kernel_offsets 1) F32.zero).

(** Every pixel of the grid of a 24-bit image is [p]. *)
Definition uniform24 (img : t_bmp24) (p : t_pixel) : Prop :=
  forall x y, 0 <= x < width img -> 0 <= y < height img ->
    get_px y x (data img) = p.

(** The value [bmp8_applyFilter] computes for the pixel at [(x, y)] with a
    3x3 kernel: the weighted sum of the nine pixels around it, rounded and
    clamped. *)
Definition conv8 (img : t_bmp8) (kernel : kernel_t) (x y : Z) : byte :=
  channel_of_sum
    (fold_left
       (fun s o =>
          F32.add s (F32.mul (F32.of_Z (byte_val (pixel8 img (x + snd o)
                                                         (y + fst o))))
                             (kernel_at kernel (fst o + 1) (snd o + 1))))
       (kernel_offsets 1) F32.zero).

(** [(x, y)] is an interior pixel of a [w] x [h] image. *)
Definition interior (w h x y : Z) : Prop :=
  1 <= x <= w - 2 /\ 1 <= y <= h - 2.

(** The pixel grid of an 8-bit image has at least one row and one column
    (a valid 24-bit image always has). *)
Definition nonempty_grid (img : image) : Prop :=
  match img with
  | Image8 i => 0 < width8 i /\ 0 < height8 i
  | Image24 _ => True
  end.

(** ** The filter menu ([main.c]) *)

(** The kernels [menu_apply_filter] fills in for an 8-bit image; the
    allocation of the kernel is assumed to succeed. *)
Module MenuKernel.
Definition box_blur : kernel_t :=
  let val := F32.div (f32 1) (f32 9) in repeat (repeat val 3) 3.

Definition gaussian_blur : kernel_t :=
  let factor := F32.div (f32 1) (f32 16) in
  [[F32.mul (f32 1) factor; F32.mul (f32 2) factor; F32.mul (f32 1) factor];
   [F32.mul (f32 2) factor; F32.mul (f32 4) factor; F32.mul (f32 2) factor];
   [F32.mul (f32 1) factor; F32.mul (f32 2) factor; F32.mul (f32 1) factor]].

Definition sharpen : kernel_t :=
  [[f32 0; f32 (-1); f32 0];
   [f32 (-1); f32 5; f32 (-1)];
   [f32 0; f32 (-1); f32 0]].

Definition outline : kernel_t :=
  [[f32 (-1); f32 (-1); f32 (-1)];
   [f32 (-1); f32 8; f32 (-1)];
   [f32 (-1); f32 (-1); f32 (-1)]].

Definition emboss : kernel_t :=
  [[f32 (-2); f32 (-1); f32 0];
   [f32 (-1); f32 1; f32 1];
   [f32 0; f32 1; f32 2]].
End MenuKernel.

(** [menu_apply_filter] on the loaded image: [choice] is the menu entry
    typed in and [input] the integer typed in when the entry asks for one
    (the brightness value, the threshold). *)
Definition menu_apply_filter (choice input : Z) (img : image) : image :=
  match choice with
  | 1 => match img with
         | Image8 i => Image8 (bmp8_negative i)
         | Image24 i => Image24 (bmp24_negative i)
         end
  | 2 => match img with
         | Image8 i => Image8 (bmp8_brightness i input)
         | Image24 i => Image24 (bmp24_brightness i input)
         end
  | 3 => match img with
         | Image8 i => Image8 (bmp8_threshold i input)
         | Image24 i => Image24 (bmp24_grayscale i)
         end
  | 4 => match img with
         | Image8 i => Image8 (bmp8_applyFilter i MenuKernel.box_blur 3)
         | Image24 i => Image24 (bmp24_boxBlur i)
         end
  | 5 => match img with
         | Image8 i => Image8 (bmp8_applyFilter i MenuKernel.gaussian_blur 3)
         | Image24 i => Image24 (bmp24_gaussianBlur i)
         end
  | 6 => match img with
         | Image8 i => Image8 (bmp8_applyFilter i MenuKernel.sharpen 3)
         | Image24 i => Image24 (bmp24_sharpen i)
         end
  | 7 => match img with
         | Image8 i => Image8 (bmp8_applyFilter i MenuKernel.outline 3)
         | Image24 i => Image24 (bmp24_outline i)
         end
  | 8 => match img with
         | Image8 i => Image8 (bmp8_applyFilter i MenuKernel.emboss 3)
         | Image24 i => Image24 (bmp24_emboss i)
         end
  | 9 => match img with
         | Image8 i => Image8 (bmp8_equalize i)
         | Image24 i => Image24 (bmp24_equalize i)
         end
  | _ => img
  end.

(** A session at the filter menu: the entries chosen one after the other,
    each with the integer typed in for it. *)
Definition menu_session (choices : list (Z * Z)) (img : image) : image :=
  fold_left (fun i c => menu_apply_filter (fst c) (snd c) i) choices img.

(** Two images show the same picture: the same pixels in a grid of the same
    dimensions (for 8-bit images, the same image altogether). *)
Definition same_picture (a b : image) : Prop :=
  match a, b with
  | Image8 x, Image8 y => x = y
  | Image24 x, Image24 y =>
      data x = data y /\ width x = width y /\ height x = height y
  | _, _ => False
  end.

(** What must hold of a loaded image for its saved file to load again:
    an 8-bit image needs a header block that describes it, a 24-bit image
    rows that fit [int] arithmetic. *)
Definition saveable (img : image) : Prop :=
  match img with
  | Image8 i => header_describes8 i
  | Image24 i => width i * 3 + 3 <= CInt.INT_MAX
  end.

(** Every pixel byte of an 8-bit image is [b]. *)
Definition uniform8 (img : t_bmp8) (b : byte) : Prop :=
  forall k, 0 <= k < dataSize img -> get x00 k (data8 img) = b.

(* ================================================================= *)
(** * Part II: theorems                                               *)
(* ================================================================= *)

(** ** Bytes and little-endian fields *)

Lemma byte_val_range (b : byte) : 0 <= byte_val b < 256.
Proof.
  unfold byte_val. pose proof (Byte.to_N_bounded b). lia.
Qed.

Lemma byte_of_val (b : byte) : byte_of (byte_val b) = b.
Proof. destruct b; reflexivity. Qed.

Lemma byte_val_of (z : Z) : byte_val (byte_of z) = z mod 256.
Proof.
  unfold byte_val, byte_of.
  pose proof (Z.mod_pos_bound z 256 ltac:(lia)) as Hr.
  destruct (Byte.of_N (Z.to_N (z mod 256))) as [b|] eqn:E.
  - apply Byte.to_of_N in E. rewrite E. lia.
  - apply Byte.of_N_None_iff in E. lia.
Qed.

Lemma byte_of_mod (z : Z) : byte_of (z mod 256) = byte_of z.
Proof. unfold byte_of. now rewrite Z.mod_mod by lia. Qed.

Lemma byte_val_inj (a b : byte) : byte_val a = byte_val b -> a = b.
Proof.
  intro H. rewrite <- (byte_of_val a), <- (byte_of_val b). now rewrite H.
Qed.

Lemma le_encode_length (n : nat) (z : Z) : length (le_encode n z) = n.
Proof. revert z; induction n; intros; simpl; auto. Qed.

Lemma le_decode_range (bs : list byte) :
  0 <= le_decode bs < 256 ^ Z.of_nat (length bs).
Proof.
  induction bs as [|b bs IH]; cbn [le_decode length].
  - simpl. lia.
  - rewrite Nat2Z.inj_succ, Z.pow_succ_r by lia.
    pose proof (byte_val_range b).
    set (p := 256 ^ Z.of_nat (length bs)) in *. lia.
Qed.

Lemma le_step (b d : Z) :
  0 <= b < 256 ->
  (b + 256 * d) mod 256 = b /\ (b + 256 * d) / 256 = d.
Proof.
  intro H. split; symmetry.
  - apply (Z.mod_unique _ _ d); lia.
  - apply (Z.div_unique _ _ d b); lia.
Qed.

(** Encoding what was decoded gives the bytes back. *)
Lemma le_encode_decode (bs : list byte) :
  le_encode (length bs) (le_decode bs) = bs.
Proof.
  induction bs as [|b bs IH]; cbn [le_encode le_decode length];
    [reflexivity|].
  destruct (le_step (byte_val b) (le_decode bs) (byte_val_range b)) as [Hm Hd].
  rewrite Hd, IH, <- byte_of_mod, Hm, byte_of_val. reflexivity.
Qed.

(** The encoding depends on the value modulo [256^n] only. *)
Lemma le_encode_mod (n : nat) (z : Z) :
  le_encode n (z mod 256 ^ Z.of_nat n) = le_encode n z.
Proof.
  revert z; induction n as [|n IH]; intro z; [reflexivity|].
  cbn [le_encode]. rewrite Nat2Z.inj_succ, Z.pow_succ_r by lia.
  assert (0 < 256 ^ Z.of_nat n) by (apply Z.pow_pos_nonneg; lia).
  rewrite Z.rem_mul_r by lia.
  destruct (le_step (z mod 256) ((z / 256) mod 256 ^ Z.of_nat n)
              (Z.mod_pos_bound z 256 ltac:(lia))) as [Hm Hd].
  rewrite Hd, IH, <- byte_of_mod, Hm, byte_of_mod. reflexivity.
Qed.

(** ** Arrays *)

Lemma upd_nat_length {A} (n : nat) (v : A) (l : list A) :
  length (upd_nat n v l) = length l.
Proof.
  revert n; induction l as [|h t IH]; intros [|n]; simpl; auto.
Qed.

Lemma upd_length {A} (i : Z) (v : A) (l : list A) :
  length (upd i v l) = length l.
Proof. unfold upd. destruct (i <? 0); auto using upd_nat_length. Qed.

Lemma nth_upd_nat_same {A} (d : A) (n : nat) (v : A) (l : list A) :
  (n < length l)%nat -> nth n (upd_nat n v l) d = v.
Proof.
  revert n; induction l as [|h t IH]; intros [|n] H; simpl in *;
    try lia; auto. apply IH; lia.
Qed.

Lemma nth_upd_nat_other {A} (d : A) (n m : nat) (v : A) (l : list A) :
  n <> m -> nth m (upd_nat n v l) d = nth m l d.
Proof.
  revert n m; induction l as [|h t IH]; intros [|n] [|m] H; simpl;
    try reflexivity; try congruence. apply IH; congruence.
Qed.

Lemma get_upd_same {A} (d : A) (i : Z) (v : A) (l : list A) :
  0 <= i < Z.of_nat (length l) -> get d i (upd i v l) = v.
Proof.
  intro H. unfold get, upd. destruct (Z.ltb_spec i 0); [lia|].
  apply nth_upd_nat_same; lia.
Qed.

Lemma get_upd_other {A} (d : A) (i j : Z) (v : A) (l : list A) :
  i <> j -> get d j (upd i v l) = get d j l.
Proof.
  intro H. unfold get, upd.
  destruct (Z.ltb_spec j 0); [reflexivity|].
  destruct (Z.ltb_spec i 0); [reflexivity|].
  apply nth_upd_nat_other. intro E. apply H. lia.
Qed.

Lemma upd_out_of_range {A} (i : Z) (v : A) (l : list A) :
  Z.of_nat (length l) <= i -> upd i v l = l.
Proof.
  intro H. unfold upd. destruct (Z.ltb_spec i 0); [reflexivity|].
  assert (Hn : (length l <= Z.to_nat i)%nat) by lia.
  revert Hn. generalize (Z.to_nat i) as n. clear.
  induction l as [|h t IH]; intros [|n] Hn; simpl in *; try reflexivity;
    try lia. f_equal. apply IH; lia.
Qed.

Lemma upd_upd_same {A} (i : Z) (v w : A) (l : list A) :
  upd i w (upd i v l) = upd i w l.
Proof.
  unfold upd. destruct (i <? 0); [reflexivity|].
  generalize (Z.to_nat i) as n.
  induction l as [|h t IH]; intros [|n]; simpl; try reflexivity.
  f_equal; apply IH.
Qed.

Lemma upd_get_same {A} (d : A) (i : Z) (l : list A) :
  upd i (get d i l) l = l.
Proof.
  unfold upd, get. destruct (i <? 0); [reflexivity|].
  generalize (Z.to_nat i) as n.
  induction l as [|h t IH]; intros [|n]; simpl; try reflexivity.
  f_equal; apply IH.
Qed.

(** ** Loops *)

Lemma iterate_ext {S} (n : nat) (i : Z) (f g : Z -> S -> S) (s : S) :
  (forall j x, i <= j < i + Z.of_nat n -> f j x = g j x) ->
  iterate n i f s = iterate n i g s.
Proof.
  revert i s; induction n as [|n IH]; intros i s H; simpl; [reflexivity|].
  rewrite H by lia. apply IH. intros; apply H; lia.
Qed.

(** Loop invariants. *)
Lemma iterate_inv {S} (P : S -> Prop) (n : nat) (i : Z) (f : Z -> S -> S)
    (s : S) :
  P s ->
  (forall j x, i <= j < i + Z.of_nat n -> P x -> P (f j x)) ->
  P (iterate n i f s).
Proof.
  revert i s; induction n as [|n IH]; intros i s H0 Hstep; simpl; [exact H0|].
  apply IH.
  - apply Hstep; [lia | exact H0].
  - intros; apply Hstep; [lia | assumption].
Qed.

Lemma for_range_inv {S} (P : S -> Prop) (lo hi : Z) (f : Z -> S -> S) (s : S) :
  P s ->
  (forall j x, lo <= j < hi -> P x -> P (f j x)) ->
  P (for_range lo hi f s).
Proof.
  intros H0 Hstep. unfold for_range. apply iterate_inv; [exact H0|].
  intros; apply Hstep; [lia | assumption].
Qed.

Lemma map_prefix_length {A} (f : A -> A) n (l : list A) :
  length (map_prefix f n l) = length l.
Proof.
  unfold map_prefix. rewrite length_app, length_map, <- length_app.
  now rewrite firstn_skipn.
Qed.

Lemma map_prefix_involutive {A} (f : A -> A) n (l : list A) :
  (forall a, f (f a) = a) -> map_prefix f n (map_prefix f n l) = l.
Proof.
  intro Hf. revert l; induction n as [|n IH]; intros [|a l]; try reflexivity.
  unfold map_prefix in *. simpl. rewrite Hf. f_equal. apply IH.
Qed.

Lemma map_prefix_all {A} (f : A -> A) n (l : list A) :
  (length l <= n)%nat -> map_prefix f n l = map f l.
Proof.
  intro H. unfold map_prefix.
  rewrite firstn_all2, skipn_all2 by lia. apply app_nil_r.
Qed.

(** An element-wise loop over the first [n] entries of an array. *)
Lemma iterate_pointwise {A} (d : A) (f : A -> A) (n : nat) (pre l : list A) :
  iterate n (Z.of_nat (length pre))
          (fun i a => upd i (f (get d i a)) a) (pre ++ l)
  = pre ++ map_prefix f n l.
Proof.
  revert pre l; induction n as [|n IH]; intros pre l.
  - reflexivity.
  - destruct l as [|x l].
    + unfold map_prefix. rewrite firstn_nil, skipn_nil. cbn [map app].
      apply (iterate_inv (fun a => a = pre ++ [])); [reflexivity|].
      intros j a Hj ->. apply upd_out_of_range.
      rewrite app_nil_r. lia.
    + cbn [iterate].
      assert (Hg : get d (Z.of_nat (length pre)) (pre ++ x :: l) = x).
      { unfold get. destruct (Z.ltb_spec (Z.of_nat (length pre)) 0); [lia|].
        rewrite Nat2Z.id, app_nth2, Nat.sub_diag by lia. reflexivity. }
      assert (Hu : upd (Z.of_nat (length pre)) (f x) (pre ++ x :: l)
                   = (pre ++ [f x]) ++ l).
      { unfold upd. destruct (Z.ltb_spec (Z.of_nat (length pre)) 0); [lia|].
        rewrite Nat2Z.id, <- app_assoc. clear.
        induction pre; simpl; [reflexivity | now f_equal]. }
      rewrite Hg, Hu.
      replace (Z.of_nat (length pre) + 1)
        with (Z.of_nat (length (pre ++ [f x])))
        by (rewrite length_app; simpl; lia).
      rewrite IH, <- app_assoc. reflexivity.
Qed.

Lemma for_range_pointwise {A} (d : A) (f : A -> A) (n : Z) (l : list A) :
  for_range 0 n (fun i a => upd i (f (get d i a)) a) l
  = map_prefix f (Z.to_nat n) l.
Proof.
  unfold for_range. rewrite Z.sub_0_r.
  exact (iterate_pointwise d f (Z.to_nat n) [] l).
Qed.

Lemma upd_noop {A} (i : Z) (v : A) (l : list A) :
  ~ (0 <= i < Z.of_nat (length l)) -> upd i v l = l.
Proof.
  intro H. destruct (Z.ltb_spec i 0) as [Hi|Hi].
  - unfold upd. now apply Z.ltb_lt in Hi as ->.
  - apply upd_out_of_range. lia.
Qed.

Lemma Forall_upd {A} (P : A -> Prop) (i : Z) (v : A) (l : list A) :
  Forall P l -> P v -> Forall P (upd i v l).
Proof.
  intros Hl Hv. unfold upd. destruct (i <? 0); [exact Hl|].
  generalize (Z.to_nat i) as n.
  induction Hl as [|h t Hh Ht IH]; intros [|n]; simpl; auto.
Qed.

Lemma get_in_range {A} (P : A -> Prop) (d : A) (i : Z) (l : list A) :
  Forall P l -> P d -> P (get d i l).
Proof.
  intros Hl Hd. unfold get. destruct (i <? 0); [exact Hd|].
  destruct (nth_in_or_default (Z.to_nat i) l d) as [Hin | ->]; [|exact Hd].
  rewrite Forall_forall in Hl. now apply Hl.
Qed.

(** ** Point operations as element-wise maps *)

Lemma negative_byte_involutive (b : byte) :
  negative_byte (negative_byte b) = b.
Proof. destruct b; reflexivity. Qed.

Lemma negative_pixel_involutive (p : t_pixel) :
  negative_pixel (negative_pixel p) = p.
Proof.
  destruct p as [b g r]. unfold negative_pixel; cbn [blue green red].
  f_equal; apply negative_byte_involutive.
Qed.

Lemma bmp8_negative_data (img : t_bmp8) :
  data8 (bmp8_negative img)
  = map_prefix negative_byte (Z.to_nat (dataSize img)) (data8 img).
Proof.
  unfold bmp8_negative; cbn [data8 with_data8].
  apply (for_range_pointwise x00 negative_byte).
Qed.

Lemma with_data8_same (img : t_bmp8) : with_data8 img (data8 img) = img.
Proof. now destruct img. Qed.

Lemma with_data_same (img : t_bmp24) : with_data img (data img) = img.
Proof. now destruct img. Qed.

(** One row of a 24-bit point operation. *)
Lemma row_loop (f : t_pixel -> t_pixel) (y : Z) (n : nat) (x0 : Z)
    (d : list (list t_pixel)) :
  iterate n x0 (fun x d => set_px y x (f (get_px y x d)) d) d
  = upd y (iterate n x0 (fun x row => upd x (f (get black x row)) row)
                   (get [] y d)) d.
Proof.
  revert x0 d; induction n as [|n IH]; intros x0 d; cbn [iterate].
  - symmetry; apply upd_get_same.
  - rewrite IH. unfold set_px, get_px.
    destruct (Z_lt_dec y 0) as [Hy|Hy];
      [repeat (rewrite (upd_noop y) by (rewrite ?upd_length; lia));
       reflexivity|].
    destruct (Z_lt_dec y (Z.of_nat (length d))) as [Hy'|Hy'];
      [|repeat (rewrite (upd_noop y) by (rewrite ?upd_length; lia));
        reflexivity].
    rewrite get_upd_same by lia. apply upd_upd_same.
Qed.

Lemma map_pixels24_data (f : t_pixel -> t_pixel) (img : t_bmp24) :
  data (map_pixels24 f img)
  = map_prefix (map_prefix f (Z.to_nat (width img)))
               (Z.to_nat (height img)) (data img).
Proof.
  unfold map_pixels24; cbn [data with_data].
  rewrite <- (for_range_pointwise []). unfold for_range at 1 3.
  apply iterate_ext. intros y d _.
  unfold for_range. rewrite row_loop. f_equal.
  rewrite Z.sub_0_r.
  exact (iterate_pointwise black f (Z.to_nat (width img)) [] (get [] y d)).
Qed.

(** ** Frame conditions *)

Lemma frame_with_data8 (img : t_bmp8) (d : list byte) :
  length d = length (data8 img) ->
  same_frame (Image8 (with_data8 img d)) (Image8 img).
Proof. intro H. cbn. repeat split; assumption. Qed.

Lemma frame_with_data (img : t_bmp24) (d : list (list t_pixel)) :
  map (@length t_pixel) d = map (@length t_pixel) (data img) ->
  same_frame (Image24 (with_data img d)) (Image24 img).
Proof. intro H. cbn. repeat split; assumption. Qed.

Lemma same_frame_refl (img : image) : same_frame img img.
Proof. destruct img; cbn; repeat split. Qed.

(** A loop whose every step is an array store keeps the array's length. *)
Lemma for_range_length {A} (lo hi : Z) (body : Z -> list A -> list A)
    (l : list A) :
  (forall j a, length (body j a) = length a) ->
  length (for_range lo hi body l) = length l.
Proof.
  intro H. apply (for_range_inv (fun a => length a = length l));
    [reflexivity|]. intros j a _ <-. apply H.
Qed.

Lemma shape_upd (y : Z) (row : list t_pixel) (d : list (list t_pixel)) :
  length row = length (get [] y d) ->
  map (@length t_pixel) (upd y row d) = map (@length t_pixel) d.
Proof.
  intro H. unfold upd, get in *. destruct (y <? 0); [reflexivity|].
  revert H; generalize (Z.to_nat y) as n.
  induction d as [|r d IH]; intros [|n] H; cbn in *; try reflexivity.
  - now rewrite H.
  - f_equal. now apply IH.
Qed.

Lemma shape_set_px (y x : Z) (p : t_pixel) (d : list (list t_pixel)) :
  map (@length t_pixel) (set_px y x p d) = map (@length t_pixel) d.
Proof. unfold set_px. apply shape_upd, upd_length. Qed.

(** A loop nest whose every step stores one pixel keeps the buffer's shape. *)
Lemma pixel_loops_shape (h w : Z) (p : Z -> Z -> list (list t_pixel) -> t_pixel)
    (d : list (list t_pixel)) :
  map (@length t_pixel)
      (for_range 0 h
         (fun y d => for_range 0 w (fun x d => set_px y x (p y x d) d) d) d)
  = map (@length t_pixel) d.
Proof.
  apply (for_range_inv
           (fun a => map (@length t_pixel) a = map (@length t_pixel) d));
    [reflexivity|].
  intros y a _ Ha.
  apply (for_range_inv
           (fun a => map (@length t_pixel) a = map (@length t_pixel) d));
    [exact Ha|].
  intros x b _ Hb. now rewrite shape_set_px.
Qed.

Lemma frame8 (op : operation) (img : t_bmp8) :
  same_frame (apply_operation op (Image8 img)) (Image8 img).
Proof.
  destruct op; cbn [apply_operation]; try apply same_frame_refl.
  - apply frame_with_data8, for_range_length. intros; apply upd_length.
  - apply frame_with_data8, for_range_length. intros j a. cbv beta zeta.
    destruct (_ <? 0); [|destruct (_ >? 255)]; apply upd_length.
  - apply frame_with_data8, for_range_length. intros; apply upd_length.
  - unfold bmp8_applyFilter.
    destruct (_ || _); [apply same_frame_refl|].
    apply frame_with_data8, for_range_length. intros y a.
    apply for_range_length. intros; apply upd_length.
  - unfold bmp8_equalize.
    destruct (bmp8_computeEqualizedHistogram _ _); [|apply same_frame_refl].
    apply frame_with_data8, for_range_length. intros; apply upd_length.
Qed.

Lemma frame24 (op : operation) (img : t_bmp24) :
  same_frame (apply_operation op (Image24 img)) (Image24 img).
Proof.
  destruct op; cbn [apply_operation]; try apply same_frame_refl.
  - apply frame_with_data.
    apply (pixel_loops_shape _ _ (fun y x d => negative_pixel (get_px y x d))).
  - apply frame_with_data.
    apply (pixel_loops_shape _ _
             (fun y x d => brightness_pixel value (get_px y x d))).
  - apply frame_with_data.
    apply (pixel_loops_shape _ _ (fun y x d => grayscale_pixel (get_px y x d))).
  - unfold bmp24_applyFilter.
    destruct (_ || _); [apply same_frame_refl|].
    apply frame_with_data.
    apply (pixel_loops_shape _ _
             (fun y x _ => bmp24_convolution img x y kernel kernelSize (data img))).
  - unfold bmp24_equalize.
    destruct (for_range _ _ _ _) as [yuv_data y_int_data].
    destruct (bmp8_computeEqualizedHistogram _ _); [|apply same_frame_refl].
    apply frame_with_data.
    exact (pixel_loops_shape _ _ _ (data img)).
Qed.

(** ** Negative is an involution *)

Lemma bmp8_negative_involutive (img : t_bmp8) :
  bmp8_negative (bmp8_negative img) = img.
Proof.
  unfold bmp8_negative at 1.
  change (dataSize (bmp8_negative img)) with (dataSize img).
  rewrite (for_range_pointwise x00 negative_byte), bmp8_negative_data.
  rewrite map_prefix_involutive by apply negative_byte_involutive.
  unfold bmp8_negative, with_data8; cbn. now destruct img.
Qed.

Lemma bmp24_negative_involutive (img : t_bmp24) :
  bmp24_negative (bmp24_negative img) = img.
Proof.
  unfold bmp24_negative.
  assert (E : data (map_pixels24 negative_pixel
                      (map_pixels24 negative_pixel img)) = data img).
  { rewrite map_pixels24_data.
    change (width (map_pixels24 negative_pixel img)) with (width img).
    change (height (map_pixels24 negative_pixel img)) with (height img).
    rewrite map_pixels24_data.
    apply map_prefix_involutive. intro row.
    apply map_prefix_involutive, negative_pixel_involutive. }
  unfold map_pixels24 at 1. fold (map_pixels24 negative_pixel img) in *.
  unfold map_pixels24 in E at 1. cbn [data with_data] in E.
  change (width (map_pixels24 negative_pixel img)) with (width img) in *.
  change (height (map_pixels24 negative_pixel img)) with (height img) in *.
  rewrite E. unfold with_data. now destruct img.
Qed.

(** C9: on every valid 8-bit or 24-bit image, applying the negative
    operation twice gives back the image it started from, every pixel byte
    included. *)
Theorem negative_twice_restores (img : image) (Hvalid : valid_image img) :
  apply_operation Negative (apply_operation Negative img) = img.
Proof.
  destruct img as [i|i]; cbn [apply_operation]; f_equal.
  - apply bmp8_negative_involutive.
  - apply bmp24_negative_involutive.
Qed.

Lemma sample_img8_valid : valid8 Sample.img8.
Proof. constructor; cbn; try reflexivity; lia. Defined.

Lemma sample_img24_valid : valid24 Sample.img24.
Proof.
  constructor; cbn; try reflexivity; try (unfold CInt.INT_MAX; lia).
  repeat constructor.
Defined.

Lemma negative_twice_restores_witness :
  apply_operation Negative (apply_operation Negative (Image8 Sample.img8))
    = Image8 Sample.img8
  /\ apply_operation Negative (apply_operation Negative (Image24 Sample.img24))
    = Image24 Sample.img24.
Proof.
  split.
  - exact (negative_twice_restores (Image8 Sample.img8) sample_img8_valid).
  - exact (negative_twice_restores (Image24 Sample.img24) sample_img24_valid).
Defined.

(** ** In-place operations touch pixel bytes only *)

(** C10: every in-place operation (negative, brightness, threshold,
    grayscale, applyFilter with a valid kernel, equalize) on a valid image
    leaves width, height, colorDepth and dataSize as they were, leaves the
    54-byte header block and the 1024-byte palette of an 8-bit image (and
    both header structs of a 24-bit image) identical, and keeps the
    dimensions of the pixel buffer.  For applyFilter the kernel has the size
    it is passed with, and an 8-bit image has its pixel grid inside its
    buffer and is at least as wide and as high as the kernel radius, so
    that the filter stays inside its buffers. *)
Theorem operations_modify_pixels_only (op : operation) (img : image)
    (Hvalid : valid_image img) (Hbounds : operation_in_bounds op img) :
  same_frame (apply_operation op img) img.
Proof.
  destruct img as [i|i]; [apply frame8 | apply frame24].
Qed.

Lemma sample_sharpen_valid : valid_kernel SampleKernel.sharpen 3.
Proof. split; [reflexivity | repeat constructor]. Defined.

Lemma operations_modify_pixels_only_witness :
  let img3x3 := mk_bmp8 Sample.header_2x2 Sample.palette
                  [x01; x02; x03; x04; x05; x06; x07; x08; x09] 3 3 8 9 in
  same_frame (apply_operation (Brightness 40) (Image8 Sample.img8))
             (Image8 Sample.img8)
  /\ same_frame (apply_operation Grayscale (Image24 Sample.img24))
                (Image24 Sample.img24)
  /\ same_frame (apply_operation (ApplyFilter SampleKernel.sharpen 3)
                                 (Image8 img3x3))
                (Image8 img3x3)
  /\ same_frame (apply_operation (ApplyFilter SampleKernel.sharpen 3)
                                 (Image24 Sample.img24))
                (Image24 Sample.img24).
Proof.
  intro img3x3. split; [|split; [|split]].
  - exact (operations_modify_pixels_only (Brightness 40) (Image8 Sample.img8)
             sample_img8_valid I).
  - exact (operations_modify_pixels_only Grayscale (Image24 Sample.img24)
             sample_img24_valid I).
  - apply (operations_modify_pixels_only (ApplyFilter SampleKernel.sharpen 3)
             (Image8 img3x3)).
    + constructor; cbn; try reflexivity; lia.
    + split; [exact sample_sharpen_valid|]. cbn. lia.
  - apply (operations_modify_pixels_only (ApplyFilter SampleKernel.sharpen 3)
             (Image24 Sample.img24) sample_img24_valid).
    split; [exact sample_sharpen_valid | exact I].
Defined.

(** ** The 2x2 equalisation scenario *)

(** C7: for a 2x2 8-bit image with pixel bytes 10, 20, 30, 40 and dataSize 4
    (whatever its header and palette), the histogram counts 1 at 10, 20, 30
    and 40 and 0 elsewhere; on that histogram with numPixels = 4 the
    cumulative minimum is 1 and the equalisation table maps 10 to 0 and 40
    to 255. *)
Theorem scenario_2x2_equalization (hdr table : list byte) (depth : Z) :
  let img := mk_bmp8 hdr table Sample.pixels_2x2 2 2 depth 4 in
  let hist := bmp8_computeHistogram img in
  hist = map (fun i => if (i =? 10) || (i =? 20) || (i =? 30) || (i =? 40)
                       then 1 else 0) (range 256)
  /\ find_cdfmin (compute_cdf hist) = 1
  /\ exists lut, bmp8_computeEqualizedHistogram hist 4 = Some lut
                 /\ length lut = 256%nat
                 /\ get 0 10 lut = 0 /\ get 0 40 lut = 255.
Proof.
  intros img hist.
  assert (E : hist = bmp8_computeHistogram Sample.img8) by reflexivity.
  rewrite E. clear.
  split; [vm_compute; reflexivity|].
  split; [vm_compute; reflexivity|].
  eexists. split; [vm_compute; reflexivity|].
  repeat split.
Qed.

(** ** Loading an 8-bit image *)

Lemma field_range (off len : nat) (block : list byte) :
  0 <= field off len block < 256 ^ Z.of_nat len.
Proof.
  unfold field.
  pose proof (le_decode_range (firstn len (skipn off block))) as H.
  pose proof (firstn_le_length len (skipn off block)) as Hl.
  assert (256 ^ Z.of_nat (length (firstn len (skipn off block)))
          <= 256 ^ Z.of_nat len) by (apply Z.pow_le_mono_r; lia).
  lia.
Qed.

Lemma u32_range (z : Z) : 0 <= CInt.u32 z < 4294967296.
Proof. unfold CInt.u32. apply Z.mod_pos_bound. lia. Qed.

(** What a successful [bmp8_loadImage] returns. *)
Lemma bmp8_loadImage_inv (f : list byte) (img : t_bmp8) :
  bmp8_loadImage f = Some img ->
  header8 img = firstn 54 f
  /\ length (header8 img) = 54%nat
  /\ colorTable img = firstn 1024 (skipn 54 f)
  /\ length (colorTable img) = 1024%nat
  /\ nth 0 f x00 = "B"%byte /\ nth 1 f x00 = "M"%byte
  /\ width8 img = field 18 4 (header8 img)
  /\ height8 img = field 22 4 (header8 img)
  /\ colorDepth8 img = 8 /\ field 28 2 (header8 img) = 8
  /\ dataSize img = (if field 34 4 (header8 img) =? 0
                     then CInt.u32 (width8 img * height8 img)
                     else field 34 4 (header8 img))
  /\ data8 img = firstn (Z.to_nat (dataSize img))
                        (skipn (Z.to_nat (field 10 4 (header8 img))) f)
  /\ Z.of_nat (length (data8 img)) = dataSize img.
Proof.
  unfold bmp8_loadImage, fread, fopen_rb, fseek. cbn [bytes cursor].
  change (skipn 0 f) with f.
  remember (firstn 54 f) as hdr eqn:Ehdr.
  destruct (Nat.ltb_spec (length hdr) 54) as [|Hh]; [discriminate|].
  assert (Hlen : length hdr = 54%nat)
    by (pose proof (firstn_le_length 54 f); subst hdr; lia).
  rewrite Hlen, Nat.add_0_l. subst hdr.
  destruct (negb (Byte.eqb (nth 0 (firstn 54 f) x00) "B")
            || negb (Byte.eqb (nth 1 (firstn 54 f) x00) "M")) eqn:Hsig;
    [discriminate|].
  destruct (Z.eqb_spec (field 28 2 (firstn 54 f)) 8) as [Hd|];
    [|discriminate]. cbn [negb].
  destruct (Nat.ltb_spec (length (firstn 1024 (skipn 54 f))) 1024) as [|Ht];
    [discriminate|].
  set (ds := if field 34 4 (firstn 54 f) =? 0
             then CInt.u32 (field 18 4 (firstn 54 f) * field 22 4 (firstn 54 f))
             else field 34 4 (firstn 54 f)).
  destruct (Nat.ltb_spec
              (length (firstn (Z.to_nat ds)
                         (skipn (Z.to_nat (field 10 4 (firstn 54 f))) f)))
              (Z.to_nat ds)) as [|Hp]; [discriminate|].
  intro E.
  match type of E with
  | Some ?x = _ => assert (Ei : img = x) by congruence; clear E
  end.
  subst img.
  cbv beta iota delta [header8 colorTable data8 width8 height8 colorDepth8
                       dataSize].
  apply orb_false_elim in Hsig as [HB HM].
  apply negb_false_iff, Byte.byte_dec_bl in HB.
  apply negb_false_iff, Byte.byte_dec_bl in HM.
  assert (Hn : forall k, (k < 54)%nat -> nth k (firstn 54 f) x00 = nth k f x00).
  { intros k Hk. rewrite <- (firstn_skipn 54 f) at 2.
    rewrite app_nth1 by lia. reflexivity. }
  rewrite Hn in HB, HM by lia.
  assert (Hds : 0 <= ds).
  { unfold ds. destruct (_ =? 0); [apply u32_range | apply field_range]. }
  pose proof (firstn_le_length 1024 (skipn 54 f)).
  pose proof (firstn_le_length (Z.to_nat ds)
                (skipn (Z.to_nat (field 10 4 (firstn 54 f))) f)).
  repeat (match goal with |- _ /\ _ => split end); auto; try lia.
Qed.

(** C6 (as amended): a successfully loaded 8-bit image has [dataSize] pixel
    bytes, where [dataSize] is [width * height] (in unsigned 32-bit
    arithmetic) when the header field at bytes 34..37 reads 0 and otherwise is
    that header field as it stands, whether or not it equals
    [width * height]. *)
Theorem loaded_dataSize (f : list byte) (img : t_bmp8)
    (Hload : bmp8_loadImage f = Some img) :
  dataSize img = (if field 34 4 f =? 0
                  then (width8 img * height8 img) mod 4294967296
                  else field 34 4 f)
  /\ width8 img = field 18 4 f /\ height8 img = field 22 4 f
  /\ valid8 img.
Proof.
  destruct (bmp8_loadImage_inv f img Hload)
    as (Hh & Hhl & Ht & Htl & _ & _ & Hw & Hhe & _ & _ & Hds & Hd & Hdl).
  assert (Hf : forall off len, (off + len <= 54)%nat ->
                 field off len (header8 img) = field off len f).
  { intros off len Hol. unfold field. rewrite Hh. f_equal.
    rewrite skipn_firstn_comm, firstn_firstn. f_equal. lia. }
  rewrite !Hf in * by lia.
  split; [exact Hds|]. split; [exact Hw|]. split; [exact Hhe|].
  pose proof (field_range 18 4 f). pose proof (field_range 22 4 f).
  pose proof (field_range 34 4 f).
  pose proof (u32_range (width8 img * height8 img)).
  constructor; auto; try (rewrite ?Hw, ?Hhe; cbn in *; lia).
  rewrite Hds. destruct (_ =? 0); cbn in *; lia.
Qed.

Lemma loaded_dataSize_witness :
  bmp8_loadImage Sample.file8 = Some Sample.img8
  /\ (dataSize Sample.img8
        = (if field 34 4 Sample.file8 =? 0
           then (width8 Sample.img8 * height8 Sample.img8) mod 4294967296
           else field 34 4 Sample.file8)
      /\ width8 Sample.img8 = field 18 4 Sample.file8
      /\ height8 Sample.img8 = field 22 4 Sample.file8
      /\ valid8 Sample.img8).
Proof.
  assert (H : bmp8_loadImage Sample.file8 = Some Sample.img8)
    by (vm_compute; reflexivity).
  split; [exact H | exact (loaded_dataSize Sample.file8 Sample.img8 H)].
Defined.

(** C6 as stated fails: a 3x1 file whose header records the 4 bytes of its
    padded row loads with [dataSize = 4], not [width * height = 3]. *)
Lemma loaded_dataSize_counterexample :
  exists img, bmp8_loadImage Sample8Padded.file8 = Some img
    /\ dataSize img = 4 /\ width8 img * height8 img = 3
    /\ dataSize img <> width8 img * height8 img.
Proof.
  eexists. split; [vm_compute; reflexivity|].
  cbn. repeat split; lia.
Qed.

(** ** Allocation *)

Lemma range_length (n : Z) : length (range n) = Z.to_nat n.
Proof. unfold range. now rewrite length_map, length_seq. Qed.



(** The row size computed in [size_t] is the padded row size modulo 2^32. *)
Lemma row_size_of_spec (w : Z) :
  0 < w <= CInt.INT_MAX ->
  row_size_of w = rowSizePadded w mod 4294967296.
Proof.
  unfold CInt.INT_MAX, row_size_of, rowSizePadded, CInt.u32, CInt.u64,
    sizeof_t_pixel.
  intro H.
  rewrite (Z.mod_small w) by lia.
  rewrite (Z.mod_small (w * 3)) by lia.
  rewrite (Z.mod_small (w * 3 * 8)) by lia.
  rewrite (Z.mod_small (w * 3 * 8 + 31)) by lia.
  assert (E : (w * 3 * 8 + 31) / 32 = (w * 3 + 3) / 4).
  { Z.div_mod_to_equations. lia. }
  rewrite E.
  assert (0 <= (w * 3 + 3) / 4 < 4294967296).
  { split; [apply Z.div_pos; lia | apply Z.div_lt_upper_bound; lia]. }
  rewrite (Z.mod_small ((w * 3 + 3) / 4 * 4)) by lia. reflexivity.
Qed.

Lemma abs_pos (h : Z) : 0 < h <= CInt.INT_MAX -> CInt.u32 (CInt.abs h) = h.
Proof.
  unfold CInt.INT_MAX, CInt.abs, CInt.s32, CInt.u32. intro H.
  rewrite Z.abs_eq, (Z.mod_small h) by lia.
  destruct (Z.ltb_spec h 2147483648); [|lia].
  apply Z.mod_small; lia.
Qed.




(** ** A truncated 24-bit file *)

(** C2 (the code at the failing input): the 3x2 file cut after its first
    stored row has valid headers and too little pixel data, yet
    [bmp24_loadImage] does not fail.  It returns an image whose bottom row was
    read from the file and whose top row still holds the indeterminate
    contents of the freshly allocated buffer. *)
Theorem truncated_load_returns_image (junk : Indeterminate) :
  exists img,
    bmp24_loadImage junk SampleTruncated.file24 = Some img
    /\ width img = 3 /\ height img = 2
    /\ get [] 1 (data img) = [Sample.px 40; Sample.px 50; Sample.px 60]
    /\ get [] 0 (data img)
       = [heap_pixel junk 0 0; heap_pixel junk 0 1; heap_pixel junk 0 2].
Proof.
  eexists. split; [vm_compute; reflexivity|].
  repeat split.
Qed.

(** ** Reading the rows of a 24-bit file *)

Lemma field_app (off len : nat) (a b : list byte) :
  (off + len <= length a)%nat -> field off len (a ++ b) = field off len a.
Proof.
  intro H. unfold field. f_equal.
  rewrite skipn_app, firstn_app.
  replace (len - length (skipn off a))%nat with 0%nat
    by (rewrite length_skipn; lia).
  rewrite firstn_O. apply app_nil_r.
Qed.

Lemma field_firstn (off len n : nat) (f : list byte) :
  (off + len <= n)%nat -> field off len (firstn n f) = field off len f.
Proof.
  intro H. unfold field. f_equal.
  rewrite skipn_firstn_comm, firstn_firstn. f_equal. lia.
Qed.

Lemma decode_header_app (a b : list byte) :
  length a = 14%nat -> decode_header (a ++ b) = decode_header a.
Proof.
  intro H. unfold decode_header. now rewrite !field_app by lia.
Qed.

Lemma decode_info_app (a b : list byte) :
  length a = 40%nat -> decode_info (a ++ b) = decode_info a.
Proof.
  intro H. unfold decode_info. now rewrite !field_app by lia.
Qed.

Lemma row_pixels_length (w : nat) (bs : list byte) :
  length bs = (3 * w)%nat -> length (row_pixels bs) = w.
Proof.
  revert bs; induction w as [|w IH]; intros bs H.
  - destruct bs; [reflexivity | discriminate].
  - destruct bs as [|b [|g [|r bs]]]; cbn in H; try lia.
    cbn [row_pixels length]. f_equal. apply IH. lia.
Qed.

Lemma row_bytes_pixels (w : nat) (bs : list byte) :
  length bs = (3 * w)%nat -> row_bytes (row_pixels bs) = bs.
Proof.
  revert bs; induction w as [|w IH]; intros bs H.
  - destruct bs; [reflexivity | discriminate].
  - destruct bs as [|b [|g [|r bs]]]; cbn in H; try lia.
    cbn [row_pixels]. unfold row_bytes in *. cbn [flat_map blue green red app].
    do 3 f_equal. apply IH. lia.
Qed.

Lemma overwrite_all {A} (src dst : list A) :
  (length dst <= length src)%nat -> overwrite src dst = src.
Proof.
  intro H. unfold overwrite. rewrite skipn_all2 by lia. apply app_nil_r.
Qed.

(** When the file holds [k] more full rows, the loop reads them all: the
    row read [j]-th lands in row [k-1-j], the rows from [k] on are kept. *)
Lemma read_rows_complete (w padded : nat) (b : list byte) (k : nat) :
  forall (c : nat) (rows : list (list t_pixel)),
    (3 * w <= padded)%nat ->
    (c + k * padded <= length b)%nat ->
    (k <= length rows)%nat ->
    Forall (fun row => length row = w) rows ->
    exists rows',
      fst (read_rows k padded (3 * w) (mkFILE b c) rows) = rows'
      /\ length rows' = length rows
      /\ Forall (fun row => length row = w) rows'
      /\ forall y : nat,
           nth y rows' [] =
           if (y <? k)%nat
           then row_pixels (firstn (3 * w) (skipn (c + (k - 1 - y) * padded) b))
           else nth y rows [].
Proof.
  induction k as [|k IH]; intros c rows Hpad Hlen Hk Hrows.
  - exists rows. cbn [read_rows fst]. repeat split; auto.
  - cbn [read_rows]. unfold fread. cbn [bytes cursor].
    assert (Hbuf : length (firstn padded (skipn c b)) = padded).
    { rewrite length_firstn, length_skipn. lia. }
    rewrite Hbuf, Nat.ltb_irrefl.
    set (row := overwrite (row_pixels (firstn (3 * w) (firstn padded (skipn c b))))
                          (get [] (Z.of_nat k) rows)).
    assert (Hrow : row = row_pixels (firstn (3 * w) (skipn c b))).
    { unfold row. rewrite firstn_firstn, Nat.min_l by lia.
      apply overwrite_all.
      rewrite (row_pixels_length w)
        by (rewrite length_firstn, length_skipn; lia).
      assert (Hg : length (get [] (Z.of_nat k) rows) = w
                   \/ length (get [] (Z.of_nat k) rows) = 0%nat).
      { apply (get_in_range (fun r => length r = w \/ length r = 0%nat));
          [|now right].
        eapply Forall_impl; [|exact Hrows]. intros; now left. }
      lia. }
    rewrite Hrow. clear row Hrow.
    assert (Hw' : length (row_pixels (firstn (3 * w) (skipn c b))) = w).
    { apply row_pixels_length. rewrite length_firstn, length_skipn. lia. }
    destruct (IH (c + padded)%nat
                 (upd (Z.of_nat k) (row_pixels (firstn (3 * w) (skipn c b))) rows))
      as (rows' & E & Hl & Hf & Hn).
    + exact Hpad.
    + cbn in Hlen. lia.
    + rewrite upd_length. lia.
    + apply Forall_upd; assumption.
    + exists rows'. split; [exact E|]. rewrite upd_length in Hl.
      split; [exact Hl|]. split; [exact Hf|].
      intro y. rewrite Hn.
      destruct (Nat.ltb_spec y k) as [Hy|Hy].
      * destruct (Nat.ltb_spec y (S k)); [|lia].
        do 3 f_equal. nia.
      * destruct (Nat.eq_dec y k) as [->|Hne].
        -- destruct (Nat.ltb_spec k (S k)); [|lia].
           pose proof (get_upd_same [] (Z.of_nat k)
                         (row_pixels (firstn (3 * w) (skipn c b))) rows
                         ltac:(lia)) as Hg.
           unfold get in Hg. destruct (Z.ltb_spec (Z.of_nat k) 0); [lia|].
           rewrite Nat2Z.id in Hg. rewrite Hg.
           do 3 f_equal. nia.
        -- destruct (Nat.ltb_spec y (S k)); [lia|].
           pose proof (get_upd_other [] (Z.of_nat k) (Z.of_nat y)
                         (row_pixels (firstn (3 * w) (skipn c b))) rows
                         ltac:(lia)) as Hg.
           unfold get in Hg. destruct (Z.ltb_spec (Z.of_nat y) 0); [lia|].
           now rewrite Nat2Z.id in Hg.
Qed.

Lemma s32_small (z : Z) : 0 <= z <= CInt.INT_MAX -> CInt.s32 z = z.
Proof.
  unfold CInt.INT_MAX, CInt.s32, CInt.u32. intro H.
  rewrite Z.mod_small by lia. destruct (Z.ltb_spec z 2147483648); lia.
Qed.

Lemma s32_range (z : Z) : CInt.INT_MIN <= CInt.s32 z <= CInt.INT_MAX.
Proof.
  unfold CInt.INT_MIN, CInt.INT_MAX, CInt.s32, CInt.u32.
  pose proof (Z.mod_pos_bound z 4294967296 ltac:(lia)).
  destruct (Z.ltb_spec (z mod 4294967296) 2147483648); lia.
Qed.

Lemma u32_small (z : Z) : 0 <= z < 4294967296 -> CInt.u32 z = z.
Proof. unfold CInt.u32. intro H. apply Z.mod_small; lia. Qed.

(** The padded row size as the pixel readers and writers compute it. *)
Lemma padded_row (w : Z) :
  0 < w -> w * 3 + 3 <= CInt.INT_MAX ->
  CInt.u32 (CInt.s32 (w * 3)) = w * 3
  /\ CInt.u32 (CInt.u32 (CInt.s32 (w * 3))
               + CInt.u32 (CInt.u32 (4 - CInt.u32 (CInt.s32 (w * 3)) mod 4) mod 4))
     = rowSizePadded w
  /\ w * 3 <= rowSizePadded w <= w * 3 + 3.
Proof.
  intros Hw Hmax. unfold CInt.INT_MAX in Hmax.
  rewrite s32_small by (unfold CInt.INT_MAX; lia).
  rewrite (u32_small (w * 3)) by lia.
  assert (Hm : 0 <= (w * 3) mod 4 < 4) by (apply Z.mod_pos_bound; lia).
  rewrite (u32_small (4 - (w * 3) mod 4)) by lia.
  assert (Hp : 0 <= (4 - (w * 3) mod 4) mod 4 < 4)
    by (apply Z.mod_pos_bound; lia).
  rewrite (u32_small ((4 - (w * 3) mod 4) mod 4)) by lia.
  assert (E : w * 3 + (4 - (w * 3) mod 4) mod 4 = rowSizePadded w).
  { unfold rowSizePadded. Z.div_mod_to_equations. lia. }
  rewrite E.
  assert (w * 3 <= rowSizePadded w <= w * 3 + 3)
    by (unfold rowSizePadded; Z.div_mod_to_equations; lia).
  rewrite u32_small by lia. auto.
Qed.

Lemma get_nth {A} (d : A) (y : Z) (l : list A) :
  0 <= y -> get d y l = nth (Z.to_nat y) l d.
Proof. intro H. unfold get. destruct (Z.ltb_spec y 0); [lia | reflexivity]. Qed.

(** What [bmp24_loadImage] returns for a file whose headers pass its checks
    and whose pixel data is all there. *)
Lemma bmp24_loadImage_complete (junk : Indeterminate) (f : list byte) :
  headers_validate f ->
  file_width f * 3 + 3 <= CInt.INT_MAX ->
  pixel_data_complete f ->
  exists img,
    bmp24_loadImage junk f = Some img
    /\ header img = file_header f
    /\ header_info img = file_info f
    /\ width img = file_width f
    /\ height img = file_height f
    /\ colorDepth img = 24
    /\ valid24 img
    /\ forall y, 0 <= y < file_height f ->
         get [] y (data img) = file_row f (file_height f - 1 - y).
Proof.
  intros [Hlen Hty Hbits Hcomp Hw Hh] Hmax Hdata.
  unfold pixel_data_complete in Hdata.
  unfold bmp24_loadImage, file_rawRead, fread, fopen_rb, fseek, BMP_HEADER_SIZE.
  cbn [bytes cursor]. change (Z.to_nat 0) with 0%nat.
  change (Z.to_nat 14) with 14%nat. change (skipn 0 f) with f.
  change (14 * 1)%nat with 14%nat. change (40 * 1)%nat with 40%nat.
  assert (L14 : length (firstn 14 f) = 14%nat) by (rewrite length_firstn; lia).
  assert (L40 : length (firstn 40 (skipn 14 f)) = 40%nat)
    by (rewrite length_firstn, length_skipn; lia).
  rewrite decode_header_app, decode_info_app by assumption.
  fold (file_header f) (file_info f).
  rewrite Hty, Hbits, Hcomp. unfold DEFAULT_COLOR_DEPTH.
  rewrite !Z.eqb_refl. cbn [negb].
  fold (file_width f) (file_height f).
  pose proof (s32_range (Z.abs (info_height (file_info f)))) as Hhr.
  fold (CInt.abs (info_height (file_info f))) in Hhr. fold (file_height f) in Hhr.
  destruct (Z.leb_spec (file_width f) 0); [lia|].
  destruct (Z.leb_spec (file_height f) 0); [lia|]. cbn [orb].
  unfold bmp24_allocate, bmp24_allocateDataPixels.
  destruct (Z.leb_spec (file_width f) 0); [lia|].
  destruct (Z.leb_spec (file_height f) 0); [lia|]. cbn [orb data].
  unfold bmp24_readPixelData, fseek.
  cbn [header header_info width height data bytes cursor with_data].
  rewrite Hbits. change (24 / 8) with 3. cbn [Z.eqb negb Pos.eqb].
  destruct (padded_row (file_width f) Hw Hmax) as (Eu & Ep & Hpr).
  rewrite Ep, Eu.
  set (w := Z.to_nat (file_width f)).
  set (rows0 := map (fun y => map (fun x => heap_pixel junk y x)
                                  (range (file_width f)))
                    (range (file_height f))).
  assert (Hrows0 : Forall (fun row => length row = w) rows0).
  { apply Forall_forall. intros row Hin. apply in_map_iff in Hin.
    destruct Hin as (y & <- & _). now rewrite length_map, range_length. }
  assert (Hl0 : length rows0 = Z.to_nat (file_height f))
    by (unfold rows0; now rewrite length_map, range_length).
  replace (Z.to_nat (file_width f * 3)) with (3 * w)%nat by lia.
  destruct (read_rows_complete w (Z.to_nat (rowSizePadded (file_width f))) f
              (Z.to_nat (file_height f))
              (Z.to_nat (hdr_offset (file_header f))) rows0)
    as (rows' & E & Hl & Hf & Hn); try lia.
  { assert (0 <= hdr_offset (file_header f)) by apply field_range. nia. }
  { exact Hrows0. }
  destruct (read_rows _ _ _ _ rows0) as [rows1 file1]. cbn [fst] in E. subst rows1.
  eexists. split; [reflexivity|].
  cbn [header header_info width height colorDepth data with_data].
  repeat (match goal with |- _ /\ _ => split end); auto.
  - assert (Hwr : file_width f <= CInt.INT_MAX)
      by (unfold file_width, file_info, decode_info; cbn [info_width];
          apply s32_range).
    constructor; cbn [width height data with_data]; try lia.
    eapply Forall_impl; [|exact Hf]. intros row Hr. cbv beta in Hr. lia.
  - intros y Hy. rewrite get_nth by lia. rewrite Hn.
    destruct (Nat.ltb_spec (Z.to_nat y) (Z.to_nat (file_height f))); [|lia].
    unfold file_row.
    assert (0 <= hdr_offset (file_header f)) by apply field_range.
    replace (Z.to_nat (file_width f * 3)) with (3 * w)%nat by lia.
    do 3 f_equal. nia.
Qed.

Lemma file_height_abs (f : list byte) :
  0 < file_height f -> file_height f = Z.abs (info_height (file_info f)).
Proof.
  unfold file_height, CInt.abs. intro H.
  pose proof (s32_range (field 8 4 (firstn 40 (skipn 14 f)))) as Hr.
  change (CInt.s32 (field 8 4 (firstn 40 (skipn 14 f))))
    with (info_height (file_info f)) in Hr.
  unfold CInt.INT_MIN, CInt.INT_MAX in Hr.
  destruct (Z.eq_dec (info_height (file_info f)) (-2147483648)) as [E|E].
  - rewrite E in H. vm_compute in H. discriminate.
  - apply s32_small. unfold CInt.INT_MAX. lia.
Qed.

(** C4 (as amended): for every 24-bit file whose headers validate and whose
    pixel data is complete, the buffer has |height| rows and the k-th row
    stored in the file lands in in-memory row |height|-1-k, whatever the sign
    of the height field.  So for a positive height (rows stored bottom-up)
    in-memory row 0 is the top row of the picture, and for a negative height
    (rows stored top-down) the buffer is upside down: in-memory row [y] is
    picture row |height|-1-y, and row 0 holds the bottom row. *)
Theorem rows_follow_file_order (junk : Indeterminate) (f : list byte)
    (Hheaders : headers_validate f)
    (Hwidth : file_width f * 3 + 3 <= CInt.INT_MAX)
    (Hdata : pixel_data_complete f) :
  exists img,
    bmp24_loadImage junk f = Some img
    /\ height img = Z.abs (info_height (file_info f))
    /\ Z.of_nat (length (data img)) = height img
    /\ forall y, 0 <= y < height img ->
         get [] y (data img) = file_row f (height img - 1 - y)
         /\ get [] y (data img)
            = (if info_height (file_info f) <? 0
               then picture_row f (height img - 1 - y)
               else picture_row f y).
Proof.
  destruct (bmp24_loadImage_complete junk f Hheaders Hwidth Hdata)
    as (img & Hload & _ & _ & _ & Hh & _ & Hvalid & Hrows).
  exists img. split; [exact Hload|].
  split; [rewrite Hh; apply file_height_abs, Hheaders|].
  split; [apply Hvalid|].
  intros y Hy. rewrite Hh in *. split; [now apply Hrows|].
  rewrite Hrows by assumption. unfold picture_row.
  destruct (info_height (file_info f) <? 0); reflexivity.
Qed.

Lemma sample_file24_headers : headers_validate Sample.file24.
Proof.
  constructor; try (vm_compute; reflexivity).
  apply Nat.leb_le. vm_compute. reflexivity.
Defined.

Lemma sample_file24_complete :
  file_width Sample.file24 * 3 + 3 <= CInt.INT_MAX
  /\ pixel_data_complete Sample.file24.
Proof. split; vm_compute; discriminate. Defined.

Lemma rows_follow_file_order_witness :
  exists img,
    bmp24_loadImage Sample.junk Sample.file24 = Some img
    /\ height img = Z.abs (info_height (file_info Sample.file24))
    /\ Z.of_nat (length (data img)) = height img
    /\ forall y, 0 <= y < height img ->
         get [] y (data img) = file_row Sample.file24 (height img - 1 - y)
         /\ get [] y (data img)
            = (if info_height (file_info Sample.file24) <? 0
               then picture_row Sample.file24 (height img - 1 - y)
               else picture_row Sample.file24 y).
Proof.
  exact (rows_follow_file_order Sample.junk Sample.file24
           sample_file24_headers (proj1 sample_file24_complete)
           (proj2 sample_file24_complete)).
Defined.

(** C4 as stated fails: in the 3x2 file stored top-down (height field -2)
    the top row of the picture is 10, 20, 30, but after loading in-memory
    row 0 holds 40, 50, 60, the bottom row. *)
Lemma top_down_counterexample :
  exists img,
    bmp24_loadImage Sample.junk SampleTopDown.file24 = Some img
    /\ info_height (file_info SampleTopDown.file24) = -2
    /\ height img = 2
    /\ picture_row SampleTopDown.file24 0
       = [Sample.px 10; Sample.px 20; Sample.px 30]
    /\ get [] 0 (data img) = [Sample.px 40; Sample.px 50; Sample.px 60]
    /\ get [] 0 (data img) <> picture_row SampleTopDown.file24 0.
Proof.
  eexists. split; [vm_compute; reflexivity|].
  split; [vm_compute; reflexivity|].
  split; [reflexivity|].
  split; [vm_compute; reflexivity|].
  split; [vm_compute; reflexivity|].
  vm_compute. discriminate.
Qed.

(** ** Saving *)

Lemma fwrite_at_end (buf b : list byte) :
  fwrite buf (mkFILE b (length b)) = mkFILE (b ++ buf) (length b + length buf).
Proof.
  unfold fwrite. cbn [bytes cursor].
  rewrite firstn_all, Nat.sub_diag, skipn_all2 by lia.
  cbn [repeat]. now rewrite !app_nil_r.
Qed.

Lemma le_encode_field (off len : nat) (b : list byte) :
  (off + len <= length b)%nat ->
  le_encode len (field off len b) = firstn len (skipn off b).
Proof.
  intro H. unfold field.
  assert (L : length (firstn len (skipn off b)) = len)
    by (rewrite length_firstn, length_skipn; lia).
  rewrite <- L at 1. apply le_encode_decode.
Qed.

Lemma le_encode_s32 (z : Z) : le_encode 4 (CInt.s32 z) = le_encode 4 z.
Proof.
  rewrite <- (le_encode_mod 4 (CInt.s32 z)), <- (le_encode_mod 4 z).
  f_equal. change (256 ^ Z.of_nat 4) with 4294967296.
  unfold CInt.s32, CInt.u32.
  destruct (z mod 4294967296 <? 2147483648).
  - apply Z.mod_mod; lia.
  - rewrite <- (Z.mod_add _ 1) by lia.
    replace (z mod 4294967296 - 4294967296 + 1 * 4294967296)
      with (z mod 4294967296) by lia.
    apply Z.mod_mod; lia.
Qed.

(** Consecutive chunks of a block put it back together. *)
Lemma chunk_split {A} (n : nat) (l : list A) :
  firstn n l ++ skipn n l = l.
Proof. apply firstn_skipn. Qed.

Lemma encode_decode_header (b : list byte) :
  length b = 14%nat -> encode_header (decode_header b) = b.
Proof.
  intro H. unfold encode_header, decode_header.
  cbn [hdr_type hdr_size hdr_reserved1 hdr_reserved2 hdr_offset].
  rewrite !le_encode_field by lia.
  do 15 (destruct b as [|? b]; try discriminate). reflexivity.
Qed.

Lemma encode_decode_info (b : list byte) :
  length b = 40%nat -> encode_info (decode_info b) = b.
Proof.
  intro H. unfold encode_info, decode_info.
  cbn [info_size info_width info_height info_planes info_bits
       info_compression info_imagesize info_xresolution info_yresolution
       info_ncolors info_importantcolors].
  rewrite !le_encode_s32, !le_encode_field by lia.
  do 41 (destruct b as [|? b]; try discriminate). reflexivity.
Qed.

Lemma encode_header_length (h : t_bmp_header) : length (encode_header h) = 14%nat.
Proof. reflexivity. Qed.

Lemma encode_info_length (i : t_bmp_info) : length (encode_info i) = 40%nat.
Proof. reflexivity. Qed.

(** The write loop appends the rows, last row first, each followed by the
    zero padding. *)
Lemma write_rows_append (unpadded padded : nat) (rows : list (list t_pixel))
    (k : nat) :
  forall (b buf : list byte),
    (unpadded <= padded)%nat ->
    length buf = padded ->
    skipn unpadded buf = repeat x00 (padded - unpadded) ->
    (forall y, (y < k)%nat -> length (row_bytes (nth y rows [])) = unpadded) ->
    bytes (write_rows k unpadded buf rows (mkFILE b (length b)))
    = b ++ concat (map (fun y => row_bytes (nth y rows [])
                                 ++ repeat x00 (padded - unpadded))
                       (rev (seq 0 k))).
Proof.
  induction k as [|k IH]; intros b buf Hle Hbuf Hpad Hrows.
  - cbn. now rewrite app_nil_r.
  - cbn [write_rows].
    rewrite get_nth, Nat2Z.id by lia.
    assert (Hrow : length (row_bytes (nth k rows [])) = unpadded)
      by (apply Hrows; lia).
    rewrite (firstn_all2 (n := unpadded) (row_bytes (nth k rows []))) by lia.
    set (buf' := overwrite (row_bytes (nth k rows [])) buf).
    assert (Ebuf : buf' = row_bytes (nth k rows []) ++ repeat x00 (padded - unpadded)).
    { unfold buf', overwrite. now rewrite Hrow, Hpad. }
    rewrite fwrite_at_end.
    replace (length b + length buf')%nat with (length (b ++ buf'))
      by (now rewrite length_app).
    rewrite IH.
    + rewrite seq_S, rev_app_distr. cbn [rev app map concat Nat.add].
      rewrite <- app_assoc, Ebuf. reflexivity.
    + exact Hle.
    + rewrite Ebuf, length_app, repeat_length. lia.
    + rewrite Ebuf, skipn_app, Hrow, Nat.sub_diag, skipn_all2 by lia.
      reflexivity.
    + intros y Hy. apply Hrows. lia.
Qed.

Lemma map_rev_seq {A} (F : nat -> A) (n : nat) :
  map (fun y => F (n - 1 - y)%nat) (rev (seq 0 n)) = map F (seq 0 n).
Proof.
  apply nth_ext with (d := F (n - 1 - 0)%nat) (d' := F 0%nat).
  - now rewrite !length_map, length_rev.
  - intros i Hi. rewrite length_map, length_rev, length_seq in Hi.
    rewrite (map_nth (fun y => F (n - 1 - y)%nat)), (map_nth F).
    rewrite rev_nth, length_seq, !seq_nth by (rewrite ?length_seq; lia).
    f_equal. lia.
Qed.

(** A block of [n] chunks of [p] bytes is the concatenation of its chunks. *)
Lemma concat_chunks {A} (p n : nat) :
  forall l : list A,
    length l = (n * p)%nat ->
    concat (map (fun k => firstn p (skipn (k * p) l)) (seq 0 n)) = l.
Proof.
  induction n as [|n IH]; intros l H.
  - destruct l; [reflexivity | discriminate].
  - rewrite seq_S, map_app, concat_app. cbn [map concat Nat.add].
    rewrite app_nil_r.
    transitivity (firstn (n * p) l ++ skipn (n * p) l);
      [|apply firstn_skipn].
    f_equal.
    + etransitivity; [|apply (IH (firstn (n * p) l)); rewrite length_firstn; nia].
      f_equal. apply map_ext_in. intros k Hk. apply in_seq in Hk.
      rewrite skipn_firstn_comm, firstn_firstn. f_equal. nia.
    + apply firstn_all2. rewrite length_skipn. nia.
Qed.

Lemma fwrite_end (buf b : list byte) (c : nat) :
  c = length b ->
  fwrite buf (mkFILE b c) = mkFILE (b ++ buf) (length (b ++ buf)).
Proof. intros ->. rewrite fwrite_at_end, length_app. reflexivity. Qed.

Lemma nth_firstn {A} (d : A) (k n : nat) (l : list A) :
  (k < n)%nat -> nth k (firstn n l) d = nth k l d.
Proof.
  revert k l; induction n as [|n IH]; intros k l H; [lia|].
  destruct l as [|a l]; [now destruct k|].
  destruct k as [|k]; [reflexivity|]. cbn. apply IH. lia.
Qed.

(** An 8-bit file in canonical form loads, and saving the image writes the
    same bytes. *)
Lemma bmp8_roundtrip (f : list byte) :
  canonical8 f ->
  exists img, bmp8_loadImage f = Some img /\ bmp8_saveImage img = f.
Proof.
  intros [HB HM Hdepth Hoff Hlen].
  set (ds := if field 34 4 f =? 0
             then (field 18 4 f * field 22 4 f) mod 4294967296
             else field 34 4 f) in *.
  assert (Hds : 0 <= ds).
  { unfold ds. destruct (_ =? 0);
      [apply Z.mod_pos_bound; lia | apply field_range]. }
  exists (mk_bmp8 (firstn 54 f) (firstn 1024 (skipn 54 f)) (skipn 1078 f)
                  (field 18 4 f) (field 22 4 f) 8 ds).
  assert (L54 : length (firstn 54 f) = 54%nat) by (rewrite length_firstn; lia).
  assert (L1024 : length (firstn 1024 (skipn 54 f)) = 1024%nat)
    by (rewrite length_firstn, length_skipn; lia).
  assert (Lpx : length (skipn 1078 f) = Z.to_nat ds)
    by (rewrite length_skipn; lia).
  split.
  - unfold bmp8_loadImage, fread, fopen_rb, fseek. cbn [bytes cursor].
    change (skipn 0 f) with f.
    rewrite L54, Nat.ltb_irrefl, !nth_firstn by lia.
    rewrite HB, HM. cbn [Byte.eqb negb orb].
    replace (negb (Byte.eqb "B" "B") || negb (Byte.eqb "M" "M")) with false
      by reflexivity.
    rewrite !field_firstn by lia.
    rewrite Hdepth, Hoff. cbn [Z.eqb Pos.eqb negb].
    change (0 + 54)%nat with 54%nat. rewrite L1024, Nat.ltb_irrefl.
    change (CInt.u32 (field 18 4 f * field 22 4 f))
      with ((field 18 4 f * field 22 4 f) mod 4294967296).
    fold ds. change (Z.to_nat 1078) with 1078%nat.
    rewrite (firstn_all2 (n := Z.to_nat ds)) by lia.
    rewrite Lpx, Nat.ltb_irrefl. reflexivity.
  - unfold bmp8_saveImage, fopen_wb.
    cbn [header8 colorTable data8 dataSize].
    rewrite !firstn_firstn, !Nat.min_id.
    rewrite (firstn_all2 (n := Z.to_nat ds)) by lia.
    rewrite (fwrite_end _ [] 0) by reflexivity.
    rewrite fwrite_end by reflexivity.
    rewrite fwrite_end by reflexivity.
    cbn [bytes app].
    rewrite <- (firstn_skipn 54 f) at 4.
    rewrite <- app_assoc. f_equal.
    rewrite <- (firstn_skipn 1024 (skipn 54 f)) at 2. f_equal.
    now rewrite skipn_skipn.
Qed.

Lemma row_bytes_length (row : list t_pixel) :
  length (row_bytes row) = (3 * length row)%nat.
Proof.
  unfold row_bytes. induction row as [|p row IH]; [reflexivity|].
  cbn [flat_map length app]. rewrite IH. lia.
Qed.

Lemma skipn_repeat {A} (a : A) (n m : nat) :
  skipn n (repeat a m) = repeat a (m - n).
Proof.
  revert m; induction n as [|n IH]; intros [|m]; cbn; auto.
Qed.

Lemma canonical24_headers (f : list byte) :
  canonical24 f ->
  headers_validate f /\ pixel_data_complete f
  /\ file_height f = info_height (file_info f)
  /\ hdr_offset (file_header f) = 54.
Proof.
  intros [[Hw Hmax] Hh Hhdr Hinfo Hlen Hpad].
  assert (Hhr : info_height (file_info f) <= CInt.INT_MAX)
    by (unfold file_info, decode_info; cbn [info_height]; apply s32_range).
  assert (Eh : file_height f = info_height (file_info f)).
  { unfold file_height, CInt.abs. rewrite Z.abs_eq by lia.
    apply s32_small. lia. }
  assert (Hp : 0 <= rowSizePadded (file_width f))
    by (unfold rowSizePadded; Z.div_mod_to_equations; lia).
  assert (Eo : hdr_offset (file_header f) = 54) by now rewrite Hhdr.
  split; [|split; [|split; [exact Eh | exact Eo]]].
  - constructor; try lia.
    + now rewrite Hhdr.
    + now rewrite Hinfo.
    + now rewrite Hinfo.
  - unfold pixel_data_complete. rewrite Eo, Eh. lia.
Qed.

(** A 24-bit file in canonical form loads, and saving the image writes the
    same bytes. *)
Lemma bmp24_roundtrip (junk : Indeterminate) (f : list byte) :
  canonical24 f ->
  exists img, bmp24_loadImage junk f = Some img
              /\ snd (bmp24_saveImage img) = f.
Proof.
  intro Hc. destruct (canonical24_headers f Hc) as (Hv & Hd & Eh & Eo).
  destruct Hc as [[Hw Hmax] Hh Hhdr Hinfo Hlen Hpad].
  destruct (bmp24_loadImage_complete junk f Hv Hmax Hd)
    as (img & Hload & Ehdr & Einfo & Ew & Ehe & _ & Hvalid & Hrows).
  exists img. split; [exact Hload|].
  rewrite Eh in *.
  set (w := file_width f) in *. set (h := info_height (file_info f)) in *.
  destruct (padded_row w Hw Hmax) as (Eu & Ep & Hpr).
  assert (Hhr : h <= CInt.INT_MAX)
    by (unfold h, file_info, decode_info; cbn [info_height]; apply s32_range).
  unfold CInt.INT_MAX in *.
  unfold bmp24_saveImage, file_rawWrite, fopen_wb, fseek, bmp24_writePixelData,
    BMP_HEADER_SIZE, BMP_INFO_SIZE, DEFAULT_COLOR_DEPTH.
  cbn [header header_info width height data bytes cursor hdr_offset snd].
  rewrite Ew, Ehe.
  rewrite row_size_of_spec, abs_pos by (unfold CInt.INT_MAX; lia).
  rewrite (Z.mod_small (rowSizePadded w)) by lia.
  rewrite Ep, Eu.
  change (CInt.u32 (14 + 40)) with 54.
  change (CInt.u32 40) with 40.
  change (CInt.u32 (rowSizePadded w * h))
    with ((rowSizePadded w * h) mod 4294967296).
  change (CInt.u32 (54 + (rowSizePadded w * h) mod 4294967296))
    with ((54 + (rowSizePadded w * h) mod 4294967296) mod 4294967296).
  assert (Ei : info_imagesize (file_info f)
               = (rowSizePadded w * h) mod 4294967296) by now rewrite Hinfo.
  rewrite Ei in Hhdr. rewrite <- Hhdr, <- Hinfo.
  unfold file_header, file_info.
  assert (Lf : (54 <= length f)%nat) by apply Hv.
  rewrite encode_decode_header, encode_decode_info
    by (rewrite length_firstn, ?length_skipn; lia).
  change (Z.to_nat 0) with 0%nat. change (Z.to_nat 14) with 14%nat.
  change (Z.to_nat 54) with 54%nat.
  rewrite (fwrite_end _ [] 0) by reflexivity. cbn [app bytes].
  rewrite fwrite_end by (rewrite length_firstn; lia).
  unfold fseek. cbn [bytes]. change (Z.to_nat 54) with 54%nat.
  assert (L54 : length (firstn 14 f ++ firstn 40 (skipn 14 f)) = 54%nat)
    by (rewrite length_app, !length_firstn, length_skipn; lia).
  rewrite <- L54 at 1.
  set (wn := Z.to_nat w). set (hn := Z.to_nat h).
  set (pn := Z.to_nat (rowSizePadded w)).
  assert (Ewn : Z.to_nat (w * 3) = (3 * wn)%nat) by lia.
  rewrite Ewn in *.
  destruct Hvalid as [_ _ Hnrows Hcols].
  rewrite (write_rows_append (3 * wn) pn).
  - rewrite <- app_assoc.
    transitivity (firstn 14 f ++ firstn 40 (skipn 14 f)
                  ++ skipn 40 (skipn 14 f));
      [|now rewrite (firstn_skipn 40), (firstn_skipn 14)].
    do 2 f_equal.
    rewrite skipn_skipn. change (40 + 14)%nat with 54%nat.
    etransitivity;
      [|apply (concat_chunks pn hn); rewrite length_skipn; nia].
    f_equal. rewrite <- (map_rev_seq _ hn).
    apply map_ext_in. intros y Hy. apply in_rev, in_seq in Hy.
    replace (nth y (data img) []) with (get [] (Z.of_nat y) (data img))
      by (rewrite get_nth, Nat2Z.id by lia; reflexivity).
    rewrite Hrows by lia. unfold file_row. fold w. rewrite Eo, Ewn.
    rewrite (row_bytes_pixels wn)
      by (rewrite length_firstn, length_skipn; nia).
    specialize (Hpad (h - 1 - Z.of_nat y) ltac:(lia)).
    fold pn in Hpad.
    replace (Z.to_nat (54 + (h - 1 - Z.of_nat y) * rowSizePadded w))
      with (54 + (hn - 1 - y) * pn)%nat in * by nia.
    replace (Z.to_nat (rowSizePadded w - w * 3)) with (pn - 3 * wn)%nat
      in Hpad by lia.
    rewrite <- Hpad.
    rewrite skipn_skipn, (Nat.add_comm _ 54).
    transitivity
      (firstn (3 * wn) (firstn pn (skipn (54 + (hn - 1 - y) * pn) f))
       ++ skipn (3 * wn) (firstn pn (skipn (54 + (hn - 1 - y) * pn) f)));
      [|apply firstn_skipn].
    f_equal. rewrite firstn_firstn, Nat.min_l by lia. reflexivity.
  - lia.
  - apply repeat_length.
  - apply skipn_repeat.
  - intros y Hy. rewrite row_bytes_length.
    assert (Hin : In (nth y (data img) []) (data img))
      by (apply nth_In; lia).
    rewrite Forall_forall in Hcols. specialize (Hcols _ Hin). lia.
Qed.

Lemma field_skipn (off len n : nat) (f : list byte) :
  field off len (skipn n f) = field (n + off) len f.
Proof. unfold field. now rewrite skipn_skipn, (Nat.add_comm off n). Qed.

(** The 24-bit loader turns down every canonical 8-bit file, so that
    [open_image] falls through to the 8-bit loader. *)
Lemma bmp24_rejects_8bit (junk : Indeterminate) (f : list byte) :
  canonical8 f -> bmp24_loadImage junk f = None.
Proof.
  intros [_ _ Hdepth _ Hlen].
  assert (Lf : (1078 <= length f)%nat).
  { destruct (field 34 4 f =? 0).
    - pose proof (Z.mod_pos_bound (field 18 4 f * field 22 4 f) 4294967296).
      lia.
    - pose proof (field_range 34 4 f). lia. }
  unfold bmp24_loadImage, file_rawRead, fread, fopen_rb, fseek, BMP_HEADER_SIZE.
  cbn [bytes cursor]. change (Z.to_nat 0) with 0%nat.
  change (Z.to_nat 14) with 14%nat. change (skipn 0 f) with f.
  change (14 * 1)%nat with 14%nat. change (40 * 1)%nat with 40%nat.
  rewrite decode_header_app, decode_info_app
    by (rewrite length_firstn, ?length_skipn; lia).
  destruct (negb (hdr_type (decode_header (firstn 14 f)) =? BMP_TYPE));
    [reflexivity|].
  replace (info_bits (decode_info (firstn 40 (skipn 14 f)))) with 8;
    [reflexivity|].
  unfold decode_info; cbn [info_bits].
  rewrite field_firstn, field_skipn by lia. now rewrite <- Hdepth.
Qed.

(** C1 (as amended): loading and then saving reproduces the file byte for
    byte when the file is in canonical form: an 8-bit file whose pixel data
    starts at offset 1078 and runs to the end of the file, or a 24-bit file
    whose headers already hold what save derives from width and height
    (positive height, pixel-data offset 54, info size 40, one plane,
    resolution, colour counts and reserved fields 0, imagesize and file size
    as derived), whose row padding is zero and which ends with its pixel
    data. *)
Theorem save_load_roundtrip (junk : Indeterminate) (f : list byte)
    (Hf : canonical f) :
  exists img, open_image junk f = Some img /\ save_image img = f.
Proof.
  unfold open_image. destruct Hf as [H8|H24].
  - rewrite (bmp24_rejects_8bit junk f H8).
    destruct (bmp8_roundtrip f H8) as (img & Hload & Hsave).
    exists (Image8 img). rewrite Hload. split; [reflexivity | exact Hsave].
  - destruct (bmp24_roundtrip junk f H24) as (img & Hload & Hsave).
    exists (Image24 img). rewrite Hload. split; [reflexivity | exact Hsave].
Qed.

Lemma sample_file8_canonical : canonical8 Sample.file8.
Proof. constructor; vm_compute; reflexivity. Defined.

Lemma sample_file24_canonical : canonical24 Sample.file24.
Proof.
  constructor; try (vm_compute; reflexivity).
  - split; vm_compute; [reflexivity | discriminate].
  - intros k Hk.
    change (info_height (file_info Sample.file24)) with 2 in Hk.
    assert (Ek : k = 0 \/ k = 1) by lia.
    destruct Ek as [-> | ->]; vm_compute; reflexivity.
Defined.

Lemma save_load_roundtrip_witness :
  (exists img, open_image Sample.junk Sample.file8 = Some img
               /\ save_image img = Sample.file8)
  /\ (exists img, open_image Sample.junk Sample.file24 = Some img
                  /\ save_image img = Sample.file24).
Proof.
  split.
  - exact (save_load_roundtrip Sample.junk Sample.file8
             (or_introl sample_file8_canonical)).
  - exact (save_load_roundtrip Sample.junk Sample.file24
             (or_intror sample_file24_canonical)).
Defined.

(** C1 as stated fails: a well-formed 24-bit file that records a resolution
    of 2835 pixels per metre is loaded, but saving it writes resolution 0;
    bytes 38..41 of the saved file differ from the original. *)
Lemma save_load_counterexample :
  exists img,
    open_image Sample.junk SampleDpi.file24 = Some img
    /\ info_xresolution (file_info SampleDpi.file24) = 2835
    /\ info_xresolution (file_info (save_image img)) = 0
    /\ save_image img <> SampleDpi.file24.
Proof.
  eexists. split; [vm_compute; reflexivity|].
  split; [vm_compute; reflexivity|].
  split; [vm_compute; reflexivity|].
  intro E. apply (f_equal (fun l => nth 38 l x00)) in E.
  vm_compute in E. discriminate E.
Qed.

(** ** Convolution: the boundary policy *)

Lemma index_injective (w x y x' y' : Z) :
  0 <= x < w -> 0 <= x' < w -> y * w + x = y' * w + x' -> x = x' /\ y = y'.
Proof.
  intros Hx Hx' E.
  assert (Hy : y = y') by nia. subst y'. split; [lia | reflexivity].
Qed.

(** On an 8-bit image the 3x3 filter stores to interior pixels only. *)
Lemma bmp8_border_kept (img : t_bmp8) (kernel : kernel_t) (x y : Z) :
  valid8 img ->
  width8 img * height8 img <= dataSize img ->
  0 <= x < width8 img -> 0 <= y < height8 img ->
  on_border (width8 img) (height8 img) x y ->
  pixel8 (bmp8_applyFilter img kernel 3) x y = pixel8 img x y.
Proof.
  intros Hvalid Hsize Hx Hy Hborder.
  destruct Hvalid as [_ _ _ Hw Hh Hds].
  unfold pixel8, bmp8_applyFilter.
  change ((3 <=? 0) || (Z.rem 3 2 =? 0)) with false. cbv iota.
  change (Z.quot 3 2) with 1.
  cbn [data8 width8 with_data8].
  rewrite (u32_small 1) by lia.
  rewrite (u32_small (height8 img - 1)), (u32_small (width8 img - 1)) by lia.
  set (w := width8 img) in *. set (h := height8 img) in *.
  apply (for_range_inv
           (fun d => get x00 (y * w + x) d = get x00 (y * w + x) (data8 img)));
    [reflexivity|].
  intros y' d Hy' Hd.
  apply (for_range_inv
           (fun d => get x00 (y * w + x) d = get x00 (y * w + x) (data8 img)));
    [exact Hd|].
  intros x' d' Hx' Hd'. cbv beta zeta.
  rewrite get_upd_other; [exact Hd'|].
  assert (Hyw : 0 <= y' * w + x' < w * h) by nia.
  rewrite (u32_small (y' * w)) by nia.
  rewrite u32_small by lia.
  intro E. apply index_injective in E; [|lia|lia].
  unfold on_border in Hborder. lia.
Qed.

Lemma clamped_neighbor_spec (img : t_bmp24) (x y ky kx : Z) :
  0 < width img -> 0 < height img ->
  clamped_neighbor img x y ky kx
  = (clamp_coord (y + ky) (height img), clamp_coord (x + kx) (width img)).
Proof.
  intros Hw Hh. unfold clamped_neighbor, clamp_coord.
  destruct (Z.ltb_spec (x + kx) 0); destruct (Z.ltb_spec (y + ky) 0);
    repeat match goal with
           | |- context [?a >=? ?b] => destruct (Z.geb_spec a b)
           end; f_equal; lia.
Qed.

(** Every pixel of a valid 24-bit image is overwritten with its convolution
    over the snapshot. *)
Lemma pixel_loops_value (h w : Z) (p : Z -> Z -> t_pixel)
    (d0 : list (list t_pixel)) :
  Z.of_nat (length d0) = h ->
  Forall (fun row => Z.of_nat (length row) = w) d0 ->
  forall x y, 0 <= x < w -> 0 <= y < h ->
    get_px y x (for_range 0 h
                  (fun y d => for_range 0 w (fun x d => set_px y x (p y x) d) d)
                  d0)
    = p y x.
Proof.
  intros Hrows Hcols x y Hx Hy.
  set (shape d := map (@length t_pixel) d = map (@length t_pixel) d0).
  assert (Hget : forall d y' x' q,
             shape d -> 0 <= y' < h -> 0 <= x' < w ->
             get_px y' x' (set_px y' x' q d) = q).
  { intros d y' x' q Hs Hy' Hx'. unfold get_px, set_px.
    assert (Hl : length d = length d0)
      by (rewrite <- (length_map (@length t_pixel) d), Hs; apply length_map).
    rewrite get_upd_same by lia. apply get_upd_same.
    assert (Hcols_d : Forall (fun row => Z.of_nat (length row) = w) d).
    { apply (proj1 (Forall_map (@length t_pixel) (fun n => Z.of_nat n = w) d)).
      rewrite Hs. apply Forall_map. exact Hcols. }
    assert (Hr : Z.of_nat (length (get [] y' d)) = w).
    { rewrite get_nth by lia. rewrite Forall_forall in Hcols_d.
      apply Hcols_d, nth_In. lia. }
    lia. }
  assert (Hother : forall d y' x' q,
             (y', x') <> (y, x) ->
             get_px y x (set_px y' x' q d) = get_px y x d).
  { intros d y' x' q Hne. unfold get_px, set_px.
    destruct (Z.eq_dec y' y) as [->|Hyy].
    - destruct (Z_lt_dec y 0); [rewrite upd_noop by lia; reflexivity|].
      destruct (Z_lt_dec y (Z.of_nat (length d)));
        [|rewrite upd_noop by lia; reflexivity].
      rewrite get_upd_same by lia. apply get_upd_other. congruence.
    - now rewrite get_upd_other. }
  (* outer loop: rows below the loop variable are final *)
  unfold for_range. rewrite Z.sub_0_r.
  assert (Houter :
    forall (n : nat) (y0 : Z) (d : list (list t_pixel)),
      shape d -> 0 <= y0 -> y0 + Z.of_nat n <= h ->
      (y < y0 -> get_px y x d = p y x) ->
      (y < y0 + Z.of_nat n ->
       get_px y x
         (iterate n y0
            (fun y d => iterate (Z.to_nat (w - 0)) 0
                          (fun x d => set_px y x (p y x) d) d) d)
       = p y x)).
  { induction n as [|n IH]; intros y0 d Hs Hy0 Hn Hdone Hlt.
    - cbn [iterate]. apply Hdone. lia.
    - cbn [iterate]. apply IH; try lia.
      + apply (iterate_inv shape); [exact Hs|].
        intros j a _ Ha. unfold shape in *. now rewrite shape_set_px.
      + intro Hy1.
        (* inner loop on row y0 *)
        assert (Hinner :
          forall (m : nat) (x0 : Z) (a : list (list t_pixel)),
            shape a -> 0 <= x0 -> x0 + Z.of_nat m <= w ->
            (y < y0 \/ (y = y0 /\ x < x0) -> get_px y x a = p y x) ->
            (y < y0 \/ (y = y0 /\ x < x0 + Z.of_nat m) ->
             get_px y x
               (iterate m x0 (fun x d => set_px y0 x (p y0 x) d) a)
             = p y x)).
        { induction m as [|m IHm]; intros x0 a Ha Hx0 Hm Hd Hl.
          - cbn [iterate]. apply Hd. lia.
          - cbn [iterate]. apply IHm; try lia.
            + unfold shape in *. now rewrite shape_set_px.
            + intros Hc. destruct (Z.eq_dec y y0) as [->|Hyy].
              * destruct (Z.eq_dec x x0) as [->|Hxx].
                -- apply Hget; [exact Ha | lia | lia].
                -- rewrite Hother by congruence. apply Hd. lia.
              * rewrite Hother by congruence. apply Hd. lia. }
        apply Hinner; try lia; [exact Hs|].
        intros [Hc|[_ Hc]]; [now apply Hdone | lia]. }
  apply (Houter (Z.to_nat h) 0 d0); try lia; reflexivity.
Qed.

Lemma convolution_3x3_offsets (img : t_bmp24) (x y : Z) (kernel : kernel_t)
    (original_data : list (list t_pixel)) :
  bmp24_convolution img x y kernel 3 original_data
  = convolve_offsets img x y kernel 1 original_data (kernel_offsets 1).
Proof. reflexivity. Qed.

Lemma samples_3x3 (img : t_bmp24) (x y : Z) :
  0 < width img -> 0 < height img ->
  samples img x y 3
  = map (fun o => (clamp_coord (y + fst o) (height img),
                   clamp_coord (x + snd o) (width img)))
        [(-1, -1); (-1, 0); (-1, 1);
         (0, -1); (0, 0); (0, 1);
         (1, -1); (1, 0); (1, 1)].
Proof.
  intros Hw Hh.
  change (samples img x y 3)
    with (map (fun o => clamped_neighbor img x y (fst o) (snd o))
              [(-1, -1); (-1, 0); (-1, 1);
               (0, -1); (0, 0); (0, 1);
               (1, -1); (1, 0); (1, 1)]).
  apply map_ext. intros [ky kx]. now apply clamped_neighbor_spec.
Qed.

Ltac decide_tests :=
  repeat match goal with
         | |- context [?a =? ?b] =>
             first [ rewrite (proj2 (Z.eqb_eq a b)) by (unfold clamp_coord; lia)
                   | rewrite (proj2 (Z.eqb_neq a b)) by (unfold clamp_coord; lia) ]
         end.

(** At each corner the four kernel offsets that point at the corner or
    outward are clamped onto the corner pixel; with at least two rows and two
    columns no other offset is. *)
Lemma corner_samples (img : t_bmp24) (cx cy : Z) :
  0 < width img -> 0 < height img ->
  cx = 0 \/ cx = width img - 1 -> cy = 0 \/ cy = height img - 1 ->
  (4 <= count_coord cy cx (samples img cx cy 3))%nat
  /\ (2 <= width img -> 2 <= height img ->
      count_coord cy cx (samples img cx cy 3) = 4%nat).
Proof.
  intros Hw Hh Hcx Hcy. rewrite samples_3x3 by assumption.
  unfold count_coord. cbn [map filter fst snd].
  set (w := width img) in *. set (h := height img) in *.
  assert (Cw : w = 1 \/ 2 <= w) by lia.
  assert (Ch : h = 1 \/ 2 <= h) by lia.
  destruct Hcx as [-> | ->], Hcy as [-> | ->], Cw as [Cw|Cw], Ch as [Ch|Ch];
    decide_tests; cbn [andb length]; split; intros; lia.
Qed.

(** C3: with a 3x3 kernel, [applyFilter] on an 8-bit image leaves every pixel
    of the outermost one-pixel border byte-identical to its pre-filter value;
    on a 24-bit image it recomputes every pixel, border included, as the
    convolution of the pre-filter snapshot over the nine neighbours whose
    coordinates are clamped to the nearest valid row and column, so that at
    a corner four of the nine samples are the corner pixel itself (and exactly
    four once the image has at least two rows and two columns). *)
Theorem applyFilter_boundary_policy (img : image) (kernel : kernel_t)
    (Hvalid : valid_image img) (Hgrid : grid_in_buffer img) :
  boundary_policy img kernel.
Proof.
  destruct img as [i|i]; cbn [boundary_policy valid_image grid_in_buffer] in *.
  - intros x y Hx Hy Hb. now apply bmp8_border_kept.
  - destruct Hvalid as [Hw Hh Hrows Hcols].
    split; [|split; [|split]].
    + intros x y Hx Hy. unfold bmp24_applyFilter.
      change ((3 <=? 0) || (Z.rem 3 2 =? 0)) with false. cbv iota.
      cbn [data with_data].
      apply (pixel_loops_value (height i) (width i)
               (fun y x => bmp24_convolution i x y kernel 3 (data i)));
        assumption.
    + intros. apply convolution_3x3_offsets.
    + intros. apply clamped_neighbor_spec; lia.
    + intros cx cy Hcx Hcy. apply corner_samples; try assumption; lia.
Qed.

Lemma applyFilter_boundary_policy_witness :
  boundary_policy (Image8 Sample.img8) SampleKernel.sharpen
  /\ boundary_policy (Image24 Sample.img24) SampleKernel.sharpen.
Proof.
  split.
  - apply (applyFilter_boundary_policy (Image8 Sample.img8)
             SampleKernel.sharpen sample_img8_valid).
    cbn. lia.
  - exact (applyFilter_boundary_policy (Image24 Sample.img24)
             SampleKernel.sharpen sample_img24_valid I).
Defined.

(** ** Rounding to nearest-even in [SpecFloat] *)

Lemma digits2_size (p : positive) : digits2_pos p = Pos.size p.
Proof. induction p; cbn; now rewrite ?IHp. Qed.

Lemma digits_bounds (p : positive) :
  2 ^ (Zpos (digits2_pos p) - 1) <= Zpos p < 2 ^ Zpos (digits2_pos p).
Proof.
  rewrite digits2_size.
  pose proof (Pos.size_gt p) as Hgt. pose proof (Pos.size_le p) as Hle.
  assert (E : Zpos (2 ^ Pos.size p) = 2 ^ Zpos (Pos.size p))
    by (rewrite Pos2Z.inj_pow; reflexivity).
  assert (E2 : 2 ^ Zpos (Pos.size p) = 2 * 2 ^ (Zpos (Pos.size p) - 1)).
  { rewrite <- Z.pow_succ_r by lia. f_equal. lia. }
  split; [|lia].
  assert (Zpos (2 ^ Pos.size p) <= Zpos p~0) by (apply Pos2Z.pos_le_pos, Hle).
  lia.
Qed.

Lemma Zdigits2_log2 (m : Z) : 0 < m -> Zdigits2 m = Z.log2 m + 1.
Proof.
  intro H. destruct m as [|p|p]; try lia. cbn [Zdigits2].
  pose proof (digits_bounds p) as [Hlo Hhi].
  assert (E : Z.log2 (Zpos p) = Zpos (digits2_pos p) - 1).
  { apply Z.log2_unique; [lia|]. split; [exact Hlo|].
    replace (Z.succ (Zpos (digits2_pos p) - 1)) with (Zpos (digits2_pos p))
      by lia. exact Hhi. }
  lia.
Qed.

Lemma iter_pos_nat {A} (f : A -> A) (p : positive) (x : A) :
  iter_pos f p x = Nat.iter (Pos.to_nat p) f x.
Proof.
  revert x; induction p as [p IH|p IH|]; intro x; cbn [iter_pos].
  - rewrite !IH, Pos2Nat.inj_xI.
    replace (S (2 * Pos.to_nat p)) with (Pos.to_nat p + S (Pos.to_nat p))%nat
      by lia.
    rewrite Nat.iter_add. f_equal. now rewrite Nat.iter_succ_r.
  - rewrite !IH, Pos2Nat.inj_xO.
    replace (2 * Pos.to_nat p)%nat with (Pos.to_nat p + Pos.to_nat p)%nat
      by lia.
    now rewrite Nat.iter_add.
  - reflexivity.
Qed.

(** One right shift halves the mantissa, moves its low bit into the round
    bit and the round bit into the sticky bit. *)
Lemma shr_1_spec (m : Z) (r s : bool) :
  0 <= m ->
  shr_1 (Build_shr_record m r s) = Build_shr_record (m / 2) (Z.odd m) (r || s).
Proof.
  intro H. rewrite <- Z.div2_div.
  destruct m as [|[p|p|]|]; try lia; reflexivity.
Qed.

Lemma shr_m_nonneg_iter (n : nat) (mrs : shr_record) :
  0 <= shr_m mrs -> 0 <= shr_m (Nat.iter n shr_1 mrs).
Proof.
  induction n as [|n IH]; intro H; [exact H|].
  rewrite Nat.iter_succ.
  specialize (IH H). destruct (Nat.iter n shr_1 mrs) as [m r s].
  cbn [shr_m] in *. rewrite shr_1_spec by assumption. cbn [shr_m].
  apply Z.div_pos; lia.
Qed.

(** Whatever the round and sticky bits, [n] shifts divide the mantissa by
    [2^n]. *)
Lemma shr_m_iter (n : nat) (mrs : shr_record) :
  0 <= shr_m mrs ->
  shr_m (Nat.iter n shr_1 mrs) = shr_m mrs / 2 ^ Z.of_nat n.
Proof.
  intro H. induction n as [|n IH].
  - cbn. now rewrite Z.div_1_r.
  - rewrite Nat.iter_succ. pose proof (shr_m_nonneg_iter n mrs H) as Hn.
    destruct (Nat.iter n shr_1 mrs) as [m r s]. cbn [shr_m] in *.
    rewrite shr_1_spec by assumption. cbn [shr_m].
    rewrite IH, Nat2Z.inj_succ, Z.pow_succ_r, Z.div_div by lia.
    f_equal. lia.
Qed.

(** Starting from an exact mantissa, [n >= 1] shifts leave bit [n-1] in the
    round bit, and the sticky bit tells whether a lower bit was set. *)
Lemma shr_exact_iter (n : nat) (m : Z) :
  0 <= m ->
  Nat.iter (S n) shr_1 (Build_shr_record m false false)
  = Build_shr_record (m / 2 ^ Z.of_nat (S n))
                     (Z.testbit m (Z.of_nat n))
                     (negb (m mod 2 ^ Z.of_nat n =? 0)).
Proof.
  intro H. induction n as [|n IH].
  - change (Nat.iter 1 shr_1 ?x) with (shr_1 x).
    rewrite shr_1_spec by assumption.
    change (2 ^ Z.of_nat 1) with 2. change (Z.of_nat 0) with 0.
    rewrite Z.bit0_odd, Z.pow_0_r, Z.mod_1_r. reflexivity.
  - rewrite Nat.iter_succ.
    rewrite IH, shr_1_spec by (apply Z.div_pos; lia).
    assert (Hp : 0 < 2 ^ Z.of_nat n) by (apply Z.pow_pos_nonneg; lia).
    f_equal.
    + rewrite Z.div_div by lia.
      rewrite (Nat2Z.inj_succ (S n)), (Z.pow_succ_r _ (Z.of_nat (S n))) by lia.
      f_equal. lia.
    + rewrite (Nat2Z.inj_succ n), Z.testbit_odd, Z.shiftr_div_pow2 by lia.
      reflexivity.
    + rewrite (Nat2Z.inj_succ n), (Z.pow_succ_r _ (Z.of_nat n)) by lia.
      rewrite (Z.mul_comm 2), Z.rem_mul_r by lia.
      rewrite Z.testbit_odd, Z.shiftr_div_pow2 by lia.
      rewrite Zmod_odd.
      pose proof (Z.mod_pos_bound m (2 ^ Z.of_nat n) Hp) as Hm.
      destruct (Z.odd (m / 2 ^ Z.of_nat n)); cbn [orb].
      * symmetry. apply negb_true_iff, Z.eqb_neq. lia.
      * now rewrite Z.mul_0_r, Z.add_0_r.
Qed.

Lemma rne_bounds (m n : Z) :
  m / 2 ^ n <= rne m n <= m / 2 ^ n + 1.
Proof.
  unfold rne. cbv zeta.
  destruct (_ <? _); [lia|]. destruct (_ =? _); [|lia].
  destruct (Z.even _); lia.
Qed.

Lemma rne_exact (a n : Z) : 1 <= n -> rne (a * 2 ^ n) n = a.
Proof.
  intro H. unfold rne. cbv zeta.
  assert (0 < 2 ^ n) by (apply Z.pow_pos_nonneg; lia).
  assert (0 < 2 ^ (n - 1)) by (apply Z.pow_pos_nonneg; lia).
  rewrite Z.div_mul, Z.mod_mul by lia.
  destruct (Z.ltb_spec 0 (2 ^ (n - 1))); [reflexivity | lia].
Qed.

Lemma rne_mono (m1 m2 n : Z) :
  1 <= n -> m1 <= m2 -> rne m1 n <= rne m2 n.
Proof.
  intros Hn Hle.
  assert (Hh : 0 < 2 ^ (n - 1)) by (apply Z.pow_pos_nonneg; lia).
  assert (E : 2 ^ n = 2 * 2 ^ (n - 1)).
  { rewrite <- Z.pow_succ_r by lia. f_equal. lia. }
  pose proof (Z.div_mod m1 (2 ^ n) ltac:(lia)) as D1.
  pose proof (Z.div_mod m2 (2 ^ n) ltac:(lia)) as D2.
  pose proof (Z.mod_pos_bound m1 (2 ^ n) ltac:(lia)) as B1.
  pose proof (Z.mod_pos_bound m2 (2 ^ n) ltac:(lia)) as B2.
  pose proof (Z.div_le_mono m1 m2 (2 ^ n) ltac:(lia) Hle) as Hq.
  destruct (Z.eq_dec (m1 / 2 ^ n) (m2 / 2 ^ n)) as [Eq|Ne].
  - unfold rne. cbv zeta. rewrite <- Eq.
    assert (Hr : m1 mod 2 ^ n <= m2 mod 2 ^ n) by nia.
    destruct (Z.ltb_spec (m1 mod 2 ^ n) (2 ^ (n - 1)));
      destruct (Z.ltb_spec (m2 mod 2 ^ n) (2 ^ (n - 1)));
      destruct (Z.eqb_spec (m1 mod 2 ^ n) (2 ^ (n - 1)));
      destruct (Z.eqb_spec (m2 mod 2 ^ n) (2 ^ (n - 1)));
      destruct (Z.even (m1 / 2 ^ n)); lia.
  - pose proof (rne_bounds m1 n). pose proof (rne_bounds m2 n). lia.
Qed.

Lemma rne_scale (m n j : Z) :
  1 <= n -> 0 <= j -> rne (m * 2 ^ j) (n + j) = rne m n.
Proof.
  intros Hn Hj. unfold rne. cbv zeta.
  assert (Hpj : 0 < 2 ^ j) by (apply Z.pow_pos_nonneg; lia).
  assert (Hpn : 0 < 2 ^ n) by (apply Z.pow_pos_nonneg; lia).
  assert (Hq : m * 2 ^ j / 2 ^ (n + j) = m / 2 ^ n).
  { rewrite Z.pow_add_r, Z.div_mul_cancel_r by lia. reflexivity. }
  assert (Hr : (m * 2 ^ j) mod 2 ^ (n + j) = (m mod 2 ^ n) * 2 ^ j).
  { rewrite Z.pow_add_r, Z.mul_mod_distr_r by lia. reflexivity. }
  assert (Hh : 2 ^ (n + j - 1) = 2 ^ (n - 1) * 2 ^ j).
  { rewrite <- Z.pow_add_r by lia. f_equal. lia. }
  rewrite Hq, Hr, Hh.
  destruct (Z.ltb_spec (m mod 2 ^ n) (2 ^ (n - 1)));
    destruct (Z.ltb_spec (m mod 2 ^ n * 2 ^ j) (2 ^ (n - 1) * 2 ^ j));
    try nia; try reflexivity.
  destruct (Z.eqb_spec (m mod 2 ^ n) (2 ^ (n - 1)));
    destruct (Z.eqb_spec (m mod 2 ^ n * 2 ^ j) (2 ^ (n - 1) * 2 ^ j));
    try nia; reflexivity.
Qed.

(** Rounding is monotone. *)
Lemma rnd_mono (prec lo V1 V2 : Z) :
  0 < prec -> 0 < V1 -> V1 <= V2 -> rnd prec lo V1 <= rnd prec lo V2.
Proof.
  intros Hprec H1 H12. unfold rnd. cbv zeta.
  pose proof (Z.log2_le_mono V1 V2 H12) as Hlog.
  pose proof (Z.log2_spec V1 H1) as [L1 U1].
  pose proof (Z.log2_spec V2 ltac:(lia)) as [L2 U2].
  pose proof (Z.log2_nonneg V1) as N1.
  set (k1 := Z.max (Z.log2 V1 + 1 - prec) lo).
  set (k2 := Z.max (Z.log2 V2 + 1 - prec) lo).
  assert (Hk : k1 <= k2) by (unfold k1, k2; lia).
  destruct (Z.eq_dec k1 k2) as [E|Ne].
  - rewrite <- E. destruct (Z.leb_spec k1 0); [exact H12|].
    apply Z.mul_le_mono_nonneg_r; [apply Z.pow_nonneg; lia|].
    apply rne_mono; lia.
  - assert (Hk2 : k2 = Z.log2 V2 + 1 - prec) by (unfold k1, k2 in *; lia).
    assert (Hll : Z.log2 V1 < Z.log2 V2) by (unfold k1, k2 in *; lia).
    set (G := 2 ^ Z.log2 V2).
    assert (HG1 : V1 <= G).
    { assert (2 ^ Z.succ (Z.log2 V1) <= G)
        by (apply Z.pow_le_mono_r; lia). lia. }
    assert (Hlo : rnd prec lo V1 <= G).
    { unfold rnd. cbv zeta. fold k1.
      destruct (Z.leb_spec k1 0); [exact HG1|].
      replace G with (rne (2 ^ (Z.log2 V2 - k1) * 2 ^ k1) k1 * 2 ^ k1).
      - apply Z.mul_le_mono_nonneg_r; [apply Z.pow_nonneg; lia|].
        apply rne_mono; [lia|].
        rewrite <- Z.pow_add_r by lia.
        replace (Z.log2 V2 - k1 + k1) with (Z.log2 V2) by lia. exact HG1.
      - rewrite rne_exact, <- Z.pow_add_r by lia.
        unfold G. f_equal. lia. }
    assert (Hhi : G <= rnd prec lo V2).
    { unfold rnd. cbv zeta. fold k2.
      destruct (Z.leb_spec k2 0); [exact L2|].
      replace G with (rne (2 ^ (Z.log2 V2 - k2) * 2 ^ k2) k2 * 2 ^ k2).
      - apply Z.mul_le_mono_nonneg_r; [apply Z.pow_nonneg; lia|].
        apply rne_mono; [lia|].
        rewrite <- Z.pow_add_r by lia.
        replace (Z.log2 V2 - k2 + k2) with (Z.log2 V2) by lia. exact L2.
      - rewrite rne_exact, <- Z.pow_add_r by lia.
        unfold G. f_equal. lia. }
    unfold rnd in Hlo, Hhi. cbv zeta in Hlo, Hhi. fold k1 in Hlo. fold k2 in Hhi.
    lia.
Qed.

Section BinaryRound.
Variables prec emax : Z.
Hypothesis prec_pos : 0 < prec.

Lemma fexp_ge_emin (e : Z) : (emin prec emax) <= fexp prec emax e.
Proof. unfold SpecFloat.fexp. lia. Qed.

Lemma shr_exact (m e n : Z) :
  0 <= m -> 0 < n ->
  shr (Build_shr_record m false false) e n
  = (Build_shr_record (m / 2 ^ n) (Z.testbit m (n - 1))
                      (negb (m mod 2 ^ (n - 1) =? 0)),
     e + n).
Proof.
  intros Hm Hn. destruct n as [|p|p]; try lia. unfold shr.
  rewrite iter_pos_nat.
  destruct (Pos2Nat.is_succ p) as [k Hk]. rewrite Hk.
  rewrite shr_exact_iter by assumption.
  assert (E : Z.of_nat (S k) = Zpos p) by (rewrite <- Hk; apply positive_nat_Z).
  rewrite E. replace (Z.of_nat k) with (Zpos p - 1) by lia. reflexivity.
Qed.

Lemma shr_mantissa (mrs : shr_record) (e n : Z) :
  0 <= shr_m mrs -> 0 <= n ->
  shr_m (fst (shr mrs e n)) = shr_m mrs / 2 ^ n
  /\ snd (shr mrs e n) = e + n.
Proof.
  intros Hm Hn. destruct n as [|p|p]; try lia; unfold shr; cbn [fst snd].
  - rewrite Z.pow_0_r, Z.div_1_r. split; [reflexivity | lia].
  - rewrite iter_pos_nat, shr_m_iter, positive_nat_Z by assumption.
    split; reflexivity.
Qed.

(** The round and sticky bits left by the shifts select the value [rne]
    computes. *)
Lemma round_of_shr (m n : Z) :
  0 <= m -> 1 <= n ->
  round_nearest_even (m / 2 ^ n)
    (loc_of_shr_record
       (Build_shr_record (m / 2 ^ n) (Z.testbit m (n - 1))
                         (negb (m mod 2 ^ (n - 1) =? 0))))
  = rne m n.
Proof.
  intros Hm Hn. unfold rne. cbv zeta.
  assert (Hh : 0 < 2 ^ (n - 1)) by (apply Z.pow_pos_nonneg; lia).
  assert (E : 2 ^ n = 2 ^ (n - 1) * 2).
  { rewrite Z.mul_comm, <- Z.pow_succ_r by lia. f_equal. lia. }
  assert (Hr : m mod 2 ^ n
               = m mod 2 ^ (n - 1)
                 + 2 ^ (n - 1) * (if Z.testbit m (n - 1) then 1 else 0)).
  { rewrite E, Z.rem_mul_r by lia. f_equal. f_equal.
    rewrite Z.testbit_odd, Z.shiftr_div_pow2 by lia. apply Zmod_odd. }
  pose proof (Z.mod_pos_bound m (2 ^ (n - 1)) Hh) as Hb.
  rewrite Hr.
  destruct (Z.testbit m (n - 1));
    destruct (Z.eqb_spec (m mod 2 ^ (n - 1)) 0) as [E0|E0];
    cbn [negb loc_of_shr_record round_nearest_even].
  - destruct (Z.ltb_spec (m mod 2 ^ (n - 1) + 2 ^ (n - 1) * 1) (2 ^ (n - 1)));
      [lia|].
    destruct (Z.eqb_spec (m mod 2 ^ (n - 1) + 2 ^ (n - 1) * 1) (2 ^ (n - 1)));
      [reflexivity | lia].
  - destruct (Z.ltb_spec (m mod 2 ^ (n - 1) + 2 ^ (n - 1) * 1) (2 ^ (n - 1)));
      [lia|].
    destruct (Z.eqb_spec (m mod 2 ^ (n - 1) + 2 ^ (n - 1) * 1) (2 ^ (n - 1)));
      [lia | reflexivity].
  - destruct (Z.ltb_spec (m mod 2 ^ (n - 1) + 2 ^ (n - 1) * 0) (2 ^ (n - 1)));
      [reflexivity | lia].
  - destruct (Z.ltb_spec (m mod 2 ^ (n - 1) + 2 ^ (n - 1) * 0) (2 ^ (n - 1)));
      [reflexivity | lia].
Qed.

(** The first stage of [binary_round_aux] on an exact mantissa: shift to the
    target exponent and round. *)
Lemma shr_fexp_exact (m e : Z) :
  0 <= m ->
  let k := fexp prec emax (Zdigits2 m + e) - e in
  let '(mrs, e') := shr_fexp prec emax m e loc_Exact in
  round_nearest_even (shr_m mrs) (loc_of_shr_record mrs)
  = (if 0 <? k then rne m k else m)
  /\ shr_m mrs = (if 0 <? k then m / 2 ^ k else m)
  /\ e' = (if 0 <? k then e + k else e).
Proof.
  intros Hm k. unfold shr_fexp. fold k. cbn [shr_record_of_loc].
  destruct (Z.ltb_spec 0 k) as [Hk|Hk].
  - rewrite shr_exact by assumption. cbv beta iota. cbn [shr_m].
    rewrite round_of_shr by lia. auto.
  - unfold shr. destruct k; try lia; cbn; auto.
Qed.

Lemma Zdigits2_bounds (m : Z) :
  0 < m -> 0 < Zdigits2 m /\ 2 ^ (Zdigits2 m - 1) <= m < 2 ^ Zdigits2 m.
Proof.
  intro H. destruct m as [|p|p]; try lia. cbn [Zdigits2].
  split; [lia | apply digits_bounds].
Qed.

Lemma pow2_lt_exp (a b : Z) : 0 <= b -> 2 ^ a < 2 ^ b -> a < b.
Proof.
  intros Hb H. destruct (Z_lt_dec a b); [assumption|].
  assert (2 ^ b <= 2 ^ a) by (apply Z.pow_le_mono_r; lia). lia.
Qed.

(** [binary_round_aux] on an exact positive mantissa: the result carries the
    value [rnd] computes (in units of [2^c]), unless it overflows. *)
Lemma bra_exact_value (sx : bool) (M : positive) (E c : Z) :
  c <= E ->
  exists M2 E2,
    0 <= M2 < 2 ^ prec /\ E <= E2
    /\ M2 * 2 ^ (E2 - c) = rnd prec (emin prec emax - c) (Zpos M * 2 ^ (E - c))
    /\ binary_round_aux prec emax sx (Zpos M) E loc_Exact
       = match M2 with
         | Z0 => S754_zero sx
         | Zpos m => if E2 <=? emax - prec then S754_finite sx m E2
                     else S754_infinity sx
         | Zneg _ => S754_nan
         end.
Proof.
  intro Hc. unfold binary_round_aux.
  pose proof (shr_fexp_exact (Zpos M) E ltac:(lia)) as H1. cbv zeta in H1.
  destruct (shr_fexp prec emax (Zpos M) E loc_Exact) as [mrs e'].
  destruct H1 as (Hround & _ & He'). rewrite Hround. clear Hround mrs.
  set (d := Zdigits2 (Zpos M)) in *.
  set (k := fexp prec emax (d + E) - E) in *.
  destruct (Zdigits2_bounds (Zpos M) ltac:(lia)) as (Hd & HMlo & HMhi).
  fold d in Hd, HMlo, HMhi.
  set (V := Zpos M * 2 ^ (E - c)).
  assert (Hlog : Z.log2 V + 1 = d + (E - c)).
  { unfold V. rewrite Z.log2_mul_pow2 by lia.
    pose proof (Zdigits2_log2 (Zpos M) ltac:(lia)). fold d in H. lia. }
  assert (Hkappa : Z.max (Z.log2 V + 1 - prec) (emin prec emax - c)
                   = k + (E - c)).
  { unfold k, SpecFloat.fexp. lia. }
  assert (Hfe : emin prec emax <= fexp prec emax (d + E)) by apply fexp_ge_emin.
  assert (Hdk : d - k <= prec) by (unfold k, SpecFloat.fexp in *; lia).
  set (M1 := if 0 <? k then rne (Zpos M) k else Zpos M) in *.
  assert (HM1 : 0 <= M1 <= 2 ^ prec
                /\ M1 * 2 ^ (e' - c) = rnd prec (emin prec emax - c) V
                /\ E <= e' /\ emin prec emax <= e'
                /\ (k <= 0 -> M1 < 2 ^ prec)).
  { unfold M1, rnd. cbv zeta. rewrite Hkappa, He'.
    destruct (Z.ltb_spec 0 k) as [Hk|Hk].
    - destruct (Z.leb_spec (k + (E - c)) 0); [lia|].
      pose proof (rne_bounds (Zpos M) k) as Hb.
      assert (Hp : 0 < 2 ^ k) by (apply Z.pow_pos_nonneg; lia).
      assert (Hq : 0 <= Zpos M / 2 ^ k < 2 ^ prec).
      { split; [apply Z.div_pos; lia|].
        apply Z.div_lt_upper_bound; [lia|].
        rewrite <- Z.pow_add_r by lia.
        assert (2 ^ d <= 2 ^ (k + prec)) by (apply Z.pow_le_mono_r; lia).
        lia. }
      split; [lia|]. split; [|unfold k in *; lia].
      unfold V. rewrite rne_scale by lia.
      do 2 f_equal. lia.
    - assert (Hdp : d <= prec) by (unfold k, SpecFloat.fexp in *; lia).
      assert (Zpos M < 2 ^ prec).
      { assert (2 ^ d <= 2 ^ prec) by (apply Z.pow_le_mono_r; lia). lia. }
      split; [lia|]. split; [|unfold k, SpecFloat.fexp in *; lia].
      destruct (Z.leb_spec (k + (E - c)) 0); [reflexivity|].
      unfold V.
      replace (Zpos M * 2 ^ (E - c))
        with ((Zpos M * 2 ^ (E - c - (k + (E - c)))) * 2 ^ (k + (E - c))).
      + now rewrite rne_exact by lia.
      + rewrite <- Z.mul_assoc, <- Z.pow_add_r by lia. do 2 f_equal. lia. }
  destruct HM1 as (HM1r & HM1v & HEe' & Hemin & HM1k).
  clearbody M1.
  pose proof (shr_fexp_exact M1 e' ltac:(lia)) as H2. cbv zeta in H2.
  destruct (shr_fexp prec emax M1 e' loc_Exact) as [mrs2 e2].
  destruct H2 as (_ & Hm2 & He2).
  set (k2 := fexp prec emax (Zdigits2 M1 + e') - e') in *.
  exists (shr_m mrs2), e2.
  assert (Hcase : (k2 <= 0 /\ M1 < 2 ^ prec)
                  \/ (k2 = 1 /\ M1 = 2 ^ prec)).
  { destruct (Z.eq_dec M1 0) as [E0|N0].
    - left. assert (Hz : Zdigits2 M1 = 0) by (rewrite E0; reflexivity).
      split; [unfold k2, SpecFloat.fexp; lia|].
      rewrite E0. apply Z.pow_pos_nonneg; lia.
    - destruct (Zdigits2_bounds M1 ltac:(lia)) as (Hd1 & Hlo1 & Hhi1).
      destruct (Z_le_dec (Zdigits2 M1) prec) as [Hle|Hgt].
      + left. split; [unfold k2, SpecFloat.fexp; lia|].
        assert (2 ^ Zdigits2 M1 <= 2 ^ prec) by (apply Z.pow_le_mono_r; lia).
        lia.
      + right.
        assert (2 ^ prec <= 2 ^ (Zdigits2 M1 - 1))
          by (apply Z.pow_le_mono_r; lia).
        assert (EM : M1 = 2 ^ prec) by lia.
        split; [|exact EM].
        assert (Zdigits2 M1 = prec + 1).
        { assert (Hpp : 0 < 2 ^ prec) by (apply Z.pow_pos_nonneg; lia).
          assert (Hlt : 2 ^ prec < 2 ^ Zdigits2 M1) by lia.
          apply pow2_lt_exp in Hlt; [|lia].
          assert (Zdigits2 M1 - 1 <= prec).
          { destruct (Z_le_dec (Zdigits2 M1 - 1) prec); [assumption|].
            assert (2 ^ (prec + 1) <= 2 ^ (Zdigits2 M1 - 1))
              by (apply Z.pow_le_mono_r; lia).
            assert (2 ^ (prec + 1) = 2 * 2 ^ prec)
              by (rewrite Z.pow_add_r by lia; lia).
            lia. }
          lia. }
        unfold k2, SpecFloat.fexp. lia. }
  destruct Hcase as [[Hk2 HM1lt] | [Hk2 HM1eq]].
  - destruct (Z.ltb_spec 0 k2); [lia|]. rewrite Hm2, He2.
    repeat split; first [lia | exact HM1v].
  - rewrite Hk2 in *. cbn [Z.ltb Z.compare] in Hm2, He2.
    assert (Hhalf : M1 / 2 ^ 1 = 2 ^ (prec - 1)).
    { rewrite HM1eq. rewrite <- Z.pow_sub_r by lia. reflexivity. }
    assert (Hpp : 0 < 2 ^ (prec - 1)) by (apply Z.pow_pos_nonneg; lia).
    assert (Hp2 : 2 ^ prec = 2 * 2 ^ (prec - 1)).
    { rewrite <- Z.pow_succ_r by lia. f_equal. lia. }
    rewrite Hm2, He2, Hhalf.
    repeat split; try lia.
    rewrite <- HM1v, HM1eq, Hp2.
    replace (e' + 1 - c) with (Z.succ (e' - c)) by lia.
    rewrite Z.pow_succ_r by lia. ring.
Qed.

Lemma round_nearest_even_bounds (m : Z) (l : location) :
  m <= round_nearest_even m l <= m + 1.
Proof.
  destruct l as [|[| |]]; cbn [round_nearest_even]; try lia.
  destruct (Z.even m); lia.
Qed.

Lemma shr_general (mrs : shr_record) (e n : Z) :
  0 <= shr_m mrs ->
  shr_m (fst (shr mrs e n)) = shr_m mrs / 2 ^ Z.max n 0
  /\ snd (shr mrs e n) = e + Z.max n 0.
Proof.
  intro Hm. destruct n as [|p|p].
  - cbn. rewrite Z.div_1_r. split; [reflexivity | lia].
  - replace (Z.max (Zpos p) 0) with (Zpos p) by lia.
    apply shr_mantissa; lia.
  - replace (Z.max (Zneg p) 0) with 0 by lia. cbn [shr fst snd].
    rewrite Z.pow_0_r, Z.div_1_r. split; [reflexivity | lia].
Qed.

Lemma shr_record_of_loc_m (m : Z) (l : location) :
  shr_m (shr_record_of_loc m l) = m.
Proof. destruct l as [|[| |]]; reflexivity. Qed.

(** A crude bound that holds whatever the location: the result of
    [binary_round_aux] is never NaN, keeps the sign, and a finite result is
    at most twice the truncated input plus one unit. *)
Lemma bra_upper (sx : bool) (m e : Z) (l : location) :
  0 <= m -> emin prec emax <= e ->
  match binary_round_aux prec emax sx m e l with
  | S754_zero s => s = sx
  | S754_infinity s => s = sx
  | S754_nan => False
  | S754_finite s m2 e2 =>
      s = sx /\ e <= e2 /\ Zpos m2 * 2 ^ (e2 - e) <= 2 * m + 1
  end.
Proof.
  intros Hm He. unfold binary_round_aux, shr_fexp.
  set (k1 := fexp prec emax (Zdigits2 m + e) - e).
  pose proof (shr_general (shr_record_of_loc m l) e k1) as H1.
  rewrite shr_record_of_loc_m in H1. specialize (H1 Hm).
  destruct (shr (shr_record_of_loc m l) e k1) as [mrs e1].
  cbn [fst snd] in H1. destruct H1 as [Hm1 He1].
  pose proof (round_nearest_even_bounds (shr_m mrs) (loc_of_shr_record mrs))
    as Hr.
  set (M1 := round_nearest_even (shr_m mrs) (loc_of_shr_record mrs)) in *.
  clearbody M1.
  set (K1 := Z.max k1 0) in *.
  assert (HK1 : 0 <= K1) by (unfold K1; lia).
  assert (Hp1 : 0 < 2 ^ K1) by (apply Z.pow_pos_nonneg; lia).
  assert (Hq1 : 0 <= m / 2 ^ K1) by (apply Z.div_pos; lia).
  set (k2 := fexp prec emax (Zdigits2 M1 + e1) - e1).
  pose proof (shr_general (shr_record_of_loc M1 loc_Exact) e1 k2) as H2.
  rewrite shr_record_of_loc_m in H2. specialize (H2 ltac:(lia)).
  destruct (shr (shr_record_of_loc M1 loc_Exact) e1 k2) as [mrs2 e2].
  cbn [fst snd] in H2. destruct H2 as [Hm2 He2].
  set (K2 := Z.max k2 0) in *.
  assert (HK2 : 0 <= K2) by (unfold K2; lia).
  assert (Hp2 : 0 < 2 ^ K2) by (apply Z.pow_pos_nonneg; lia).
  assert (Hq2 : 0 <= M1 / 2 ^ K2) by (apply Z.div_pos; lia).
  (* the shift never exceeds the number of digits *)
  assert (Hpow : 2 ^ K1 <= m + 1).
  { destruct (Z.eq_dec m 0) as [E0|N0].
    - assert (K1 = 0).
      { unfold K1, k1. rewrite E0. change (Zdigits2 0) with 0.
        unfold SpecFloat.fexp. lia. }
      rewrite H. cbn. lia.
    - destruct (Zdigits2_bounds m ltac:(lia)) as (Hd & Hlo & _).
      assert (K1 <= Zdigits2 m - 1)
        by (unfold K1, k1, SpecFloat.fexp; lia).
      assert (2 ^ K1 <= 2 ^ (Zdigits2 m - 1))
        by (apply Z.pow_le_mono_r; lia).
      lia. }
  assert (Hbound : shr_m mrs2 * 2 ^ (e2 - e) <= 2 * m + 1).
  { rewrite Hm2, He2, He1.
    replace (e + K1 + K2 - e) with (K2 + K1) by lia.
    rewrite Z.pow_add_r by lia.
    pose proof (Z.mul_div_le M1 (2 ^ K2) Hp2).
    pose proof (Z.mul_div_le m (2 ^ K1) Hp1).
    assert (M1 / 2 ^ K2 * 2 ^ K2 <= M1) by lia.
    assert (M1 * 2 ^ K1 <= m + 2 ^ K1) by nia.
    nia. }
  destruct (shr_m mrs2) as [|p|p] eqn:Em2.
  - reflexivity.
  - destruct (e2 <=? emax - prec); [|reflexivity].
    repeat split; [lia | exact Hbound].
  - lia.
Qed.

Lemma Zdigits2_normal (A k : Z) :
  2 ^ (prec - 1) <= A < 2 ^ prec -> 0 <= k ->
  Zdigits2 (A * 2 ^ k) = prec + k.
Proof.
  intros HA Hk.
  assert (0 < 2 ^ (prec - 1)) by (apply Z.pow_pos_nonneg; lia).
  assert (0 < 2 ^ k) by (apply Z.pow_pos_nonneg; lia).
  rewrite Zdigits2_log2 by nia.
  rewrite Z.log2_mul_pow2 by lia.
  rewrite (Z.log2_unique A (prec - 1)); [lia | lia|].
  replace (Z.succ (prec - 1)) with prec by lia. exact HA.
Qed.

(** [binary_round_aux] on a normalised mantissa followed by [k] zero bits
    just drops the zeros. *)
Lemma bra_exact_shift (sx : bool) (M : positive) (A E k : Z) :
  2 ^ (prec - 1) <= A < 2 ^ prec -> 0 <= k ->
  Zpos M = A * 2 ^ k ->
  emin prec emax <= E + k <= emax - prec ->
  binary_round_aux prec emax sx (Zpos M) E loc_Exact
  = S754_finite sx (Z.to_pos A) (E + k).
Proof.
  intros HA Hk HM HE. unfold binary_round_aux.
  pose proof (shr_fexp_exact (Zpos M) E ltac:(lia)) as H1. cbv zeta in H1.
  destruct (shr_fexp prec emax (Zpos M) E loc_Exact) as [mrs e'].
  destruct H1 as (Hround & _ & He'). rewrite Hround. clear Hround mrs.
  rewrite HM, Zdigits2_normal in * by assumption.
  assert (Hk1 : fexp prec emax (prec + k + E) - E = k)
    by (unfold SpecFloat.fexp; lia).
  rewrite Hk1 in *.
  assert (HM1 : (if 0 <? k then rne (A * 2 ^ k) k else A * 2 ^ k) = A
                /\ e' = E + k).
  { destruct (Z.ltb_spec 0 k).
    - rewrite rne_exact by lia. auto.
    - replace k with 0 by lia. rewrite Z.pow_0_r. split; lia. }
  destruct HM1 as [-> ->].
  pose proof (shr_fexp_exact A (E + k) ltac:(lia)) as H2. cbv zeta in H2.
  destruct (shr_fexp prec emax A (E + k) loc_Exact) as [mrs2 e2].
  destruct H2 as (_ & Hm2 & He2).
  assert (Hd : Zdigits2 A = prec).
  { pose proof (Zdigits2_normal A 0 HA ltac:(lia)) as H.
    rewrite Z.pow_0_r, Z.mul_1_r in H. lia. }
  rewrite Hd in *.
  assert (Hk2 : fexp prec emax (prec + (E + k)) - (E + k) = 0)
    by (unfold SpecFloat.fexp; lia).
  rewrite Hk2 in *. cbn [Z.ltb Z.compare] in Hm2, He2.
  rewrite Hm2, He2.
  assert (0 < 2 ^ (prec - 1)) by (apply Z.pow_pos_nonneg; lia).
  destruct A as [|a|a]; try lia.
  destruct (Z.leb_spec (E + k) (emax - prec)); [reflexivity | lia].
Qed.
End BinaryRound.

Section IntegerFloats.
Variables prec emax : Z.
Hypothesis prec_pos : 0 < prec.
Hypothesis emax_ge_prec : prec <= emax.
Hypothesis emax_ge_2 : 2 <= emax.

Lemma iter_xO (m d : positive) :
  Zpos (Pos.iter xO m d) = Zpos m * 2 ^ Zpos d.
Proof.
  induction d as [|d IH] using Pos.peano_ind.
  - cbn. lia.
  - rewrite Pos.iter_succ, Pos2Z.inj_xO, IH, Pos2Z.inj_succ.
    rewrite Z.pow_succ_r by lia. ring.
Qed.

Lemma shl_align_spec (mx : positive) (ex ex' : Z) :
  snd (shl_align mx ex ex') = Z.min ex ex'
  /\ Zpos (fst (shl_align mx ex ex'))
     = Zpos mx * 2 ^ (ex - Z.min ex ex').
Proof.
  unfold shl_align. destruct (ex' - ex) as [|d|d] eqn:E; cbn [fst snd].
  - replace (Z.min ex ex') with ex by lia.
    rewrite Z.sub_diag, Z.pow_0_r. lia.
  - replace (Z.min ex ex') with ex by lia.
    rewrite Z.sub_diag, Z.pow_0_r. lia.
  - replace (Z.min ex ex') with ex' by lia.
    rewrite iter_xO. split; [reflexivity|]. do 2 f_equal. lia.
Qed.

Lemma canon_mantissa (z : Z) :
  0 < z < 2 ^ prec ->
  2 ^ (prec - 1) <= z * 2 ^ (prec - (Z.log2 z + 1)) < 2 ^ prec
  /\ 1 - prec <= Z.log2 z + 1 - prec <= 0.
Proof.
  intros [Hz Hlt].
  pose proof (Z.log2_spec z Hz) as [Hlo Hhi].
  pose proof (Z.log2_nonneg z) as Hn.
  assert (Hl : Z.log2 z < prec) by (apply Z.log2_lt_pow2; lia).
  set (d := Z.log2 z + 1) in *.
  replace (Z.succ (Z.log2 z)) with d in Hhi by (unfold d; lia).
  replace (Z.log2 z) with (d - 1) in Hlo by (unfold d; lia).
  assert (Hp : 0 < 2 ^ (prec - d)) by (apply Z.pow_pos_nonneg; lia).
  assert (E1 : 2 ^ (prec - 1) = 2 ^ (d - 1) * 2 ^ (prec - d)).
  { rewrite <- Z.pow_add_r by lia. f_equal. lia. }
  assert (E2 : 2 ^ prec = 2 ^ d * 2 ^ (prec - d)).
  { rewrite <- Z.pow_add_r by lia. f_equal. lia. }
  rewrite E1, E2. split; [nia | lia].
Qed.

(** Normalising an integer below [2^prec], given with [j] trailing zero
    bits, yields its canonical float. *)
Lemma binary_normalize_canon (z j : Z) :
  0 < z < 2 ^ prec -> 0 <= j ->
  binary_normalize prec emax (z * 2 ^ j) (- j) false = canon prec z.
Proof.
  intros Hz Hj.
  assert (Hpj : 0 < 2 ^ j) by (apply Z.pow_pos_nonneg; lia).
  destruct (canon_mantissa z Hz) as (HA & Ht).
  set (t := Z.log2 z + 1 - prec) in *.
  set (A := z * 2 ^ (prec - (Z.log2 z + 1))) in *.
  destruct (z * 2 ^ j) as [|p|p] eqn:Ep; try nia.
  unfold binary_normalize, binary_round.
  assert (Hd : Zpos (digits2_pos p) + - j = Z.log2 z + 1).
  { change (Zpos (digits2_pos p)) with (Zdigits2 (Zpos p)).
    rewrite Zdigits2_log2, <- Ep, Z.log2_mul_pow2 by lia. lia. }
  rewrite Hd.
  assert (Hf : fexp prec emax (Z.log2 z + 1) = t)
    by (unfold SpecFloat.fexp, SpecFloat.emin, t; lia).
  rewrite Hf.
  destruct (shl_align_spec p (- j) t) as [Hs Hm].
  destruct (shl_align p (- j) t) as [mz ez]. cbn [fst snd] in Hs, Hm.
  rewrite (bra_exact_shift prec emax prec_pos false mz A ez (t - ez)).
  - unfold canon. fold t A. f_equal. lia.
  - exact HA.
  - lia.
  - rewrite Hm, <- Ep, Hs. unfold A.
    rewrite <- !Z.mul_assoc, <- !Z.pow_add_r by lia.
    do 2 f_equal. unfold t. lia.
  - unfold SpecFloat.emin. lia.
Qed.

Lemma of_Z_canon (z : Z) :
  0 < z < 2 ^ prec -> FloatModel.of_Z prec emax z = canon prec z.
Proof.
  intro Hz. unfold FloatModel.of_Z.
  rewrite <- (binary_normalize_canon z 0) by lia.
  now rewrite Z.pow_0_r, Z.mul_1_r.
Qed.

Lemma bra_sign (sx : bool) (M : positive) (E : Z) :
  match binary_round_aux prec emax sx (Zpos M) E loc_Exact with
  | S754_zero s | S754_infinity s | S754_finite s _ _ => s = sx
  | S754_nan => False
  end.
Proof.
  destruct (bra_exact_value prec emax prec_pos sx M E E ltac:(lia))
    as (M2 & E2 & HM2 & _ & _ & ->).
  destruct M2 as [|m|m]; try lia; [reflexivity|].
  destruct (E2 <=? emax - prec); reflexivity.
Qed.

(** Subtracting integer-valued floats: exact when the difference is
    positive, and not above zero otherwise. *)
Lemma sub_canon (a b : Z) :
  0 < a < 2 ^ prec -> 0 < b < 2 ^ prec ->
  if b <? a
  then FloatModel.sub prec emax (canon prec a) (canon prec b)
       = canon prec (a - b)
  else SFleb (FloatModel.sub prec emax (canon prec a) (canon prec b))
             (S754_zero false) = true.
Proof.
  intros Ha Hb.
  destruct (canon_mantissa a Ha) as (HA & Hta).
  destruct (canon_mantissa b Hb) as (HB & Htb).
  unfold FloatModel.sub, canon, SFsub. cbn [cond_Zopp].
  set (ea := Z.log2 a + 1 - prec) in *.
  set (eb := Z.log2 b + 1 - prec) in *.
  set (ma := Z.to_pos (a * 2 ^ (prec - (Z.log2 a + 1)))).
  set (mb := Z.to_pos (b * 2 ^ (prec - (Z.log2 b + 1)))).
  set (ez := Z.min ea eb).
  assert (0 < 2 ^ (prec - 1)) by (apply Z.pow_pos_nonneg; lia).
  assert (Hma : Zpos ma = a * 2 ^ (- ea)).
  { unfold ma. rewrite Z2Pos.id by lia. do 2 f_equal. unfold ea. lia. }
  assert (Hmb : Zpos mb = b * 2 ^ (- eb)).
  { unfold mb. rewrite Z2Pos.id by lia. do 2 f_equal. unfold eb. lia. }
  destruct (shl_align_spec ma ea ez) as [_ Hsa].
  destruct (shl_align_spec mb eb ez) as [_ Hsb].
  replace (Z.min ea ez) with ez in Hsa by (unfold ez; lia).
  replace (Z.min eb ez) with ez in Hsb by (unfold ez; lia).
  assert (Ea : Zpos (fst (shl_align ma ea ez)) = a * 2 ^ (- ez)).
  { rewrite Hsa, Hma, <- Z.mul_assoc, <- Z.pow_add_r by (unfold ez; lia).
    do 2 f_equal. lia. }
  assert (Eb : Zpos (fst (shl_align mb eb ez)) = b * 2 ^ (- ez)).
  { rewrite Hsb, Hmb, <- Z.mul_assoc, <- Z.pow_add_r by (unfold ez; lia).
    do 2 f_equal. lia. }
  rewrite Ea, Eb, <- Z.mul_sub_distr_r.
  assert (Hpz : 0 < 2 ^ (- ez)) by (apply Z.pow_pos_nonneg; unfold ez; lia).
  destruct (Z.ltb_spec b a) as [Hlt|Hge].
  - rewrite <- (Z.opp_involutive ez) at 2.
    apply binary_normalize_canon; unfold ez; lia.
  - destruct ((a - b) * 2 ^ (- ez)) as [|p|p] eqn:Ep; try nia.
    + reflexivity.
    + unfold binary_normalize, binary_round.
      destruct (shl_align p ez _) as [mz ezz].
      pose proof (bra_sign true mz ezz) as Hs.
      destruct (binary_round_aux prec emax true (Zpos mz) ezz loc_Exact)
        as [s|s| |s m e]; try contradiction; subst s; reflexivity.
Qed.
End IntegerFloats.

Section Products.
Variables prec emax : Z.
Hypothesis prec_gt_1 : 1 < prec.
Hypothesis emax_ge_prec : prec <= emax.
Hypothesis emax_ge_3 : 3 <= emax.

Lemma rnd_pow2 (lo j : Z) : 0 <= j -> lo <= j -> rnd prec lo (2 ^ j) = 2 ^ j.
Proof.
  intros Hj Hlo. unfold rnd. cbv zeta. rewrite Z.log2_pow2 by lia.
  set (k := Z.max (j + 1 - prec) lo).
  destruct (Z.leb_spec k 0); [reflexivity|].
  replace (2 ^ j) with (2 ^ (j - k) * 2 ^ k) at 1
    by (rewrite <- Z.pow_add_r by (unfold k in *; lia); f_equal; lia).
  rewrite rne_exact by lia.
  rewrite <- Z.pow_add_r by (unfold k in *; lia). f_equal. lia.
Qed.

Lemma rnd_nonneg (lo V : Z) : 0 <= V -> 0 <= rnd prec lo V.
Proof.
  intro H. unfold rnd. cbv zeta. destruct (_ <=? 0); [exact H|].
  set (k := Z.max _ _).
  pose proof (rne_bounds V k).
  destruct (Z_le_dec 0 k).
  - assert (0 < 2 ^ k) by (apply Z.pow_pos_nonneg; lia).
    assert (0 <= V / 2 ^ k) by (apply Z.div_pos; lia). nia.
  - rewrite (Z.pow_neg_r 2 k) by lia. lia.
Qed.

(** [round] of a non-negative finite float, from its value in units of
    [2^c]. *)
Lemma round_away_scaled (m : positive) (e c : Z) :
  c <= e -> c < 0 ->
  FloatModel.round_away (S754_finite false m e)
  = Some ((Zpos m * 2 ^ (e - c) + 2 ^ (- c - 1)) / 2 ^ (- c)).
Proof.
  intros Hce Hc. unfold FloatModel.round_away. f_equal.
  assert (Hh : 0 < 2 ^ (- c - 1)) by (apply Z.pow_pos_nonneg; lia).
  assert (Ep : 2 ^ (- c) = 2 * 2 ^ (- c - 1)).
  { rewrite <- Z.pow_succ_r by lia. f_equal. lia. }
  destruct (Z.leb_spec 0 e) as [He|He].
  - replace (Zpos m * 2 ^ (e - c)) with (Zpos m * 2 ^ e * 2 ^ (- c))
      by (rewrite <- Z.mul_assoc, <- Z.pow_add_r by lia; do 2 f_equal; lia).
    rewrite Z.div_add_l by lia.
    rewrite (Z.div_small (2 ^ (- c - 1))) by lia. lia.
  - assert (Hj : 0 < 2 ^ (e - c)) by (apply Z.pow_pos_nonneg; lia).
    replace (2 ^ (- c - 1)) with (2 ^ (- e - 1) * 2 ^ (e - c))
      by (rewrite <- Z.pow_add_r by lia; f_equal; lia).
    replace (2 ^ (- c)) with (2 ^ (- e) * 2 ^ (e - c))
      by (rewrite <- Z.pow_add_r by lia; f_equal; lia).
    rewrite <- Z.mul_add_distr_r.
    rewrite Z.div_mul_cancel_r by (try apply Z.pow_nonzero; lia).
    reflexivity.
Qed.

(** The product of the integer [n] and the positive float [s], rounded:
    its value is [rnd] of the exact product. *)
Lemma mul_value (n : Z) (ms : positive) (es c2 : Z) :
  0 < n < 2 ^ prec -> c2 <= es ->
  let c := 1 - prec + c2 in
  let V := n * 2 ^ (prec - 1) * (Zpos ms * 2 ^ (es - c2)) in
  exists M2 E2,
    0 <= M2 < 2 ^ prec /\ c <= E2
    /\ M2 * 2 ^ (E2 - c) = rnd prec (emin prec emax - c) V
    /\ FloatModel.mul prec emax (FloatModel.of_Z prec emax n)
                      (S754_finite false ms es)
       = match M2 with
         | Z0 => S754_zero false
         | Zpos m => if E2 <=? emax - prec then S754_finite false m E2
                     else S754_infinity false
         | Zneg _ => S754_nan
         end.
Proof.
  intros Hn Hc2 c V.
  assert (Hp : 0 < prec) by lia. assert (He2 : 2 <= emax) by lia.
  rewrite (of_Z_canon prec emax Hp emax_ge_prec He2 n Hn).
  destruct (canon_mantissa prec emax Hp He2 n Hn) as (HA & Ht).
  unfold canon, FloatModel.mul, SFmul. cbn [xorb].
  set (en := Z.log2 n + 1 - prec) in *.
  set (mn := Z.to_pos (n * 2 ^ (prec - (Z.log2 n + 1)))).
  assert (0 < 2 ^ (prec - 1)) by (apply Z.pow_pos_nonneg; lia).
  assert (Hmn : Zpos mn = n * 2 ^ (- en)).
  { unfold mn. rewrite Z2Pos.id by lia. do 2 f_equal. unfold en. lia. }
  assert (Hc : c <= en + es) by (unfold c; lia).
  destruct (bra_exact_value prec emax Hp false (mn * ms) (en + es) c Hc)
    as (M2 & E2 & HM2 & HE2 & Hval & Hres).
  exists M2, E2. split; [exact HM2|]. split; [unfold c in *; lia|].
  split; [|exact Hres].
  rewrite Hval. f_equal. unfold V.
  rewrite Pos2Z.inj_mul, Hmn.
  replace (en + es - c) with ((en + prec - 1) + (es - c2)) by (unfold c; lia).
  rewrite Z.pow_add_r by lia.
  replace (2 ^ (prec - 1)) with (2 ^ (- en) * 2 ^ (en + prec - 1))
    by (rewrite <- Z.pow_add_r by lia; f_equal; lia).
  ring.
Qed.
End Products.

Section Entries.
Variables prec emax : Z.
Hypothesis prec_gt_1 : 1 < prec.
Hypothesis emax_ge_prec : prec <= emax.
Hypothesis emax_ge_3 : 3 <= emax.
Hypothesis emax_room : 10 <= emax - prec.

(** One entry of the table: the count [n] times the scale [s], rounded
    to the format, rounded to an integer, converted to [unsigned]. *)
Lemma entry_value (n : Z) (ms : positive) (es c2 : Z) :
  0 < n < 2 ^ prec -> c2 <= es -> c2 <= 0 ->
  Zpos ms * 2 ^ (es - c2) * n <= 2 ^ 10 * 2 ^ (- c2) ->
  let c := 1 - prec + c2 in
  let V := n * 2 ^ (prec - 1) * (Zpos ms * 2 ^ (es - c2)) in
  let R := rnd prec (emin prec emax - c) V in
  R <= 2 ^ (10 - c)
  /\ FloatModel.to_uint (FloatModel.round_away
       (FloatModel.mul prec emax (FloatModel.of_Z prec emax n)
                       (S754_finite false ms es)))
     = (R + 2 ^ (- c - 1)) / 2 ^ (- c).
Proof.
  intros Hn Hc2 Hc20 Hb c V R.
  assert (Hp1 : 0 < 2 ^ (prec - 1)) by (apply Z.pow_pos_nonneg; lia).
  assert (Hs : 0 < 2 ^ (es - c2)) by (apply Z.pow_pos_nonneg; lia).
  assert (HV : 0 < V) by (unfold V; nia).
  assert (HVle : V <= 2 ^ (10 - c)).
  { unfold V, c. replace (10 - (1 - prec + c2)) with (10 + (- c2) + (prec - 1)) by lia.
    rewrite !Z.pow_add_r by lia.
    replace (n * 2 ^ (prec - 1) * (Zpos ms * 2 ^ (es - c2)))
      with (Zpos ms * 2 ^ (es - c2) * n * 2 ^ (prec - 1)) by ring.
    apply Z.mul_le_mono_nonneg_r; lia. }
  assert (HR : R <= 2 ^ (10 - c)).
  { unfold R. rewrite <- (rnd_pow2 prec ltac:(lia) (emin prec emax - c) (10 - c))
      by (unfold c, emin; lia).
    apply rnd_mono; lia. }
  split; [exact HR|].
  destruct (mul_value prec emax prec_gt_1 emax_ge_prec emax_ge_3 n ms es c2 Hn Hc2)
    as (M2 & E2 & HM2 & HE2 & Hval & Hres).
  fold c in HE2, Hval. fold V in Hval. fold R in Hval.
  rewrite Hres.
  assert (Hh : 0 < 2 ^ (- c - 1)) by (apply Z.pow_pos_nonneg; unfold c; lia).
  assert (Ep : 2 ^ (- c) = 2 * 2 ^ (- c - 1)).
  { rewrite <- Z.pow_succ_r by (unfold c; lia). f_equal. lia. }
  destruct M2 as [|m|m]; [| |lia].
  - cbn [FloatModel.round_away FloatModel.to_uint].
    rewrite <- Hval, Z.mul_0_l, Z.add_0_l.
    rewrite Z.div_small by lia. reflexivity.
  - assert (HE : E2 <= 10).
    { assert (H2 : 2 ^ (E2 - c) <= 2 ^ (10 - c)).
      { assert (0 < 2 ^ (E2 - c)) by (apply Z.pow_pos_nonneg; lia). nia. }
      destruct (Z_le_dec E2 10); [assumption|].
      assert (2 ^ (10 - c) < 2 ^ (E2 - c)) by (apply Z.pow_lt_mono_r; unfold c; lia).
      lia. }
    destruct (Z.leb_spec E2 (emax - prec)); [|lia].
    rewrite (round_away_scaled m E2 c) by (unfold c; lia).
    rewrite Hval. unfold FloatModel.to_uint.
    set (r := (R + 2 ^ (- c - 1)) / 2 ^ (- c)).
    assert (Hr : 0 <= r <= 2 ^ 10 + 1).
    { unfold r. split.
      - apply Z.div_pos; [|lia].
        assert (0 <= R) by (unfold R; apply rnd_nonneg; lia). lia.
      - apply Z.div_le_upper_bound; [lia|].
        replace (2 ^ (10 - c)) with (2 ^ (- c) * 2 ^ 10) in HR
          by (rewrite <- Z.pow_add_r by (unfold c; lia); f_equal; lia).
        lia. }
    change (2 ^ 10 + 1) with 1025 in Hr.
    destruct (Z.leb_spec (-9223372036854775808) r); [|lia].
    destruct (Z.ltb_spec r 9223372036854775808); [|lia].
    cbn [andb]. unfold CInt.u32. apply Z.mod_small. lia.
Qed.

Lemma entry_zero (s : spec_float) :
  FloatModel.to_uint (FloatModel.round_away
     (FloatModel.mul prec emax (FloatModel.of_Z prec emax 0) s)) = 0.
Proof.
  unfold FloatModel.of_Z, binary_normalize, FloatModel.mul.
  destruct s as [sg|sg| |sg m e]; reflexivity.
Qed.

Lemma entry_not_finite (n : Z) (s : spec_float) :
  0 < n < 2 ^ prec ->
  match s with S754_finite _ _ _ => False | _ => True end ->
  FloatModel.to_uint (FloatModel.round_away
     (FloatModel.mul prec emax (FloatModel.of_Z prec emax n) s)) = 0.
Proof.
  intros Hn Hs.
  rewrite (of_Z_canon prec emax) by lia.
  unfold canon, FloatModel.mul.
  destruct s as [sg|sg| |sg m e]; [reflexivity|reflexivity|reflexivity|contradiction].
Qed.

(** Entries are ordered like the counts, and stay below 1024, when the
    scale maps the largest count below 1024. *)
Lemma entry_mono (n1 n2 : Z) (ms : positive) (es c2 : Z) :
  0 <= n1 -> n1 <= n2 -> n2 < 2 ^ prec -> c2 <= es -> c2 <= 0 ->
  Zpos ms * 2 ^ (es - c2) * n2 <= 2 ^ 10 * 2 ^ (- c2) ->
  let v n := FloatModel.to_uint (FloatModel.round_away
     (FloatModel.mul prec emax (FloatModel.of_Z prec emax n)
                     (S754_finite false ms es))) in
  0 <= v n1 /\ v n1 <= v n2.
Proof.
  intros H1 H12 H2 Hc2 Hc20 Hb v.
  assert (Hs : 0 < 2 ^ (es - c2)) by (apply Z.pow_pos_nonneg; lia).
  assert (Hp1 : 0 < 2 ^ (prec - 1)) by (apply Z.pow_pos_nonneg; lia).
  set (c := 1 - prec + c2).
  assert (HP : 0 < 2 ^ (- c)) by (apply Z.pow_pos_nonneg; unfold c; lia).
  assert (Hh : 0 < 2 ^ (- c - 1)) by (apply Z.pow_pos_nonneg; unfold c; lia).
  assert (Hnn : forall n, 0 < n <= n2 -> 
     v n = (rnd prec (emin prec emax - c)
             (n * 2 ^ (prec - 1) * (Zpos ms * 2 ^ (es - c2))) + 2 ^ (- c - 1)) / 2 ^ (- c)).
  { intros n Hn. unfold v.
    apply (entry_value n ms es c2); try lia.
    assert (Zpos ms * 2 ^ (es - c2) * n <= Zpos ms * 2 ^ (es - c2) * n2)
      by (apply Z.mul_le_mono_nonneg_l; lia).
    lia. }
  assert (Hpos : forall n, 0 < n <= n2 -> 0 <= v n).
  { intros n Hn. rewrite (Hnn n Hn). apply Z.div_pos; [|lia].
    assert (0 <= rnd prec (emin prec emax - c)
                   (n * 2 ^ (prec - 1) * (Zpos ms * 2 ^ (es - c2))))
      by (apply rnd_nonneg; nia).
    lia. }
  destruct (Z.eq_dec n1 0) as [->|Hn1].
  - assert (E0 : v 0 = 0) by apply entry_zero.
    rewrite E0. split; [lia|].
    destruct (Z.eq_dec n2 0) as [->|]; [lia|]. apply Hpos. lia.
  - split; [apply Hpos; lia|].
    rewrite (Hnn n1), (Hnn n2) by lia.
    apply Z.div_le_mono; [lia|].
    apply Z.add_le_mono_r.
    apply rnd_mono; [lia|nia|].
    apply Z.mul_le_mono_nonneg_r; [lia|].
    apply Z.mul_le_mono_nonneg_r; lia.
Qed.
End Entries.

Section Quotients.
Variables prec emax : Z.
Hypothesis prec_gt_1 : 1 < prec.
Hypothesis emax_ge_prec : prec <= emax.
Hypothesis emax_ge_3 : 3 <= emax.

(** The quotient of two integers of the format, as a float [s]: it is
    never NaN, never negative, and [s * D <= 2 * a + 1]. *)
Lemma div_bound (a D : Z) :
  0 < a < 2 ^ prec -> 0 < D < 2 ^ prec ->
  match FloatModel.div prec emax (canon prec a) (canon prec D) with
  | S754_nan => False
  | S754_finite s ms es =>
      s = false /\ exists c2, c2 <= es /\ c2 <= 0
        /\ Zpos ms * 2 ^ (es - c2) * D <= (2 * a + 1) * 2 ^ (- c2)
  | _ => True
  end.
Proof.
  intros Ha HD.
  assert (Hp : 0 < prec) by lia. assert (He2 : 2 <= emax) by lia.
  destruct (canon_mantissa prec emax Hp He2 a Ha) as (HA & HtA).
  destruct (canon_mantissa prec emax Hp He2 D HD) as (HB & HtB).
  unfold FloatModel.div, SFdiv, canon. cbn [xorb].
  set (ea := Z.log2 a + 1 - prec) in *.
  set (ed := Z.log2 D + 1 - prec) in *.
  replace (prec - (Z.log2 a + 1)) with (- ea) in * by (unfold ea; lia).
  replace (prec - (Z.log2 D + 1)) with (- ed) in * by (unfold ed; lia).
  set (A := a * 2 ^ (- ea)) in *. set (B := D * 2 ^ (- ed)) in *.
  assert (Hp1 : 0 < 2 ^ (prec - 1)) by (apply Z.pow_pos_nonneg; lia).
  rewrite !Z2Pos.id by lia.
  unfold SFdiv_core_binary.
  assert (EdA : Zdigits2 A = prec).
  { replace A with (A * 2 ^ 0) by (rewrite Z.pow_0_r; lia).
    rewrite (Zdigits2_normal prec Hp) by lia. lia. }
  assert (EdB : Zdigits2 B = prec).
  { replace B with (B * 2 ^ 0) by (rewrite Z.pow_0_r; lia).
    rewrite (Zdigits2_normal prec Hp) by lia. lia. }
  rewrite EdA, EdB.
  set (e' := Z.min (fexp prec emax (prec + ea - (prec + ed))) (ea - ed)).
  set (sh := ea - ed - e').
  assert (He'lo : emin prec emax <= e').
  { unfold e'. pose proof (fexp_ge_emin prec emax (prec + ea - (prec + ed))).
    unfold emin in *. lia. }
  assert (He'neg : e' <= 0 /\ D <= 2 ^ (- e')).
  { assert (Hf : fexp prec emax (prec + ea - (prec + ed))
                 = Z.max (ea - ed - prec) (emin prec emax))
      by (unfold fexp; f_equal; lia).
    assert (HDlog : D < 2 ^ (Z.log2 D + 1)) by (apply Z.log2_spec; lia).
    destruct (Z.max_spec (ea - ed - prec) (emin prec emax)) as [[Hc Hm]|[Hc Hm]].
    - assert (e' <= emin prec emax) by (unfold e'; lia).
      split; [unfold emin in *; lia|].
      assert (2 ^ prec <= 2 ^ (- e'))
        by (apply Z.pow_le_mono_r; unfold emin in *; lia).
      lia.
    - assert (e' <= ea - ed - prec) by (unfold e'; lia).
      split; [lia|].
      assert (2 ^ (Z.log2 D + 1) <= 2 ^ (- e'))
        by (apply Z.pow_le_mono_r; unfold ea, ed in *; lia).
      lia. }
  destruct He'neg as [He'neg HDle].
  assert (Hsh : 0 <= sh) by (unfold sh, e'; lia).
  set (m' := match sh with Z.pos _ => Z.shiftl A sh | 0 => A | Z.neg _ => 0 end).
  assert (Em' : m' = A * 2 ^ sh).
  { unfold m'. destruct sh as [|p|p]; [rewrite Z.pow_0_r; lia| |lia].
    apply Z.shiftl_mul_pow2. lia. }
  pose proof (Z_div_mod m' B ltac:(lia)) as Hdiv.
  destruct (Z.div_eucl m' B) as [q r]. destruct Hdiv as [Eq Hr].
  assert (Hsh2 : 0 < 2 ^ sh) by (apply Z.pow_pos_nonneg; lia).
  assert (Hq : 0 <= q) by nia.
  pose proof (bra_upper prec emax Hp false q e' (new_location B r) Hq He'lo) as Hup.
  destruct (binary_round_aux prec emax false q e' (new_location B r))
    as [s|s| |s ms es]; [exact I|exact I|exact Hup|].
  destruct Hup as (Hs & Hes & Hms).
  split; [exact Hs|].
  exists e'. split; [exact Hes|]. split; [exact He'neg|].
  assert (Hed : 0 < 2 ^ (- ed)) by (apply Z.pow_pos_nonneg; lia).
  assert (HqD : q * D <= a * 2 ^ (- e')).
  { assert (Hk : q * B <= A * 2 ^ sh) by nia.
    unfold A, B in Hk.
    replace (a * 2 ^ (- ea) * 2 ^ sh) with (a * 2 ^ (- e') * 2 ^ (- ed)) in Hk.
    - replace (q * (D * 2 ^ (- ed))) with (q * D * 2 ^ (- ed)) in Hk by ring.
      apply Z.mul_le_mono_pos_r in Hk; assumption.
    - rewrite <- !Z.mul_assoc, <- !Z.pow_add_r by lia.
      do 2 f_equal. unfold sh. lia. }
  assert (0 < 2 ^ (- e')) by (apply Z.pow_pos_nonneg; lia).
  nia.
Qed.
End Quotients.

(** ** The equalisation table *)

(** A loop that stores one entry per round, each computed from the entries
    before it. *)
Lemma iterate_fill {A} (d : A) (R : Z -> A -> Prop) (g : Z -> list A -> A)
    (n : nat) (i : Z) (l : list A) :
  0 <= i -> i + Z.of_nat n <= Z.of_nat (length l) ->
  (forall j, 0 <= j < i -> R j (get d j l)) ->
  (forall k a, i <= k < i + Z.of_nat n -> length a = length l ->
     (forall j, 0 <= j < k -> R j (get d j a)) -> R k (g k a)) ->
  let r := iterate n i (fun k a => upd k (g k a) a) l in
  length r = length l /\ forall j, 0 <= j < i + Z.of_nat n -> R j (get d j r).
Proof.
  revert i l; induction n as [|n IH]; intros i l Hi Hlen Hpre Hstep.
  - cbn. split; [reflexivity|]. intros j Hj. apply Hpre. lia.
  - cbn [iterate].
    assert (Hpre' : forall j, 0 <= j < i + 1 ->
                      R j (get d j (upd i (g i l) l))).
    { intros j Hj. destruct (Z.eq_dec j i) as [->|Hne].
      - rewrite get_upd_same by lia. apply Hstep; [lia|reflexivity|exact Hpre].
      - rewrite get_upd_other by lia. apply Hpre. lia. }
    destruct (IH (i + 1) (upd i (g i l) l)) as [Hl Hr].
    + lia.
    + rewrite upd_length. lia.
    + exact Hpre'.
    + intros k a Hk Ha Hj. apply Hstep; [lia| |exact Hj].
      rewrite Ha. apply upd_length.
    + rewrite upd_length in Hl. split; [exact Hl|].
      intros j Hj. apply Hr. lia.
Qed.

Lemma total_app (l1 l2 : list Z) : total (l1 ++ l2) = total l1 + total l2.
Proof.
  unfold total. induction l1 as [|x l1 IH]; cbn; [reflexivity|].
  fold (total (l1 ++ l2)) in *. lia.
Qed.

Lemma psum_step (hist : list Z) (i : Z) :
  0 <= i < Z.of_nat (length hist) ->
  psum hist i = psum hist (i - 1) + get 0 i hist.
Proof.
  intro Hi. unfold psum.
  replace (Z.to_nat (i + 1)) with (S (Z.to_nat i)) by lia.
  replace (Z.to_nat (i - 1 + 1)) with (Z.to_nat i) by lia.
  rewrite get_nth by lia.
  assert (Hn : (Z.to_nat i < length hist)%nat) by lia.
  revert Hn. generalize (Z.to_nat i). clear.
  induction hist as [|x l IH]; intros n Hn; [cbn in Hn; lia|].
  destruct n as [|n].
  - cbn. lia.
  - cbn [length] in Hn.
    change (firstn (S (S n)) (x :: l)) with (x :: firstn (S n) l).
    change (firstn (S n) (x :: l)) with (x :: firstn n l).
    change (nth (S n) (x :: l) 0) with (nth n l 0).
    unfold total in *. cbn [fold_right]. rewrite IH by lia. lia.
Qed.

Lemma psum_first (hist : list Z) : psum hist (-1) = 0.
Proof. reflexivity. Qed.

Lemma psum_last (hist : list Z) (i : Z) :
  Z.of_nat (length hist) <= i + 1 -> psum hist i = total hist.
Proof. intro H. unfold psum. rewrite firstn_all2 by lia. reflexivity. Qed.

Lemma hist_entry (hist : list Z) (i : Z) :
  is_histogram hist -> 0 <= get 0 i hist <= 4294967295.
Proof.
  intros [_ H].
  apply (get_in_range (fun h => 0 <= h <= 4294967295)); [exact H|lia].
Qed.

Lemma psum_mono (hist : list Z) (i j : Z) :
  is_histogram hist -> -1 <= i -> i <= j -> j < 256 ->
  psum hist i <= psum hist j.
Proof.
  intros Hh Hi Hij Hj.
  replace j with (i + Z.of_nat (Z.to_nat (j - i))) in * by lia.
  induction (Z.to_nat (j - i)) as [|n IH].
  - rewrite Z.add_0_r. lia.
  - assert (Hn : psum hist i <= psum hist (i + Z.of_nat n)) by (apply IH; lia).
    rewrite (psum_step hist (i + Z.of_nat (S n))) by (destruct Hh as [-> _]; lia).
    replace (i + Z.of_nat (S n) - 1) with (i + Z.of_nat n) by lia.
    pose proof (hist_entry hist (i + Z.of_nat (S n)) Hh). lia.
Qed.

Lemma psum_bounds (hist : list Z) (i : Z) :
  is_histogram hist -> -1 <= i < 256 -> 0 <= psum hist i <= total hist.
Proof.
  intros Hh Hi. split.
  - rewrite <- (psum_first hist). apply psum_mono; [assumption|lia..].
  - rewrite <- (psum_last hist 255) by (destruct Hh as [-> _]; lia).
    apply psum_mono; [assumption|lia..].
Qed.

Lemma total_bound (hist : list Z) :
  is_histogram hist -> total hist <= 256 * 4294967295.
Proof.
  intros [Hlen H].
  assert (G : total hist <= Z.of_nat (length hist) * 4294967295).
  { clear Hlen. induction H as [|x l Hx _ IH]; [cbn; lia|].
    unfold total in *. cbn [fold_right length]. lia. }
  rewrite Hlen in G. exact G.
Qed.

(** The cumulative histogram holds the running sums: [unsigned long long]
    is wide enough for 256 [unsigned int] counters. *)
Lemma compute_cdf_spec (hist : list Z) :
  is_histogram hist ->
  length (compute_cdf hist) = 256%nat
  /\ forall i, 0 <= i < 256 -> get 0 i (compute_cdf hist) = psum hist i.
Proof.
  intro Hh. unfold compute_cdf, for_range.
  set (l0 := upd 0 (get 0 0 hist) (repeat 0 256%nat)).
  assert (Hl0 : length l0 = 256%nat)
    by (unfold l0; rewrite upd_length; apply repeat_length).
  destruct (iterate_fill 0 (fun j v => v = psum hist j)
              (fun i cdf => CInt.u64 (get 0 (i - 1) cdf + get 0 i hist))
              (Z.to_nat (256 - 1)) 1 l0) as [Hlen Hval].
  - lia.
  - rewrite Hl0. lia.
  - intros j Hj. assert (j = 0) as -> by lia.
    unfold l0. rewrite get_upd_same by (rewrite repeat_length; lia).
    rewrite (psum_step hist 0) by (destruct Hh as [-> _]; lia).
    cbn [Z.sub]. rewrite psum_first. lia.
  - intros k a Hk Ha Hpre. cbv beta.
    rewrite Hpre by lia.
    rewrite <- psum_step by (destruct Hh as [-> _]; lia).
    pose proof (psum_bounds hist k Hh ltac:(lia)).
    pose proof (total_bound hist Hh).
    unfold CInt.u64. apply Z.mod_small. lia.
  - cbv zeta in Hlen, Hval. split; [rewrite Hlen; exact Hl0|].
    intros i Hi. apply Hval. lia.
Qed.

(** The minimum is 0 or one of the running sums. *)
Lemma find_cdfmin_bounds (hist : list Z) :
  is_histogram hist -> 0 <= find_cdfmin (compute_cdf hist) <= total hist.
Proof.
  intro Hh. destruct (compute_cdf_spec hist Hh) as [Hlen Hval].
  pose proof (psum_bounds hist (-1) Hh ltac:(lia)) as Ht.
  rewrite psum_first in Ht.
  unfold find_cdfmin.
  destruct (find _ _) as [c|] eqn:E; [|lia].
  apply find_some in E. destruct E as [Hin _].
  rewrite firstn_all2 in Hin by lia.
  destruct (In_nth _ _ 0 Hin) as (k & Hk & <-).
  rewrite <- (Nat2Z.id k), <- get_nth by lia.
  rewrite Hval by lia. apply psum_bounds; [assumption|lia].
Qed.

(** The loop of the general branch stores [lut_entry] of each count. *)
Lemma general_loop_spec (cdf : list Z) (cdfmin : Z) (s : spec_float) :
  let lut :=
    for_range 0 256
      (fun i hist_eq =>
         let hist_eq := if get 0 i cdf =? 0 then upd i 0 hist_eq
                        else hist_eq in
         let numerator := if get 0 i cdf >=? cdfmin
                          then CInt.u64 (get 0 i cdf - cdfmin) else 0 in
         let v := FloatModel.to_uint
                    (FloatModel.round_away
                       (F64.mul (F64.of_Z numerator) s)) in
         upd i (if v >? 255 then 255 else v) hist_eq)
      (repeat 0 256%nat) in
  length lut = 256%nat
  /\ forall i, 0 <= i < 256 ->
       get 0 i lut
       = lut_entry s (if get 0 i cdf >=? cdfmin
                      then CInt.u64 (get 0 i cdf - cdfmin) else 0).
Proof.
  intro lut. unfold lut, for_range.
  rewrite (iterate_ext _ _ _
             (fun i a => upd i
                (lut_entry s (if get 0 i cdf >=? cdfmin
                              then CInt.u64 (get 0 i cdf - cdfmin) else 0)) a)).
  - destruct (iterate_fill 0
                (fun i v => v = lut_entry s
                   (if get 0 i cdf >=? cdfmin
                    then CInt.u64 (get 0 i cdf - cdfmin) else 0))
                (fun i _ => lut_entry s
                   (if get 0 i cdf >=? cdfmin
                    then CInt.u64 (get 0 i cdf - cdfmin) else 0))
                (Z.to_nat (256 - 0)) 0 (repeat 0 256%nat)) as [Hlen Hval].
    + lia.
    + rewrite repeat_length. lia.
    + intros j Hj. lia.
    + intros; reflexivity.
    + cbv zeta in Hlen, Hval. rewrite repeat_length in Hlen.
      split; [exact Hlen|]. intros i Hi. apply Hval. lia.
  - intros j x _. cbv zeta. unfold lut_entry. cbv zeta.
    destruct (get 0 j cdf =? 0); [apply upd_upd_same|reflexivity].
Qed.

(** The loop of the degenerate branch stores the identity. *)
Lemma identity_loop_spec :
  let lut := for_range 0 256 (fun i hist_eq => upd i i hist_eq)
                       (repeat 0 256%nat) in
  length lut = 256%nat /\ forall i, 0 <= i < 256 -> get 0 i lut = i.
Proof.
  intro lut. unfold lut, for_range.
  destruct (iterate_fill 0 (fun i v => v = i) (fun i _ => i)
              (Z.to_nat (256 - 0)) 0 (repeat 0 256%nat)) as [Hlen Hval].
  - lia.
  - rewrite repeat_length. lia.
  - intros j Hj. lia.
  - intros; reflexivity.
  - cbv zeta in Hlen, Hval. rewrite repeat_length in Hlen.
    split; [exact Hlen|]. intros i Hi. apply Hval. lia.
Qed.

Lemma pow2_53 : 2 ^ F64.prec = 9007199254740992.
Proof. reflexivity. Qed.

(** [(double)numPixels - cdfmin], for counts below [2^53]: exact when
    positive, and otherwise not above zero. *)
Lemma denominator_spec (numPixels cdfmin : Z) :
  0 < numPixels < 2 ^ F64.prec -> 0 <= cdfmin < 2 ^ F64.prec ->
  let denominator := F64.sub (F64.of_Z numPixels) (F64.of_Z cdfmin) in
  (cdfmin < numPixels /\ denominator = canon F64.prec (numPixels - cdfmin))
  \/ (numPixels <= cdfmin /\ FloatModel.leb denominator F64.zero = true).
Proof.
  intros HN Hc denominator. unfold denominator, F64.sub, F64.of_Z.
  assert (Hp : 0 < F64.prec) by reflexivity.
  assert (He : F64.prec <= F64.emax) by (unfold F64.prec, F64.emax; lia).
  assert (He2 : 2 <= F64.emax) by (unfold F64.emax; lia).
  rewrite (of_Z_canon F64.prec F64.emax Hp He He2 numPixels HN).
  destruct (Z.eq_dec cdfmin 0) as [->|Hne].
  - left. split; [lia|]. rewrite Z.sub_0_r. reflexivity.
  - assert (Hc' : 0 < cdfmin < 2 ^ F64.prec) by lia.
    rewrite (of_Z_canon F64.prec F64.emax Hp He He2 cdfmin Hc').
    pose proof (sub_canon F64.prec F64.emax Hp He He2 numPixels cdfmin HN Hc')
      as Hsub.
    destruct (Z.ltb_spec cdfmin numPixels).
    + left. split; [assumption|exact Hsub].
    + right. split; [assumption|exact Hsub].
Qed.

(** With the scale [255.0 / D], table entries are ordered like the counts
    they come from, as long as the counts do not exceed [D]. *)
Lemma lut_entry_mono (D n1 n2 : Z) :
  0 < D < 2 ^ F64.prec -> 0 <= n1 -> n1 <= n2 -> n2 <= D ->
  let s := F64.div (F64.of_Z 255) (canon F64.prec D) in
  lut_entry s n1 <= lut_entry s n2.
Proof.
  intros HD H1 H12 H2 s.
  assert (Hp : 0 < F64.prec) by reflexivity.
  assert (Hp1 : 1 < F64.prec) by reflexivity.
  assert (He : F64.prec <= F64.emax) by (unfold F64.prec, F64.emax; lia).
  assert (He2 : 2 <= F64.emax) by (unfold F64.emax; lia).
  assert (He3 : 3 <= F64.emax) by (unfold F64.emax; lia).
  assert (Hroom : 10 <= F64.emax - F64.prec)
    by (unfold F64.prec, F64.emax; lia).
  assert (H255 : 0 < 255 < 2 ^ F64.prec) by (rewrite pow2_53; lia).
  pose proof (div_bound F64.prec F64.emax Hp1 He He3 255 D H255 HD) as Hs.
  rewrite <- (of_Z_canon F64.prec F64.emax Hp He He2 255 H255) in Hs.
  fold F64.of_Z F64.div in Hs. fold s in Hs.
  assert (Hzero : match s with S754_finite _ _ _ => False | _ => True end ->
                  forall n, 0 <= n <= D -> lut_entry s n = 0).
  { intros Hnf n Hn. unfold lut_entry, F64.mul, F64.of_Z. cbv zeta.
    destruct (Z.eq_dec n 0) as [->|Hne].
    - rewrite (entry_zero F64.prec F64.emax s). reflexivity.
    - rewrite (entry_not_finite F64.prec F64.emax Hp1 He He3 n s)
        by (assumption || lia).
      reflexivity. }
  destruct s as [sg|sg| |sg ms es] eqn:Es.
  - rewrite !Hzero by (exact I || lia). lia.
  - rewrite !Hzero by (exact I || lia). lia.
  - contradiction.
  - destruct Hs as (-> & c2 & Hc2 & Hc20 & Hb).
    assert (Hpow : 0 < 2 ^ (- c2)) by (apply Z.pow_pos_nonneg; lia).
    assert (Hpe : 0 < 2 ^ (es - c2)) by (apply Z.pow_pos_nonneg; lia).
    assert (Hb2 : Zpos ms * 2 ^ (es - c2) * n2 <= 2 ^ 10 * 2 ^ (- c2)).
    { assert (Zpos ms * 2 ^ (es - c2) * n2 <= Zpos ms * 2 ^ (es - c2) * D)
        by (apply Z.mul_le_mono_nonneg_l; lia).
      change (2 ^ 10) with 1024. lia. }
    pose proof (entry_mono F64.prec F64.emax Hp1 He He3 Hroom n1 n2 ms es c2
                  H1 H12 ltac:(lia) Hc2 Hc20 Hb2) as Hm.
    cbv beta zeta in Hm. unfold lut_entry, F64.mul, F64.of_Z. cbv zeta.
    destruct Hm as [Hm0 Hm].
    revert Hm0 Hm.
    generalize (FloatModel.to_uint
      (FloatModel.round_away
         (FloatModel.mul F64.prec F64.emax
            (FloatModel.of_Z F64.prec F64.emax n1)
            (S754_finite false ms es)))) as v1.
    generalize (FloatModel.to_uint
      (FloatModel.round_away
         (FloatModel.mul F64.prec F64.emax
            (FloatModel.of_Z F64.prec F64.emax n2)
            (S754_finite false ms es)))) as v2.
    intros v2 v1 Hm0 Hm.
    destruct (Z.gtb_spec v1 255), (Z.gtb_spec v2 255); lia.
Qed.

(** The count the general branch scales for intensity [i]. *)
Lemma numerator_spec (c cdfmin : Z) :
  0 <= c < 18446744073709551616 -> 0 <= cdfmin ->
  (if c >=? cdfmin then CInt.u64 (c - cdfmin) else 0) = Z.max 0 (c - cdfmin).
Proof.
  intros Hc Hm. destruct (Z.geb_spec c cdfmin); [|lia].
  unfold CInt.u64. rewrite Z.mod_small; lia.
Qed.

(** C8: for every histogram of 256 counters and every positive [numPixels]
    that is at least the number of pixels the histogram counts,
    [bmp8_computeEqualizedHistogram] returns a table of 256 entries that
    never decreases: [lut[i] <= lut[j]] whenever [i <= j], in the identity
    branch and in the general branch alike. *)
Theorem equalization_lut_monotone (hist : list Z) (numPixels : Z) :
  is_histogram hist ->
  0 < numPixels <= 4294967295 ->
  total hist <= numPixels ->
  exists lut, bmp8_computeEqualizedHistogram hist numPixels = Some lut
              /\ length lut = 256%nat /\ monotone_lut lut.
Proof.
  intros Hh HN Htot.
  destruct (compute_cdf_spec hist Hh) as [Hlen Hcdf].
  pose proof (find_cdfmin_bounds hist Hh) as Hmin.
  unfold bmp8_computeEqualizedHistogram.
  destruct (Z.eqb_spec numPixels 0) as [|_]; [lia|]. cbv zeta.
  set (cdf := compute_cdf hist) in *. set (cdfmin := find_cdfmin cdf) in *.
  destruct (denominator_spec numPixels cdfmin) as [[Hlt ->]|[Hge ->]];
    try (rewrite pow2_53; lia).
  - change (FloatModel.leb (canon F64.prec (numPixels - cdfmin)) F64.zero)
      with false. cbv iota.
    set (s := F64.div (F64.of_Z 255) (canon F64.prec (numPixels - cdfmin))).
    destruct (general_loop_spec cdf cdfmin s) as [Hl Hv]. cbv zeta in Hl, Hv.
    eexists. split; [reflexivity|]. split; [exact Hl|].
    intros i j Hi Hij Hj. rewrite !Hv by lia.
    assert (Hc : forall k, 0 <= k < 256 ->
                   0 <= get 0 k cdf <= total hist) .
    { intros k Hk. rewrite Hcdf by lia. apply psum_bounds; [assumption|lia]. }
    pose proof (total_bound hist Hh).
    pose proof (Hc i ltac:(lia)). pose proof (Hc j ltac:(lia)).
    rewrite !numerator_spec by lia.
    assert (Hmono : get 0 i cdf <= get 0 j cdf).
    { rewrite !Hcdf by lia. apply psum_mono; [assumption|lia..]. }
    apply lut_entry_mono; [rewrite pow2_53|..]; lia.
  - destruct identity_loop_spec as [Hl Hv]. cbv zeta in Hl, Hv.
    eexists. split; [reflexivity|]. split; [exact Hl|].
    intros i j Hi Hij Hj. rewrite !Hv by lia. lia.
Qed.

Lemma sample_histogram : is_histogram (bmp8_computeHistogram Sample.img8).
Proof.
  split; [reflexivity|].
  apply Forall_forall. intros h Hin.
  assert (E : bmp8_computeHistogram Sample.img8
              = map (fun i => if (i =? 10) || (i =? 20) || (i =? 30)
                                 || (i =? 40) then 1 else 0) (range 256))
    by (vm_compute; reflexivity).
  rewrite E in Hin. apply in_map_iff in Hin. destruct Hin as (i & <- & _).
  destruct (_ || _); lia.
Defined.

Lemma equalization_lut_monotone_witness :
  exists lut,
    bmp8_computeEqualizedHistogram (bmp8_computeHistogram Sample.img8) 4
    = Some lut
    /\ length lut = 256%nat /\ monotone_lut lut.
Proof.
  apply (equalization_lut_monotone (bmp8_computeHistogram Sample.img8) 4).
  - exact sample_histogram.
  - lia.
  - vm_compute. discriminate.
Defined.

(** A histogram that counts more pixels than [numPixels]: the scaled count
    of intensity 2 does not fit [unsigned int], and the table decreases
    from 255 at intensity 1 to 1 at intensity 2. *)
Lemma equalization_counterexample :
  is_histogram SampleInconsistent.hist
  /\ 0 < SampleInconsistent.numPixels
  /\ exists lut,
       bmp8_computeEqualizedHistogram SampleInconsistent.hist
                                      SampleInconsistent.numPixels = Some lut
       /\ get 0 1 lut = 255 /\ get 0 2 lut = 1
       /\ ~ monotone_lut lut.
Proof.
  split.
  { split; [reflexivity|].
    apply Forall_forall. intros h Hin.
    assert (E : SampleInconsistent.hist
                = 1 :: 1 :: 4278124286 :: repeat 0 253%nat) by reflexivity.
    rewrite E in Hin.
    destruct Hin as [<-|[<-|[<-|Hin]]]; try lia.
    apply repeat_spec in Hin. lia. }
  split; [reflexivity|].
  eexists. split; [vm_compute; reflexivity|].
  split; [reflexivity|]. split; [reflexivity|].
  intro H. specialize (H 1 2 ltac:(lia) ltac:(lia) ltac:(lia)).
  vm_compute in H. apply H. reflexivity.
Qed.

(* ================================================================= *)
(** * Part III: further properties of the code                        *)
(* ================================================================= *)

(** ** The loaders: what they accept and what they refuse *)

Lemma nth_firstn_lt {A} (d : A) (k n : nat) (l : list A) :
  (k < n)%nat -> (n <= length l)%nat -> nth k (firstn n l) d = nth k l d.
Proof.
  intros Hk Hn. rewrite <- (firstn_skipn n l) at 2.
  rewrite app_nth1 by (rewrite length_firstn; lia). reflexivity.
Qed.

Lemma file_dataSize8_range (f : list byte) : 0 <= file_dataSize8 f < 4294967296.
Proof.
  unfold file_dataSize8. destruct (_ =? 0); [apply u32_range|].
  pose proof (field_range 34 4 f). lia.
Qed.

Lemma byte_eqb_neq (a b : byte) : Byte.eqb a b = false <-> a <> b.
Proof.
  split.
  - intros H E. apply Byte.byte_dec_lb in E. congruence.
  - intro H. destruct (Byte.eqb a b) eqn:E; [|reflexivity].
    apply Byte.byte_dec_bl in E. contradiction.
Qed.

(** The two outcomes of [bmp8_loadImage]. *)
Lemma bmp8_loadImage_cases (f : list byte) :
  (rejected8 f -> bmp8_loadImage f = None)
  /\ (~ rejected8 f -> bmp8_loadImage f = Some (image8_of_file f)).
Proof.
  pose proof (file_dataSize8_range f) as Hds.
  unfold rejected8, image8_of_file, file_dataSize8 in *.
  unfold bmp8_loadImage, fread, fopen_rb, fseek. cbn [bytes cursor].
  change (skipn 0 f) with f.
  remember (firstn 54 f) as hdr eqn:Ehdr.
  destruct (Nat.ltb_spec (length hdr) 54) as [Hs|Hh].
  { split; [reflexivity|]. intro H. exfalso. apply H. left.
    subst hdr. rewrite length_firstn in Hs. lia. }
  assert (Hf54 : (54 <= length f)%nat)
    by (subst hdr; rewrite length_firstn in Hh; lia).
  assert (Hlen : length hdr = 54%nat)
    by (subst hdr; rewrite length_firstn; lia).
  rewrite Hlen, Nat.add_0_l.
  assert (HnB : nth 0 hdr x00 = nth 0 f x00)
    by (subst hdr; apply nth_firstn_lt; lia).
  assert (HnM : nth 1 hdr x00 = nth 1 f x00)
    by (subst hdr; apply nth_firstn_lt; lia).
  assert (Hfield : forall off len, (off + len <= 54)%nat ->
                     field off len hdr = field off len f)
    by (intros; subst hdr; apply field_firstn; assumption).
  rewrite HnB, HnM, !Hfield by lia.
  destruct (Byte.eqb (nth 0 f x00) "B") eqn:EB.
  2:{ cbn [negb orb]. split; [reflexivity|]. intro H. exfalso. apply H.
      right; left. now apply byte_eqb_neq. }
  destruct (Byte.eqb (nth 1 f x00) "M") eqn:EM.
  2:{ cbn [negb orb]. split; [reflexivity|]. intro H. exfalso. apply H.
      right; right; left. now apply byte_eqb_neq. }
  cbn [negb orb].
  apply Byte.byte_dec_bl in EB, EM.
  destruct (Z.eqb_spec (field 28 2 f) 8) as [Hd|Hd]; cbn [negb].
  2:{ split; [reflexivity|]. intro H. exfalso. apply H. tauto. }
  destruct (Nat.ltb_spec (length (firstn 1024 (skipn 54 f))) 1024) as [Ht|Ht].
  { split; [reflexivity|]. intro H. exfalso. apply H.
    do 4 right; left. rewrite length_firstn, length_skipn in Ht. lia. }
  assert (Hf1078 : (1078 <= length f)%nat)
    by (rewrite length_firstn, length_skipn in Ht; lia).
  set (ds := if field 34 4 f =? 0
             then CInt.u32 (field 18 4 f * field 22 4 f)
             else field 34 4 f) in *.
  pose proof (field_range 10 4 f) as Hoff.
  set (off := Z.to_nat (field 10 4 f)).
  destruct (Nat.ltb_spec (length (firstn (Z.to_nat ds) (skipn off f)))
                         (Z.to_nat ds)) as [Hp|Hp];
    rewrite length_firstn, length_skipn in Hp.
  - split; [reflexivity|]. intro H. exfalso. apply H. do 5 right.
    unfold off in *. lia.
  - split; [|rewrite Hd; reflexivity].
    intros [H|[H|[H|[H|[H|H]]]]]; try contradiction; unfold off in *; lia.
Qed.

Lemma rejected8_dec (f : list byte) : rejected8 f \/ ~ rejected8 f.
Proof.
  unfold rejected8.
  destruct (Nat.lt_ge_cases (length f) 54); [tauto|].
  destruct (Byte.byte_eq_dec (nth 0 f x00) "B"); [|tauto].
  destruct (Byte.byte_eq_dec (nth 1 f x00) "M"); [|tauto].
  destruct (Z.eq_dec (field 28 2 f) 8); [|tauto].
  destruct (Nat.lt_ge_cases (length f) 1078); [tauto|].
  destruct (Z_lt_ge_dec 0 (file_dataSize8 f));
    [destruct (Z_lt_ge_dec (Z.of_nat (length f))
                           (field 10 4 f + file_dataSize8 f)); [tauto|]|];
    right; intros [?|[?|[?|[?|[?|[? ?]]]]]]; try contradiction; lia.
Qed.

(** X1: [bmp8_loadImage] returns no image exactly when the file has fewer
    than 54 bytes, does not start with 'B' 'M', records a colour depth other
    than 8, has no room for the 1024-byte palette, or holds fewer pixel bytes
    behind its data offset than the size it announces; for every other file
    it returns the image made of the first 54 bytes, the next 1024 bytes and
    the announced number of bytes at the data offset. *)
Theorem bmp8_loadImage_accepts (f : list byte) :
  (bmp8_loadImage f = None <-> rejected8 f)
  /\ (forall img, bmp8_loadImage f = Some img ->
        ~ rejected8 f /\ img = image8_of_file f).
Proof.
  destruct (bmp8_loadImage_cases f) as [Hno Hyes].
  destruct (rejected8_dec f) as [Hr|Hr].
  - rewrite (Hno Hr). split; [tauto|]. intros img E. discriminate.
  - rewrite (Hyes Hr). split.
    + split; [discriminate | contradiction].
    + intros img E. split; [exact Hr | congruence].
Qed.

(** The pixel buffer [bmp24_allocate] hands to the loader. *)
Lemma allocated_rows_shape (junk : Indeterminate) (w h : Z) :
  let rows0 := map (fun y => map (fun x => heap_pixel junk y x) (range w))
                   (range h) in
  length rows0 = Z.to_nat h
  /\ Forall (fun row => length row = Z.to_nat w) rows0.
Proof.
  cbv zeta. split; [now rewrite length_map, range_length|].
  apply Forall_forall. intros row Hin. apply in_map_iff in Hin.
  destruct Hin as (y & <- & _). now rewrite length_map, range_length.
Qed.

(** What [bmp24_loadImage] does with a file whose headers pass its checks:
    it returns an image carrying the two headers, with the rows left by the
    row loop of [bmp24_readPixelData]. *)
Lemma bmp24_loadImage_some (junk : Indeterminate) (f : list byte) :
  headers_validate f ->
  exists padded unpadded : Z,
    unpadded = CInt.u32 (CInt.s32 (file_width f * 3))
    /\ padded = CInt.u32 (unpadded + CInt.u32 (CInt.u32 (4 - unpadded mod 4) mod 4))
    /\ bmp24_loadImage junk f
       = Some (mk_bmp24 (file_header f) (file_info f) (file_width f)
                 (file_height f) 24
                 (fst (read_rows (Z.to_nat (file_height f)) (Z.to_nat padded)
                         (Z.to_nat unpadded)
                         (mkFILE f (Z.to_nat (hdr_offset (file_header f))))
                         (map (fun y => map (fun x => heap_pixel junk y x)
                                            (range (file_width f)))
                              (range (file_height f)))))).
Proof.
  intros [Hlen Hty Hbits Hcomp Hw Hh].
  eexists. eexists. split; [reflexivity|]. split; [reflexivity|].
  unfold bmp24_loadImage, file_rawRead, fread, fopen_rb, fseek, BMP_HEADER_SIZE.
  cbn [bytes cursor]. change (Z.to_nat 0) with 0%nat.
  change (Z.to_nat 14) with 14%nat. change (skipn 0 f) with f.
  change (14 * 1)%nat with 14%nat. change (40 * 1)%nat with 40%nat.
  assert (L14 : length (firstn 14 f) = 14%nat) by (rewrite length_firstn; lia).
  assert (L40 : length (firstn 40 (skipn 14 f)) = 40%nat)
    by (rewrite length_firstn, length_skipn; lia).
  rewrite decode_header_app, decode_info_app by assumption.
  fold (file_header f) (file_info f).
  rewrite Hty, Hbits, Hcomp. unfold DEFAULT_COLOR_DEPTH.
  rewrite !Z.eqb_refl. cbn [negb].
  fold (file_width f) (file_height f).
  destruct (Z.leb_spec (file_width f) 0); [lia|].
  destruct (Z.leb_spec (file_height f) 0); [lia|]. cbn [orb].
  unfold bmp24_allocate, bmp24_allocateDataPixels.
  destruct (Z.leb_spec (file_width f) 0); [lia|].
  destruct (Z.leb_spec (file_height f) 0); [lia|]. cbn [orb data].
  unfold bmp24_readPixelData, fseek.
  cbn [header header_info width height data bytes cursor with_data].
  rewrite Hbits. change (24 / 8) with 3. cbn [Z.eqb negb Pos.eqb].
  destruct (read_rows _ _ _ _ _) as [rows1 file1]. reflexivity.
Qed.





(** The row loop keeps the dimensions of the pixel buffer, however many
    rows the file provides. *)
Lemma read_rows_shape (w padded : nat) (k : nat) :
  forall (file : FILE) (rows : list (list t_pixel)),
    (3 * w <= padded)%nat ->
    Forall (fun row => length row = w) rows ->
    length (fst (read_rows k padded (3 * w) file rows)) = length rows
    /\ Forall (fun row => length row = w)
              (fst (read_rows k padded (3 * w) file rows)).
Proof.
  induction k as [|k IH]; intros file rows Hpad Hrows.
  - cbn [read_rows fst]. split; [reflexivity | assumption].
  - cbn [read_rows]. unfold fread.
    set (buf := firstn padded (skipn (cursor file) (bytes file))).
    destruct (Nat.ltb_spec (length buf) padded) as [Hs|Hs].
    + cbn [fst]. split; [reflexivity | assumption].
    + set (row := overwrite (row_pixels (firstn (3 * w) buf))
                            (get [] (Z.of_nat k) rows)).
      assert (Hrow : length row = w).
      { unfold row, overwrite. rewrite length_app, length_skipn.
        rewrite (row_pixels_length w) by (rewrite length_firstn; lia).
        assert (Hg : length (get [] (Z.of_nat k) rows) = w
                     \/ length (get [] (Z.of_nat k) rows) = 0%nat).
        { apply (get_in_range (fun r => length r = w \/ length r = 0%nat));
            [|now right].
          eapply Forall_impl; [|exact Hrows]. intros; now left. }
        lia. }
      destruct (IH (mkFILE (bytes file) (cursor file + length buf))
                   (upd (Z.of_nat k) row rows) Hpad) as [Hl Hf].
      * apply Forall_upd; assumption.
      * rewrite upd_length in Hl. split; assumption.
Qed.

(** X3: every image [bmp24_loadImage] returns for a file whose headers pass
    its checks, whose rows fit [int] arithmetic and whose pixel count
    (width times absolute height) fits [int] is well formed, whether or not
    the pixel data is all there: it carries the two headers of the
    file, the width and the absolute height they record, colour depth 24,
    and a buffer of [height] rows of [width] pixels. *)
Theorem bmp24_loadImage_valid (junk : Indeterminate) (f : list byte)
    (Hheaders : headers_validate f)
    (Hwidth : file_width f * 3 + 3 <= CInt.INT_MAX)
    (Hpixels : file_width f * file_height f <= CInt.INT_MAX) :
  exists img,
    bmp24_loadImage junk f = Some img
    /\ valid24 img
    /\ header img = file_header f /\ header_info img = file_info f
    /\ width img = file_width f /\ height img = file_height f
    /\ colorDepth img = 24.
Proof.
  destruct (bmp24_loadImage_some junk f Hheaders) as (p & u & Eu & Ep & E).
  destruct Hheaders as [Hlen Hty Hbits Hcomp Hw Hh].
  destruct (padded_row (file_width f) Hw Hwidth) as (Eu' & Ep' & Hpr).
  subst u. rewrite Ep' in Ep. subst p. rewrite Eu' in E.
  eexists. split; [exact E|].
  cbn [header header_info width height colorDepth data].
  split; [|repeat split].
  destruct (allocated_rows_shape junk (file_width f) (file_height f))
    as [Hl0 Hf0]. cbv zeta in Hl0, Hf0.
  replace (Z.to_nat (file_width f * 3)) with (3 * Z.to_nat (file_width f))%nat
    by lia.
  set (file0 := mkFILE f _).
  destruct (read_rows_shape (Z.to_nat (file_width f))
              (Z.to_nat (rowSizePadded (file_width f)))
              (Z.to_nat (file_height f)) file0 _ ltac:(lia) Hf0) as [Hl Hf].
  pose proof (s32_range (Z.abs (info_height (file_info f)))) as Hhr.
  fold (CInt.abs (info_height (file_info f))) in Hhr. fold (file_height f) in Hhr.
  assert (Hwr : file_width f <= CInt.INT_MAX)
    by (unfold file_width, file_info, decode_info; cbn [info_width];
        apply s32_range).
  constructor; cbn [width height data]; try lia.
  eapply Forall_impl; [|exact Hf]. intros row Hr. cbv beta in Hr. lia.
Qed.

Lemma bmp24_loadImage_valid_witness :
  exists img,
    bmp24_loadImage Sample.junk SampleTruncated.file24 = Some img
    /\ valid24 img
    /\ header img = file_header SampleTruncated.file24
    /\ header_info img = file_info SampleTruncated.file24
    /\ width img = file_width SampleTruncated.file24
    /\ height img = file_height SampleTruncated.file24
    /\ colorDepth img = 24.
Proof.
  apply (bmp24_loadImage_valid Sample.junk SampleTruncated.file24).
  - constructor; vm_compute; try reflexivity; repeat constructor.
  - vm_compute. discriminate.
  - vm_compute. discriminate.
Defined.

(** ** Opening a file ([menu_open_image]) *)

(** The 24-bit loader refuses what the 8-bit loader accepts: the colour
    depth it reads at bytes 28..29 is 8. *)
Lemma bmp24_refuses_loaded8 (junk : Indeterminate) (f : list byte)
    (img : t_bmp8) :
  bmp8_loadImage f = Some img -> bmp24_loadImage junk f = None.
Proof.
  intro Hload.
  destruct (bmp8_loadImage_inv f img Hload)
    as (Eh & Lh & _ & _ & _ & _ & _ & _ & _ & Hdepth & _).
  assert (Lf : (54 <= length f)%nat).
  { rewrite Eh, length_firstn in Lh. lia. }
  rewrite Eh, field_firstn in Hdepth by lia.
  unfold bmp24_loadImage, file_rawRead, fread, fopen_rb, fseek, BMP_HEADER_SIZE.
  cbn [bytes cursor]. change (Z.to_nat 0) with 0%nat.
  change (Z.to_nat 14) with 14%nat. change (skipn 0 f) with f.
  change (14 * 1)%nat with 14%nat. change (40 * 1)%nat with 40%nat.
  rewrite decode_header_app, decode_info_app
    by (rewrite length_firstn, ?length_skipn; lia).
  destruct (negb (hdr_type (decode_header (firstn 14 f)) =? BMP_TYPE));
    [reflexivity|].
  replace (info_bits (decode_info (firstn 40 (skipn 14 f)))) with 8;
    [reflexivity|].
  unfold decode_info; cbn [info_bits].
  rewrite field_firstn, field_skipn by lia. now rewrite <- Hdepth.
Qed.

(** X4: no file is accepted by both loaders.  A file that [bmp8_loadImage]
    accepts is refused by [bmp24_loadImage], so trying the 24-bit loader
    first costs nothing: [menu_open_image] ends up with the 8-bit image. *)
Theorem loaders_exclusive (junk : Indeterminate) (f : list byte)
    (img : t_bmp8) (Hload : bmp8_loadImage f = Some img) :
  bmp24_loadImage junk f = None
  /\ open_image junk f = Some (Image8 img).
Proof.
  pose proof (bmp24_refuses_loaded8 junk f img Hload) as H24.
  split; [exact H24|].
  unfold open_image. rewrite H24, Hload. reflexivity.
Qed.

Lemma sample_file8_loads : bmp8_loadImage Sample.file8 = Some Sample.img8.
Proof. vm_compute. reflexivity. Defined.

Lemma loaders_exclusive_witness :
  bmp24_loadImage Sample.junk Sample.file8 = None
  /\ open_image Sample.junk Sample.file8 = Some (Image8 Sample.img8).
Proof.
  exact (loaders_exclusive Sample.junk Sample.file8 Sample.img8
           sample_file8_loads).
Defined.

(** ** Raw reads and writes ([file_rawRead], [file_rawWrite]) *)

Lemma seek_prefix_length (c : nat) (old : list byte) :
  length (firstn c old ++ repeat x00 (c - length old)) = c.
Proof. rewrite length_app, length_firstn, repeat_length. lia. Qed.

(** X5: what [file_rawWrite] puts at a position, [file_rawRead] gets back
    from that position, whatever the file held before and wherever its
    cursor stood; the write leaves the bytes in front of the position as
    they were. *)
Theorem raw_write_then_read (position : Z) (buffer old : list byte)
    (size n : nat) (file : FILE)
    (Hsize : length buffer = (size * n)%nat)
    (Hold : length old = length buffer) :
  fst (file_rawRead position old size n (file_rawWrite position buffer file))
  = buffer
  /\ firstn (Z.to_nat position) (bytes (file_rawWrite position buffer file))
     = firstn (Z.to_nat position)
         (bytes file ++ repeat x00 (Z.to_nat position - length (bytes file))).
Proof.
  unfold file_rawRead, file_rawWrite, fwrite, fseek, fread. cbn [bytes cursor fst].
  set (c := Z.to_nat position). set (b := bytes file).
  pose proof (seek_prefix_length c b) as Hpre.
  set (pre := firstn c b ++ repeat x00 (c - length b)) in *.
  split.
  - set (rest := skipn (c + length buffer) b).
    assert (Hgot : firstn (size * n) (skipn c (pre ++ buffer ++ rest)) = buffer).
    { rewrite skipn_app, Hpre, Nat.sub_diag.
      rewrite (skipn_all2 pre) by lia. cbn [skipn app].
      rewrite <- Hsize, firstn_app, Nat.sub_diag, firstn_all.
      cbn [firstn]. apply app_nil_r. }
    rewrite Hgot, <- Hold, skipn_all. apply app_nil_r.
  - rewrite firstn_app, Hpre, Nat.sub_diag. cbn [firstn].
    rewrite app_nil_r, firstn_all2 by lia.
    unfold pre. rewrite firstn_app.
    f_equal. rewrite firstn_all2; [reflexivity|]. rewrite repeat_length. lia.
Qed.

Lemma raw_write_then_read_witness :
  fst (file_rawRead 14 (repeat xaa 4) 4 1
         (file_rawWrite 14 [x01; x02; x03; x04] (mkFILE [x42; x4d] 0)))
  = [x01; x02; x03; x04]
  /\ firstn (Z.to_nat 14)
       (bytes (file_rawWrite 14 [x01; x02; x03; x04] (mkFILE [x42; x4d] 0)))
     = firstn (Z.to_nat 14)
         (bytes (mkFILE [x42; x4d] 0)
          ++ repeat x00 (Z.to_nat 14 - length (bytes (mkFILE [x42; x4d] 0)))).
Proof.
  apply (raw_write_then_read 14 [x01; x02; x03; x04] (repeat xaa 4) 4 1
           (mkFILE [x42; x4d] 0)); reflexivity.
Defined.

(** ** Saving and loading again *)

Lemma le_decode_encode (n : nat) (z : Z) :
  le_decode (le_encode n z) = z mod 256 ^ Z.of_nat n.
Proof.
  revert z; induction n as [|n IH]; intro z.
  - cbn [le_encode le_decode]. change (256 ^ Z.of_nat 0) with 1.
    now rewrite Z.mod_1_r.
  - cbn [le_encode le_decode]. rewrite IH, byte_val_of.
    rewrite Nat2Z.inj_succ, Z.pow_succ_r by lia.
    assert (0 < 256 ^ Z.of_nat n) by (apply Z.pow_pos_nonneg; lia).
    rewrite (Z.rem_mul_r z 256 (256 ^ Z.of_nat n)) by lia. reflexivity.
Qed.

(** Reading a field behind, or at the start of, an encoded field. *)
Lemma field_skip (n off len : nat) (z : Z) (rest : list byte) :
  field (n + off) len (le_encode n z ++ rest) = field off len rest.
Proof.
  unfold field. rewrite skipn_app, le_encode_length.
  rewrite skipn_all2 by (rewrite le_encode_length; lia).
  cbn [app]. replace (n + off - n)%nat with off by lia. reflexivity.
Qed.

Lemma field_here (len : nat) (z : Z) (rest : list byte) :
  field 0 len (le_encode len z ++ rest) = z mod 256 ^ Z.of_nat len.
Proof.
  unfold field. cbn [skipn].
  rewrite firstn_app, le_encode_length, Nat.sub_diag, firstn_all2
    by (rewrite le_encode_length; lia).
  cbn [firstn]. rewrite app_nil_r. apply le_decode_encode.
Qed.

Ltac field_skip n off len :=
  let n' := eval cbv in (Z.to_nat n) in
  let off' := eval cbv in (Z.to_nat off) in
  let len' := eval cbv in (Z.to_nat len) in
  etransitivity; [apply (field_skip n' off' len')|].

Lemma s32_u32_small (z : Z) : 0 <= z <= CInt.INT_MAX -> CInt.s32 (z mod 4294967296) = z.
Proof.
  unfold CInt.INT_MAX. intro H. rewrite Z.mod_small by lia.
  apply s32_small. unfold CInt.INT_MAX. lia.
Qed.

(** Decoding the two headers of a file that starts with their encodings. *)
Lemma decode_encoded_headers (h : t_bmp_header) (i : t_bmp_info)
    (rest : list byte) :
  file_header (encode_header h ++ encode_info i ++ rest)
  = mk_header (hdr_type h mod 65536) (hdr_size h mod 4294967296)
              (hdr_reserved1 h mod 65536) (hdr_reserved2 h mod 65536)
              (hdr_offset h mod 4294967296)
  /\ file_info (encode_header h ++ encode_info i ++ rest)
     = mk_info (info_size i mod 4294967296)
               (CInt.s32 (info_width i mod 4294967296))
               (CInt.s32 (info_height i mod 4294967296))
               (info_planes i mod 65536) (info_bits i mod 65536)
               (info_compression i mod 4294967296)
               (info_imagesize i mod 4294967296)
               (CInt.s32 (info_xresolution i mod 4294967296))
               (CInt.s32 (info_yresolution i mod 4294967296))
               (info_ncolors i mod 4294967296)
               (info_importantcolors i mod 4294967296).
Proof.
  split.
  - unfold file_header.
    rewrite firstn_app, encode_header_length, firstn_all2
      by (rewrite encode_header_length; lia).
    change (14 - 14)%nat with 0%nat. cbn [firstn]. rewrite app_nil_r.
    unfold decode_header, encode_header.
    rewrite <- (app_nil_r (le_encode 4 (hdr_offset h))).
    f_equal.
    + apply field_here.
    + field_skip 2 0 4. apply field_here.
    + field_skip 2 4 2. field_skip 4 0 2. apply field_here.
    + field_skip 2 6 2. field_skip 4 2 2. field_skip 2 0 2. apply field_here.
    + field_skip 2 8 4. field_skip 4 4 4. field_skip 2 2 4. field_skip 2 0 4.
      apply field_here.
  - unfold file_info.
    rewrite skipn_app, encode_header_length, skipn_all2
      by (rewrite encode_header_length; lia).
    change (14 - 14)%nat with 0%nat. cbn [skipn app].
    rewrite firstn_app, encode_info_length, firstn_all2
      by (rewrite encode_info_length; lia).
    change (40 - 40)%nat with 0%nat. cbn [firstn]. rewrite app_nil_r.
    unfold decode_info, encode_info.
    rewrite <- (app_nil_r (le_encode 4 (info_importantcolors i))).
    f_equal; try f_equal.
    + apply field_here.
    + field_skip 4 0 4. apply field_here.
    + field_skip 4 4 4. field_skip 4 0 4. apply field_here.
    + field_skip 4 8 2. field_skip 4 4 2. field_skip 4 0 2. apply field_here.
    + field_skip 4 10 2. field_skip 4 6 2. field_skip 4 2 2. field_skip 2 0 2.
      apply field_here.
    + field_skip 4 12 4. field_skip 4 8 4. field_skip 4 4 4. field_skip 2 2 4.
      field_skip 2 0 4. apply field_here.
    + field_skip 4 16 4. field_skip 4 12 4. field_skip 4 8 4. field_skip 2 6 4.
      field_skip 2 4 4. field_skip 4 0 4. apply field_here.
    + field_skip 4 20 4. field_skip 4 16 4. field_skip 4 12 4.
      field_skip 2 10 4. field_skip 2 8 4. field_skip 4 4 4. field_skip 4 0 4.
      apply field_here.
    + field_skip 4 24 4. field_skip 4 20 4. field_skip 4 16 4.
      field_skip 2 14 4. field_skip 2 12 4. field_skip 4 8 4. field_skip 4 4 4.
      field_skip 4 0 4. apply field_here.
    + field_skip 4 28 4. field_skip 4 24 4. field_skip 4 20 4.
      field_skip 2 18 4. field_skip 2 16 4. field_skip 4 12 4.
      field_skip 4 8 4. field_skip 4 4 4. field_skip 4 0 4. apply field_here.
    + field_skip 4 32 4. field_skip 4 28 4. field_skip 4 24 4.
      field_skip 2 22 4. field_skip 2 20 4. field_skip 4 16 4.
      field_skip 4 12 4. field_skip 4 8 4. field_skip 4 4 4. field_skip 4 0 4.
      apply field_here.
Qed.

Lemma row_pixels_bytes (row : list t_pixel) : row_pixels (row_bytes row) = row.
Proof.
  induction row as [|[b g r] row IH]; [reflexivity|].
  unfold row_bytes in *. cbn [flat_map app blue green red row_pixels].
  now rewrite IH.
Qed.

Lemma nth_map_lt {A B} (f : A -> B) (da : A) (db : B) (k : nat) (l : list A) :
  (k < length l)%nat -> nth k (map f l) db = f (nth k l da).
Proof.
  intro H. rewrite nth_indep with (d' := f da) by (rewrite length_map; lia).
  apply map_nth.
Qed.

Lemma concat_const_length {A} (p : nat) (chunks : list (list A)) :
  Forall (fun c => length c = p) chunks ->
  length (concat chunks) = (length chunks * p)%nat.
Proof.
  induction 1 as [|c l Hc _ IH]; [reflexivity|].
  cbn [concat length]. rewrite length_app, IH, Hc. lia.
Qed.

(** The [k]-th of a sequence of equally long chunks. *)
Lemma chunk_at {A} (p : nat) (chunks : list (list A)) :
  Forall (fun c => length c = p) chunks ->
  forall k, (k < length chunks)%nat ->
    firstn p (skipn (k * p) (concat chunks)) = nth k chunks [].
Proof.
  induction 1 as [|c l Hc _ IH]; intros k Hk; [cbn in Hk; lia|].
  cbn [concat]. destruct k as [|k].
  - cbn [Nat.mul skipn nth]. rewrite firstn_app, Hc, Nat.sub_diag.
    cbn [firstn]. rewrite app_nil_r. apply firstn_all2. lia.
  - cbn [nth]. rewrite skipn_app, Hc.
    rewrite skipn_all2 by (rewrite Hc; cbn; lia). cbn [app].
    replace (S k * p - p)%nat with (k * p)%nat by (cbn; lia).
    apply IH. cbn [length] in Hk. lia.
Qed.

(** The file [bmp24_saveImage] writes: the two headers it derives from the
    dimensions, then the rows from the last to the first, each followed by
    zero bytes up to a multiple of four. *)
Lemma bmp24_saveImage_layout (img : t_bmp24) :
  valid24 img -> width img * 3 + 3 <= CInt.INT_MAX ->
  let w := width img in
  let h := height img in
  let saved := bmp24_saveImage img in
  header (fst saved)
  = mk_header BMP_TYPE ((54 + (rowSizePadded w * h) mod 4294967296)
                        mod 4294967296) 0 0 54
  /\ header_info (fst saved)
     = mk_info 40 w h 1 24 0 ((rowSizePadded w * h) mod 4294967296) 0 0 0 0
  /\ snd saved
     = encode_header (header (fst saved))
       ++ encode_info (header_info (fst saved))
       ++ concat (map (fun y => row_bytes (nth y (data img) [])
                                ++ repeat x00 (Z.to_nat (rowSizePadded w - w * 3)))
                      (rev (seq 0 (Z.to_nat h)))).
Proof.
  intros [Hw Hh Hnrows Hcols] Hmax w h saved.
  destruct (padded_row w ltac:(unfold w; lia) Hmax) as (Eu & Ep & Hpr).
  unfold saved, bmp24_saveImage, file_rawWrite, fopen_wb, fseek,
    bmp24_writePixelData, BMP_HEADER_SIZE, BMP_INFO_SIZE, DEFAULT_COLOR_DEPTH.
  cbn [header header_info width height data bytes cursor hdr_offset fst snd].
  fold w h.
  rewrite row_size_of_spec, abs_pos by (unfold w, h; lia).
  assert (Hsmall : rowSizePadded w < 4294967296)
    by (unfold CInt.INT_MAX in *; lia).
  rewrite (Z.mod_small (rowSizePadded w)) by lia.
  rewrite Ep, Eu.
  change (CInt.u32 (14 + 40)) with 54.
  change (CInt.u32 40) with 40.
  change (CInt.u32 (rowSizePadded w * h))
    with ((rowSizePadded w * h) mod 4294967296).
  change (CInt.u32 (54 + (rowSizePadded w * h) mod 4294967296))
    with ((54 + (rowSizePadded w * h) mod 4294967296) mod 4294967296).
  split; [reflexivity|]. split; [reflexivity|].
  change (Z.to_nat 0) with 0%nat. change (Z.to_nat 14) with 14%nat.
  change (Z.to_nat 54) with 54%nat.
  rewrite (fwrite_end _ [] 0) by reflexivity. cbn [app bytes].
  rewrite fwrite_end by (rewrite encode_header_length; reflexivity).
  unfold fseek. cbn [bytes]. change (Z.to_nat 54) with 54%nat.
  set (H := encode_header _). set (I := encode_info _).
  assert (L54 : length (H ++ I) = 54%nat)
    by (unfold H, I; now rewrite length_app, encode_header_length,
          encode_info_length).
  rewrite <- L54 at 1.
  set (wn := Z.to_nat w). set (hn := Z.to_nat h).
  set (pn := Z.to_nat (rowSizePadded w)).
  assert (Ewn : Z.to_nat (w * 3) = (3 * wn)%nat) by lia.
  rewrite Ewn.
  rewrite (write_rows_append (3 * wn) pn).
  - rewrite <- app_assoc. do 3 f_equal.
    apply map_ext. intro y. f_equal. f_equal. lia.
  - lia.
  - apply repeat_length.
  - apply skipn_repeat.
  - intros y Hy. rewrite row_bytes_length.
    assert (Hin : In (nth y (data img) []) (data img))
      by (apply nth_In; lia).
    rewrite Forall_forall in Hcols. specialize (Hcols _ Hin). unfold wn, w. lia.
Qed.

(** The saved rows: [h] chunks of one padded row each. *)
Lemma saved_rows_shape (img : t_bmp24) :
  valid24 img -> width img * 3 + 3 <= CInt.INT_MAX ->
  let chunks :=
    map (fun y => row_bytes (nth y (data img) [])
                  ++ repeat x00 (Z.to_nat (rowSizePadded (width img)
                                           - width img * 3)))
        (rev (seq 0 (Z.to_nat (height img)))) in
  length chunks = Z.to_nat (height img)
  /\ Forall (fun c => length c = Z.to_nat (rowSizePadded (width img))) chunks.
Proof.
  intros [Hw Hh Hnrows Hcols] Hmax chunks.
  destruct (padded_row (width img) ltac:(lia) Hmax) as (_ & _ & Hpr).
  split.
  - unfold chunks. now rewrite length_map, length_rev, length_seq.
  - apply Forall_forall. intros c Hin. apply in_map_iff in Hin.
    destruct Hin as (y & <- & Hy). apply in_rev, in_seq in Hy.
    rewrite length_app, row_bytes_length, repeat_length.
    assert (Hin : In (nth y (data img) []) (data img))
      by (apply nth_In; lia).
    rewrite Forall_forall in Hcols. specialize (Hcols _ Hin). lia.
Qed.

(** The two headers read back from the saved file. *)
Lemma saved_file_layout_decodes (img : t_bmp24) :
  valid24 img -> width img * 3 + 3 <= CInt.INT_MAX ->
  let f := snd (bmp24_saveImage img) in
  file_header f
  = mk_header BMP_TYPE
      ((54 + (rowSizePadded (width img) * height img) mod 4294967296)
       mod 4294967296) 0 0 54
  /\ file_info f
     = mk_info 40 (width img) (height img) 1 24 0
         ((rowSizePadded (width img) * height img) mod 4294967296) 0 0 0 0.
Proof.
  intros Hvalid Hwidth f.
  destruct (bmp24_saveImage_layout img Hvalid Hwidth) as (EH & EI & Ef).
  cbv zeta in EH, EI, Ef.
  destruct (decode_encoded_headers (header (fst (bmp24_saveImage img)))
              (header_info (fst (bmp24_saveImage img)))
              (concat (map (fun y => row_bytes (nth y (data img) [])
                                ++ repeat x00 (Z.to_nat (rowSizePadded (width img)
                                                         - width img * 3)))
                           (rev (seq 0 (Z.to_nat (height img)))))))
    as [DH DI].
  rewrite <- Ef in DH, DI. fold f in DH, DI.
  destruct Hvalid as [Hw Hh _ _].
  rewrite DH, DI, EH, EI.
  cbn [hdr_type hdr_size hdr_reserved1 hdr_reserved2 hdr_offset info_size
       info_width info_height info_planes info_bits info_compression
       info_imagesize info_xresolution info_yresolution info_ncolors
       info_importantcolors].
  rewrite !Z.mod_mod by lia.
  rewrite !s32_u32_small by lia.
  split; reflexivity.
Qed.

(** X6: the file [bmp24_saveImage] writes has 54 header bytes and [height]
    rows of [ceil(width*3/4)*4] bytes; when that size fits 32 bits it is the
    file size the header announces, and the image size announced is the size
    of the pixel data. *)
Theorem saved_file_size (img : t_bmp24) (Hvalid : valid24 img)
    (Hwidth : width img * 3 + 3 <= CInt.INT_MAX) :
  let f := snd (bmp24_saveImage img) in
  let size := 54 + rowSizePadded (width img) * height img in
  Z.of_nat (length f) = size
  /\ hdr_size (file_header f) = size mod 4294967296
  /\ info_imagesize (file_info f) = (size - 54) mod 4294967296
  /\ hdr_offset (file_header f) = 54
  /\ rowSizePadded (width img) mod 4 = 0.
Proof.
  intros f size.
  destruct (bmp24_saveImage_layout img Hvalid Hwidth) as (_ & _ & Ef).
  cbv zeta in Ef.
  destruct (saved_rows_shape img Hvalid Hwidth) as [Hn Hc]. cbv zeta in Hn, Hc.
  destruct (saved_file_layout_decodes img Hvalid Hwidth) as (DH & DI).
  cbv zeta in DH, DI. fold f in DH, DI.
  destruct Hvalid as [Hw Hh Hnrows Hcols].
  destruct (padded_row (width img) ltac:(lia) Hwidth) as (_ & _ & Hpr).
  split.
  { unfold f, size. rewrite Ef.
    rewrite !length_app, encode_header_length, encode_info_length.
    rewrite (concat_const_length _ _ Hc), Hn. nia. }
  rewrite DH, DI. cbn [hdr_size hdr_offset info_imagesize].
  unfold size.
  split; [|split; [|split]].
  - now rewrite Z.add_mod_idemp_r by lia.
  - f_equal. lia.
  - reflexivity.
  - unfold rowSizePadded. apply Z.mod_mul. lia.
Qed.

Lemma saved_file_size_witness :
  let f := snd (bmp24_saveImage Sample.img24) in
  let size := 54 + rowSizePadded (width Sample.img24) * height Sample.img24 in
  Z.of_nat (length f) = size
  /\ hdr_size (file_header f) = size mod 4294967296
  /\ info_imagesize (file_info f) = (size - 54) mod 4294967296
  /\ hdr_offset (file_header f) = 54
  /\ rowSizePadded (width Sample.img24) mod 4 = 0.
Proof.
  apply (saved_file_size Sample.img24 sample_img24_valid).
  vm_compute. discriminate.
Defined.

(** Loading what [bmp24_saveImage] wrote. *)
Lemma save_then_load24_helper (junk : Indeterminate) (img : t_bmp24) :
  valid24 img -> width img * 3 + 3 <= CInt.INT_MAX ->
  exists img',
    bmp24_loadImage junk (snd (bmp24_saveImage img)) = Some img'
    /\ data img' = data img
    /\ width img' = width img /\ height img' = height img
    /\ colorDepth img' = 24
    /\ header img' = header (fst (bmp24_saveImage img))
    /\ header_info img' = header_info (fst (bmp24_saveImage img)).
Proof.
  intros Hvalid Hwidth.
  destruct (bmp24_saveImage_layout img Hvalid Hwidth) as (EH & EI & Ef).
  cbv zeta in EH, EI, Ef.
  destruct (saved_rows_shape img Hvalid Hwidth) as [Hn Hc]. cbv zeta in Hn, Hc.
  destruct (saved_file_layout_decodes img Hvalid Hwidth) as (DH & DI).
  set (f := snd (bmp24_saveImage img)) in *.
  set (w := width img) in *. set (h := height img) in *.
  set (chunks := map _ (rev (seq 0 (Z.to_nat h)))) in *.
  pose proof Hvalid as [Hw Hh Hnrows Hcols]. fold w in Hw, Hcols. fold h in Hh, Hnrows.
  destruct (padded_row w ltac:(lia) Hwidth) as (_ & _ & Hpr).
  assert (Elen : length f = (54 + Z.to_nat h * Z.to_nat (rowSizePadded w))%nat).
  { rewrite Ef, !length_app, encode_header_length, encode_info_length.
    rewrite (concat_const_length _ _ Hc), Hn. lia. }
  assert (Ewf : file_width f = w) by (unfold file_width; now rewrite DI).
  assert (Ehf : file_height f = h).
  { unfold file_height. rewrite DI. cbn [info_height].
    unfold CInt.abs. rewrite Z.abs_eq by lia. apply s32_small. lia. }
  assert (Hv : headers_validate f).
  { constructor; rewrite ?Ewf, ?Ehf, ?DH, ?DI; try reflexivity; lia. }
  assert (Hd : pixel_data_complete f).
  { unfold pixel_data_complete. rewrite Ewf, Ehf, DH. cbn [hdr_offset]. nia. }
  rewrite <- Ewf in Hwidth.
  destruct (bmp24_loadImage_complete junk f Hv Hwidth Hd)
    as (img' & Hload & Ehdr & Einfo & Ew & Ehe & Ed & Hvalid' & Hrows).
  exists img'. split; [exact Hload|].
  rewrite Ewf in *. rewrite Ehf in *.
  split; [|repeat split; try assumption; congruence].
  destruct Hvalid' as [_ _ Hnrows' _].
  apply (nth_ext _ _ [] []); [lia|].
  intros y Hy.
  rewrite <- (Nat2Z.id y), <- get_nth by lia.
  rewrite Hrows by lia. unfold file_row. rewrite Ewf, DH. cbn [hdr_offset].
  set (pn := Z.to_nat (rowSizePadded w)) in *.
  set (k := (Z.to_nat h - 1 - y)%nat).
  replace (Z.to_nat (54 + (h - 1 - Z.of_nat y) * rowSizePadded w))
    with (54 + k * pn)%nat by (unfold k, pn; nia).
  rewrite Ef, app_assoc, skipn_app.
  rewrite length_app, encode_header_length, encode_info_length.
  rewrite skipn_all2
    by (rewrite length_app, encode_header_length, encode_info_length; lia).
  cbn [app]. replace (54 + k * pn - (14 + 40))%nat with (k * pn)%nat by lia.
  assert (Hk : (k < length chunks)%nat) by (unfold k; lia).
  pose proof (chunk_at pn chunks Hc k Hk) as Hchunk.
  assert (Enth : nth k chunks []
                 = row_bytes (nth y (data img) [])
                   ++ repeat x00 (Z.to_nat (rowSizePadded w - w * 3))).
  { unfold chunks.
    rewrite (nth_map_lt _ 0%nat)
      by (rewrite length_rev, length_seq; unfold k; lia).
    rewrite rev_nth by (rewrite length_seq; unfold k; lia).
    rewrite length_seq, seq_nth by (unfold k; lia).
    do 3 f_equal. unfold k. lia. }
  assert (Lrow : length (row_bytes (nth y (data img) [])) = Z.to_nat (w * 3)).
  { rewrite row_bytes_length.
    assert (Hin : In (nth y (data img) []) (data img))
      by (apply nth_In; lia).
    rewrite Forall_forall in Hcols. specialize (Hcols _ Hin). lia. }
  transitivity (row_pixels (firstn (Z.to_nat (w * 3))
                   (firstn pn (skipn (k * pn) (concat chunks))))).
  { rewrite firstn_firstn, Nat.min_l by (unfold pn; lia). reflexivity. }
  rewrite Hchunk, Enth, firstn_app, Lrow, Nat.sub_diag.
  cbn [firstn]. rewrite app_nil_r, <- Lrow, firstn_all.
  rewrite Nat2Z.id. apply row_pixels_bytes.
Qed.


(** X7: saving a well-formed 24-bit image and loading the file again gives
    back the same pixels, width and height, with the headers the save
    derived and colour depth 24. *)
Theorem save_then_load24 (junk : Indeterminate) (img : t_bmp24)
    (Hvalid : valid24 img) (Hwidth : width img * 3 + 3 <= CInt.INT_MAX) :
  exists img',
    bmp24_loadImage junk (snd (bmp24_saveImage img)) = Some img'
    /\ data img' = data img
    /\ width img' = width img /\ height img' = height img
    /\ colorDepth img' = 24
    /\ header img' = header (fst (bmp24_saveImage img))
    /\ header_info img' = header_info (fst (bmp24_saveImage img)).
Proof.
  destruct (save_then_load24_helper junk img Hvalid Hwidth)
    as (img' & Hload & Hrest).
  exists img'. split; [exact Hload | exact Hrest].
Qed.

Lemma save_then_load24_witness :
  exists img',
    bmp24_loadImage Sample.junk (snd (bmp24_saveImage Sample.img24)) = Some img'
    /\ data img' = data Sample.img24
    /\ width img' = width Sample.img24 /\ height img' = height Sample.img24
    /\ colorDepth img' = 24
    /\ header img' = header (fst (bmp24_saveImage Sample.img24))
    /\ header_info img' = header_info (fst (bmp24_saveImage Sample.img24)).
Proof.
  apply (save_then_load24 Sample.junk Sample.img24 sample_img24_valid).
  vm_compute. discriminate.
Defined.

(** Loading what [bmp8_saveImage] wrote. *)
Lemma save_then_load8_helper (img : t_bmp8) :
  valid8 img -> header_describes8 img ->
  bmp8_loadImage (bmp8_saveImage img) = Some img.
Proof.
  intros Hvalid Hheader.
  destruct Hvalid as [Hd Hh Ht Hw Hhe Hs].
  destruct Hheader as [HB HM Hfw Hfh [Hfd Hcd] Hfo Hfs].
  assert (Ef : bmp8_saveImage img = header8 img ++ colorTable img ++ data8 img).
  { unfold bmp8_saveImage, fopen_wb.
    rewrite (fwrite_end _ [] 0) by reflexivity. cbn [app].
    rewrite fwrite_end by reflexivity.
    rewrite fwrite_end by reflexivity. cbn [bytes].
    rewrite !firstn_all2 by lia. now rewrite <- app_assoc. }
  set (f := bmp8_saveImage img) in *.
  assert (Hfield : forall off len, (off + len <= 54)%nat ->
                     field off len f = field off len (header8 img)).
  { intros off len Hl. rewrite Ef. apply field_app. lia. }
  assert (Hnth : forall k, (k < 54)%nat -> nth k f x00 = nth k (header8 img) x00).
  { intros k Hk. rewrite Ef. apply app_nth1. lia. }
  assert (Lf : length f = (54 + 1024 + length (data8 img))%nat).
  { rewrite Ef, !length_app. lia. }
  assert (Eds : file_dataSize8 f = dataSize img).
  { unfold file_dataSize8. rewrite !Hfield by lia. now rewrite Hfw, Hfh, Hfs. }
  destruct (bmp8_loadImage_cases f) as [_ Hyes].
  rewrite Hyes.
  - f_equal. unfold image8_of_file.
    rewrite Eds, !Hfield by lia. rewrite Hfw, Hfh, Hfo.
    destruct img as [hdr tab dat wi he cd ds].
    cbn [header8 colorTable data8 width8 height8 colorDepth8 dataSize] in *.
    subst cd. f_equal.
    + rewrite Ef, firstn_app, Hh, Nat.sub_diag, firstn_O.
      rewrite app_nil_r. apply firstn_all2. lia.
    + rewrite Ef, skipn_app, Hh, Nat.sub_diag, skipn_all2 by lia.
      rewrite skipn_O. cbn [app].
      rewrite firstn_app, Ht, Nat.sub_diag, firstn_O.
      rewrite app_nil_r. apply firstn_all2. lia.
    + rewrite Ef, app_assoc, skipn_app.
      rewrite skipn_all2 by (rewrite length_app; lia).
      rewrite length_app, Hh, Ht. change (Z.to_nat 1078 - (54 + 1024))%nat with 0%nat.
      rewrite skipn_O. cbn [app]. apply firstn_all2. lia.
  - unfold rejected8. rewrite Eds, !Hnth, !Hfield by lia.
    rewrite Hfo, HB, HM, Hfd.
    intros [?|[?|[?|[?|[?|[? ?]]]]]]; try contradiction; try lia.
Qed.


(** X8: saving an 8-bit image whose header block describes it, and loading
    the file again, gives back the very same image: header, palette, pixel
    bytes and fields. *)
Theorem save_then_load8 (img : t_bmp8) (Hvalid : valid8 img)
    (Hheader : header_describes8 img) :
  bmp8_loadImage (bmp8_saveImage img) = Some img.
Proof.
  pose proof (save_then_load8_helper img Hvalid Hheader) as Hload.
  rewrite Hload. reflexivity.
Qed.

Lemma sample_header_describes8 : header_describes8 Sample.img8.
Proof. constructor; try split; vm_compute; reflexivity. Defined.

Lemma save_then_load8_witness :
  bmp8_loadImage (bmp8_saveImage Sample.img8) = Some Sample.img8.
Proof.
  exact (save_then_load8 Sample.img8 sample_img8_valid sample_header_describes8).
Defined.

(** ** Point operations as maps over the pixels *)

Lemma s32_id (z : Z) : CInt.INT_MIN <= z <= CInt.INT_MAX -> CInt.s32 z = z.
Proof.
  unfold CInt.INT_MIN, CInt.INT_MAX, CInt.s32, CInt.u32. intro H.
  destruct (Z_lt_dec z 0) as [Hn|Hn].
  - replace (z mod 4294967296) with (z + 4294967296)
      by (apply (Z.mod_unique_pos _ _ (-1)); lia).
    destruct (Z.ltb_spec (z + 4294967296) 2147483648); lia.
  - rewrite Z.mod_small by lia.
    destruct (Z.ltb_spec z 2147483648); lia.
Qed.

Lemma saturate_range (v : Z) : 0 <= saturate v <= 255.
Proof. unfold saturate. lia. Qed.

Lemma byte_val_saturate (v : Z) : byte_val (byte_of (saturate v)) = saturate v.
Proof.
  rewrite byte_val_of. apply Z.mod_small. pose proof (saturate_range v). lia.
Qed.

Lemma clamp_u8_saturate (v : Z) : clamp_u8 v = saturate v.
Proof.
  unfold clamp_u8, saturate, CInt.u8.
  destruct (Z.ltb_spec v 0); [lia|].
  destruct (Z.gtb_spec v 255); [lia|].
  rewrite Z.mod_small; lia.
Qed.

Lemma map_prefix_compose {A} (f g : A -> A) (n : nat) (l : list A) :
  map_prefix g n (map_prefix f n l) = map_prefix (fun a => g (f a)) n l.
Proof.
  revert l; induction n as [|n IH]; intros [|a l]; try reflexivity.
  unfold map_prefix in *. cbn [firstn skipn map app]. f_equal. apply IH.
Qed.

Lemma map_prefix_ext {A} (f g : A -> A) (n : nat) (l : list A) :
  (forall a, f a = g a) -> map_prefix f n l = map_prefix g n l.
Proof.
  intro H. unfold map_prefix. f_equal. apply map_ext. exact H.
Qed.

Lemma map_prefix_id {A} (f : A -> A) (n : nat) (l : list A) :
  (forall a, f a = a) -> map_prefix f n l = l.
Proof.
  intro H. unfold map_prefix.
  rewrite (map_ext f (fun a => a)) by exact H.
  rewrite map_id. apply firstn_skipn.
Qed.

(** An entry of an array after [map_prefix]. *)
Lemma get_map_prefix {A} (d : A) (f : A -> A) (n : nat) (l : list A) (i : Z) :
  0 <= i < Z.of_nat n -> i < Z.of_nat (length l) ->
  get d i (map_prefix f n l) = f (get d i l).
Proof.
  intros Hi Hl. rewrite !get_nth by lia. unfold map_prefix.
  rewrite app_nth1 by (rewrite length_map, length_firstn; lia).
  rewrite (nth_map_lt f d) by (rewrite length_firstn; lia).
  f_equal. apply nth_firstn. lia.
Qed.

(** The 8-bit point operations are maps over the pixel bytes. *)
Lemma bmp8_negative_map (img : t_bmp8) :
  bmp8_negative img = map_bytes8 negative_byte img.
Proof.
  unfold bmp8_negative, map_bytes8. f_equal.
  apply (for_range_pointwise x00 negative_byte).
Qed.

Lemma bmp8_brightness_map (img : t_bmp8) (value : Z) :
  brightness_in_range value ->
  bmp8_brightness img value = map_bytes8 (brightness_byte value) img.
Proof.
  intros [Hlo Hhi]. unfold bmp8_brightness, map_bytes8. f_equal.
  rewrite <- (for_range_pointwise x00 (brightness_byte value)).
  unfold for_range. apply iterate_ext. intros j d _. cbv zeta.
  unfold brightness_byte, saturate.
  pose proof (byte_val_range (get x00 j d)) as Hb.
  rewrite s32_id by (unfold CInt.INT_MIN, CInt.INT_MAX in *; lia).
  destruct (Z.ltb_spec (byte_val (get x00 j d) + value) 0).
  - do 2 f_equal. lia.
  - destruct (Z.gtb_spec (byte_val (get x00 j d) + value) 255);
      do 2 f_equal; lia.
Qed.

Lemma bmp8_threshold_map (img : t_bmp8) (threshold : Z) :
  bmp8_threshold img threshold = map_bytes8 (threshold_byte threshold) img.
Proof.
  unfold bmp8_threshold, map_bytes8. f_equal. cbv zeta.
  rewrite <- (for_range_pointwise x00 (threshold_byte threshold)).
  unfold for_range. apply iterate_ext. intros j d _.
  unfold threshold_byte. f_equal.
  assert (E : (if (threshold <? 0) || (threshold >? 255)
               then if threshold <? 0 then 0 else 255 else threshold)
              = saturate threshold).
  { unfold saturate. destruct (Z.ltb_spec threshold 0); cbn [orb]; [lia|].
    destruct (Z.gtb_spec threshold 255); lia. }
  rewrite E, byte_val_saturate.
  destruct (_ >=? _); reflexivity.
Qed.

(** The 24-bit point operations are maps over the pixel grid. *)
Lemma map_pixels24_grid (f : t_pixel -> t_pixel) (img : t_bmp24) :
  map_pixels24 f img = map_grid24 f img.
Proof.
  unfold map_grid24. rewrite <- map_pixels24_data. reflexivity.
Qed.

Lemma brightness_pixel_bytes (value : Z) (p : t_pixel) :
  brightness_in_range value ->
  brightness_pixel value p
  = mk_pixel (brightness_byte value (blue p)) (brightness_byte value (green p))
             (brightness_byte value (red p)).
Proof.
  intros [Hlo Hhi]. unfold brightness_pixel, brightness_byte.
  pose proof (byte_val_range (blue p)). pose proof (byte_val_range (green p)).
  pose proof (byte_val_range (red p)).
  rewrite !s32_id by (unfold CInt.INT_MIN, CInt.INT_MAX in *; lia).
  now rewrite !clamp_u8_saturate.
Qed.

Lemma map_bytes8_compose (f g : byte -> byte) (img : t_bmp8) :
  map_bytes8 g (map_bytes8 f img) = map_bytes8 (fun b => g (f b)) img.
Proof.
  unfold map_bytes8, with_data8. cbn [dataSize data8 header8 colorTable
    width8 height8 colorDepth8]. f_equal. apply map_prefix_compose.
Qed.

Lemma map_bytes8_ext (f g : byte -> byte) (img : t_bmp8) :
  (forall b, f b = g b) -> map_bytes8 f img = map_bytes8 g img.
Proof.
  intro H. unfold map_bytes8. f_equal. now apply map_prefix_ext.
Qed.

Lemma map_grid24_compose (f g : t_pixel -> t_pixel) (img : t_bmp24) :
  map_grid24 g (map_grid24 f img) = map_grid24 (fun p => g (f p)) img.
Proof.
  unfold map_grid24, with_data. cbn [data width height header header_info
    colorDepth]. f_equal.
  rewrite map_prefix_compose. apply map_prefix_ext. intro row.
  apply map_prefix_compose.
Qed.

Lemma map_grid24_ext (f g : t_pixel -> t_pixel) (img : t_bmp24) :
  (forall p, f p = g p) -> map_grid24 f img = map_grid24 g img.
Proof.
  intro H. unfold map_grid24. f_equal.
  apply map_prefix_ext. intro row. now apply map_prefix_ext.
Qed.

Lemma pixel_eta (p : t_pixel) : mk_pixel (blue p) (green p) (red p) = p.
Proof. now destruct p. Qed.

Lemma in_all_bytes (b : byte) : In b all_bytes.
Proof.
  unfold all_bytes. rewrite <- (byte_of_val b). apply in_map.
  unfold range. pose proof (byte_val_range b) as H.
  rewrite <- (Z2Nat.id (byte_val b)) by lia.
  apply in_map, in_seq. lia.
Qed.

(** A property checked on the 256 byte values holds of every byte. *)
Lemma for_all_bytes (P : byte -> bool) :
  forallb P all_bytes = true -> forall b, P b = true.
Proof.
  intros H b. rewrite forallb_forall in H. apply H, in_all_bytes.
Qed.

Lemma apply_negative_map (img : image) :
  apply_operation Negative img = map_channels negative_byte img.
Proof.
  destruct img as [i|i]; cbn [apply_operation map_channels map_image].
  - now rewrite bmp8_negative_map.
  - unfold bmp24_negative. now rewrite map_pixels24_grid.
Qed.

Lemma apply_brightness_map (value : Z) (img : image) :
  brightness_in_range value ->
  apply_operation (Brightness value) img
  = map_channels (brightness_byte value) img.
Proof.
  intro Hv. destruct img as [i|i]; cbn [apply_operation map_channels map_image].
  - now rewrite bmp8_brightness_map.
  - unfold bmp24_brightness. rewrite map_pixels24_grid. f_equal.
    apply map_grid24_ext. intro p. now apply brightness_pixel_bytes.
Qed.

Lemma map_channels_compose (f g : byte -> byte) (img : image) :
  map_channels g (map_channels f img) = map_channels (fun b => g (f b)) img.
Proof.
  destruct img as [i|i]; cbn [map_channels map_image]; f_equal.
  - apply map_bytes8_compose.
  - rewrite map_grid24_compose. apply map_grid24_ext. reflexivity.
Qed.

Lemma map_channels_ext (f g : byte -> byte) (img : image) :
  (forall b, f b = g b) -> map_channels f img = map_channels g img.
Proof.
  intro H. destruct img as [i|i]; cbn [map_channels map_image]; f_equal.
  - now apply map_bytes8_ext.
  - apply map_grid24_ext. intro p. unfold on_channels. now rewrite !H.
Qed.

Lemma map_channels_id (f : byte -> byte) (img : image) :
  (forall b, f b = b) -> map_channels f img = img.
Proof.
  intro H. destruct img as [i|i]; cbn [map_channels map_image]; f_equal.
  - unfold map_bytes8. rewrite map_prefix_id by exact H. apply with_data8_same.
  - unfold map_grid24. rewrite map_prefix_id; [apply with_data_same|].
    intro row. apply map_prefix_id. intro p. unfold on_channels.
    rewrite !H. apply pixel_eta.
Qed.

(** ** Brightness *)

(** X9: brightness adjustments of the same sign add up: brightening by
    [v1] and then by [v2] is brightening by [v1 + v2] when both are
    non-negative or both non-positive, on 8-bit and 24-bit images alike. *)
Theorem brightness_adds (img : image) (v1 v2 : Z)
    (H1 : brightness_in_range v1) (H2 : brightness_in_range v2)
    (H12 : brightness_in_range (v1 + v2))
    (Hsign : 0 <= v1 /\ 0 <= v2 \/ v1 <= 0 /\ v2 <= 0) :
  apply_operation (Brightness v2) (apply_operation (Brightness v1) img)
  = apply_operation (Brightness (v1 + v2)) img.
Proof.
  rewrite !apply_brightness_map by assumption.
  rewrite map_channels_compose. apply map_channels_ext. intro b.
  unfold brightness_byte. rewrite byte_val_saturate. f_equal.
  pose proof (byte_val_range b). unfold saturate. lia.
Qed.

Lemma brightness_adds_witness :
  apply_operation (Brightness 100)
    (apply_operation (Brightness 200) (Image24 Sample.img24))
  = apply_operation (Brightness (200 + 100)) (Image24 Sample.img24).
Proof.
  apply (brightness_adds (Image24 Sample.img24) 200 100);
    unfold brightness_in_range, CInt.INT_MIN, CInt.INT_MAX; lia.
Defined.

(** X10: the negative of a brightened image is the darkened negative:
    negative after brightness [v] equals brightness [-v] after negative,
    for every [v] such that both [v] and [-v] are [int]s no larger than
    [INT_MAX - 255], so that neither sum with a byte overflows. *)
Theorem negative_of_brightness (img : image) (v : Z)
    (Hv : brightness_in_range v) (Hv' : brightness_in_range (- v)) :
  apply_operation Negative (apply_operation (Brightness v) img)
  = apply_operation (Brightness (- v)) (apply_operation Negative img).
Proof.
  rewrite !apply_brightness_map, !apply_negative_map by assumption.
  rewrite !map_channels_compose. apply map_channels_ext. intro b.
  unfold brightness_byte, negative_byte.
  rewrite byte_val_saturate, byte_val_of. f_equal.
  pose proof (byte_val_range b).
  rewrite (Z.mod_small (255 - byte_val b)) by lia.
  unfold saturate. lia.
Qed.

Lemma negative_of_brightness_witness :
  apply_operation Negative (apply_operation (Brightness 40) (Image8 Sample.img8))
  = apply_operation (Brightness (- 40))
      (apply_operation Negative (Image8 Sample.img8)).
Proof.
  apply (negative_of_brightness (Image8 Sample.img8) 40);
    unfold brightness_in_range, CInt.INT_MIN, CInt.INT_MAX; lia.
Defined.

(** X11: for an [int] value [v] no larger than [INT_MAX - 255] (so that
    its sum with a byte fits [int]): brightness 0 changes nothing,
    brightness of 255 or more turns every pixel byte into 255, and
    brightness of -255 or less into 0. *)
Theorem brightness_extremes (img : image) (v : Z)
    (Hv : brightness_in_range v) :
  (v = 0 -> apply_operation (Brightness v) img = img)
  /\ (255 <= v ->
      apply_operation (Brightness v) img = map_channels (fun _ => xff) img)
  /\ (v <= -255 ->
      apply_operation (Brightness v) img = map_channels (fun _ => x00) img).
Proof.
  rewrite apply_brightness_map by assumption.
  split; [|split]; intro H.
  - apply map_channels_id. intro b. unfold brightness_byte.
    pose proof (byte_val_range b). unfold saturate.
    rewrite <- (byte_of_val b) at 2. f_equal. lia.
  - apply map_channels_ext. intro b. unfold brightness_byte.
    pose proof (byte_val_range b).
    replace (saturate (byte_val b + v)) with 255 by (unfold saturate; lia).
    reflexivity.
  - apply map_channels_ext. intro b. unfold brightness_byte.
    pose proof (byte_val_range b).
    replace (saturate (byte_val b + v)) with 0 by (unfold saturate; lia).
    reflexivity.
Qed.

Lemma brightness_extremes_witness :
  (255 = 0 ->
   apply_operation (Brightness 255) (Image8 Sample.img8) = Image8 Sample.img8)
  /\ (255 <= 255 ->
      apply_operation (Brightness 255) (Image8 Sample.img8)
      = map_channels (fun _ => xff) (Image8 Sample.img8))
  /\ (255 <= -255 ->
      apply_operation (Brightness 255) (Image8 Sample.img8)
      = map_channels (fun _ => x00) (Image8 Sample.img8)).
Proof.
  apply (brightness_extremes (Image8 Sample.img8) 255).
  unfold brightness_in_range, CInt.INT_MIN, CInt.INT_MAX. lia.
Defined.

(** ** Threshold *)

(** X12: [bmp8_threshold] turns each of the [dataSize] pixel bytes into 255
    when it is at least the threshold (taken as 0 below 0 and as 255 above
    255) and into 0 otherwise; a thresholded image is left unchanged by
    any further threshold of at least 1. *)
Theorem threshold_black_and_white (img : t_bmp8) (t1 t2 : Z)
    (Ht2 : 1 <= t2) :
  bmp8_threshold img t1 = map_bytes8 (threshold_byte t1) img
  /\ (forall b, threshold_byte t1 b = xff \/ threshold_byte t1 b = x00)
  /\ (forall b, threshold_byte t1 b = xff <-> saturate t1 <= byte_val b)
  /\ bmp8_threshold (bmp8_threshold img t1) t2 = bmp8_threshold img t1.
Proof.
  split; [apply bmp8_threshold_map|].
  split.
  { intro b. unfold threshold_byte. destruct (_ >=? _); auto. }
  split.
  { intro b. unfold threshold_byte.
    destruct (Z.geb_spec (byte_val b) (saturate t1)); split; intro;
      try lia; try reflexivity; discriminate. }
  rewrite !bmp8_threshold_map, map_bytes8_compose.
  apply map_bytes8_ext. intro b. unfold threshold_byte.
  pose proof (saturate_range t2).
  assert (1 <= saturate t2) by (unfold saturate; lia).
  destruct (byte_val b >=? saturate t1).
  - change (byte_val xff) with 255.
    destruct (Z.geb_spec 255 (saturate t2)); [reflexivity | lia].
  - change (byte_val x00) with 0.
    destruct (Z.geb_spec 0 (saturate t2)); [lia | reflexivity].
Qed.

Lemma threshold_black_and_white_witness :
  bmp8_threshold Sample.img8 25 = map_bytes8 (threshold_byte 25) Sample.img8
  /\ (forall b, threshold_byte 25 b = xff \/ threshold_byte 25 b = x00)
  /\ (forall b, threshold_byte 25 b = xff <-> saturate 25 <= byte_val b)
  /\ bmp8_threshold (bmp8_threshold Sample.img8 25) 128
     = bmp8_threshold Sample.img8 25.
Proof.
  apply (threshold_black_and_white Sample.img8 25 128). lia.
Defined.

(** ** Grayscale *)

Lemma grayscale_pixel_gray (p : t_pixel) :
  grayscale_pixel p = on_channels (fun _ => blue (grayscale_pixel p)) p.
Proof. reflexivity. Qed.

Lemma grayscale_of_gray (b : byte) :
  grayscale_pixel (mk_pixel b b b) = mk_pixel b b b.
Proof.
  assert (H : forall c, Byte.eqb (blue (grayscale_pixel (mk_pixel c c c))) c
                        = true).
  { apply for_all_bytes. vm_compute. reflexivity. }
  specialize (H b). apply Byte.byte_dec_bl in H.
  rewrite grayscale_pixel_gray. unfold on_channels. now rewrite H.
Qed.

(** X13: after [bmp24_grayscale] the three channels of every pixel are
    equal, and converting an image that is already gray changes nothing:
    the conversion is idempotent. *)
Theorem grayscale_idempotent (img : t_bmp24) :
  bmp24_grayscale img = map_grid24 grayscale_pixel img
  /\ (forall p, blue (grayscale_pixel p) = green (grayscale_pixel p)
                /\ green (grayscale_pixel p) = red (grayscale_pixel p))
  /\ bmp24_grayscale (bmp24_grayscale img) = bmp24_grayscale img.
Proof.
  unfold bmp24_grayscale. rewrite !map_pixels24_grid.
  split; [reflexivity|]. split; [intro p; split; reflexivity|].
  rewrite map_grid24_compose. apply map_grid24_ext. intro p.
  rewrite (grayscale_pixel_gray p) at 1. unfold on_channels.
  apply grayscale_of_gray.
Qed.

(** ** Histograms ([bmp8_computeHistogram]) *)

(** A loop invariant that follows the loop variable. *)
Lemma iterate_inv_ix {St} (P : Z -> St -> Prop) (n : nat) (i : Z)
    (f : Z -> St -> St) (s : St) :
  P i s ->
  (forall j x, i <= j < i + Z.of_nat n -> P j x -> P (j + 1) (f j x)) ->
  P (i + Z.of_nat n) (iterate n i f s).
Proof.
  revert i s; induction n as [|n IH]; intros i s H0 Hstep; cbn [iterate].
  - now rewrite Z.add_0_r.
  - replace (i + Z.of_nat (S n)) with (i + 1 + Z.of_nat n) by lia.
    apply IH.
    + apply Hstep; [lia | exact H0].
    + intros j x Hj. apply Hstep. lia.
Qed.

Lemma total_upd (v x : Z) (h : list Z) :
  0 <= v < Z.of_nat (length h) ->
  total (upd v x h) = total h - get 0 v h + x.
Proof.
  intro Hv. unfold upd, get. destruct (Z.ltb_spec v 0); [lia|].
  assert (Hn : (Z.to_nat v < length h)%nat) by lia.
  revert Hn. generalize (Z.to_nat v). clear.
  induction h as [|a h IH]; intros n Hn; [cbn in Hn; lia|].
  destruct n as [|n]; unfold total in *; cbn [upd_nat fold_right nth].
  - lia.
  - cbn [length] in Hn. rewrite IH by lia. lia.
Qed.

Lemma total_repeat_zero (n : nat) : total (repeat 0 n) = 0.
Proof. induction n as [|n IH]; [reflexivity|]. unfold total in *. cbn. lia. Qed.

Lemma count_byte_app (v : Z) (l1 l2 : list byte) :
  count_byte v (l1 ++ l2) = count_byte v l1 + count_byte v l2.
Proof. unfold count_byte. rewrite filter_app, length_app. lia. Qed.

Lemma count_byte_bounds (v : Z) (l : list byte) :
  0 <= count_byte v l <= Z.of_nat (length l).
Proof. unfold count_byte. pose proof (filter_length_le (fun b => byte_val b =? v) l). lia. Qed.

Lemma firstn_succ_snoc {A} (d : A) (n : nat) (l : list A) :
  (n < length l)%nat -> firstn (S n) l = firstn n l ++ [nth n l d].
Proof.
  revert l; induction n as [|n IH]; intros [|a l] H; cbn in H; try lia.
  - reflexivity.
  - cbn [firstn nth app]. f_equal. apply IH. lia.
Qed.

Lemma Forall_of_get {A} (P : A -> Prop) (d : A) (l : list A) :
  (forall i, 0 <= i < Z.of_nat (length l) -> P (get d i l)) -> Forall P l.
Proof.
  intro H. apply Forall_forall. intros a Hin.
  destruct (In_nth _ _ d Hin) as (k & Hk & <-).
  rewrite <- (Nat2Z.id k), <- get_nth by lia. apply H. lia.
Qed.

(** What the counting loop has done after [i] rounds. *)
Lemma histogram_loop (data : list byte) (n : nat) :
  (n <= length data)%nat -> Z.of_nat n < 4294967296 ->
  let hist := iterate n 0
                (fun i hist =>
                   let v := byte_val (get x00 i data) in
                   upd v (CInt.u32 (get 0 v hist + 1)) hist)
                (repeat 0 256%nat) in
  length hist = 256%nat
  /\ (forall v, 0 <= v < 256 -> get 0 v hist = count_byte v (firstn n data))
  /\ total hist = Z.of_nat n.
Proof.
  intros Hn Hsmall hist.
  pose (P := fun (i : Z) (h : list Z) =>
               length h = 256%nat
               /\ (forall v, 0 <= v < 256 ->
                     get 0 v h = count_byte v (firstn (Z.to_nat i) data))
               /\ total h = i).
  assert (HP : P (0 + Z.of_nat n) hist).
  { unfold hist. apply (iterate_inv_ix P).
    - split; [apply repeat_length|]. split; [|apply total_repeat_zero].
      intros v Hv. rewrite get_nth by lia. rewrite nth_repeat. reflexivity.
    - intros j h Hj (Hl & Hc & Ht). cbv zeta.
      set (b := get x00 j data). pose proof (byte_val_range b) as Hb.
      assert (Efirst : firstn (Z.to_nat (j + 1)) data
                       = firstn (Z.to_nat j) data ++ [b]).
      { replace (Z.to_nat (j + 1)) with (S (Z.to_nat j)) by lia.
        rewrite (firstn_succ_snoc x00) by lia.
        unfold b. now rewrite get_nth by lia. }
      assert (Hcount : get 0 (byte_val b) h + 1 < 4294967296).
      { rewrite Hc by lia.
        pose proof (count_byte_bounds (byte_val b) (firstn (Z.to_nat j) data)).
        rewrite length_firstn in *. lia. }
      assert (Hnn : 0 <= get 0 (byte_val b) h).
      { rewrite Hc by lia. apply count_byte_bounds. }
      rewrite u32_small by lia.
      split; [now rewrite upd_length|]. split.
      + intros v Hv. rewrite Efirst, count_byte_app.
        unfold count_byte at 2. cbn [filter].
        destruct (Z.eq_dec (byte_val b) v) as [->|Hne].
        * rewrite get_upd_same by lia. rewrite Z.eqb_refl. cbn [length].
          rewrite Hc by lia. lia.
        * rewrite get_upd_other by lia.
          destruct (Z.eqb_spec (byte_val b) v); [contradiction|].
          cbn [length]. rewrite Hc by lia. lia.
      + rewrite total_upd by lia. lia. }
  rewrite Z.add_0_l in HP. destruct HP as (Hl & Hc & Ht).
  rewrite Nat2Z.id in Hc. auto.
Qed.

(** The histogram of an image whose buffer holds [dataSize] bytes. *)
Lemma bmp8_histogram_spec (img : t_bmp8) :
  valid8 img ->
  length (bmp8_computeHistogram img) = 256%nat
  /\ (forall v, 0 <= v < 256 ->
        get 0 v (bmp8_computeHistogram img) = count_byte v (data8 img))
  /\ total (bmp8_computeHistogram img) = dataSize img.
Proof.
  intros [Hd _ _ _ _ Hs].
  destruct (histogram_loop (data8 img) (Z.to_nat (dataSize img))
              ltac:(lia) ltac:(lia)) as (Hl & Hc & Ht).
  cbv zeta in Hl, Hc, Ht.
  unfold bmp8_computeHistogram, for_range. rewrite Z.sub_0_r.
  rewrite firstn_all2 in Hc by lia.
  split; [exact Hl|]. split; [exact Hc | lia].
Qed.

(** X14: the histogram of a well-formed 8-bit image counts every pixel byte
    exactly once: it has 256 counters that fit [unsigned int], the counter
    of each intensity is the number of pixel bytes with that value, and the
    counters add up to [dataSize]. *)
Theorem histogram_counts (img : t_bmp8) (Hvalid : valid8 img) :
  let hist := bmp8_computeHistogram img in
  is_histogram hist
  /\ (forall v, 0 <= v < 256 -> get 0 v hist = count_byte v (data8 img))
  /\ total hist = dataSize img.
Proof.
  intro hist. destruct (bmp8_histogram_spec img Hvalid) as (Hl & Hc & Ht).
  fold hist in Hl, Hc, Ht.
  split; [|split; [exact Hc | exact Ht]].
  split; [exact Hl|].
  apply (Forall_of_get _ 0). intros i Hi. rewrite Hl in Hi.
  rewrite Hc by lia.
  pose proof (count_byte_bounds i (data8 img)).
  destruct Hvalid as [Hd _ _ _ _ Hs]. lia.
Qed.

Lemma histogram_counts_witness :
  let hist := bmp8_computeHistogram Sample.img8 in
  is_histogram hist
  /\ (forall v, 0 <= v < 256 -> get 0 v hist = count_byte v (data8 Sample.img8))
  /\ total hist = dataSize Sample.img8.
Proof. exact (histogram_counts Sample.img8 sample_img8_valid). Defined.

(** ** The equalisation table and [bmp8_equalize] *)

Lemma to_uint_nonneg (z : option Z) : 0 <= FloatModel.to_uint z.
Proof.
  destruct z as [v|]; cbn [FloatModel.to_uint]; [|lia].
  destruct (_ && _); [apply u32_range | lia].
Qed.

Lemma lut_entry_range (s : spec_float) (n : Z) : 0 <= lut_entry s n <= 255.
Proof.
  unfold lut_entry. cbv zeta.
  pose proof (to_uint_nonneg (FloatModel.round_away (F64.mul (F64.of_Z n) s))).
  destruct (Z.gtb_spec (FloatModel.to_uint
              (FloatModel.round_away (F64.mul (F64.of_Z n) s))) 255); lia.
Qed.

(** X15: [bmp8_computeEqualizedHistogram] refuses [numPixels = 0] and for
    every other input, whatever the histogram, returns a table of 256
    entries that all lie between 0 and 255, so that storing an entry into a
    pixel byte never truncates it. *)
Theorem lut_entries_are_bytes (hist : list Z) (numPixels : Z) :
  (numPixels = 0 -> bmp8_computeEqualizedHistogram hist numPixels = None)
  /\ (numPixels <> 0 ->
      exists lut,
        bmp8_computeEqualizedHistogram hist numPixels = Some lut
        /\ length lut = 256%nat
        /\ forall i, 0 <= i < 256 -> 0 <= get 0 i lut <= 255).
Proof.
  unfold bmp8_computeEqualizedHistogram.
  destruct (Z.eqb_spec numPixels 0) as [E|E].
  - split; [reflexivity | contradiction].
  - split; [contradiction|]. intros _. cbv zeta.
    destruct (FloatModel.leb _ F64.zero).
    + destruct identity_loop_spec as [Hl Hv]. cbv zeta in Hl, Hv.
      eexists. split; [reflexivity|]. split; [exact Hl|].
      intros i Hi. rewrite Hv by lia. lia.
    + set (cdf := compute_cdf hist). set (cdfmin := find_cdfmin cdf).
      set (s := F64.div (F64.of_Z 255) _).
      destruct (general_loop_spec cdf cdfmin s) as [Hl Hv]. cbv zeta in Hl, Hv.
      eexists. split; [reflexivity|]. split; [exact Hl|].
      intros i Hi. rewrite Hv by lia. apply lut_entry_range.
Qed.

(** The two branches of the table, for a histogram that counts at most
    [numPixels] pixels. *)
Lemma equalisation_table_cases (hist : list Z) (numPixels : Z) :
  is_histogram hist ->
  0 < numPixels <= 4294967295 ->
  total hist <= numPixels ->
  let cdfmin := find_cdfmin (compute_cdf hist) in
  exists lut,
    bmp8_computeEqualizedHistogram hist numPixels = Some lut
    /\ length lut = 256%nat
    /\ ((numPixels <= cdfmin /\ forall i, 0 <= i < 256 -> get 0 i lut = i)
        \/ (cdfmin < numPixels
            /\ forall i, 0 <= i < 256 ->
                 get 0 i lut
                 = lut_entry (F64.div (F64.of_Z 255)
                                (canon F64.prec (numPixels - cdfmin)))
                             (Z.max 0 (psum hist i - cdfmin)))).
Proof.
  intros Hh HN Htot cdfmin0.
  destruct (compute_cdf_spec hist Hh) as [Hlen Hcdf].
  pose proof (find_cdfmin_bounds hist Hh) as Hmin.
  unfold bmp8_computeEqualizedHistogram.
  destruct (Z.eqb_spec numPixels 0) as [|_]; [lia|]. cbv zeta.
  subst cdfmin0.
  set (cdf := compute_cdf hist) in *. set (cdfmin := find_cdfmin cdf) in *.
  destruct (denominator_spec numPixels cdfmin) as [[Hlt ->]|[Hge ->]];
    try (rewrite pow2_53; lia).
  - change (FloatModel.leb (canon F64.prec (numPixels - cdfmin)) F64.zero)
      with false. cbv iota.
    set (s := F64.div (F64.of_Z 255) (canon F64.prec (numPixels - cdfmin))).
    destruct (general_loop_spec cdf cdfmin s) as [Hl Hv]. cbv zeta in Hl, Hv.
    eexists. split; [reflexivity|]. split; [exact Hl|].
    right. split; [exact Hlt|].
    intros i Hi. rewrite Hv by lia.
    pose proof (psum_bounds hist i Hh ltac:(lia)).
    pose proof (total_bound hist Hh).
    rewrite Hcdf by lia.
    rewrite numerator_spec by lia. reflexivity.
  - destruct identity_loop_spec as [Hl Hv]. cbv zeta in Hl, Hv.
    eexists. split; [reflexivity|]. split; [exact Hl|].
    left. split; [exact Hge | exact Hv].
Qed.

(** The pixel bytes after [bmp8_equalize], given the table. *)
Lemma bmp8_equalize_data (img : t_bmp8) (lut : list Z) :
  bmp8_computeEqualizedHistogram (bmp8_computeHistogram img)
    (CInt.u32 (width8 img * height8 img)) = Some lut ->
  bmp8_equalize img
  = map_bytes8 (fun b => byte_of (get 0 (byte_val b) lut)) img.
Proof.
  intro E. unfold bmp8_equalize. cbv zeta. rewrite E.
  unfold map_bytes8. f_equal.
  apply (for_range_pointwise x00 (fun b => byte_of (get 0 (byte_val b) lut))).
Qed.

(** X16: histogram equalisation never inverts the order of two pixels: on a
    well-formed 8-bit image whose [width * height] pixels fill its buffer, a
    pixel that was no brighter than another one before [bmp8_equalize] is
    no brighter than it afterwards. *)
Theorem equalize_keeps_order (img : t_bmp8) (i j : Z)
    (Hvalid : valid8 img) (Hfill : pixels_fill_buffer img)
    (Hi : 0 <= i < dataSize img) (Hj : 0 <= j < dataSize img)
    (Hle : byte_val (get x00 i (data8 img))
           <= byte_val (get x00 j (data8 img))) :
  byte_val (get x00 i (data8 (bmp8_equalize img)))
  <= byte_val (get x00 j (data8 (bmp8_equalize img))).
Proof.
  destruct (bmp8_histogram_spec img Hvalid) as (Hl & Hc & Ht).
  destruct Hvalid as [Hd _ _ _ _ Hs].
  assert (Hh : is_histogram (bmp8_computeHistogram img)).
  { split; [exact Hl|]. apply (Forall_of_get _ 0). intros v Hv.
    rewrite Hl in Hv. rewrite Hc by lia.
    pose proof (count_byte_bounds v (data8 img)). lia. }
  unfold pixels_fill_buffer in Hfill.
  destruct (equalisation_table_cases (bmp8_computeHistogram img)
              (dataSize img) Hh ltac:(lia) ltac:(lia))
    as (lut & Elut & Hlen & Hcases).
  rewrite <- Hfill in Elut at 1.
  rewrite (bmp8_equalize_data img lut Elut).
  unfold map_bytes8. cbn [data8 with_data8].
  rewrite !(get_map_prefix x00) by lia.
  pose proof (byte_val_range (get x00 i (data8 img))) as Hbi.
  pose proof (byte_val_range (get x00 j (data8 img))) as Hbj.
  set (a := byte_val (get x00 i (data8 img))) in *.
  set (b := byte_val (get x00 j (data8 img))) in *.
  rewrite !byte_val_of.
  destruct Hcases as [[_ Hid]|[Hlt Hgen]].
  - rewrite !Hid by lia. rewrite !Z.mod_small by lia. exact Hle.
  - rewrite !Hgen by lia.
    pose proof (lut_entry_range
                  (F64.div (F64.of_Z 255)
                     (canon F64.prec
                        (dataSize img
                         - find_cdfmin (compute_cdf (bmp8_computeHistogram img)))))
                  (Z.max 0 (psum (bmp8_computeHistogram img) a
                            - find_cdfmin (compute_cdf (bmp8_computeHistogram img))))).
    pose proof (lut_entry_range
                  (F64.div (F64.of_Z 255)
                     (canon F64.prec
                        (dataSize img
                         - find_cdfmin (compute_cdf (bmp8_computeHistogram img)))))
                  (Z.max 0 (psum (bmp8_computeHistogram img) b
                            - find_cdfmin (compute_cdf (bmp8_computeHistogram img))))).
    rewrite !Z.mod_small by lia.
    pose proof (find_cdfmin_bounds _ Hh) as Hmin.
    pose proof (psum_mono _ a b Hh ltac:(lia) Hle ltac:(lia)).
    pose proof (psum_bounds _ b Hh ltac:(lia)).
    apply lut_entry_mono; [rewrite pow2_53|..]; lia.
Qed.

Lemma sample_pixels_fill_buffer : pixels_fill_buffer Sample.img8.
Proof. reflexivity. Defined.

Lemma equalize_keeps_order_witness :
  byte_val (get x00 0 (data8 (bmp8_equalize Sample.img8)))
  <= byte_val (get x00 3 (data8 (bmp8_equalize Sample.img8))).
Proof.
  apply (equalize_keeps_order Sample.img8 0 3 sample_img8_valid
           sample_pixels_fill_buffer).
  - cbn. lia.
  - cbn. lia.
  - vm_compute. discriminate.
Defined.

Lemma find_first {A} (P : A -> bool) (d : A) (l : list A) :
  forall k, (k < length l)%nat ->
    (forall j, (j < k)%nat -> P (nth j l d) = false) ->
    P (nth k l d) = true ->
    find P l = Some (nth k l d).
Proof.
  induction l as [|a l IH]; intros k Hk Hbefore Hat; [cbn in Hk; lia|].
  cbn [length] in Hk.
  destruct k as [|k]; cbn [find nth] in *.
  - now rewrite Hat.
  - pose proof (Hbefore 0%nat ltac:(lia)) as H0. cbn [nth] in H0. rewrite H0.
    apply IH; [lia| |exact Hat].
    intros j Hj. apply (Hbefore (S j)). lia.
Qed.

(** The minimum of the cumulative histogram is the counter of the darkest
    intensity that occurs. *)
Lemma cdfmin_of_darkest (hist : list Z) (k : Z) :
  is_histogram hist -> 0 <= k < 256 ->
  (forall j, 0 <= j < k -> get 0 j hist = 0) ->
  0 < get 0 k hist ->
  find_cdfmin (compute_cdf hist) = get 0 k hist
  /\ psum hist k = get 0 k hist.
Proof.
  intros Hh Hk Hzero Hpos.
  destruct (compute_cdf_spec hist Hh) as [Hlen Hcdf].
  assert (Hps : forall j, -1 <= j < k -> psum hist j = 0).
  { intros j Hj. replace j with (-1 + Z.of_nat (Z.to_nat (j + 1))) by lia.
    assert (Hn : (Z.to_nat (j + 1) <= Z.to_nat k)%nat) by lia.
    induction (Z.to_nat (j + 1)) as [|n IH]; [apply psum_first|].
    rewrite psum_step by (destruct Hh as [-> _]; lia).
    replace (-1 + Z.of_nat (S n) - 1) with (-1 + Z.of_nat n) by lia.
    rewrite IH by lia. rewrite Hzero by lia. reflexivity. }
  assert (Epk : psum hist k = get 0 k hist).
  { rewrite psum_step by (destruct Hh as [-> _]; lia).
    rewrite Hps by lia. lia. }
  split; [|exact Epk].
  unfold find_cdfmin. rewrite firstn_all2 by lia.
  rewrite (find_first _ 0 _ (Z.to_nat k)).
  - rewrite <- get_nth by lia. rewrite Hcdf by lia. exact Epk.
  - lia.
  - intros j Hj. rewrite <- (Nat2Z.id j), <- get_nth by lia.
    rewrite Hcdf by lia. rewrite Hps by lia. reflexivity.
  - rewrite <- get_nth by lia. rewrite Hcdf by lia. rewrite Epk.
    apply Z.gtb_lt. lia.
Qed.

Lemma count_byte_none (v : Z) (l : list byte) :
  (forall b, In b l -> byte_val b <> v) -> count_byte v l = 0.
Proof.
  intro H. unfold count_byte. induction l as [|a l IH]; [reflexivity|].
  cbn [filter]. destruct (Z.eqb_spec (byte_val a) v) as [E|_].
  - exfalso. apply (H a); [now left | exact E].
  - apply IH. intros b Hb. apply H. now right.
Qed.

Lemma count_byte_some (v : Z) (l : list byte) (b : byte) :
  In b l -> byte_val b = v -> 0 < count_byte v l.
Proof.
  intros Hin Hv. unfold count_byte.
  assert (Hf : In b (filter (fun b => byte_val b =? v) l)).
  { apply filter_In. split; [exact Hin|]. now apply Z.eqb_eq. }
  destruct (filter _ l); [contradiction | cbn [length]; lia].
Qed.

Lemma count_byte_all (v : Z) (l : list byte) :
  (forall b, In b l -> byte_val b = v) -> count_byte v l = Z.of_nat (length l).
Proof.
  intro H. unfold count_byte. induction l as [|a l IH]; [reflexivity|].
  cbn [filter]. rewrite (proj2 (Z.eqb_eq _ _) (H a (or_introl eq_refl))).
  cbn [length]. rewrite !Nat2Z.inj_succ. f_equal. apply IH.
  intros b Hb. apply H. now right.
Qed.

Lemma count_byte_not_all (v : Z) (l : list byte) (b : byte) :
  In b l -> byte_val b <> v -> count_byte v l < Z.of_nat (length l).
Proof.
  intros Hin Hv. unfold count_byte. induction l as [|a l IH]; [contradiction|].
  cbn [filter]. pose proof (filter_length_le (fun b => byte_val b =? v) l).
  destruct Hin as [->|Hin].
  - destruct (Z.eqb_spec (byte_val b) v); [contradiction|]. cbn [length]. lia.
  - specialize (IH Hin). destruct (byte_val a =? v); cbn [length]; lia.
Qed.

Lemma get_In {A} (d : A) (i : Z) (l : list A) :
  0 <= i < Z.of_nat (length l) -> In (get d i l) l.
Proof. intro H. rewrite get_nth by lia. apply nth_In. lia. Qed.

Lemma In_get {A} (d : A) (a : A) (l : list A) :
  In a l -> exists i, 0 <= i < Z.of_nat (length l) /\ get d i l = a.
Proof.
  intro H. destruct (In_nth _ _ d H) as (k & Hk & E).
  exists (Z.of_nat k). split; [lia|]. now rewrite get_nth, Nat2Z.id by lia.
Qed.

(** X17: on a well-formed 8-bit image whose [width * height] equals its
    data size, [bmp8_equalize] leaves an image of a single intensity (and an
    empty image) exactly as it is: the table degenerates to the identity. *)
Theorem equalize_uniform (img : t_bmp8) (b : byte)
    (Hvalid : valid8 img) (Hfill : pixels_fill_buffer img)
    (Huniform : forall k, 0 <= k < dataSize img -> get x00 k (data8 img) = b) :
  bmp8_equalize img = img.
Proof.
  destruct (bmp8_histogram_spec img Hvalid) as (Hl & Hc & Ht).
  pose proof Hvalid as [Hd _ _ _ _ Hs].
  unfold pixels_fill_buffer in Hfill.
  destruct (Z.eq_dec (dataSize img) 0) as [E0|N0].
  { unfold bmp8_equalize. cbv zeta. rewrite Hfill, E0.
    unfold bmp8_computeEqualizedHistogram. reflexivity. }
  assert (Hh : is_histogram (bmp8_computeHistogram img)).
  { split; [exact Hl|]. apply (Forall_of_get _ 0). intros v Hv.
    rewrite Hl in Hv. rewrite Hc by lia.
    pose proof (count_byte_bounds v (data8 img)). lia. }
  assert (Hall : forall c, In c (data8 img) -> c = b).
  { intros c Hin. destruct (In_get x00 c _ Hin) as (k & Hk & <-).
    apply Huniform. lia. }
  pose proof (byte_val_range b) as Hb.
  destruct (cdfmin_of_darkest (bmp8_computeHistogram img) (byte_val b) Hh Hb)
    as [Emin _].
  { intros j Hj. rewrite Hc by lia. apply count_byte_none.
    intros c Hin. rewrite (Hall c Hin). lia. }
  { rewrite Hc by lia. rewrite count_byte_all; [lia|].
    intros c Hin. now rewrite (Hall c Hin). }
  rewrite Hc in Emin by lia.
  rewrite count_byte_all in Emin
    by (intros c Hin; now rewrite (Hall c Hin)).
  destruct (equalisation_table_cases (bmp8_computeHistogram img)
              (dataSize img) Hh ltac:(lia) ltac:(lia))
    as (lut & Elut & Hlen & [[_ Hid]|[Hlt _]]); [|lia].
  rewrite <- Hfill in Elut at 1.
  rewrite (bmp8_equalize_data img lut Elut).
  unfold map_bytes8. rewrite map_prefix_id; [apply with_data8_same|].
  intro c. pose proof (byte_val_range c).
  rewrite Hid by lia. apply byte_of_val.
Qed.

Lemma equalize_uniform_witness :
  bmp8_equalize (mk_bmp8 Sample.header_2x2 Sample.palette
                         [x14; x14; x14; x14] 2 2 8 4)
  = mk_bmp8 Sample.header_2x2 Sample.palette [x14; x14; x14; x14] 2 2 8 4.
Proof.
  apply (equalize_uniform _ x14).
  - constructor; cbn; try reflexivity; lia.
  - reflexivity.
  - intros k Hk. cbn in Hk.
    assert (Hc : k = 0 \/ k = 1 \/ k = 2 \/ k = 3) by lia.
    destruct Hc as [->|[->|[->| ->]]]; reflexivity.
Defined.

(** X18: on a well-formed 8-bit image whose [width * height] equals its
    data size and which has at least two intensities, [bmp8_equalize] turns
    every pixel of the darkest intensity into 0. *)
Theorem equalize_darkest_to_black (img : t_bmp8) (i j : Z)
    (Hvalid : valid8 img) (Hfill : pixels_fill_buffer img)
    (Hi : 0 <= i < dataSize img) (Hj : 0 <= j < dataSize img)
    (Hdarkest : forall k, 0 <= k < dataSize img ->
                  byte_val (get x00 i (data8 img))
                  <= byte_val (get x00 k (data8 img)))
    (Hother : get x00 j (data8 img) <> get x00 i (data8 img)) :
  get x00 i (data8 (bmp8_equalize img)) = x00.
Proof.
  destruct (bmp8_histogram_spec img Hvalid) as (Hl & Hc & Ht).
  pose proof Hvalid as [Hd _ _ _ _ Hs].
  unfold pixels_fill_buffer in Hfill.
  assert (Hh : is_histogram (bmp8_computeHistogram img)).
  { split; [exact Hl|]. apply (Forall_of_get _ 0). intros v Hv.
    rewrite Hl in Hv. rewrite Hc by lia.
    pose proof (count_byte_bounds v (data8 img)). lia. }
  set (a := get x00 i (data8 img)) in *.
  pose proof (byte_val_range a) as Ha.
  destruct (cdfmin_of_darkest (bmp8_computeHistogram img) (byte_val a) Hh Ha)
    as [Emin Eps].
  { intros v Hv. rewrite Hc by lia. apply count_byte_none.
    intros c Hin. destruct (In_get x00 c _ Hin) as (k & Hk & <-).
    specialize (Hdarkest k ltac:(lia)). lia. }
  { rewrite Hc by lia. apply (count_byte_some _ _ a); [|reflexivity].
    apply get_In. lia. }
  rewrite Hc in Emin, Eps by lia.
  assert (Hlt : count_byte (byte_val a) (data8 img) < dataSize img).
  { rewrite <- Hd. apply (count_byte_not_all _ _ (get x00 j (data8 img))).
    - apply get_In. lia.
    - intro E. apply Hother. now apply byte_val_inj. }
  destruct (equalisation_table_cases (bmp8_computeHistogram img)
              (dataSize img) Hh ltac:(lia) ltac:(lia))
    as (lut & Elut & Hlen & [[Hge _]|[_ Hgen]]); [lia|].
  rewrite <- Hfill in Elut at 1.
  rewrite (bmp8_equalize_data img lut Elut).
  unfold map_bytes8. cbn [data8 with_data8].
  rewrite (get_map_prefix x00) by lia. fold a.
  rewrite Hgen by lia. rewrite Eps, Emin, Z.sub_diag.
  change (Z.max 0 0) with 0.
  unfold lut_entry. cbv zeta.
  unfold F64.mul, F64.of_Z. rewrite entry_zero. reflexivity.
Qed.

Lemma equalize_darkest_to_black_witness :
  get x00 0 (data8 (bmp8_equalize Sample.img8)) = x00.
Proof.
  apply (equalize_darkest_to_black Sample.img8 0 3 sample_img8_valid
           sample_pixels_fill_buffer).
  - cbn. lia.
  - cbn. lia.
  - intros k Hk. cbn in Hk.
    assert (Hc : k = 0 \/ k = 1 \/ k = 2 \/ k = 3) by lia.
    destruct Hc as [->|[->|[->| ->]]]; vm_compute; discriminate.
  - vm_compute. discriminate.
Defined.

(** ** Convolution filters on 24-bit images *)

(** Two pixel grids of the same dimensions with the same pixels are equal. *)
Lemma grid_ext (h w : Z) (d1 d2 : list (list t_pixel)) :
  Z.of_nat (length d1) = h -> Z.of_nat (length d2) = h ->
  Forall (fun row => Z.of_nat (length row) = w) d1 ->
  Forall (fun row => Z.of_nat (length row) = w) d2 ->
  (forall x y, 0 <= x < w -> 0 <= y < h -> get_px y x d1 = get_px y x d2) ->
  d1 = d2.
Proof.
  intros H1 H2 F1 F2 Hpx.
  apply (nth_ext _ _ [] []); [lia|]. intros y Hy.
  assert (L1 : Z.of_nat (length (nth y d1 [])) = w).
  { rewrite Forall_forall in F1. apply F1, nth_In. lia. }
  assert (L2 : Z.of_nat (length (nth y d2 [])) = w).
  { rewrite Forall_forall in F2. apply F2, nth_In. lia. }
  apply (nth_ext _ _ black black); [lia|]. intros x Hx.
  specialize (Hpx (Z.of_nat x) (Z.of_nat y) ltac:(lia) ltac:(lia)).
  unfold get_px in Hpx. rewrite !get_nth, !Nat2Z.id in Hpx by lia.
  exact Hpx.
Qed.

Lemma shape_cols (w : Z) (d1 d2 : list (list t_pixel)) :
  map (@length t_pixel) d1 = map (@length t_pixel) d2 ->
  Forall (fun row => Z.of_nat (length row) = w) d2 ->
  length d1 = length d2
  /\ Forall (fun row => Z.of_nat (length row) = w) d1.
Proof.
  intros Hs Hc. split.
  - rewrite <- (length_map (@length t_pixel) d1), Hs. apply length_map.
  - apply (proj1 (Forall_map (@length t_pixel) (fun n => Z.of_nat n = w) d1)).
    rewrite Hs. apply Forall_map. exact Hc.
Qed.

(** Every pixel of the filtered image is the convolution, over the nine
    kernel offsets, of the image as it was before. *)
Lemma applyFilter3_pixels (img : t_bmp24) (kernel : kernel_t) :
  valid24 img ->
  forall x y, 0 <= x < width img -> 0 <= y < height img ->
    get_px y x (data (bmp24_applyFilter img kernel 3))
    = convolve_offsets img x y kernel 1 (data img) (kernel_offsets 1).
Proof.
  intros [Hw Hh Hrows Hcols] x y Hx Hy.
  rewrite <- convolution_3x3_offsets.
  unfold bmp24_applyFilter.
  change ((3 <=? 0) || (Z.rem 3 2 =? 0)) with false. cbv iota.
  cbn [data with_data].
  apply (pixel_loops_value (height img) (width img)
           (fun y x => bmp24_convolution img x y kernel 3 (data img)));
    assumption.
Qed.

(** A 3x3 filter that reproduces every pixel leaves the image as it is. *)
Lemma applyFilter3_fixed (img : t_bmp24) (kernel : kernel_t) :
  valid24 img ->
  (forall x y, 0 <= x < width img -> 0 <= y < height img ->
     convolve_offsets img x y kernel 1 (data img) (kernel_offsets 1)
     = get_px y x (data img)) ->
  bmp24_applyFilter img kernel 3 = img.
Proof.
  intros Hvalid Hfix.
  assert (E : data (bmp24_applyFilter img kernel 3) = data img).
  { pose proof (frame24 (ApplyFilter kernel 3) img) as Hf.
    cbn [apply_operation same_frame] in Hf.
    destruct Hf as (_ & _ & _ & _ & _ & Hshape).
    pose proof Hvalid as [Hw Hh Hrows Hcols].
    destruct (shape_cols (width img) _ _ Hshape Hcols) as [Hl Hc].
    apply (grid_ext (height img) (width img)); try assumption; [lia|].
    intros x y Hx Hy. rewrite applyFilter3_pixels by assumption.
    now apply Hfix. }
  unfold bmp24_applyFilter in *.
  change ((3 <=? 0) || (Z.rem 3 2 =? 0)) with false in *. cbv iota in *.
  cbn [data with_data] in E. rewrite E. apply with_data_same.
Qed.

Lemma clamp_coord_range (n limit : Z) :
  0 < limit -> 0 <= clamp_coord n limit < limit.
Proof. unfold clamp_coord. lia. Qed.

Lemma fold_left_ext_in {A B} (f g : A -> B -> A) (l : list B) (a : A) :
  (forall x o, In o l -> f x o = g x o) -> fold_left f l a = fold_left g l a.
Proof.
  revert a; induction l as [|o l IH]; intros a H; [reflexivity|].
  cbn [fold_left]. rewrite (H a o) by now left.
  apply IH. intros x o' Ho'. apply H. now right.
Qed.

Lemma fold_left_triple {A B} (fr fg fb : A -> B -> A) (l : list B) :
  forall r g b,
    fold_left (fun '(sr, sg, sb) o => (fr sr o, fg sg o, fb sb o)) l (r, g, b)
    = (fold_left fr l r, fold_left fg l g, fold_left fb l b).
Proof.
  induction l as [|o l IH]; intros r g b; [reflexivity|].
  cbn [fold_left]. apply IH.
Qed.

(** The convolution at a pixel whose nine samples are all [p]. *)
Lemma convolve_uniform (img : t_bmp24) (kernel : kernel_t) (p : t_pixel)
    (x y : Z) :
  valid24 img -> uniform24 img p ->
  convolve_offsets img x y kernel 1 (data img) (kernel_offsets 1)
  = on_channels (uniform_response kernel) p.
Proof.
  intros [Hw Hh _ _] Hu. unfold convolve_offsets.
  rewrite (fold_left_ext_in _
             (fun '(sr, sg, sb) o =>
                ((fun s o => F32.add s (F32.mul (F32.of_Z (byte_val (red p)))
                               (kernel_at kernel (fst o + 1) (snd o + 1)))) sr o,
                 (fun s o => F32.add s (F32.mul (F32.of_Z (byte_val (green p)))
                               (kernel_at kernel (fst o + 1) (snd o + 1)))) sg o,
                 (fun s o => F32.add s (F32.mul (F32.of_Z (byte_val (blue p)))
                               (kernel_at kernel (fst o + 1) (snd o + 1)))) sb o))).
  - unfold F32.zero at 1 2 3. rewrite fold_left_triple.
    unfold on_channels, uniform_response, channel_of_sum.
    cbv beta iota zeta. cbn [blue green red]. reflexivity.
  - intros [[sr sg] sb] o _. cbv zeta.
    rewrite clamped_neighbor_spec by lia.
    rewrite Hu by (apply clamp_coord_range; lia). reflexivity.
Qed.

(** X19: on a 24-bit image of a single colour, box blur, Gaussian blur,
    sharpen and emboss change nothing, and outline turns every pixel black:
    the weights of the first four kernels add up to one, those of the
    outline kernel to zero, and the clamped edges supply the same colour. *)
Theorem filters_on_uniform_image (img : t_bmp24) (p : t_pixel)
    (Hvalid : valid24 img) (Huniform : uniform24 img p) :
  bmp24_boxBlur img = img
  /\ bmp24_gaussianBlur img = img
  /\ bmp24_sharpen img = img
  /\ bmp24_emboss img = img
  /\ uniform24 (bmp24_outline img) black.
Proof.
  assert (Hfix : forall kernel,
            (forall b, uniform_response kernel b = b) ->
            bmp24_applyFilter img kernel 3 = img).
  { intros kernel Hk. apply applyFilter3_fixed; [exact Hvalid|].
    intros x y Hx Hy. rewrite (convolve_uniform img kernel p) by assumption.
    rewrite Huniform by assumption. unfold on_channels.
    rewrite !Hk. apply pixel_eta. }
  assert (Hb : forall kernel c,
            forallb (fun b => Byte.eqb (uniform_response kernel b) (c b))
                    all_bytes = true ->
            forall b, uniform_response kernel b = c b).
  { intros kernel c H b. apply Byte.byte_dec_bl.
    exact (for_all_bytes _ H b). }
  split; [|split; [|split; [|split]]].
  - apply Hfix, (Hb _ (fun b => b)). vm_compute. reflexivity.
  - apply Hfix, (Hb _ (fun b => b)). vm_compute. reflexivity.
  - apply Hfix, (Hb _ (fun b => b)). vm_compute. reflexivity.
  - apply Hfix, (Hb _ (fun b => b)). vm_compute. reflexivity.
  - intros x y Hx Hy. unfold bmp24_outline in *.
    change (width (bmp24_applyFilter img _ 3)) with (width img) in Hx.
    change (height (bmp24_applyFilter img _ 3)) with (height img) in Hy.
    rewrite applyFilter3_pixels by assumption.
    rewrite (convolve_uniform img _ p) by assumption.
    unfold on_channels, black.
    rewrite !(Hb _ (fun _ => x00)) by (vm_compute; reflexivity).
    reflexivity.
Qed.

Lemma sample_uniform24 :
  let img := mk_bmp24 (header Sample.img24) (header_info Sample.img24) 3 2 24
               [[Sample.px 7; Sample.px 7; Sample.px 7];
                [Sample.px 7; Sample.px 7; Sample.px 7]] in
  valid24 img /\ uniform24 img (Sample.px 7).
Proof.
  split.
  - constructor; cbn; try (unfold CInt.INT_MAX; lia).
    repeat constructor.
  - intros x y Hx Hy. cbn in Hx, Hy.
    assert (Cx : x = 0 \/ x = 1 \/ x = 2) by lia.
    assert (Cy : y = 0 \/ y = 1) by lia.
    destruct Cx as [->|[->| ->]], Cy as [->| ->]; reflexivity.
Defined.

Lemma filters_on_uniform_image_witness :
  let img := mk_bmp24 (header Sample.img24) (header_info Sample.img24) 3 2 24
               [[Sample.px 7; Sample.px 7; Sample.px 7];
                [Sample.px 7; Sample.px 7; Sample.px 7]] in
  bmp24_boxBlur img = img
  /\ bmp24_gaussianBlur img = img
  /\ bmp24_sharpen img = img
  /\ bmp24_emboss img = img
  /\ uniform24 (bmp24_outline img) black.
Proof.
  exact (filters_on_uniform_image _ (Sample.px 7)
           (proj1 sample_uniform24) (proj2 sample_uniform24)).
Defined.

(** Arithmetic of [float] on byte values, checked on the 256 bytes. *)
Lemma byte_times_zero (b : byte) :
  F32.mul (F32.of_Z (byte_val b)) (f32 0) = F32.zero.
Proof. destruct b; vm_compute; reflexivity. Qed.

Lemma byte_times_one (b : byte) :
  F32.mul (F32.of_Z (byte_val b)) (f32 1) = F32.of_Z (byte_val b).
Proof. destruct b; vm_compute; reflexivity. Qed.

Lemma zero_plus_byte (b : byte) :
  F32.add F32.zero (F32.of_Z (byte_val b)) = F32.of_Z (byte_val b).
Proof. destruct b; vm_compute; reflexivity. Qed.

Lemma byte_plus_zero (b : byte) :
  F32.add (F32.of_Z (byte_val b)) F32.zero = F32.of_Z (byte_val b).
Proof. destruct b; vm_compute; reflexivity. Qed.

Lemma channel_of_byte (b : byte) : channel_of_sum (F32.of_Z (byte_val b)) = b.
Proof. destruct b; vm_compute; reflexivity. Qed.

(** Nine samples weighted by the identity kernel add up to the centre one. *)
Lemma identity_sum (v1 v2 v3 v4 v5 v6 v7 v8 v9 : byte) :
  fold_left
    (fun s vk => F32.add s (F32.mul (F32.of_Z (byte_val (fst vk))) (snd vk)))
    [(v1, f32 0); (v2, f32 0); (v3, f32 0);
     (v4, f32 0); (v5, f32 1); (v6, f32 0);
     (v7, f32 0); (v8, f32 0); (v9, f32 0)] F32.zero
  = F32.of_Z (byte_val v5).
Proof.
  cbn [fold_left fst snd].
  rewrite !byte_times_zero, byte_times_one.
  change (F32.add F32.zero F32.zero) with F32.zero.
  rewrite zero_plus_byte. now rewrite !byte_plus_zero.
Qed.

(** ** Convolution filters on 8-bit images *)

(** The loop nest of [bmp8_applyFilter]: every interior cell of the flat
    buffer receives its value, every other cell keeps its own. *)
Lemma flat_loops (w h : Z) (p : Z -> Z -> byte) (d0 : list byte) :
  0 <= w -> 0 <= h -> w * h <= Z.of_nat (length d0) ->
  let r := for_range 1 (h - 1)
             (fun y d => for_range 1 (w - 1)
                           (fun x d => upd (y * w + x) (p y x) d) d) d0 in
  length r = length d0
  /\ (forall x y, interior w h x y -> get x00 (y * w + x) r = p y x)
  /\ (forall i, (forall x y, interior w h x y -> i <> y * w + x) ->
                get x00 i r = get x00 i d0).
Proof.
  intros Hw Hh Hsize r.
  split; [|split].
  - unfold r. apply for_range_length. intros y a.
    apply for_range_length. intros; apply upd_length.
  - intros x y [Hx Hy].
    assert (Hidx : forall x' y', 1 <= x' <= w - 2 -> 1 <= y' <= h - 2 ->
                     0 <= y' * w + x' < Z.of_nat (length d0)) by (intros; nia).
    unfold r, for_range.
    assert (Houter :
      forall (n : nat) (y0 : Z) (d : list byte),
        length d = length d0 -> 1 <= y0 -> y0 + Z.of_nat n <= h - 1 ->
        (y < y0 -> get x00 (y * w + x) d = p y x) ->
        (y < y0 + Z.of_nat n ->
         get x00 (y * w + x)
           (iterate n y0
              (fun y d => iterate (Z.to_nat (w - 1 - 1)) 1
                            (fun x d => upd (y * w + x) (p y x) d) d) d)
         = p y x)).
    { induction n as [|n IH]; intros y0 d Hl Hy0 Hn Hdone Hlt.
      - cbn [iterate]. apply Hdone. lia.
      - cbn [iterate]. apply IH; try lia.
        + apply (iterate_inv (fun a => length a = length d0)); [exact Hl|].
          intros j a _ Ha. now rewrite upd_length.
        + intro Hy1.
          assert (Hinner :
            forall (m : nat) (x0 : Z) (a : list byte),
              length a = length d0 -> 1 <= x0 -> x0 + Z.of_nat m <= w - 1 ->
              (y < y0 \/ (y = y0 /\ x < x0) -> get x00 (y * w + x) a = p y x) ->
              (y < y0 \/ (y = y0 /\ x < x0 + Z.of_nat m) ->
               get x00 (y * w + x)
                 (iterate m x0 (fun x d => upd (y0 * w + x) (p y0 x) d) a)
               = p y x)).
          { induction m as [|m IHm]; intros x0 a Ha Hx0 Hm Hd Hl'.
            - cbn [iterate]. apply Hd. lia.
            - cbn [iterate]. apply IHm; try lia.
              + now rewrite upd_length.
              + intros Hc.
                destruct (Z.eq_dec (y0 * w + x0) (y * w + x)) as [E|Hne].
                * apply index_injective in E; [|lia|lia].
                  destruct E as [-> ->].
                  apply get_upd_same. rewrite Ha. apply Hidx; lia.
                * rewrite get_upd_other by exact Hne. apply Hd.
                  destruct Hc as [Hc|[-> Hc]]; [now left|].
                  right. split; [reflexivity|].
                  destruct (Z.eq_dec x x0) as [->|]; [contradiction | lia]. }
          apply Hinner; try lia.
          intros [Hc|[_ Hc]]; [now apply Hdone | lia]. }
    apply (Houter (Z.to_nat (h - 1 - 1)) 1 d0); try lia; reflexivity.
  - intros i Hi. unfold r.
    apply (for_range_inv (fun d => get x00 i d = get x00 i d0));
      [reflexivity|].
    intros y d Hy Hd.
    apply (for_range_inv (fun d => get x00 i d = get x00 i d0)); [exact Hd|].
    intros x d' Hx Hd'. rewrite get_upd_other; [exact Hd'|].
    intro E. apply (Hi x y); [split; lia | now symmetry].
Qed.

(** A loop nest that stores into every interior cell the value the cell
    already has leaves the buffer as it is. *)
Lemma flat_loops_fixed (w h : Z) (p : Z -> Z -> byte) (d0 : list byte) :
  0 < w -> 0 <= h -> w * h <= Z.of_nat (length d0) ->
  (forall x y, interior w h x y -> p y x = get x00 (y * w + x) d0) ->
  for_range 1 (h - 1)
    (fun y d => for_range 1 (w - 1)
                  (fun x d => upd (y * w + x) (p y x) d) d) d0
  = d0.
Proof.
  intros Hw Hh Hsize Hfix.
  destruct (flat_loops w h p d0) as (Hlen & Hin & Hout); try lia.
  cbv zeta in Hlen, Hin, Hout.
  apply (nth_ext _ _ x00 x00); [exact Hlen|].
  intros n Hn. rewrite Hlen in Hn.
  rewrite <- (Nat2Z.id n), <- !get_nth by lia.
  set (idx := Z.of_nat n).
  assert (Hdm : idx = idx / w * w + idx mod w)
    by (rewrite (Z.div_mod idx w) at 1 by lia; lia).
  pose proof (Z.mod_pos_bound idx w Hw) as Hm.
  destruct (Z_le_dec 1 (idx mod w)) as [H1|H1];
    [destruct (Z_le_dec (idx mod w) (w - 2)) as [H2|H2];
     [destruct (Z_le_dec 1 (idx / w)) as [H3|H3];
      [destruct (Z_le_dec (idx / w) (h - 2)) as [H4|H4]|]|]|].
  - rewrite Hdm at 1. rewrite Hin by (split; lia).
    rewrite Hfix by (split; lia). now rewrite <- Hdm.
  - apply Hout. intros x y [Hx Hy] E.
    assert (y = idx / w) by (apply (Z.div_unique idx w y x); lia). lia.
  - apply Hout. intros x y [Hx Hy] E.
    assert (y = idx / w) by (apply (Z.div_unique idx w y x); lia). lia.
  - apply Hout. intros x y [Hx Hy] E.
    assert (x = idx mod w) by (apply (Z.mod_unique idx w y x); lia). lia.
  - apply Hout. intros x y [Hx Hy] E.
    assert (x = idx mod w) by (apply (Z.mod_unique idx w y x); lia). lia.
Qed.

Lemma for_range_ext {St} (lo hi : Z) (f g : Z -> St -> St) (s : St) :
  (forall j x, lo <= j < hi -> f j x = g j x) ->
  for_range lo hi f s = for_range lo hi g s.
Proof.
  intro H. unfold for_range. apply iterate_ext. intros j x Hj. apply H. lia.
Qed.

Lemma get_firstn {A} (d : A) (i : Z) (n : nat) (l : list A) :
  i < Z.of_nat n -> get d i (firstn n l) = get d i l.
Proof.
  intro H. unfold get. destruct (Z.ltb_spec i 0); [reflexivity|].
  destruct (Nat.lt_ge_cases (Z.to_nat i) (length l)) as [Hl|Hl].
  - apply nth_firstn. lia.
  - rewrite !nth_overflow; [reflexivity | lia |].
    rewrite length_firstn. lia.
Qed.

(** The two kernel loops visit the offsets in the order of
    [kernel_offsets]. *)
Lemma kernel_loops_fold {St} (g : Z -> Z -> St -> St) (a : St) :
  for_range (- Z.quot 3 2) (Z.quot 3 2 + 1)
    (fun ky s => for_range (- Z.quot 3 2) (Z.quot 3 2 + 1)
                   (fun kx s => g ky kx s) s) a
  = fold_left (fun s o => g (fst o) (snd o) s) (kernel_offsets 1) a.
Proof. reflexivity. Qed.

(** The byte [bmp8_applyFilter] stores is [channel_of_sum] of the sum. *)
Lemma clamp_int_channel (s : spec_float) :
  (let pixelValue := FloatModel.to_int (FloatModel.trunc (F32.add s F32.half)) in
   let pixelValue := if pixelValue <? 0 then 0 else pixelValue in
   let pixelValue := if pixelValue >? 255 then 255 else pixelValue in
   byte_of pixelValue)
  = channel_of_sum s.
Proof.
  cbv zeta. unfold channel_of_sum, clamp_u8, CInt.u8.
  set (v := FloatModel.to_int _).
  destruct (Z.ltb_spec v 0).
  - reflexivity.
  - destruct (Z.gtb_spec v 255); [reflexivity|]. now rewrite byte_of_mod.
Qed.

(** The loop nest of [bmp8_applyFilter] with a 3x3 kernel stores [conv8] of
    the image as it was before into every interior pixel. *)
Lemma bmp8_applyFilter3_loops (img : t_bmp8) (kernel : kernel_t) :
  valid8 img -> width8 img * height8 img <= dataSize img ->
  0 < width8 img -> 0 < height8 img ->
  data8 (bmp8_applyFilter img kernel 3)
  = for_range 1 (height8 img - 1)
      (fun y d => for_range 1 (width8 img - 1)
                    (fun x d => upd (y * width8 img + x)
                                    (conv8 img kernel x y) d) d)
      (data8 img).
Proof.
  intros [Hd _ _ Hw Hh Hds] Hsize Hwpos Hhpos.
  unfold bmp8_applyFilter.
  change ((3 <=? 0) || (Z.rem 3 2 =? 0)) with false. cbv iota.
  cbn [data8 with_data8]. cbv zeta.
  rewrite (u32_small (Z.quot 3 2)) by (change (Z.quot 3 2) with 1; lia).
  change (CInt.u32 (height8 img - Z.quot 3 2))
    with (CInt.u32 (height8 img - 1)).
  change (CInt.u32 (width8 img - Z.quot 3 2))
    with (CInt.u32 (width8 img - 1)).
  rewrite (u32_small (height8 img - 1)), (u32_small (width8 img - 1)) by lia.
  change (Z.quot 3 2) with 1 at 1 2.
  set (w := width8 img) in *. set (h := height8 img) in *.
  apply for_range_ext. intros y d Hy.
  apply for_range_ext. intros x d' Hx.
  assert (Hidx : 0 <= y * w + x < w * h) by nia.
  rewrite (u32_small (y * w)) by nia.
  rewrite (u32_small (y * w + x)) by lia.
  f_equal.
  rewrite (clamp_int_channel
             (for_range (- Z.quot 3 2) (Z.quot 3 2 + 1) _ F32.zero)).
  unfold conv8. f_equal.
  rewrite <- (kernel_loops_fold
                (fun ky kx s =>
                   F32.add s (F32.mul (F32.of_Z (byte_val (pixel8 img (x + kx)
                                                            (y + ky))))
                                      (kernel_at kernel (ky + 1) (kx + 1))))).
  apply for_range_ext. intros ky s Hky.
  apply for_range_ext. intros kx s' Hkx.
  change (Z.quot 3 2) with 1 in *.
  do 3 f_equal. unfold pixel8. fold w.
  assert (Hn : 0 <= (y + ky) * w + (x + kx) < w * h) by nia.
  rewrite (u32_small (y + ky)) by lia.
  rewrite (u32_small (x + kx)) by lia.
  rewrite (u32_small ((y + ky) * w)) by nia.
  rewrite u32_small by lia.
  rewrite get_firstn by lia. reflexivity.
Qed.

(** A 3x3 filter that reproduces every interior pixel leaves an 8-bit
    image as it is. *)
Lemma bmp8_applyFilter3_fixed (img : t_bmp8) (kernel : kernel_t) :
  valid8 img -> width8 img * height8 img <= dataSize img ->
  0 < width8 img -> 0 < height8 img ->
  (forall x y, interior (width8 img) (height8 img) x y ->
     conv8 img kernel x y = pixel8 img x y) ->
  bmp8_applyFilter img kernel 3 = img.
Proof.
  intros Hvalid Hgrid Hwpos Hhpos Hfix.
  assert (E : data8 (bmp8_applyFilter img kernel 3) = data8 img).
  { rewrite bmp8_applyFilter3_loops by assumption.
    destruct Hvalid as [Hd _ _ Hw Hh Hds].
    apply flat_loops_fixed; try lia. exact Hfix. }
  unfold bmp8_applyFilter in *.
  change ((3 <=? 0) || (Z.rem 3 2 =? 0)) with false in *. cbv iota in *.
  cbn [data8 with_data8] in E. cbv zeta. rewrite E. apply with_data8_same.
Qed.

(** X20: with a 3x3 kernel [bmp8_applyFilter] recomputes every interior
    pixel of an 8-bit image from the nine pixels around it as they were
    before the filter ran, never from values the filter has already
    stored: the result is the rounded, clamped weighted sum [conv8]. *)
Theorem bmp8_filter_reads_snapshot (img : t_bmp8) (kernel : kernel_t)
    (x y : Z) (Hvalid : valid8 img)
    (Hgrid : width8 img * height8 img <= dataSize img)
    (Hinterior : interior (width8 img) (height8 img) x y) :
  pixel8 (bmp8_applyFilter img kernel 3) x y = conv8 img kernel x y.
Proof.
  pose proof Hvalid as [Hd _ _ Hw Hh Hds].
  destruct Hinterior as [Hx Hy].
  unfold pixel8.
  rewrite bmp8_applyFilter3_loops by (assumption || lia).
  change (width8 (bmp8_applyFilter img kernel 3)) with (width8 img).
  destruct (flat_loops (width8 img) (height8 img)
              (fun y x => conv8 img kernel x y) (data8 img))
    as (_ & Hin & _); try lia.
  cbv zeta in Hin. apply Hin. split; assumption.
Qed.

Lemma sample_img8_3x3 :
  let img := mk_bmp8 Sample.header_2x2 Sample.palette
               [x01; x02; x03; x04; x05; x06; x07; x08; x09] 3 3 8 9 in
  valid8 img /\ width8 img * height8 img <= dataSize img
  /\ interior (width8 img) (height8 img) 1 1.
Proof.
  split; [|split].
  - constructor; cbn; try reflexivity; lia.
  - cbn. lia.
  - unfold interior. cbn. lia.
Defined.

Lemma bmp8_filter_reads_snapshot_witness :
  let img := mk_bmp8 Sample.header_2x2 Sample.palette
               [x01; x02; x03; x04; x05; x06; x07; x08; x09] 3 3 8 9 in
  pixel8 (bmp8_applyFilter img SampleKernel.sharpen 3) 1 1
  = conv8 img SampleKernel.sharpen 1 1.
Proof.
  exact (bmp8_filter_reads_snapshot _ SampleKernel.sharpen 1 1
           (proj1 sample_img8_3x3) (proj1 (proj2 sample_img8_3x3))
           (proj2 (proj2 sample_img8_3x3))).
Defined.

(** ** The identity kernel *)

(** Nine samples weighted by the identity kernel, in the order of the
    kernel loops. *)
Lemma identity_fold (v : Z * Z -> byte) :
  fold_left
    (fun s o => F32.add s (F32.mul (F32.of_Z (byte_val (v o)))
                                   (kernel_at identity_kernel (fst o + 1)
                                                              (snd o + 1))))
    (kernel_offsets 1) F32.zero
  = F32.of_Z (byte_val (v (0, 0))).
Proof.
  change (kernel_offsets 1)
    with [(-1, -1); (-1, 0); (-1, 1); (0, -1); (0, 0); (0, 1);
          (1, -1); (1, 0); (1, 1)].
  cbn [fold_left fst snd].
  change (kernel_at identity_kernel (-1 + 1) (-1 + 1)) with (f32 0).
  change (kernel_at identity_kernel (-1 + 1) (0 + 1)) with (f32 0).
  change (kernel_at identity_kernel (-1 + 1) (1 + 1)) with (f32 0).
  change (kernel_at identity_kernel (0 + 1) (-1 + 1)) with (f32 0).
  change (kernel_at identity_kernel (0 + 1) (0 + 1)) with (f32 1).
  change (kernel_at identity_kernel (0 + 1) (1 + 1)) with (f32 0).
  change (kernel_at identity_kernel (1 + 1) (-1 + 1)) with (f32 0).
  change (kernel_at identity_kernel (1 + 1) (0 + 1)) with (f32 0).
  change (kernel_at identity_kernel (1 + 1) (1 + 1)) with (f32 0).
  rewrite !byte_times_zero, byte_times_one.
  change (F32.add F32.zero F32.zero) with F32.zero.
  rewrite zero_plus_byte. now rewrite !byte_plus_zero.
Qed.

(** The three channel sums of a 24-bit convolution, each on its own. *)
Lemma convolve_channels (img : t_bmp24) (x y : Z) (kernel : kernel_t)
    (d : list (list t_pixel)) (offsets : list (Z * Z)) :
  let neighbor o :=
    get_px (fst (clamped_neighbor img x y (fst o) (snd o)))
           (snd (clamped_neighbor img x y (fst o) (snd o))) d in
  let sum ch :=
    fold_left
      (fun s o => F32.add s (F32.mul (F32.of_Z (byte_val (ch (neighbor o))))
                                     (kernel_at kernel (fst o + 1) (snd o + 1))))
      offsets F32.zero in
  convolve_offsets img x y kernel 1 d offsets
  = mk_pixel (channel_of_sum (sum blue)) (channel_of_sum (sum green))
             (channel_of_sum (sum red)).
Proof.
  intros neighbor sum. unfold convolve_offsets.
  rewrite (fold_left_ext_in _
             (fun '(sr, sg, sb) o =>
                ((fun s o => F32.add s (F32.mul (F32.of_Z (byte_val (red (neighbor o))))
                               (kernel_at kernel (fst o + 1) (snd o + 1)))) sr o,
                 (fun s o => F32.add s (F32.mul (F32.of_Z (byte_val (green (neighbor o))))
                               (kernel_at kernel (fst o + 1) (snd o + 1)))) sg o,
                 (fun s o => F32.add s (F32.mul (F32.of_Z (byte_val (blue (neighbor o))))
                               (kernel_at kernel (fst o + 1) (snd o + 1)))) sb o))).
  - unfold F32.zero at 1 2 3. rewrite fold_left_triple.
    unfold sum, channel_of_sum. cbv beta iota zeta. reflexivity.
  - intros [[sr sg] sb] o _. cbv zeta. unfold neighbor.
    destruct (clamped_neighbor img x y (fst o) (snd o)) as [cny cnx].
    reflexivity.
Qed.

Lemma convolve_identity (img : t_bmp24) (x y : Z) :
  valid24 img -> 0 <= x < width img -> 0 <= y < height img ->
  convolve_offsets img x y identity_kernel 1 (data img) (kernel_offsets 1)
  = get_px y x (data img).
Proof.
  intros [Hw Hh _ _] Hx Hy.
  rewrite convolve_channels. cbv zeta.
  rewrite (identity_fold (fun o => blue (get_px _ _ (data img)))).
  rewrite (identity_fold (fun o => green (get_px _ _ (data img)))).
  rewrite (identity_fold (fun o => red (get_px _ _ (data img)))).
  cbn [fst snd]. rewrite !channel_of_byte.
  rewrite clamped_neighbor_spec by lia. cbn [fst snd].
  unfold clamp_coord.
  replace (Z.max 0 (Z.min (height img - 1) (y + 0))) with y by lia.
  replace (Z.max 0 (Z.min (width img - 1) (x + 0))) with x by lia.
  apply pixel_eta.
Qed.

Lemma conv8_identity (img : t_bmp8) (x y : Z) :
  conv8 img identity_kernel x y = pixel8 img x y.
Proof.
  unfold conv8.
  rewrite (identity_fold (fun o => pixel8 img (x + snd o) (y + fst o))).
  cbn [fst snd]. rewrite channel_of_byte. now rewrite !Z.add_0_r.
Qed.

(** X21: filtering with the identity kernel (weight one at the centre,
    zero elsewhere) returns the image unchanged, for 8-bit and 24-bit images
    alike. *)
Theorem identity_kernel_unchanged (img : image)
    (Hvalid : valid_image img) (Hgrid : grid_in_buffer img)
    (Hnonempty : nonempty_grid img) :
  apply_operation (ApplyFilter identity_kernel 3) img = img.
Proof.
  destruct img as [i|i];
    cbn [apply_operation valid_image grid_in_buffer nonempty_grid] in *.
  - f_equal. destruct Hnonempty as [Hwpos Hhpos].
    apply bmp8_applyFilter3_fixed; try assumption.
    intros x y _. apply conv8_identity.
  - f_equal. apply applyFilter3_fixed; [exact Hvalid|].
    intros x y Hx Hy. now apply convolve_identity.
Qed.

Lemma identity_kernel_unchanged_witness :
  apply_operation (ApplyFilter identity_kernel 3) (Image8 Sample.img8)
  = Image8 Sample.img8
  /\ apply_operation (ApplyFilter identity_kernel 3) (Image24 Sample.img24)
     = Image24 Sample.img24.
Proof.
  split.
  - apply (identity_kernel_unchanged (Image8 Sample.img8) sample_img8_valid).
    + cbn. lia.
    + cbn. lia.
  - apply (identity_kernel_unchanged (Image24 Sample.img24) sample_img24_valid).
    + exact I.
    + exact I.
Defined.

(** ** Sessions at the filter menu ([menu_apply_filter]) *)

(** Every entry of the filter menu is one of the operations. *)
Lemma menu_is_operation (choice input : Z) (img : image) :
  menu_apply_filter choice input img = img
  \/ exists op, menu_apply_filter choice input img = apply_operation op img.
Proof.
  unfold menu_apply_filter.
  destruct choice as [|c|c]; [now left| |now left].
  do 5 (try match goal with p : positive |- _ => destruct p end;
        try now left);
    right; destruct img as [i|i];
    first [ now exists Negative
          | now exists (Brightness input)
          | now exists (Threshold input)
          | now exists Grayscale
          | now exists Equalize
          | eexists (ApplyFilter _ 3); reflexivity ].
Qed.

Lemma same_frame_trans (a b c : image) :
  same_frame a b -> same_frame b c -> same_frame a c.
Proof.
  destruct a as [x|x], b as [y|y], c as [z|z]; cbn [same_frame];
    try contradiction.
  - intros (? & ? & ? & ? & ? & ? & ?) (? & ? & ? & ? & ? & ? & ?).
    repeat split; congruence.
  - intros (? & ? & ? & ? & ? & ?) (? & ? & ? & ? & ? & ?).
    repeat split; congruence.
Qed.

Lemma same_frame_valid (a b : image) :
  same_frame a b -> valid_image b -> valid_image a.
Proof.
  destruct a as [x|x], b as [y|y]; cbn [same_frame valid_image];
    try contradiction.
  - intros (Eh & Et & Ew & Ehe & _ & Es & El) [Hd Hh Ht Hw Hhe Hs].
    constructor; congruence.
  - intros (_ & _ & Ew & Eh & _ & Eshape) [Hw Hh Hrows Hcols].
    destruct (shape_cols (width y) _ _ Eshape Hcols) as [Hl Hc].
    constructor; try congruence. now rewrite Ew.
Qed.

Lemma same_frame_saveable (a b : image) :
  same_frame a b -> saveable b -> saveable a.
Proof.
  destruct a as [x|x], b as [y|y]; cbn [same_frame saveable];
    try contradiction.
  - intros (Eh & _ & Ew & Ehe & Ed & Es & _) [HB HM Hfw Hfh Hfd Hfo Hfs].
    constructor; rewrite ?Eh, ?Ew, ?Ehe, ?Ed, ?Es; assumption.
  - intros (_ & _ & Ew & _). now rewrite Ew.
Qed.

Lemma menu_frame (choice input : Z) (img : image) :
  same_frame (menu_apply_filter choice input img) img.
Proof.
  destruct (menu_is_operation choice input img) as [->|[op ->]].
  - apply same_frame_refl.
  - destruct img; [apply frame8 | apply frame24].
Qed.

Lemma session_frame (choices : list (Z * Z)) (img : image) :
  same_frame (menu_session choices img) img.
Proof.
  unfold menu_session. revert img.
  induction choices as [|c l IH]; intro img; cbn [fold_left].
  - apply same_frame_refl.
  - eapply same_frame_trans; [apply IH | apply menu_frame].
Qed.

(** X22: whatever entries are chosen at the filter menu, in whatever order
    and with whatever numbers typed in, a well-formed image (for an 8-bit
    image: with at least one row and one column and its pixel grid inside
    its buffer, so that the 3x3 filters stay inside the buffer) stays well
    formed and keeps its header, palette, dimensions, colour depth and
    buffer sizes. *)
Theorem session_keeps_image_well_formed (choices : list (Z * Z))
    (img : image) (Hvalid : valid_image img)
    (Hgrid : grid_in_buffer img) (Hnonempty : nonempty_grid img) :
  valid_image (menu_session choices img)
  /\ same_frame (menu_session choices img) img.
Proof.
  pose proof (session_frame choices img) as Hf.
  split; [|exact Hf].
  eapply same_frame_valid; [exact Hf | exact Hvalid].
Qed.

Lemma session_keeps_image_well_formed_witness :
  valid_image (menu_session [(2, 300); (3, 128); (6, 0); (9, 0); (42, 0)]
                                (Image8 Sample.img8))
  /\ same_frame (menu_session [(2, 300); (3, 128); (6, 0); (9, 0); (42, 0)]
                              (Image8 Sample.img8))
                (Image8 Sample.img8).
Proof.
  apply (session_keeps_image_well_formed
           [(2, 300); (3, 128); (6, 0); (9, 0); (42, 0)]
           (Image8 Sample.img8) sample_img8_valid).
  - cbn. lia.
  - cbn. lia.
Defined.

(** X23: the image reached by a session at the filter menu survives a save
    and a reload by the codec.  The file which the saver of its kind writes
    ([bmp8_saveImage], [bmp24_saveImage], each called as its prototype asks)
    opens again through the loaders in the order [menu_open_image] tries
    them: for an 8-bit image whose header block describes it (pixel data
    right behind the palette) as the very image that was saved, for a
    24-bit image as an image with the same pixels, width and height.  The
    image the session starts from is well formed; an 8-bit one has at least
    one row and one column and its pixel grid inside its buffer. *)
Theorem saved_session_reopens (junk : Indeterminate)
    (choices : list (Z * Z)) (img : image)
    (Hvalid : valid_image img)
    (Hgrid : grid_in_buffer img) (Hnonempty : nonempty_grid img)
    (Hsave : saveable img) :
  exists img',
    open_image junk (save_image (menu_session choices img)) = Some img'
    /\ same_picture img' (menu_session choices img).
Proof.
  pose proof (session_frame choices img) as Hf.
  pose proof (same_frame_valid _ _ Hf Hvalid) as Hv.
  pose proof (same_frame_saveable _ _ Hf Hsave) as Hs.
  destruct (menu_session choices img) as [i|i];
    cbn [valid_image saveable save_image] in *.
  - exists (Image8 i). split; [|reflexivity].
    pose proof (save_then_load8_helper i Hv Hs) as Hload.
    unfold open_image.
    rewrite (bmp24_refuses_loaded8 junk _ i Hload), Hload. reflexivity.
  - destruct (save_then_load24_helper junk i Hv Hs)
      as (i' & Hload & Ed & Ew & Eh & _).
    exists (Image24 i'). split; [|cbn [same_picture]; auto].
    unfold open_image. now rewrite Hload.
Qed.

Lemma saved_session_reopens_witness :
  (exists img',
     open_image Sample.junk
       (save_image (menu_session [(1, 0); (5, 0)] (Image24 Sample.img24)))
     = Some img'
     /\ same_picture img'
          (menu_session [(1, 0); (5, 0)] (Image24 Sample.img24)))
  /\ (exists img',
       open_image Sample.junk
         (save_image (menu_session [(2, 60); (6, 0)] (Image8 Sample.img8)))
       = Some img'
       /\ same_picture img'
            (menu_session [(2, 60); (6, 0)] (Image8 Sample.img8))).
Proof.
  split.
  - apply (saved_session_reopens Sample.junk [(1, 0); (5, 0)]
             (Image24 Sample.img24) sample_img24_valid I I).
    cbn. unfold CInt.INT_MAX. lia.
  - apply (saved_session_reopens Sample.junk [(2, 60); (6, 0)]
             (Image8 Sample.img8) sample_img8_valid).
    + cbn. lia.
    + cbn. lia.
    + exact sample_header_describes8.
Defined.

(** The convolution at an interior pixel of an 8-bit image of a single
    intensity. *)
Lemma conv8_uniform (img : t_bmp8) (kernel : kernel_t) (b : byte) (x y : Z) :
  valid8 img -> width8 img * height8 img <= dataSize img ->
  uniform8 img b -> interior (width8 img) (height8 img) x y ->
  conv8 img kernel x y = uniform_response kernel b.
Proof.
  intros [Hd _ _ Hw Hh Hds] Hgrid Hu [Hx Hy].
  unfold conv8, uniform_response. f_equal.
  apply fold_left_ext_in. intros s o Ho.
  assert (Hoff : -1 <= fst o <= 1 /\ -1 <= snd o <= 1).
  { change (kernel_offsets 1)
      with [(-1, -1); (-1, 0); (-1, 1); (0, -1); (0, 0); (0, 1);
            (1, -1); (1, 0); (1, 1)] in Ho.
    cbn [In] in Ho.
    repeat (destruct Ho as [<-|Ho]; [cbn [fst snd]; lia|]). contradiction. }
  unfold pixel8. rewrite Hu by nia. reflexivity.
Qed.

(** X24: on an 8-bit image of a single intensity the box blur, Gaussian
    blur, sharpen and emboss entries of the filter menu change nothing;
    the outline entry turns every interior pixel black and, since
    [bmp8_applyFilter] skips the border, leaves the border in the original
    intensity. *)
Theorem menu_filters_on_uniform8 (img : t_bmp8) (b : byte) (input : Z)
    (Hvalid : valid8 img)
    (Hgrid : width8 img * height8 img <= dataSize img)
    (Hnonempty : 0 < width8 img /\ 0 < height8 img)
    (Huniform : uniform8 img b) :
  menu_apply_filter 4 input (Image8 img) = Image8 img
  /\ menu_apply_filter 5 input (Image8 img) = Image8 img
  /\ menu_apply_filter 6 input (Image8 img) = Image8 img
  /\ menu_apply_filter 8 input (Image8 img) = Image8 img
  /\ exists out,
       menu_apply_filter 7 input (Image8 img) = Image8 out
       /\ forall x y, 0 <= x < width8 img -> 0 <= y < height8 img ->
            (interior (width8 img) (height8 img) x y -> pixel8 out x y = x00)
            /\ (on_border (width8 img) (height8 img) x y -> pixel8 out x y = b).
Proof.
  destruct Hnonempty as [Hwpos Hhpos].
  assert (Hb : forall kernel c,
            forallb (fun b => Byte.eqb (uniform_response kernel b) (c b))
                    all_bytes = true ->
            forall b, uniform_response kernel b = c b).
  { intros kernel c H c'. apply Byte.byte_dec_bl.
    exact (for_all_bytes _ H c'). }
  assert (Hfix : forall kernel,
            (forall c, uniform_response kernel c = c) ->
            bmp8_applyFilter img kernel 3 = img).
  { intros kernel Hk. apply bmp8_applyFilter3_fixed; try assumption.
    intros x y Hi. rewrite (conv8_uniform img kernel b) by assumption.
    rewrite Hk. unfold pixel8. destruct Hi as [Hx Hy].
    pose proof Hvalid as [Hd _ _ Hw Hh Hds].
    symmetry. apply Huniform. nia. }
  cbn [menu_apply_filter].
  split; [|split; [|split; [|split]]].
  - f_equal. apply Hfix, (Hb _ (fun c => c)). vm_compute. reflexivity.
  - f_equal. apply Hfix, (Hb _ (fun c => c)). vm_compute. reflexivity.
  - f_equal. apply Hfix, (Hb _ (fun c => c)). vm_compute. reflexivity.
  - f_equal. apply Hfix, (Hb _ (fun c => c)). vm_compute. reflexivity.
  - eexists. split; [reflexivity|].
    intros x y Hx Hy. split.
    + intro Hi. unfold pixel8.
      rewrite bmp8_applyFilter3_loops by assumption.
      change (width8 (bmp8_applyFilter img MenuKernel.outline 3))
        with (width8 img).
      pose proof Hvalid as [Hd _ _ Hw Hh Hds].
      destruct (flat_loops (width8 img) (height8 img)
                  (fun y x => conv8 img MenuKernel.outline x y) (data8 img))
        as (_ & Hin & _); try lia.
      cbv zeta in Hin. rewrite Hin by exact Hi.
      rewrite (conv8_uniform img _ b) by assumption.
      apply (Hb _ (fun _ => x00)). vm_compute. reflexivity.
    + intro Hbd.
      rewrite (bmp8_border_kept img MenuKernel.outline x y) by assumption.
      unfold pixel8. apply Huniform.
      pose proof Hvalid as [Hd _ _ Hw Hh Hds]. nia.
Qed.

Lemma sample_uniform8 :
  let img := mk_bmp8 Sample.header_2x2 Sample.palette
               [x14; x14; x14; x14; x14; x14; x14; x14; x14] 3 3 8 9 in
  valid8 img /\ width8 img * height8 img <= dataSize img
  /\ (0 < width8 img /\ 0 < height8 img) /\ uniform8 img x14.
Proof.
  split; [|split; [|split]].
  - constructor; cbn; try reflexivity; lia.
  - cbn. lia.
  - cbn. lia.
  - intros k Hk. cbn in Hk.
    assert (Hc : k = 0 \/ k = 1 \/ k = 2 \/ k = 3 \/ k = 4 \/ k = 5
                 \/ k = 6 \/ k = 7 \/ k = 8) by lia.
    repeat (destruct Hc as [->|Hc]; [reflexivity|]). subst. reflexivity.
Defined.

Lemma menu_filters_on_uniform8_witness :
  let img := mk_bmp8 Sample.header_2x2 Sample.palette
               [x14; x14; x14; x14; x14; x14; x14; x14; x14] 3 3 8 9 in
  menu_apply_filter 4 0 (Image8 img) = Image8 img
  /\ menu_apply_filter 5 0 (Image8 img) = Image8 img
  /\ menu_apply_filter 6 0 (Image8 img) = Image8 img
  /\ menu_apply_filter 8 0 (Image8 img) = Image8 img
  /\ exists out,
       menu_apply_filter 7 0 (Image8 img) = Image8 out
       /\ forall x y, 0 <= x < width8 img -> 0 <= y < height8 img ->
            (interior (width8 img) (height8 img) x y -> pixel8 out x y = x00)
            /\ (on_border (width8 img) (height8 img) x y
                -> pixel8 out x y = x14).
Proof.
  exact (menu_filters_on_uniform8 _ x14 0
           (proj1 sample_uniform8) (proj1 (proj2 sample_uniform8))
           (proj1 (proj2 (proj2 sample_uniform8)))
           (proj2 (proj2 (proj2 sample_uniform8)))).
Defined.

(** ** The brightest intensity goes to 255 *)

Section TightRounding.
Variables prec emax : Z.
Hypothesis prec_pos : 0 < prec.

(** Rounding a positive mantissa: the result is never zero, and lies
    between the mantissa with its excess bits cleared and one unit of the
    last kept bit above it. *)
Lemma bra_bounds (sx : bool) (m e : Z) (l : location) :
  0 < m -> emin prec emax <= e ->
  let K := Z.max (Zdigits2 m - prec) 0 in
  exists (M2 : positive) (E2 : Z),
    e <= E2
    /\ m / 2 ^ K * 2 ^ K <= Zpos M2 * 2 ^ (E2 - e) <= (m / 2 ^ K + 1) * 2 ^ K
    /\ binary_round_aux prec emax sx m e l
       = if E2 <=? emax - prec then S754_finite sx M2 E2
         else S754_infinity sx.
Proof.
  intros Hm He K.
  destruct (Zdigits2_bounds m Hm) as (Hd & Hlo & Hhi).
  unfold binary_round_aux, shr_fexp.
  set (k1 := fexp prec emax (Zdigits2 m + e) - e).
  assert (EK : Z.max k1 0 = K) by (unfold k1, K, SpecFloat.fexp; lia).
  pose proof (shr_general (shr_record_of_loc m l) e k1) as H1.
  rewrite shr_record_of_loc_m in H1. specialize (H1 ltac:(lia)).
  destruct (shr (shr_record_of_loc m l) e k1) as [mrs e1].
  cbn [fst snd] in H1. destruct H1 as [Hm1 He1]. rewrite EK in Hm1, He1.
  assert (HK : 0 <= K) by (unfold K; lia).
  assert (HpK : 0 < 2 ^ K) by (apply Z.pow_pos_nonneg; lia).
  (* the truncated mantissa has between one and [prec] digits *)
  assert (Hq : 1 <= m / 2 ^ K < 2 ^ prec).
  { split.
    - apply Z.div_le_lower_bound; [lia|].
      assert (2 ^ K <= 2 ^ (Zdigits2 m - 1))
        by (apply Z.pow_le_mono_r; unfold K; lia).
      lia.
    - apply Z.div_lt_upper_bound; [lia|].
      rewrite <- Z.pow_add_r by lia.
      assert (2 ^ Zdigits2 m <= 2 ^ (K + prec))
        by (apply Z.pow_le_mono_r; unfold K; lia).
      lia. }
  pose proof (round_nearest_even_bounds (shr_m mrs) (loc_of_shr_record mrs))
    as Hr.
  set (M1 := round_nearest_even (shr_m mrs) (loc_of_shr_record mrs)) in *.
  clearbody M1. rewrite Hm1 in Hr.
  assert (HM1 : 1 <= M1 <= 2 ^ prec) by lia.
  set (k2 := fexp prec emax (Zdigits2 M1 + e1) - e1).
  pose proof (shr_general (shr_record_of_loc M1 loc_Exact) e1 k2) as H2.
  rewrite shr_record_of_loc_m in H2. specialize (H2 ltac:(lia)).
  destruct (shr (shr_record_of_loc M1 loc_Exact) e1 k2) as [mrs2 e2].
  cbn [fst snd] in H2. destruct H2 as [Hm2 He2].
  destruct (Zdigits2_bounds M1 ltac:(lia)) as (Hd1 & Hlo1 & Hhi1).
  assert (Hpp : 0 < 2 ^ (prec - 1)) by (apply Z.pow_pos_nonneg; lia).
  assert (Hp2 : 2 ^ prec = 2 * 2 ^ (prec - 1)).
  { rewrite <- Z.pow_succ_r by lia. f_equal. lia. }
  assert (Hcase : (Z.max k2 0 = 0 /\ M1 < 2 ^ prec)
                  \/ (Z.max k2 0 = 1 /\ M1 = 2 ^ prec)).
  { destruct (Z_lt_dec M1 (2 ^ prec)) as [Hlt|Hge].
    - left. split; [|exact Hlt].
      assert (Zdigits2 M1 <= prec).
      { destruct (Z_le_dec (Zdigits2 M1) prec); [assumption|].
        assert (2 ^ prec <= 2 ^ (Zdigits2 M1 - 1))
          by (apply Z.pow_le_mono_r; lia).
        lia. }
      unfold k2, SpecFloat.fexp. lia.
    - right. assert (EM : M1 = 2 ^ prec) by lia. split; [|exact EM].
      assert (Zdigits2 M1 = prec + 1).
      { assert (Hlt : 2 ^ prec < 2 ^ Zdigits2 M1) by lia.
        apply pow2_lt_exp in Hlt; [|lia].
        assert (Zdigits2 M1 - 1 <= prec).
        { destruct (Z_le_dec (Zdigits2 M1 - 1) prec); [assumption|].
          assert (2 ^ (prec + 1) <= 2 ^ (Zdigits2 M1 - 1))
            by (apply Z.pow_le_mono_r; lia).
          assert (2 ^ (prec + 1) = 2 * 2 ^ prec)
            by (rewrite Z.pow_add_r by lia; lia).
          lia. }
        lia. }
      unfold k2, SpecFloat.fexp. lia. }
  assert (Hval : shr_m mrs2 * 2 ^ (e2 - e) = M1 * 2 ^ K /\ 1 <= shr_m mrs2).
  { destruct Hcase as [[EK2 Hlt]|[EK2 EM]]; rewrite EK2 in Hm2, He2.
    - rewrite Z.pow_0_r, Z.div_1_r in Hm2. rewrite Hm2.
      split; [|lia]. do 2 f_equal. lia.
    - assert (Ehalf : M1 / 2 ^ 1 = 2 ^ (prec - 1)).
      { rewrite EM. rewrite <- Z.pow_sub_r by lia. reflexivity. }
      rewrite Hm2, Ehalf. split; [|lia].
      replace (e2 - e) with (Z.succ K) by lia.
      rewrite Z.pow_succ_r by lia. rewrite EM, Hp2. ring. }
  destruct Hval as [Hval Hpos].
  destruct (shr_m mrs2) as [|p|p] eqn:Em2; try lia.
  exists p, e2. split; [destruct Hcase as [[EK2 _]|[EK2 _]]; lia|].
  split; [|reflexivity].
  rewrite Hval. split; apply Z.mul_le_mono_nonneg_r; lia.
Qed.

(** A number with at most [prec] significant bits above the subnormal grid
    rounds to itself. *)
Lemma rnd_exact (lo a j : Z) :
  0 < a < 2 ^ prec -> 0 <= j -> lo <= j ->
  rnd prec lo (a * 2 ^ j) = a * 2 ^ j.
Proof.
  intros Ha Hj Hlo. unfold rnd. cbv zeta.
  rewrite Z.log2_mul_pow2 by lia.
  assert (Hlog : Z.log2 a < prec) by (apply Z.log2_lt_pow2; lia).
  set (k := Z.max (j + Z.log2 a + 1 - prec) lo).
  destruct (Z.leb_spec k 0); [reflexivity|].
  replace (a * 2 ^ j) with (a * 2 ^ (j - k) * 2 ^ k) at 1
    by (rewrite <- Z.mul_assoc, <- Z.pow_add_r by (unfold k in *; lia);
        do 2 f_equal; lia).
  rewrite rne_exact by lia.
  rewrite <- Z.mul_assoc, <- Z.pow_add_r by (unfold k in *; lia).
  do 2 f_equal. lia.
Qed.
End TightRounding.

Section TightQuotients.
Variables prec emax : Z.
Hypothesis prec_gt_1 : 1 < prec.
Hypothesis emax_roomy : 2 * prec + 1 <= emax.

(** The quotient of two integers of the format is a finite float [s] within
    two units of the last place of the exact quotient:
    [a / D - 2 ulp < s <= a / D + 2 ulp]. *)
Lemma div_tight (a D : Z) :
  0 < a < 2 ^ prec -> 0 < D < 2 ^ prec ->
  let c2 := Z.log2 a - Z.log2 D - prec in
  exists ms es,
    FloatModel.div prec emax (canon prec a) (canon prec D)
    = S754_finite false ms es
    /\ c2 <= es /\ c2 < 0
    /\ a * 2 ^ (- c2) < (Zpos ms * 2 ^ (es - c2) + 2) * D
    /\ Zpos ms * 2 ^ (es - c2) * D <= a * 2 ^ (- c2) + 2 * D.
Proof.
  intros Ha HD c2.
  assert (Hp : 0 < prec) by lia. assert (He2 : 2 <= emax) by lia.
  destruct (canon_mantissa prec emax Hp He2 a Ha) as (HA & HtA).
  destruct (canon_mantissa prec emax Hp He2 D HD) as (HB & HtB).
  unfold FloatModel.div, SFdiv, canon. cbn [xorb].
  set (ea := Z.log2 a + 1 - prec) in *.
  set (ed := Z.log2 D + 1 - prec) in *.
  replace (prec - (Z.log2 a + 1)) with (- ea) in * by (unfold ea; lia).
  replace (prec - (Z.log2 D + 1)) with (- ed) in * by (unfold ed; lia).
  set (A := a * 2 ^ (- ea)) in *. set (B := D * 2 ^ (- ed)) in *.
  assert (Hp1 : 0 < 2 ^ (prec - 1)) by (apply Z.pow_pos_nonneg; lia).
  assert (Hpp : 2 ^ prec = 2 * 2 ^ (prec - 1)).
  { rewrite <- Z.pow_succ_r by lia. f_equal. lia. }
  rewrite !Z2Pos.id by lia.
  unfold SFdiv_core_binary.
  assert (EdA : Zdigits2 A = prec).
  { replace A with (A * 2 ^ 0) by (rewrite Z.pow_0_r; lia).
    rewrite (Zdigits2_normal prec Hp) by lia. lia. }
  assert (EdB : Zdigits2 B = prec).
  { replace B with (B * 2 ^ 0) by (rewrite Z.pow_0_r; lia).
    rewrite (Zdigits2_normal prec Hp) by lia. lia. }
  rewrite EdA, EdB.
  assert (Ee' : Z.min (fexp prec emax (prec + ea - (prec + ed))) (ea - ed)
                = c2).
  { unfold SpecFloat.fexp, emin, c2, ea, ed in *. lia. }
  rewrite Ee'.
  assert (Hc2 : c2 < 0) by (unfold c2, ea, ed in *; lia).
  assert (Hemin : emin prec emax <= c2)
    by (unfold emin, c2, ea, ed in *; lia).
  replace (ea - ed - c2) with prec by (unfold c2, ea, ed; lia).
  set (m' := match prec with
             | Z.pos _ => Z.shiftl A prec | 0 => A | Z.neg _ => 0 end).
  assert (Em' : m' = A * 2 ^ prec).
  { unfold m'. destruct prec as [|p|p]; [lia| |lia].
    apply Z.shiftl_mul_pow2. lia. }
  pose proof (Z_div_mod m' B ltac:(lia)) as Hdiv.
  destruct (Z.div_eucl m' B) as [q r]. destruct Hdiv as [Eq Hr].
  assert (Hq : 0 < q < 2 * 2 ^ prec) by nia.
  pose proof (bra_bounds prec emax Hp false q c2 (new_location B r)
                ltac:(lia) Hemin) as Hbra.
  cbv zeta in Hbra.
  destruct Hbra as (M2 & E2 & HE2 & [Hlow Hhigh] & Hres).
  destruct (Zdigits2_bounds q ltac:(lia)) as (Hdq & Hqlo & Hqhi).
  assert (HK : 0 <= Z.max (Zdigits2 q - prec) 0 <= 1).
  { split; [lia|].
    assert (Hlt : 2 ^ (Zdigits2 q - 1) < 2 ^ (prec + 1))
      by (rewrite Z.pow_add_r by lia; change (2 ^ 1) with 2; lia).
    apply pow2_lt_exp in Hlt; lia. }
  set (K := Z.max (Zdigits2 q - prec) 0) in *.
  assert (HpK : 1 <= 2 ^ K <= 2).
  { assert (EK : K = 0 \/ K = 1) by lia.
    destruct EK as [-> | ->]; cbn; lia. }
  pose proof (Z.mul_div_le q (2 ^ K) ltac:(lia)) as Hdle.
  pose proof (Z.mod_pos_bound q (2 ^ K) ltac:(lia)) as Hmod.
  pose proof (Z.div_mod q (2 ^ K) ltac:(lia)) as Hdm.
  assert (Hlow' : q - 1 <= Zpos M2 * 2 ^ (E2 - c2)) by lia.
  assert (Hhigh' : Zpos M2 * 2 ^ (E2 - c2) <= q + 2) by nia.
  (* the result does not overflow *)
  assert (HE : E2 <= emax - prec).
  { assert (H2 : 2 ^ (E2 - c2) < 2 ^ (prec + 2)).
    { assert (0 < 2 ^ (E2 - c2)) by (apply Z.pow_pos_nonneg; lia).
      assert (2 ^ (prec + 2) = 4 * 2 ^ prec)
        by (rewrite Z.pow_add_r by lia; change (2 ^ 2) with 4; lia).
      nia. }
    apply pow2_lt_exp in H2; [|lia].
    unfold c2, ea, ed in *. lia. }
  destruct (Z.leb_spec E2 (emax - prec)); [|lia].
  exists M2, E2. split; [exact Hres|]. split; [exact HE2|].
  split; [exact Hc2|].
  (* [q] is the integer quotient of [a * 2^(-c2)] by [D] *)
  assert (Hed : 0 < 2 ^ (- ed)) by (apply Z.pow_pos_nonneg; lia).
  assert (Escale : A * 2 ^ prec = a * 2 ^ (- c2) * 2 ^ (- ed)).
  { unfold A. rewrite <- !Z.mul_assoc, <- !Z.pow_add_r by lia.
    do 2 f_equal. unfold c2, ea, ed. lia. }
  assert (HqD : q * D <= a * 2 ^ (- c2) < (q + 1) * D).
  { rewrite Em', Escale in Eq. unfold B in Eq, Hr.
    split.
    - apply (Z.mul_le_mono_pos_r _ _ (2 ^ (- ed))); [lia|]. nia.
    - apply (Z.mul_lt_mono_pos_r (2 ^ (- ed))); [lia|]. nia. }
  split; nia.
Qed.
End TightQuotients.

(** With the scale [255.0 / D], the full count [D] gets the entry 255. *)
Lemma lut_entry_full (D : Z) :
  0 < D < 2 ^ F64.prec ->
  lut_entry (F64.div (F64.of_Z 255) (canon F64.prec D)) D = 255.
Proof.
  intro HD.
  assert (Hp : 0 < F64.prec) by reflexivity.
  assert (Hp1 : 1 < F64.prec) by reflexivity.
  assert (He : F64.prec <= F64.emax) by (unfold F64.prec, F64.emax; lia).
  assert (He2 : 2 <= F64.emax) by (unfold F64.emax; lia).
  assert (He3 : 3 <= F64.emax) by (unfold F64.emax; lia).
  assert (Hroomy : 2 * F64.prec + 1 <= F64.emax)
    by (unfold F64.prec, F64.emax; lia).
  assert (Hroom : 10 <= F64.emax - F64.prec)
    by (unfold F64.prec, F64.emax; lia).
  assert (H255 : 0 < 255 < 2 ^ F64.prec) by (rewrite pow2_53; lia).
  destruct (div_tight F64.prec F64.emax Hp1 Hroomy 255 D H255 HD)
    as (ms & es & Es & Hes & Hc2 & Hlow & Hhigh).
  rewrite <- (of_Z_canon F64.prec F64.emax Hp He He2 255 H255) in Es.
  unfold F64.div, F64.of_Z. rewrite Es.
  change (Z.log2 255) with 7 in *.
  set (c2 := 7 - Z.log2 D - F64.prec) in *.
  pose proof (Z.log2_spec D ltac:(lia)) as [HlogL HlogH].
  pose proof (Z.log2_nonneg D) as Hlog0.
  assert (Hpow : 0 < 2 ^ (- c2)) by (apply Z.pow_pos_nonneg; lia).
  assert (Hs : 0 < 2 ^ (es - c2)) by (apply Z.pow_pos_nonneg; lia).
  (* four counts fit below one unit of the scaled quotient *)
  assert (H4D : 4 * D <= 2 ^ (- c2)).
  { replace (- c2) with (Z.succ (Z.log2 D) + 45)
      by (unfold c2, F64.prec; lia).
    rewrite Z.pow_add_r by lia. change (2 ^ 45) with 35184372088832. lia. }
  assert (Hb : Zpos ms * 2 ^ (es - c2) * D <= 2 ^ 10 * 2 ^ (- c2))
    by (change (2 ^ 10) with 1024; lia).
  destruct (entry_value F64.prec F64.emax Hp1 He He3 Hroom D ms es c2
              ltac:(lia) Hes ltac:(lia) Hb) as [HR Ev].
  cbv zeta in HR, Ev.
  unfold lut_entry, F64.mul, F64.of_Z. cbv zeta. rewrite Ev.
  set (c := 1 - F64.prec + c2) in *.
  set (V := D * 2 ^ (F64.prec - 1) * (Zpos ms * 2 ^ (es - c2))) in *.
  assert (Hc : c < 0) by (unfold c, F64.prec; lia).
  assert (Hh : 0 < 2 ^ (- c - 1)) by (apply Z.pow_pos_nonneg; lia).
  assert (Ep : 2 ^ (- c) = 2 * 2 ^ (- c - 1)).
  { rewrite <- Z.pow_succ_r by lia. f_equal. lia. }
  assert (Eh : 2 ^ (- c - 1) = 2 ^ (F64.prec - 2) * 2 ^ (- c2)).
  { rewrite <- Z.pow_add_r by (unfold F64.prec; lia). f_equal.
    unfold c. lia. }
  assert (HV : 509 * 2 ^ (- c - 1) <= V).
  { unfold V. rewrite Eh.
    replace (2 ^ (F64.prec - 1)) with (2 * 2 ^ (F64.prec - 2))
      by (rewrite <- Z.pow_succ_r by (unfold F64.prec; lia); f_equal;
          unfold F64.prec; lia).
    assert (0 < 2 ^ (F64.prec - 2)) by (apply Z.pow_pos_nonneg; unfold F64.prec; lia).
    nia. }
  assert (HRlow : 509 * 2 ^ (- c - 1)
                  <= rnd F64.prec (emin F64.prec F64.emax - c) V).
  { rewrite <- (rnd_exact F64.prec Hp (emin F64.prec F64.emax - c) 509
                 (- c - 1))
      by (try rewrite pow2_53; unfold emin, F64.prec, F64.emax in *; lia).
    apply rnd_mono; [lia | nia | exact HV]. }
  assert (Hge : 255 <= (rnd F64.prec (emin F64.prec F64.emax - c) V
                        + 2 ^ (- c - 1)) / 2 ^ (- c)).
  { apply Z.div_le_lower_bound; lia. }
  destruct (Z.gtb_spec ((rnd F64.prec (emin F64.prec F64.emax - c) V
                         + 2 ^ (- c - 1)) / 2 ^ (- c)) 255); lia.
Qed.

Lemma psum_of_brightest_from (hist : list Z) (k : Z) :
  is_histogram hist -> -1 <= k < 256 ->
  (forall j, k < j < 256 -> get 0 j hist = 0) ->
  psum hist k = total hist.
Proof.
  intros Hh Hk Hzero.
  rewrite <- (psum_last hist 255) by (destruct Hh as [-> _]; lia).
  assert (G : forall n, (n <= Z.to_nat (255 - k))%nat ->
                psum hist (k + Z.of_nat n) = psum hist k).
  { induction n as [|n IH]; intro Hn.
    - f_equal. lia.
    - rewrite psum_step by (destruct Hh as [-> _]; lia).
      replace (k + Z.of_nat (S n) - 1) with (k + Z.of_nat n) by lia.
      rewrite IH by lia. rewrite Hzero by lia. lia. }
  rewrite <- (G (Z.to_nat (255 - k))) by lia. f_equal. lia.
Qed.

Lemma psum_of_brightest (hist : list Z) (k : Z) :
  is_histogram hist -> 0 <= k < 256 ->
  (forall j, k < j < 256 -> get 0 j hist = 0) ->
  psum hist k = total hist.
Proof. intros Hh Hk. apply psum_of_brightest_from; [exact Hh | lia]. Qed.

(** A histogram that counts at least one pixel has a darkest intensity. *)
Lemma darkest_exists (hist : list Z) :
  is_histogram hist -> 0 < total hist ->
  exists k, 0 <= k < 256
            /\ (forall j, 0 <= j < k -> get 0 j hist = 0)
            /\ 0 < get 0 k hist.
Proof.
  intros Hh Htot.
  assert (G : forall n, (n <= 256)%nat ->
            (forall j, 0 <= j < Z.of_nat n -> get 0 j hist = 0)
            \/ exists k, 0 <= k < 256
                 /\ (forall j, 0 <= j < k -> get 0 j hist = 0)
                 /\ 0 < get 0 k hist).
  { induction n as [|n IH]; intro Hn; [left; intros; lia|].
    destruct (IH ltac:(lia)) as [Hz|Hex]; [|right; exact Hex].
    pose proof (hist_entry hist (Z.of_nat n) Hh) as He.
    destruct (Z.eq_dec (get 0 (Z.of_nat n) hist) 0) as [E0|N0].
    - left. intros j Hj.
      destruct (Z.eq_dec j (Z.of_nat n)) as [->|]; [exact E0 | apply Hz; lia].
    - right. exists (Z.of_nat n). split; [lia|]. split; [exact Hz | lia]. }
  destruct (G 256%nat ltac:(lia)) as [Hz|Hex]; [|exact Hex].
  exfalso.
  assert (E : psum hist (-1) = total hist).
  { apply psum_of_brightest_from; [exact Hh | lia |].
    intros j Hj. apply Hz. lia. }
  rewrite psum_first in E. lia.
Qed.

(** X25: on a well-formed 8-bit image whose [width * height] equals its
    data size and which has at least two intensities, [bmp8_equalize] turns
    every pixel of the brightest intensity into 255: the rounding of the
    scale [255.0 / (numPixels - cdfmin)] and of its product with the full
    count never loses the top of the range. *)
Theorem equalize_brightest_to_white (img : t_bmp8) (i j : Z)
    (Hvalid : valid8 img) (Hfill : pixels_fill_buffer img)
    (Hi : 0 <= i < dataSize img) (Hj : 0 <= j < dataSize img)
    (Hbrightest : forall k, 0 <= k < dataSize img ->
                    byte_val (get x00 k (data8 img))
                    <= byte_val (get x00 i (data8 img)))
    (Hother : get x00 j (data8 img) <> get x00 i (data8 img)) :
  get x00 i (data8 (bmp8_equalize img)) = xff.
Proof.
  destruct (bmp8_histogram_spec img Hvalid) as (Hl & Hc & Ht).
  pose proof Hvalid as [Hd _ _ _ _ Hs].
  unfold pixels_fill_buffer in Hfill.
  assert (Hh : is_histogram (bmp8_computeHistogram img)).
  { split; [exact Hl|]. apply (Forall_of_get _ 0). intros v Hv.
    rewrite Hl in Hv. rewrite Hc by lia.
    pose proof (count_byte_bounds v (data8 img)). lia. }
  set (a := get x00 i (data8 img)) in *.
  pose proof (byte_val_range a) as Ha.
  (* every pixel is counted at or below the brightest intensity *)
  assert (Eps : psum (bmp8_computeHistogram img) (byte_val a) = dataSize img).
  { rewrite <- Ht. apply psum_of_brightest; [exact Hh | exact Ha |].
    intros v Hv. rewrite Hc by lia. apply count_byte_none.
    intros c Hin. destruct (In_get x00 c _ Hin) as (k & Hk & <-).
    specialize (Hbrightest k ltac:(lia)). lia. }
  pose proof (find_cdfmin_bounds _ Hh) as Hmin.
  destruct (equalisation_table_cases (bmp8_computeHistogram img)
              (dataSize img) Hh ltac:(lia) ltac:(lia))
    as (lut & Elut & Hlen & Hcases).
  cbv zeta in Hcases.
  set (cdfmin := find_cdfmin (compute_cdf (bmp8_computeHistogram img))) in *.
  assert (Hlt : cdfmin < dataSize img).
  { (* the darkest intensity does not account for every pixel *)
    destruct (darkest_exists _ Hh ltac:(lia)) as (k & Hk & Hzero & Hpos).
    destruct (cdfmin_of_darkest _ k Hh Hk Hzero Hpos) as [Emin _].
    fold cdfmin in Emin. rewrite Emin, Hc by lia. rewrite <- Hd.
    destruct (Z.eq_dec (byte_val a) k) as [Ea|Na].
    - apply (count_byte_not_all _ _ (get x00 j (data8 img))).
      + apply get_In. lia.
      + intro E. apply Hother. apply byte_val_inj. lia.
    - apply (count_byte_not_all _ _ a); [|exact Na].
      apply get_In. lia. }
  destruct Hcases as [[Hge _]|[_ Hgen]]; [lia|].
  rewrite <- Hfill in Elut at 1.
  rewrite (bmp8_equalize_data img lut Elut).
  unfold map_bytes8. cbn [data8 with_data8].
  rewrite (get_map_prefix x00) by lia. fold a.
  rewrite Hgen by lia. rewrite Eps.
  replace (Z.max 0 (dataSize img - cdfmin)) with (dataSize img - cdfmin) by lia.
  rewrite lut_entry_full by (rewrite pow2_53; lia).
  reflexivity.
Qed.

Lemma equalize_brightest_to_white_witness :
  get x00 3 (data8 (bmp8_equalize Sample.img8)) = xff.
Proof.
  apply (equalize_brightest_to_white Sample.img8 3 0 sample_img8_valid
           sample_pixels_fill_buffer).
  - cbn. lia.
  - cbn. lia.
  - intros k Hk. cbn in Hk.
    assert (Hc : k = 0 \/ k = 1 \/ k = 2 \/ k = 3) by lia.
    destruct Hc as [->|[->|[->| ->]]]; vm_compute; discriminate.
  - vm_compute. discriminate.
Defined.
